(** * el_malloc: an explicit-list allocator with boundary tags

    A shallow embedding of [src/proj4-code/el_malloc.c].  The heap is a
    byte-addressed memory on a 64-bit little-endian machine; block headers,
    block footers and the four list sentinels live in that memory, and every
    C function becomes a function in a state-and-failure monad over it.
    [size_t] and pointer arithmetic wrap around modulo 2^64, as the C code
    does. *)

From Stdlib Require Import ZArith List Lia Bool Permutation.
From Stdlib Require String.
Import ListNotations.
Import String.StringSyntax.
Open Scope Z_scope.

(** ** Machine words *)

Definition WORD : Z := 2 ^ 64.

(** [size_t] arithmetic: every sum and difference is reduced modulo 2^64. *)
Definition wrap (x : Z) : Z := x mod WORD.

Definition NULL : Z := 0.

(** ** Constants of el_malloc.h *)

(** Modelled from the spec: the header [el_malloc.h] is not part of the
    sources.  The block header is [{size_t size; char state; next; prev}]
    (32 bytes on LP64), the footer is [{size_t size}] (8 bytes), and
    [EL_BLOCK_OVERHEAD] is their sum, 40, the value the spec and the
    comments of [el_print_stats] give. *)
Definition sizeof_el_blockhead_t : Z := 32.
Definition sizeof_el_blockfoot_t : Z := 8.
Definition EL_BLOCK_OVERHEAD : Z := sizeof_el_blockhead_t + sizeof_el_blockfoot_t.

(** Field offsets inside [el_blockhead_t]. *)
Definition off_size : Z := 0.
Definition off_state : Z := 8.
Definition off_next : Z := 16.
Definition off_prev : Z := 24.

(** Modelled from the spec: the block states of [el_malloc.h], the
    characters printed by [el_print_blocklist] ('a', 'u') and the two
    sentinel states. *)
Definition EL_AVAILABLE : Z := 97.
Definition EL_USED : Z := 117.
Definition EL_BEGIN_BLOCK : Z := 66.
Definition EL_END_BLOCK : Z := 69.
Definition EL_UNINITIALIZED : Z := -1.

(** ** Byte-addressed memory *)

Definition memory := Z -> Z.

Definition byte_at (v i : Z) : Z := (v / 2 ^ (8 * i)) mod 256.

Definition load1 (m : memory) (a : Z) : Z := m a mod 256.

Definition store1 (m : memory) (a v : Z) : memory :=
  fun x => if x =? a then v mod 256 else m x.

(** Little-endian 8-byte load and store. *)
Definition load8 (m : memory) (a : Z) : Z :=
  load1 m a + 2 ^ 8 * load1 m (a + 1) + 2 ^ 16 * load1 m (a + 2)
  + 2 ^ 24 * load1 m (a + 3) + 2 ^ 32 * load1 m (a + 4)
  + 2 ^ 40 * load1 m (a + 5) + 2 ^ 48 * load1 m (a + 6)
  + 2 ^ 56 * load1 m (a + 7).

Definition store8 (m : memory) (a v : Z) : memory :=
  fun x => if (a <=? x) && (x <? a + 8) then byte_at v (x - a) else m x.

(** ** Allocator state *)

(** [el_blocklist_t]: the two sentinel headers [beg_actual] and
    [end_actual] are kept in memory, at the addresses [l_beg] and [l_end]. *)
Record el_blocklist_t := mk_blocklist {
  l_beg : Z;
  l_end : Z;
  l_length : Z;
  l_bytes : Z
}.

(** [el_ctl_t]; [avail] and [used] stand for [*el_ctl.avail] and
    [*el_ctl.used]. *)
Record el_ctl_t := mk_ctl {
  heap_bytes : Z;
  heap_start : Z;
  heap_end : Z;
  avail : el_blocklist_t;
  used : el_blocklist_t
}.

(** The process: memory contents, the mapped regions [(base, length)], and
    the global [el_ctl]. *)
Record world := mk_world {
  mem : memory;
  mapped : list (Z * Z);
  el_ctl : el_ctl_t
}.

(** The two values an [el_blocklist_t *] takes in the program. *)
Inductive list_ptr := AVAIL | USED.

Definition get_list (l : list_ptr) (c : el_ctl_t) : el_blocklist_t :=
  match l with AVAIL => avail c | USED => used c end.

Definition set_list (l : list_ptr) (v : el_blocklist_t) (c : el_ctl_t) : el_ctl_t :=
  match l with
  | AVAIL => mk_ctl (heap_bytes c) (heap_start c) (heap_end c) v (used c)
  | USED => mk_ctl (heap_bytes c) (heap_start c) (heap_end c) (avail c) v
  end.

(** ** The monad: state passing, [None] on a memory fault or on exhausted
    loop fuel *)

Definition M (A : Type) := world -> option (A * world).

Definition ret {A} (x : A) : M A := fun w => Some (x, w).

Definition bind {A B} (c : M A) (f : A -> M B) : M B :=
  fun w => match c w with
           | Some (x, w') => f x w'
           | None => None
           end.

Definition fault {A} : M A := fun _ => None.

Notation "x <- c1 ;; c2" := (bind c1 (fun x => c2))
  (at level 61, c1 at next level, right associativity).
Notation "c1 ;; c2" := (bind c1 (fun _ => c2))
  (at level 61, right associativity).

Definition in_region (a n : Z) (r : Z * Z) : bool :=
  (fst r <=? a) && (a + n <=? fst r + snd r).

Definition valid_access (w : world) (a n : Z) : bool :=
  existsb (in_region a n) (mapped w).

Definition rd8 (a : Z) : M Z :=
  fun w => if valid_access w a 8 then Some (load8 (mem w) a, w) else None.

Definition wr8 (a v : Z) : M unit :=
  fun w => if valid_access w a 8
           then Some (tt, mk_world (store8 (mem w) a v) (mapped w) (el_ctl w))
           else None.

Definition rd1 (a : Z) : M Z :=
  fun w => if valid_access w a 1 then Some (load1 (mem w) a, w) else None.

Definition wr1 (a v : Z) : M unit :=
  fun w => if valid_access w a 1
           then Some (tt, mk_world (store1 (mem w) a v) (mapped w) (el_ctl w))
           else None.

Definition get_ctl : M el_ctl_t := fun w => Some (el_ctl w, w).

Definition put_ctl (c : el_ctl_t) : M unit :=
  fun w => Some (tt, mk_world (mem w) (mapped w) c).

Definition get_blocklist (l : list_ptr) : M el_blocklist_t :=
  c <- get_ctl ;; ret (get_list l c).

Definition put_blocklist (l : list_ptr) (v : el_blocklist_t) : M unit :=
  c <- get_ctl ;; put_ctl (set_list l v c).

(** Accessors for the fields of a header at address [b] and of a footer at
    address [f]. *)
Definition get_size (b : Z) : M Z := rd8 (b + off_size).
Definition set_size (b v : Z) : M unit := wr8 (b + off_size) v.
Definition get_state (b : Z) : M Z := rd1 (b + off_state).
Definition set_state (b v : Z) : M unit := wr1 (b + off_state) v.
Definition get_next (b : Z) : M Z := rd8 (b + off_next).
Definition set_next (b v : Z) : M unit := wr8 (b + off_next) v.
Definition get_prev (b : Z) : M Z := rd8 (b + off_prev).
Definition set_prev (b v : Z) : M unit := wr8 (b + off_prev) v.
Definition get_foot_size (f : Z) : M Z := rd8 f.
Definition set_foot_size (f v : Z) : M unit := wr8 f v.

(** [PTR_PLUS_BYTES] and [PTR_MINUS_BYTES]. *)
Definition PTR_PLUS_BYTES (p off : Z) : Z := wrap (p + off).
Definition PTR_MINUS_BYTES (p off : Z) : Z := wrap (p - off).

(** ** Pointer arithmetic functions *)

Definition el_get_footer (head : Z) : M Z :=
  size <- get_size head ;;
  ret (PTR_PLUS_BYTES head (wrap (sizeof_el_blockhead_t + size))).

Definition el_get_header (foot : Z) : M Z :=
  size <- get_foot_size foot ;;
  ret (PTR_PLUS_BYTES foot (wrap (- (sizeof_el_blockhead_t + size)))).

Definition el_block_above (block : Z) : M Z :=
  size <- get_size block ;;
  let higher_block := PTR_PLUS_BYTES block (wrap (size + EL_BLOCK_OVERHEAD)) in
  c <- get_ctl ;;
  if higher_block >=? heap_end c then ret NULL else ret higher_block.

Definition el_block_below (block : Z) : M Z :=
  c <- get_ctl ;;
  if block =? heap_start c then ret NULL
  else
    let lower_foot := PTR_MINUS_BYTES block sizeof_el_blockfoot_t in
    el_get_header lower_foot.

(** ** Block list operations *)

(** [el_init_blocklist]; [beg_actual] and [end_actual] are the addresses
    of the two sentinel headers embedded in the list structure. *)
Definition el_init_blocklist (l : list_ptr) (beg_actual end_actual : Z) : M unit :=
  set_state beg_actual EL_BEGIN_BLOCK ;;
  set_size beg_actual (wrap EL_UNINITIALIZED) ;;
  set_state end_actual EL_END_BLOCK ;;
  set_size end_actual (wrap EL_UNINITIALIZED) ;;
  set_next beg_actual end_actual ;;
  set_prev beg_actual NULL ;;
  set_next end_actual NULL ;;
  set_prev end_actual beg_actual ;;
  put_blocklist l (mk_blocklist beg_actual end_actual 0 0).

Definition el_add_block_front (l : list_ptr) (block : Z) : M unit :=
  lst <- get_blocklist l ;;
  n <- get_next (l_beg lst) ;;
  set_next block n ;;
  set_prev block (l_beg lst) ;;
  n' <- get_next (l_beg lst) ;;
  set_prev n' block ;;
  set_next (l_beg lst) block ;;
  size <- get_size block ;;
  lst' <- get_blocklist l ;;
  put_blocklist l (mk_blocklist (l_beg lst') (l_end lst')
                     (wrap (l_length lst' + 1))
                     (wrap (l_bytes lst' + wrap (size + EL_BLOCK_OVERHEAD)))).

Definition el_remove_block (l : list_ptr) (block : Z) : M unit :=
  next_block <- get_next block ;;
  prev_block <- get_prev block ;;
  (if next_block =? NULL then ret tt else set_prev next_block prev_block) ;;
  (if prev_block =? NULL then ret tt else set_next prev_block next_block) ;;
  size <- get_size block ;;
  lst <- get_blocklist l ;;
  put_blocklist l (mk_blocklist (l_beg lst) (l_end lst)
                     (wrap (l_length lst - 1))
                     (wrap (l_bytes lst - wrap (size + EL_BLOCK_OVERHEAD)))).

(** ** Allocation *)

(** The [while] loop of [el_find_first_avail]; [fuel] bounds the number of
    iterations. *)
Fixpoint find_loop (fuel : nat) (size current_block : Z) : M Z :=
  match fuel with
  | O => fault
  | S fuel' =>
      lst <- get_blocklist AVAIL ;;
      if current_block =? l_end lst then ret NULL
      else
        bsize <- get_size current_block ;;
        if bsize >=? wrap (size + EL_BLOCK_OVERHEAD) then ret current_block
        else
          nxt <- get_next current_block ;;
          find_loop fuel' size nxt
  end.

Definition el_find_first_avail (fuel : nat) (size : Z) : M Z :=
  lst <- get_blocklist AVAIL ;;
  current_block <- get_next (l_beg lst) ;;
  find_loop fuel size current_block.

Definition el_split_block (block new_size : Z) : M Z :=
  bsize <- get_size block ;;
  if bsize <? wrap (new_size + EL_BLOCK_OVERHEAD) then ret NULL
  else
    let lower_head := block in
    upper_foot <- el_get_footer block ;;
    original_size <- get_size block ;;
    set_size lower_head new_size ;;
    lower_foot <- el_get_footer block ;;
    set_foot_size lower_foot new_size ;;
    upper_head <- el_block_above lower_head ;;
    set_size upper_head (wrap (wrap (original_size - new_size) - EL_BLOCK_OVERHEAD)) ;;
    usize <- get_size upper_head ;;
    set_foot_size upper_foot usize ;;
    ret upper_head.

Definition el_malloc (fuel : nat) (nbytes : Z) : M Z :=
  user_block <- el_find_first_avail fuel nbytes ;;
  if user_block =? NULL then ret NULL
  else
    el_remove_block AVAIL user_block ;;
    remaining_block <- el_split_block user_block nbytes ;;
    el_add_block_front USED user_block ;;
    set_state user_block EL_USED ;;
    (if remaining_block =? NULL then ret tt
     else
       el_add_block_front AVAIL remaining_block ;;
       set_state remaining_block EL_AVAILABLE) ;;
    ret (PTR_PLUS_BYTES user_block sizeof_el_blockhead_t).

(** ** De-allocation *)

Definition el_merge_block_with_above (lower : Z) : M unit :=
  if lower =? NULL then ret tt
  else
    lstate <- get_state lower ;;
    if lstate =? EL_USED then ret tt
    else
      higher <- el_block_above lower ;;
      if higher =? NULL then ret tt
      else
        hstate <- get_state higher ;;
        if hstate =? EL_USED then ret tt
        else
          lsize <- get_size lower ;;
          hsize <- get_size higher ;;
          let new_size := wrap (wrap (lsize + hsize) + EL_BLOCK_OVERHEAD) in
          el_remove_block AVAIL lower ;;
          el_remove_block AVAIL higher ;;
          set_size lower new_size ;;
          foot <- el_get_footer higher ;;
          set_foot_size foot new_size ;;
          el_add_block_front AVAIL lower.

Definition el_free (ptr : Z) : M unit :=
  let user_block := PTR_PLUS_BYTES ptr (wrap (- sizeof_el_blockhead_t)) in
  st <- get_state user_block ;;
  if st =? EL_AVAILABLE then ret tt
  else
    el_remove_block USED user_block ;;
    set_state user_block EL_AVAILABLE ;;
    el_add_block_front AVAIL user_block ;;
    el_merge_block_with_above user_block ;;
    below <- el_block_below user_block ;;
    el_merge_block_with_above below.

(** ** Initialisation *)

(** The addresses of the four sentinel headers inside the global [el_ctl]
    ([avail_actual.beg_actual], ...), fixed when the program is loaded. *)
Record globals := mk_globals {
  avail_beg_actual : Z;
  avail_end_actual : Z;
  used_beg_actual : Z;
  used_end_actual : Z
}.

(** A successful anonymous [mmap] at the requested address: the region
    becomes accessible and reads as zero. *)
Definition mmap (addr len : Z) : M Z :=
  fun w =>
    Some (addr,
          mk_world (fun x => if (addr <=? x) && (x <? addr + len) then 0 else mem w x)
                   ((addr, len) :: mapped w) (el_ctl w)).

(** [el_init], with the two macros [EL_HEAP_START_ADDRESS] and
    [EL_HEAP_INITIAL_SIZE] of the missing header as arguments.  The result
    is the [int] the C function returns. *)
Definition el_init (g : globals) (EL_HEAP_START_ADDRESS EL_HEAP_INITIAL_SIZE : Z) : M Z :=
  heap <- mmap EL_HEAP_START_ADDRESS EL_HEAP_INITIAL_SIZE ;;
  c <- get_ctl ;;
  put_ctl (mk_ctl EL_HEAP_INITIAL_SIZE heap
             (PTR_PLUS_BYTES heap EL_HEAP_INITIAL_SIZE) (avail c) (used c)) ;;
  c <- get_ctl ;;
  if heap_bytes c <? EL_BLOCK_OVERHEAD then ret (-1)
  else
    el_init_blocklist AVAIL (avail_beg_actual g) (avail_end_actual g) ;;
    el_init_blocklist USED (used_beg_actual g) (used_end_actual g) ;;
    c <- get_ctl ;;
    let size := wrap (heap_bytes c - EL_BLOCK_OVERHEAD) in
    let ablock := heap_start c in
    set_size ablock size ;;
    set_state ablock EL_AVAILABLE ;;
    afoot <- el_get_footer ablock ;;
    set_foot_size afoot size ;;
    el_add_block_front AVAIL ablock ;;
    ret 0.

(** The process before [el_init]: [el_ctl = {}], and of the memory only the
    sentinel headers inside [el_ctl] are accessible. *)
Definition empty_blocklist : el_blocklist_t := mk_blocklist 0 0 0 0.

Definition start_world (g : globals) : world :=
  mk_world (fun _ => 0)
           [(avail_beg_actual g, sizeof_el_blockhead_t);
            (avail_end_actual g, sizeof_el_blockhead_t);
            (used_beg_actual g, sizeof_el_blockhead_t);
            (used_end_actual g, sizeof_el_blockhead_t)]
           (mk_ctl 0 0 0 empty_blocklist empty_blocklist).

(** * The abstract view of the heap *)

(** A block as the allocator sees it: header address, size field, state. *)
Definition blk : Type := Z * Z * Z.
Definition baddr (b : blk) : Z := fst (fst b).
Definition bsize (b : blk) : Z := snd (fst b).
Definition bstate (b : blk) : Z := snd b.

(** Address of the footer of a block, and first address past the block. *)
Definition bfoot (b : blk) : Z := baddr b + sizeof_el_blockhead_t + bsize b.
Definition bend (b : blk) : Z := baddr b + bsize b + EL_BLOCK_OVERHEAD.

(** [tiles a T e]: the blocks of [T], in address order, cover [a, e)
    without gap or overlap. *)
Fixpoint tiles (a : Z) (T : list blk) (e : Z) : Prop :=
  match T with
  | [] => a = e
  | b :: T' => baddr b = a /\ 0 <= bsize b /\ tiles (bend b) T' e
  end.

(** The memory holds the header and the footer of block [b]. *)
Definition blk_ok (m : memory) (b : blk) : Prop :=
  load8 m (baddr b + off_size) = bsize b /\
  load1 m (baddr b + off_state) = bstate b /\
  load8 m (bfoot b) = bsize b.

(** [links m x N]: starting at node [x], the nodes of [N] are chained in
    this order by their [next] fields, and back by their [prev] fields. *)
Fixpoint links (m : memory) (x : Z) (N : list Z) : Prop :=
  match N with
  | [] => True
  | y :: N' =>
      load8 m (x + off_next) = y /\ load8 m (y + off_prev) = x /\ links m y N'
  end.

(** What [l_bytes] counts: size plus overhead for every member. *)
Fixpoint lsum (m : memory) (L : list Z) : Z :=
  match L with
  | [] => 0
  | a :: L' => load8 m (a + off_size) + EL_BLOCK_OVERHEAD + lsum m L'
  end.

(** The list structure [l] holds exactly the headers [L], in this order. *)
Definition list_ok (m : memory) (l : el_blocklist_t) (L : list Z) : Prop :=
  links m (l_beg l) (L ++ [l_end l]) /\
  l_length l = wrap (Z.of_nat (List.length L)) /\
  l_bytes l = wrap (lsum m L).

Definition sentinels (c : el_ctl_t) : list Z :=
  [l_beg (avail c); l_end (avail c); l_beg (used c); l_end (used c)].

Definition sep32 (x y : Z) : Prop := x + 32 <= y \/ y + 32 <= x.

(** The geometry set up by [el_init] and never changed afterwards. *)
Record geom (w : world) : Prop := mk_geom {
  geom_start : 0 < heap_start (el_ctl w);
  geom_end : heap_end (el_ctl w) = heap_start (el_ctl w) + heap_bytes (el_ctl w);
  geom_lt : heap_end (el_ctl w) < WORD;
  geom_mapped :
    mapped w = (heap_start (el_ctl w), heap_bytes (el_ctl w))
               :: map (fun s => (s, sizeof_el_blockhead_t)) (sentinels (el_ctl w));
  geom_sent_range :
    Forall (fun s => 0 < s /\ s + 32 <= WORD) (sentinels (el_ctl w));
  geom_sent_heap :
    Forall (fun s => s + 32 <= heap_start (el_ctl w) \/ heap_end (el_ctl w) <= s)
           (sentinels (el_ctl w));
  geom_sent_sep : ForallOrdPairs sep32 (sentinels (el_ctl w))
}.

(** The structural invariant: the blocks [T] tile the heap, the available
    list holds the headers [La] and the used list the headers [Lu], and the
    two lists are disjoint sets of block headers. *)
Record pwf (w : world) (T : list blk) (La Lu : list Z) : Prop := mk_pwf {
  pwf_geom : geom w;
  pwf_tiles : tiles (heap_start (el_ctl w)) T (heap_end (el_ctl w));
  pwf_blocks : Forall (blk_ok (mem w)) T;
  pwf_avail : list_ok (mem w) (avail (el_ctl w)) La;
  pwf_used : list_ok (mem w) (used (el_ctl w)) Lu;
  pwf_nodup : NoDup (La ++ Lu);
  pwf_incl : incl (La ++ Lu) (map baddr T)
}.

(** A block's state matches the list it is linked into. *)
Definition state_ok (La Lu : list Z) (b : blk) : Prop :=
  (bstate b = EL_AVAILABLE /\ In (baddr b) La) \/
  (bstate b = EL_USED /\ In (baddr b) Lu).

(** The invariant between two public operations. *)
Definition wf (w : world) (T : list blk) (La Lu : list Z) : Prop :=
  pwf w T La Lu /\ Forall (state_ok La Lu) T.

(** The headers that take part in the lists: the four sentinels and the
    headers of the blocks. *)
Definition node (w : world) (T : list blk) (x : Z) : Prop :=
  In x (sentinels (el_ctl w)) \/ In x (map baddr T).

(** The last node of the chain [x :: N]. *)
Fixpoint last_node (x : Z) (N : list Z) : Z :=
  match N with
  | [] => x
  | y :: N' => last_node y N'
  end.

(** Distinct headers that do not overlap. *)
Definition apart (N : list Z) : Prop :=
  NoDup N /\ forall x y, In x N -> In y N -> x = y \/ sep32 x y.

(** The nodes of a list, sentinels included, in list order. *)
Definition lnodes (l : el_blocklist_t) (L : list Z) : list Z :=
  l_beg l :: L ++ [l_end l].

(** What no operation after [el_init] changes. *)
Definition same_frame (w w' : world) : Prop :=
  mapped w' = mapped w /\
  heap_bytes (el_ctl w') = heap_bytes (el_ctl w) /\
  heap_start (el_ctl w') = heap_start (el_ctl w) /\
  heap_end (el_ctl w') = heap_end (el_ctl w) /\
  sentinels (el_ctl w') = sentinels (el_ctl w).

(** The list a list pointer selects, and its replacement. *)
Definition lsel (l : list_ptr) (La Lu : list Z) : list Z :=
  match l with AVAIL => La | USED => Lu end.

Definition lset_avail (l : list_ptr) (L La : list Z) : list Z :=
  match l with AVAIL => L | USED => La end.

Definition lset_used (l : list_ptr) (L Lu : list Z) : list Z :=
  match l with AVAIL => Lu | USED => L end.

Definition lother (l : list_ptr) : list_ptr :=
  match l with AVAIL => USED | USED => AVAIL end.

(** The first header of [L], in list order, whose size field is at least
    [need]; [NULL] when there is none. *)
Fixpoint first_fit (m : memory) (need : Z) (L : list Z) : Z :=
  match L with
  | [] => NULL
  | y :: L' => if load8 m (y + off_size) >=? need then y else first_fit m need L'
  end.

(** The physical neighbour on the given side is absent or in use. *)
Definition head_used (T : list blk) : Prop :=
  match T with
  | [] => True
  | b :: _ => bstate b = EL_USED
  end.

Definition last_used (T : list blk) : Prop :=
  T = [] \/ exists T' b, T = T' ++ [b] /\ bstate b = EL_USED.

(** No two physically adjacent blocks are both available. *)
Fixpoint no_adj_avail (T : list blk) : Prop :=
  match T with
  | [] => True
  | b :: T' =>
      match T' with
      | [] => True
      | h :: _ => ~ (bstate b = EL_AVAILABLE /\ bstate h = EL_AVAILABLE)
      end /\ no_adj_avail T'
  end.

(** What the loader and a successful [mmap] guarantee: the four sentinel
    headers are distinct objects inside the address space, and the heap
    region lies inside the address space, away from address 0 and from the
    sentinels. *)
Record layout_ok (g : globals) (start size : Z) : Prop := mk_layout_ok {
  lay_start : 0 < start;
  lay_end : start + size < WORD;
  lay_range : Forall (fun s => 0 < s /\ s + 32 <= WORD)
                     [avail_beg_actual g; avail_end_actual g;
                      used_beg_actual g; used_end_actual g];
  lay_heap : Forall (fun s => s + 32 <= start \/ start + size <= s)
                    [avail_beg_actual g; avail_end_actual g;
                     used_beg_actual g; used_end_actual g];
  lay_sep : ForallOrdPairs sep32
              [avail_beg_actual g; avail_end_actual g;
               used_beg_actual g; used_end_actual g]
}.

(** The memory after [el_init_blocklist] on sentinels [b] and [e]. *)
Definition init_blocklist_mem (m : memory) (b e : Z) : memory :=
  store8 (store8 (store8 (store8
    (store8 (store1 (store8 (store1 m (b + off_state) EL_BEGIN_BLOCK)
                            (b + off_size) (wrap EL_UNINITIALIZED))
                    (e + off_state) EL_END_BLOCK)
            (e + off_size) (wrap EL_UNINITIALIZED))
    (b + off_next) e) (b + off_prev) NULL) (e + off_next) NULL) (e + off_prev) b.

(** Bytes covered by a sequence of blocks, headers and footers included. *)
Fixpoint tsum (T : list blk) : Z :=
  match T with
  | [] => 0
  | b :: T' => bsize b + EL_BLOCK_OVERHEAD + tsum T'
  end.

Definition is_avail (b : blk) : bool := bstate b =? EL_AVAILABLE.
Definition is_used (b : blk) : bool := bstate b =? EL_USED.

(** The first, respectively last, block of a sequence is available. *)
Definition fst_avail (X : list blk) : Prop :=
  match X with
  | [] => False
  | b :: _ => bstate b = EL_AVAILABLE
  end.

Definition lst_avail (X : list blk) : Prop := fst_avail (rev X).

(** The states of the allocator reachable through the public operations,
    together with the pointers handed out and not yet freed.  Requests
    whose size plus overhead does not fit in a [size_t] are left out. *)
Inductive reachable (g : globals) (start size : Z) : world -> list Z -> Prop :=
| reach_init (w : world) :
    el_init g start size (start_world g) = Some (0, w) ->
    reachable g start size w []
| reach_malloc (w : world) (live : list Z) (fuel : nat) (n p : Z) (w' : world) :
    reachable g start size w live ->
    0 <= n -> n + EL_BLOCK_OVERHEAD < WORD ->
    el_malloc fuel n w = Some (p, w') ->
    reachable g start size w' (if p =? NULL then live else p :: live)
| reach_free (w : world) (live : list Z) (p : Z) (w' : world) :
    reachable g start size w live ->
    In p live ->
    el_free p w = Some (tt, w') ->
    reachable g start size w' (remove Z.eq_dec p live).

(** The pointer handed out for a block: the address just past its header. *)
Definition payload (a : Z) : Z := a + sizeof_el_blockhead_t.

(** The invariant of the reachable states: the heap is well formed, no two
    neighbours are both available, and the pointers handed out are the
    payloads of the used blocks. *)
Definition Inv (start size : Z) (w : world) (live : list Z) : Prop :=
  exists T La Lu,
    wf w T La Lu /\ no_adj_avail T /\
    Permutation live (map payload Lu) /\
    heap_bytes (el_ctl w) = size /\ heap_start (el_ctl w) = start.

(** Sum of the size fields of a sequence of blocks. *)
Fixpoint payload_sum (T : list blk) : Z :=
  match T with
  | [] => 0
  | b :: T' => bsize b + payload_sum T'
  end.

(** * A concrete process

    The layout the comments of [el_print_stats] show: a heap of 4096 bytes
    mapped at 0x600000000000.  The sentinel headers sit in the data segment
    ([el_ctl] at 0x404040). *)
Definition demo_globals : globals := mk_globals 4210776 4210808 4210896 4210928.
Definition demo_start : Z := 105553116266496.
Definition demo_size : Z := 4096.

Definition demo_init : M Z := el_init demo_globals demo_start demo_size.

(** What [el_print_stats] shows of the two lists:
    [(avail.length, avail.bytes, used.length, used.bytes)]. *)
Definition counters (w : world) : Z * Z * Z * Z :=
  (l_length (avail (el_ctl w)), l_bytes (avail (el_ctl w)),
   l_length (used (el_ctl w)), l_bytes (used (el_ctl w))).

(** What [el_print_blocklist] shows of the header at [b]:
    [(size, state)]. *)
Definition header_at (w : world) (b : Z) : Z * Z :=
  (load8 (mem w) (b + off_size), load1 (mem w) (b + off_state)).

(** The result of running a program from the start of the process, as the
    value returned together with an observation of the final state. *)
Definition observe {A B : Type} (prog : M A) (f : world -> B) : option (A * B) :=
  match prog (start_world demo_globals) with
  | Some (x, w) => Some (x, f w)
  | None => None
  end.

(** The order in which the available list links its members. *)
Fixpoint walk (m : memory) (fuel : nat) (x stop : Z) : list Z :=
  match fuel with
  | O => []
  | S fuel' =>
      let y := load8 m (x + off_next) in
      if y =? stop then [] else y :: walk m fuel' y stop
  end.

Definition avail_members (w : world) : list Z :=
  walk (mem w) 16 (l_beg (avail (el_ctl w))) (l_end (avail (el_ctl w))).

(** The state of the concrete process right after [el_init]. *)
Definition demo_world : world :=
  match demo_init (start_world demo_globals) with
  | Some (_, w) => w
  | None => start_world demo_globals
  end.

(** The concrete process after [el_init] and four calls [el_malloc(8)]. *)
Definition demo_four : world :=
  match (el_malloc 2 8 ;; el_malloc 2 8 ;; el_malloc 2 8 ;; el_malloc 2 8) demo_world with
  | Some (_, w) => w
  | None => demo_world
  end.


(** The concrete process after [el_init], one [el_malloc(100)] and the
    [el_free] of the pointer it returned. *)
Definition demo_cycle : world :=
  match (p <- el_malloc 2 100 ;; el_free p) demo_world with
  | Some (_, w) => w
  | None => demo_world
  end.

(** The concrete process after [el_init] and one [el_malloc(100)]. *)
Definition demo_one : world :=
  match el_malloc 2 100 demo_world with
  | Some (_, w) => w
  | None => demo_world
  end.


(** [x] is outside the [k] bytes at [a]. *)
Definition outside (x a k : Z) : Prop := x < a \/ a + k <= x.

(** [x] is in the payload of block [b]: past its header, before its
    footer. *)
Definition in_payload (b : blk) (x : Z) : Prop :=
  baddr b + sizeof_el_blockhead_t <= x < bfoot b.

(** [x] is in the [next] or [prev] field of no list node. *)
Definition off_links (w : world) (T : list blk) (x : Z) : Prop :=
  forall y, node w T y -> outside x (y + off_next) 16.

(** Running [c] from [w] leaves the byte at [x] as it is. *)
Definition keeps (x : Z) {A : Type} (c : M A) (w : world) : Prop :=
  forall r w', c w = Some (r, w') -> mem w' x = mem w x.


(** ** Cleaning up *)

(** The parts of a mapped region that [munmap] of [addr, addr + len)
    leaves accessible. *)
Definition cut_region (addr len : Z) (r : Z * Z) : list (Z * Z) :=
  let b := fst r in
  let e := fst r + snd r in
  if (e <=? addr) || (addr + len <=? b) then [r]
  else (if b <? addr then [(b, addr - b)] else [])
       ++ (if addr + len <? e then [(addr + len, e - (addr + len))] else []).

(** A successful [munmap]: the bytes of the range are no longer
    accessible. *)
Definition munmap (addr len : Z) : M Z :=
  fun w =>
    Some (0, mk_world (mem w) (flat_map (cut_region addr len) (mapped w)) (el_ctl w)).

Definition el_cleanup : M unit :=
  c <- get_ctl ;;
  munmap (heap_start c) (heap_bytes c) ;;
  c <- get_ctl ;;
  put_ctl (mk_ctl (heap_bytes c) NULL (heap_end c) (avail c) (used c)) ;;
  c <- get_ctl ;;
  put_ctl (mk_ctl (heap_bytes c) (heap_start c) NULL (avail c) (used c)).

(** The four sentinel addresses of the loaded program, in the order of
    [sentinels]. *)
Definition global_sentinels (g : globals) : list Z :=
  [avail_beg_actual g; avail_end_actual g; used_beg_actual g; used_end_actual g].

(** 1 when the block, if there is one, is available; 0 otherwise. *)
Definition avail_count (o : option blk) : Z :=
  match o with
  | Some b => if is_avail b then 1 else 0
  | None => 0
  end.



(** ** Printing *)

(** A call of [printf]: the format as the source writes it, and the
    arguments ([%p], [%lu], [%d] and [%c] arguments as integers).  The
    printing functions return the calls they make, in order. *)
Bind Scope string_scope with String.string.

Inductive printf_arg :=
| arg_int (v : Z)
| arg_str (s : String.string).

Inductive printf_call :=
| printf (fmt : String.string) (args : list printf_arg).

Definition INT_MAX : Z := 2147483647.

(** The loop of [el_print_blocklist] from the test [i < list->length] on.
    The counter [i] is an [int]: incrementing it at [INT_MAX] is undefined,
    the model faults there. *)
Fixpoint print_loop (fuel : nat) (l : list_ptr) (i block : Z) : M (list printf_call) :=
  match fuel with
  | O => fault
  | S fuel' =>
      v <- get_blocklist l ;;
      if i <? l_length v then
        block <- get_next block ;;
        state <- get_state block ;;
        size <- get_size block ;;
        foot <- el_get_footer block ;;
        foot_size <- get_foot_size foot ;;
        if i =? INT_MAX then fault
        else
          rest <- print_loop fuel' l (i + 1) block ;;
          ret ([printf "  " [];
                printf "[%3d] head @ %p " [arg_int i; arg_int block];
                printf "{state: %c  size: %5lu}\n" [arg_int state; arg_int size];
                printf "%6s" [arg_str String.EmptyString];
                printf "  foot @ %p " [arg_int foot];
                printf "{size: %5lu}" [arg_int foot_size];
                printf "\n" []] ++ rest)
      else ret []
  end.

Definition el_print_blocklist (fuel : nat) (l : list_ptr) : M (list printf_call) :=
  v <- get_blocklist l ;;
  rest <- print_loop fuel l 0 (l_beg v) ;;
  ret (printf "{length: %3lu  bytes: %5lu}\n" [arg_int (l_length v); arg_int (l_bytes v)]
       :: rest).

Definition el_print_stats (fuel : nat) : M (list printf_call) :=
  c <- get_ctl ;;
  a <- el_print_blocklist fuel AVAIL ;;
  u <- el_print_blocklist fuel USED ;;
  ret ([printf "HEAP STATS (overhead per node: %lu)\n" [arg_int EL_BLOCK_OVERHEAD];
        printf "heap_start:  %p\n" [arg_int (heap_start c)];
        printf "heap_end:    %p\n" [arg_int (heap_end c)];
        printf "total_bytes: %lu\n" [arg_int (heap_bytes c)];
        printf "AVAILABLE LIST: " []]
       ++ a ++ [printf "USED LIST: " []] ++ u).

(** What a listing of the blocks [B] looks like: the lines of the
    members, numbered from [i], and the whole listing with its first
    line. *)
Fixpoint block_lines (i : Z) (B : list blk) : list printf_call :=
  match B with
  | [] => []
  | b :: B' =>
      [printf "  " [];
       printf "[%3d] head @ %p " [arg_int i; arg_int (baddr b)];
       printf "{state: %c  size: %5lu}\n" [arg_int (bstate b); arg_int (bsize b)];
       printf "%6s" [arg_str String.EmptyString];
       printf "  foot @ %p " [arg_int (bfoot b)];
       printf "{size: %5lu}" [arg_int (bsize b)];
       printf "\n" []] ++ block_lines (i + 1) B'
  end.

Definition listing (B : list blk) : list printf_call :=
  printf "{length: %3lu  bytes: %5lu}\n"
         [arg_int (Z.of_nat (List.length B)); arg_int (tsum B)]
  :: block_lines 0 B.

(** The blocks a list is to hold. *)
Definition lblocks (l : list_ptr) (T : list blk) : list blk :=
  match l with AVAIL => filter is_avail T | USED => filter is_used T end.

(** * Properties *)

(** ** Modular arithmetic *)

Lemma WORD_eq : WORD = 18446744073709551616.
Proof. reflexivity. Qed.

Lemma wrap_small (x : Z) : 0 <= x < WORD -> wrap x = x.
Proof. intros H. unfold wrap. apply Z.mod_small. exact H. Qed.

Lemma wrap_range (x : Z) : 0 <= wrap x < WORD.
Proof. unfold wrap. apply Z.mod_pos_bound. reflexivity. Qed.

Lemma wrap_wrap (x : Z) : wrap (wrap x) = wrap x.
Proof. unfold wrap. apply Z.mod_mod. discriminate. Qed.

Lemma wrap_add_l (a b : Z) : wrap (wrap a + b) = wrap (a + b).
Proof. unfold wrap. apply Zplus_mod_idemp_l. Qed.

Lemma wrap_add_r (a b : Z) : wrap (a + wrap b) = wrap (a + b).
Proof. unfold wrap. apply Zplus_mod_idemp_r. Qed.

Lemma wrap_sub_l (a b : Z) : wrap (wrap a - b) = wrap (a - b).
Proof. unfold wrap. apply Zminus_mod_idemp_l. Qed.

Lemma wrap_sub_r (a b : Z) : wrap (a - wrap b) = wrap (a - b).
Proof. unfold wrap. apply Zminus_mod_idemp_r. Qed.

Ltac unwrap :=
  repeat match goal with
         | |- context [wrap ?x] => rewrite (wrap_small x) by lia
         end.

Ltac unwrap_in H :=
  repeat match type of H with
         | context [wrap ?x] => rewrite (wrap_small x) in H by lia
         end.

(** ** Loads and stores *)

Lemma load1_range (m : memory) (a : Z) : 0 <= load1 m a < 256.
Proof. unfold load1. apply Z.mod_pos_bound. reflexivity. Qed.

Lemma load8_range (m : memory) (a : Z) : 0 <= load8 m a < WORD.
Proof.
  unfold load8. rewrite WORD_eq.
  pose proof (load1_range m a). pose proof (load1_range m (a + 1)).
  pose proof (load1_range m (a + 2)). pose proof (load1_range m (a + 3)).
  pose proof (load1_range m (a + 4)). pose proof (load1_range m (a + 5)).
  pose proof (load1_range m (a + 6)). pose proof (load1_range m (a + 7)).
  change (2 ^ 8) with 256. change (2 ^ 16) with 65536.
  change (2 ^ 24) with 16777216. change (2 ^ 32) with 4294967296.
  change (2 ^ 40) with 1099511627776. change (2 ^ 48) with 281474976710656.
  change (2 ^ 56) with 72057594037927936.
  lia.
Qed.

Lemma load1_store8_in (m : memory) (a v i : Z) :
  0 <= i < 8 -> load1 (store8 m a v) (a + i) = byte_at v i.
Proof.
  intros Hi. unfold load1, store8.
  replace ((a <=? a + i) && (a + i <? a + 8)) with true
    by (symmetry; apply andb_true_iff; split; [apply Z.leb_le | apply Z.ltb_lt]; lia).
  replace (a + i - a) with i by lia.
  unfold byte_at. apply Z.mod_mod. discriminate.
Qed.

Lemma load1_store8_other (m : memory) (a v b : Z) :
  b < a \/ a + 8 <= b -> load1 (store8 m a v) b = load1 m b.
Proof.
  intros Hb. unfold load1, store8.
  replace ((a <=? b) && (b <? a + 8)) with false; [reflexivity|].
  symmetry. apply andb_false_iff.
  destruct Hb; [left; apply Z.leb_gt | right; apply Z.ltb_ge]; lia.
Qed.

Lemma bytes_of_word (v : Z) :
  byte_at v 0 + 2 ^ 8 * byte_at v 1 + 2 ^ 16 * byte_at v 2
  + 2 ^ 24 * byte_at v 3 + 2 ^ 32 * byte_at v 4
  + 2 ^ 40 * byte_at v 5 + 2 ^ 48 * byte_at v 6
  + 2 ^ 56 * byte_at v 7 = wrap v.
Proof.
  unfold byte_at, wrap. rewrite WORD_eq.
  change (8 * 0) with 0. change (8 * 1) with 8. change (8 * 2) with 16.
  change (8 * 3) with 24. change (8 * 4) with 32. change (8 * 5) with 40.
  change (8 * 6) with 48. change (8 * 7) with 56.
  change (2 ^ 0) with 1. change (2 ^ 8) with 256. change (2 ^ 16) with 65536.
  change (2 ^ 24) with 16777216. change (2 ^ 32) with 4294967296.
  change (2 ^ 40) with 1099511627776. change (2 ^ 48) with 281474976710656.
  change (2 ^ 56) with 72057594037927936.
  pose proof (Z.div_mod v 1 ltac:(discriminate)) as E0.
  pose proof (Z.mod_pos_bound (v / 1) 256 ltac:(reflexivity)) as B0.
  pose proof (Z.mod_pos_bound (v / 256) 256 ltac:(reflexivity)) as B1.
  pose proof (Z.mod_pos_bound (v / 65536) 256 ltac:(reflexivity)) as B2.
  pose proof (Z.mod_pos_bound (v / 16777216) 256 ltac:(reflexivity)) as B3.
  pose proof (Z.mod_pos_bound (v / 4294967296) 256 ltac:(reflexivity)) as B4.
  pose proof (Z.mod_pos_bound (v / 1099511627776) 256 ltac:(reflexivity)) as B5.
  pose proof (Z.mod_pos_bound (v / 281474976710656) 256 ltac:(reflexivity)) as B6.
  pose proof (Z.mod_pos_bound (v / 72057594037927936) 256 ltac:(reflexivity)) as B7.
  pose proof (Z.div_mod (v / 1) 256 ltac:(discriminate)) as D0.
  pose proof (Z.div_mod (v / 256) 256 ltac:(discriminate)) as D1.
  pose proof (Z.div_mod (v / 65536) 256 ltac:(discriminate)) as D2.
  pose proof (Z.div_mod (v / 16777216) 256 ltac:(discriminate)) as D3.
  pose proof (Z.div_mod (v / 4294967296) 256 ltac:(discriminate)) as D4.
  pose proof (Z.div_mod (v / 1099511627776) 256 ltac:(discriminate)) as D5.
  pose proof (Z.div_mod (v / 281474976710656) 256 ltac:(discriminate)) as D6.
  pose proof (Z.div_mod (v / 72057594037927936) 256 ltac:(discriminate)) as D7.
  rewrite Z.div_div in D0, D1, D2, D3, D4, D5, D6, D7 by lia.
  change (1 * 256) with 256 in D0. change (256 * 256) with 65536 in D1.
  change (65536 * 256) with 16777216 in D2.
  change (16777216 * 256) with 4294967296 in D3.
  change (4294967296 * 256) with 1099511627776 in D4.
  change (1099511627776 * 256) with 281474976710656 in D5.
  change (281474976710656 * 256) with 72057594037927936 in D6.
  change (72057594037927936 * 256) with 18446744073709551616 in D7.
  rewrite Z.mod_1_r in E0.
  apply Z.mod_unique_pos with (q := v / 18446744073709551616); lia.
Qed.

Lemma load8_store8_same (m : memory) (a v : Z) :
  load8 (store8 m a v) a = wrap v.
Proof.
  unfold load8.
  replace a with (a + 0) at 2 by lia.
  rewrite !load1_store8_in by lia.
  apply bytes_of_word.
Qed.

Lemma load8_store8_other (m : memory) (a v b : Z) :
  a + 8 <= b \/ b + 8 <= a -> load8 (store8 m a v) b = load8 m b.
Proof.
  intros Hb. unfold load8. rewrite !load1_store8_other by lia. reflexivity.
Qed.

Lemma load1_store1_same (m : memory) (a v : Z) :
  load1 (store1 m a v) a = v mod 256.
Proof.
  unfold load1, store1. rewrite Z.eqb_refl. apply Z.mod_mod. discriminate.
Qed.

Lemma load1_store1_other (m : memory) (a v b : Z) :
  a <> b -> load1 (store1 m a v) b = load1 m b.
Proof.
  intros Hb. unfold load1, store1.
  destruct (Z.eqb_spec b a); [congruence | reflexivity].
Qed.

Lemma load8_store1_other (m : memory) (a v b : Z) :
  a < b \/ b + 8 <= a -> load8 (store1 m a v) b = load8 m b.
Proof.
  intros Hb. unfold load8. rewrite !load1_store1_other by lia. reflexivity.
Qed.

(** ** Tilings *)

Ltac consts :=
  unfold bend, bfoot, baddr, bsize, bstate, EL_BLOCK_OVERHEAD,
    sizeof_el_blockhead_t, sizeof_el_blockfoot_t,
    off_size, off_state, off_next, off_prev, NULL in *;
  simpl fst in *; simpl snd in *; change (32 + 8) with 40 in *.

Lemma tiles_app (T1 T2 : list blk) (a e : Z) :
  tiles a (T1 ++ T2) e <-> exists mid, tiles a T1 mid /\ tiles mid T2 e.
Proof.
  revert a. induction T1 as [|b T1 IH]; intros a; simpl.
  - split.
    + intros H. exists a. split; [reflexivity | exact H].
    + intros [mid [-> H]]. exact H.
  - split.
    + intros (Ha & Hs & H). apply IH in H. destruct H as [mid [H1 H2]].
      exists mid. repeat split; assumption.
    + intros [mid [(Ha & Hs & H1) H2]]. repeat split; try assumption.
      apply IH. exists mid. split; assumption.
Qed.

Lemma tiles_le (T : list blk) (a e : Z) : tiles a T e -> a <= e.
Proof.
  revert a. induction T as [|b T IH]; intros a; simpl.
  - intros ->. lia.
  - intros (Ha & Hs & H). apply IH in H. consts. lia.
Qed.

Lemma tiles_In (T : list blk) (a e : Z) (b : blk) :
  tiles a T e -> In b T -> a <= baddr b /\ 0 <= bsize b /\ bend b <= e.
Proof.
  revert a. induction T as [|b0 T IH]; intros a; simpl; [tauto|].
  intros (Ha & Hs & H) [-> | Hin].
  - apply tiles_le in H. lia.
  - destruct (IH _ H Hin) as (H1 & H2 & H3). consts. lia.
Qed.

Lemma tiles_sep (T : list blk) (a e : Z) (b1 b2 : blk) :
  tiles a T e -> In b1 T -> In b2 T ->
  b1 = b2 \/ bend b1 <= baddr b2 \/ bend b2 <= baddr b1.
Proof.
  revert a. induction T as [|b0 T IH]; intros a; simpl; [tauto|].
  intros (Ha & Hs & H) [-> | H1] [-> | H2].
  - left; reflexivity.
  - right; left. destruct (tiles_In _ _ _ _ H H2). lia.
  - right; right. destruct (tiles_In _ _ _ _ H H1). lia.
  - eapply IH; eassumption.
Qed.

Lemma tiles_split (T1 T2 : list blk) (b : blk) (a e : Z) :
  tiles a (T1 ++ b :: T2) e ->
  tiles a T1 (baddr b) /\ 0 <= bsize b /\ tiles (bend b) T2 e.
Proof.
  intros H. apply tiles_app in H. destruct H as [mid [H1 H2]].
  simpl in H2. destruct H2 as (Ha & Hs & H2). subst mid. auto.
Qed.

Lemma tiles_join (T1 T2 : list blk) (b : blk) (a e : Z) :
  tiles a T1 (baddr b) -> 0 <= bsize b -> tiles (bend b) T2 e ->
  tiles a (T1 ++ b :: T2) e.
Proof.
  intros H1 Hs H2. apply tiles_app. exists (baddr b). simpl. auto.
Qed.

(** ** Nodes are apart from each other *)

Lemma sep32_sym (x y : Z) : sep32 x y -> sep32 y x.
Proof. unfold sep32. lia. Qed.

Lemma pairs_sep (N : list Z) (x y : Z) :
  ForallOrdPairs sep32 N -> In x N -> In y N -> x = y \/ sep32 x y.
Proof.
  intros H Hx Hy.
  destruct (ForallOrdPairs_In H x y Hx Hy) as [E | [S | S]]; auto.
  right. apply sep32_sym. exact S.
Qed.

Lemma pairs_NoDup (N : list Z) : ForallOrdPairs sep32 N -> NoDup N.
Proof.
  induction 1 as [|x N Hx _ IH]; constructor; [|exact IH].
  intros Hin. rewrite Forall_forall in Hx. specialize (Hx x Hin).
  unfold sep32 in Hx. lia.
Qed.

Lemma pairs_intro (N : list Z) :
  NoDup N -> (forall x y, In x N -> In y N -> x = y \/ sep32 x y) ->
  ForallOrdPairs sep32 N.
Proof.
  induction 1 as [|x N Hx _ IH]; intros Hsep; constructor.
  - apply Forall_forall. intros y Hy.
    destruct (Hsep x y (or_introl eq_refl) (or_intror Hy)) as [E | S]; [|exact S].
    subst y. contradiction.
  - apply IH. intros a b Ha Hb. apply Hsep; right; assumption.
Qed.

Section Geometry.
Variables (w : world) (T : list blk).
Hypothesis Hg : geom w.
Hypothesis Ht : tiles (heap_start (el_ctl w)) T (heap_end (el_ctl w)).

Lemma blk_in_heap (b : blk) :
  In b T ->
  heap_start (el_ctl w) <= baddr b /\ 0 <= bsize b /\ bend b <= heap_end (el_ctl w).
Proof. intros Hb. eapply tiles_In; eassumption. Qed.

Lemma sentinel_facts (x : Z) :
  In x (sentinels (el_ctl w)) ->
  0 < x /\ x + 32 <= WORD /\
  (x + 32 <= heap_start (el_ctl w) \/ heap_end (el_ctl w) <= x).
Proof.
  intros Hx.
  pose proof (geom_sent_range w Hg) as H1. pose proof (geom_sent_heap w Hg) as H2.
  rewrite Forall_forall in H1, H2. specialize (H1 x Hx). specialize (H2 x Hx). tauto.
Qed.

Lemma node_blk_sep (x : Z) (b : blk) :
  node w T x -> In b T ->
  x = baddr b \/ x + 32 <= baddr b \/ bend b <= x.
Proof.
  intros [Hx | Hx] Hb.
  - destruct (sentinel_facts x Hx) as (_ & _ & H).
    destruct (blk_in_heap b Hb) as (? & ? & ?). lia.
  - apply in_map_iff in Hx. destruct Hx as [b' [<- Hb']].
    destruct (tiles_sep _ _ _ _ _ Ht Hb' Hb) as [-> | [H | H]]; auto.
    right; left.
    destruct (blk_in_heap b' Hb') as (? & ? & ?). consts. lia.
Qed.

Lemma node_sep (x y : Z) : node w T x -> node w T y -> x = y \/ sep32 x y.
Proof.
  intros Hx [Hy | Hy].
  - destruct Hx as [Hx | Hx].
    + eapply pairs_sep; [apply (geom_sent_sep w Hg) | assumption | assumption].
    + apply in_map_iff in Hx. destruct Hx as [b [<- Hb]].
      destruct (sentinel_facts y Hy) as (_ & _ & H).
      destruct (blk_in_heap b Hb) as (? & ? & ?).
      right. unfold sep32. consts. lia.
  - apply in_map_iff in Hy. destruct Hy as [b [<- Hb]].
    destruct (node_blk_sep x b Hx Hb) as [E | [H | H]]; auto.
    + right. unfold sep32. lia.
    + right. unfold sep32.
      destruct (blk_in_heap b Hb) as (? & ? & ?). consts. lia.
Qed.

Lemma node_range (x : Z) : node w T x -> 0 < x /\ x + 32 <= WORD.
Proof.
  intros [Hx | Hx].
  - destruct (sentinel_facts x Hx) as (? & ? & _). auto.
  - apply in_map_iff in Hx. destruct Hx as [b [<- Hb]].
    destruct (blk_in_heap b Hb) as (? & ? & ?).
    pose proof (geom_start w Hg). pose proof (geom_lt w Hg). consts. lia.
Qed.

Lemma node_blk (b : blk) : In b T -> node w T (baddr b).
Proof. intros Hb. right. apply in_map. exact Hb. Qed.

Lemma valid_heap (w' : world) (a n : Z) :
  mapped w' = mapped w ->
  heap_start (el_ctl w) <= a -> a + n <= heap_end (el_ctl w) ->
  valid_access w' a n = true.
Proof.
  intros Hm H1 H2. unfold valid_access. rewrite Hm, (geom_mapped w Hg).
  apply existsb_exists.
  exists (heap_start (el_ctl w), heap_bytes (el_ctl w)). split; [left; reflexivity|].
  unfold in_region. simpl.
  rewrite (geom_end w Hg) in H2.
  apply andb_true_iff. split; [apply Z.leb_le | apply Z.leb_le]; lia.
Qed.

Lemma valid_sentinel (w' : world) (x off n : Z) :
  mapped w' = mapped w ->
  In x (sentinels (el_ctl w)) -> 0 <= off -> off + n <= 32 ->
  valid_access w' (x + off) n = true.
Proof.
  intros Hm Hx H1 H2. unfold valid_access. rewrite Hm, (geom_mapped w Hg).
  apply existsb_exists. exists (x, sizeof_el_blockhead_t). split.
  - right. apply in_map with (f := fun s => (s, sizeof_el_blockhead_t)). exact Hx.
  - unfold in_region. simpl. consts.
    apply andb_true_iff. split; apply Z.leb_le; lia.
Qed.

Lemma valid_node (w' : world) (x off n : Z) :
  mapped w' = mapped w ->
  node w T x -> 0 <= off -> 0 <= n -> off + n <= 32 ->
  valid_access w' (x + off) n = true.
Proof.
  intros Hm [Hx | Hx] H1 Hn H2.
  - apply valid_sentinel; assumption.
  - apply in_map_iff in Hx. destruct Hx as [b [<- Hb]].
    destruct (blk_in_heap b Hb) as (? & ? & ?).
    apply valid_heap; [assumption | lia | consts; lia].
Qed.

Lemma valid_foot (w' : world) (b : blk) :
  mapped w' = mapped w -> In b T -> valid_access w' (bfoot b) 8 = true.
Proof.
  intros Hm Hb. destruct (blk_in_heap b Hb) as (? & ? & ?).
  apply valid_heap; [assumption | consts; lia | consts; lia].
Qed.
End Geometry.

(** ** Chains of links *)

Lemma links_app (m : memory) (x : Z) (A B : list Z) :
  links m x (A ++ B) <-> links m x A /\ links m (last_node x A) B.
Proof.
  revert x. induction A as [|y A IH]; intros x; simpl.
  - tauto.
  - rewrite IH. tauto.
Qed.

Lemma last_node_app (x : Z) (A B : list Z) :
  last_node x (A ++ B) = last_node (last_node x A) B.
Proof. revert x. induction A as [|y A IH]; intros x; simpl; auto. Qed.

Lemma last_node_In (x : Z) (A : list Z) : In (last_node x A) (x :: A).
Proof.
  revert x. induction A as [|y A IH]; intros x; simpl.
  - auto.
  - right. apply IH.
Qed.

(** [links m x N] reads the [next] field of every node of [x :: N] but the
    last, and the [prev] field of every node of [N]. *)
Lemma links_frame (m m' : memory) (x : Z) (N : list Z) :
  links m x N ->
  (forall y, In y (removelast (x :: N)) ->
             load8 m' (y + off_next) = load8 m (y + off_next)) ->
  (forall y, In y N -> load8 m' (y + off_prev) = load8 m (y + off_prev)) ->
  links m' x N.
Proof.
  revert x. induction N as [|y N IH]; intros x; simpl; [auto|].
  intros (H1 & H2 & H3) Hn Hp. repeat split.
  - rewrite Hn; [assumption|]. destruct N; simpl; auto.
  - rewrite Hp; auto.
  - apply IH; [assumption | | ].
    + intros z Hz. apply Hn. destruct N as [|z' N]; [simpl in Hz; tauto|].
      right. exact Hz.
    + intros z Hz. apply Hp. auto.
Qed.

Lemma in_removelast (A : Type) (l : list A) (x : A) : In x (removelast l) -> In x l.
Proof.
  induction l as [|a l IH]; simpl; [tauto|].
  destruct l as [|b l]; simpl in *; [tauto|].
  intros [H | H]; auto.
Qed.

Lemma removelast_last_notin (x : Z) (N : list Z) :
  NoDup (x :: N) -> ~ In (last_node x N) (removelast (x :: N)).
Proof.
  revert x. induction N as [|y N IH]; intros x Hnd; [simpl; tauto|].
  change (removelast (x :: y :: N)) with (x :: removelast (y :: N)).
  simpl last_node. intros [E | Hin].
  - inversion Hnd as [|? ? Hx _]. apply Hx. rewrite E. apply last_node_In.
  - inversion Hnd as [|? ? _ Hnd']. exact (IH y Hnd' Hin).
Qed.

(** ** Unlinking and linking at the level of memory *)

Lemma NoDup_app_disj (A : Type) (l1 l2 : list A) (x y : A) :
  NoDup (l1 ++ l2) -> In x l1 -> In y l2 -> x <> y.
Proof.
  induction l1 as [|a l1 IH]; simpl; [tauto|].
  intros Hnd [-> | Hx] Hy.
  - inversion Hnd as [|? ? Hn _]. intros ->. apply Hn. apply in_or_app. auto.
  - inversion Hnd. auto.
Qed.

Lemma apart_cross (A B : list Z) (x y : Z) :
  apart (A ++ B) -> In x A -> In y B -> sep32 x y.
Proof.
  intros [Hnd Hs] Hx Hy.
  destruct (Hs x y) as [E | S]; [apply in_or_app; auto | apply in_or_app; auto | | exact S].
  exfalso. eapply NoDup_app_disj; eassumption.
Qed.

Lemma apart_app_l (A B : list Z) : apart (A ++ B) -> apart A.
Proof.
  intros [Hnd Hs]. split.
  - eapply NoDup_app_remove_r. exact Hnd.
  - intros x y Hx Hy. apply Hs; apply in_or_app; auto.
Qed.

Lemma apart_app_r (A B : list Z) : apart (A ++ B) -> apart B.
Proof.
  intros [Hnd Hs]. split.
  - eapply NoDup_app_remove_l. exact Hnd.
  - intros x y Hx Hy. apply Hs; apply in_or_app; auto.
Qed.

Lemma apart_head (x : Z) (A : list Z) (y : Z) :
  apart (x :: A) -> In y A -> sep32 x y.
Proof.
  intros H Hy. apply (apart_cross [x] A); simpl; auto.
Qed.

Lemma apart_in (N : list Z) (x y : Z) :
  apart N -> In x N -> In y N -> x = y \/ sep32 x y.
Proof. intros [_ H]. apply H. Qed.

Ltac sep_lia := unfold sep32 in *; consts; lia.

Ltac frame :=
  repeat first
    [ rewrite load8_store8_other by sep_lia
    | rewrite load1_store8_other by sep_lia
    | rewrite load8_store1_other by sep_lia
    | rewrite load1_store1_other by sep_lia ].

(** [el_remove_block]: the two stores [next_block->prev = prev_block] and
    [prev_block->next = next_block] take [b] out of the chain. *)
Lemma links_remove (m : memory) (x : Z) (L1 : list Z) (b n : Z) (Q : list Z) :
  apart ((x :: L1) ++ b :: n :: Q) ->
  links m x (L1 ++ b :: n :: Q) ->
  load8 m (b + off_next) = n /\
  load8 m (b + off_prev) = last_node x L1 /\
  links (store8 (store8 m (n + off_prev) (last_node x L1))
                (last_node x L1 + off_next) n)
        x (L1 ++ n :: Q).
Proof.
  intros Hap Hl.
  apply links_app in Hl. destruct Hl as [HA HB].
  simpl in HB. destruct HB as (Hpb & Hbp & Hbn & Hnb & HQ).
  set (p := last_node x L1) in *.
  assert (Hp : In p (x :: L1)) by apply last_node_In.
  assert (Hn : In n (b :: n :: Q)) by (simpl; auto).
  pose proof (apart_cross _ _ p n Hap Hp Hn) as Hpn.
  pose proof (apart_app_l _ _ Hap) as HapA.
  pose proof (apart_app_r _ _ Hap) as HapB.
  assert (HapQ : apart (n :: Q)).
  { apply (apart_app_r [b]). exact HapB. }
  assert (Rn : 0 <= n < WORD) by (rewrite <- Hbn; apply load8_range).
  assert (Rp : 0 <= p < WORD) by (rewrite <- Hbp; apply load8_range).
  split; [exact Hbn|]. split; [exact Hbp|].
  apply links_app. split.
  - eapply links_frame; [exact HA | | ].
    + intros y Hy.
      assert (y <> p).
      { intros ->. eapply removelast_last_notin; [apply (proj1 HapA) | exact Hy]. }
      apply in_removelast in Hy.
      pose proof (apart_cross _ _ y n Hap Hy Hn).
      destruct (apart_in _ y p HapA Hy Hp); [contradiction|].
      frame. reflexivity.
    + intros y Hy.
      assert (Hy' : In y (x :: L1)) by (right; exact Hy).
      pose proof (apart_cross _ _ y n Hap Hy' Hn).
      destruct (apart_in _ y p HapA Hy' Hp); frame; reflexivity.
  - fold p. simpl. repeat split.
    + rewrite load8_store8_same. apply wrap_small. exact Rn.
    + frame. rewrite load8_store8_same. apply wrap_small. exact Rp.
    + eapply links_frame; [exact HQ | | ].
      * intros y Hy. apply in_removelast in Hy.
        assert (Hy' : In y (b :: n :: Q)) by (right; exact Hy).
        pose proof (apart_cross _ _ p y Hap Hp Hy').
        destruct (apart_in _ y n HapQ Hy (or_introl eq_refl)); frame; reflexivity.
      * intros y Hy.
        assert (Hy' : In y (b :: n :: Q)) by (right; right; exact Hy).
        pose proof (apart_cross _ _ p y Hap Hp Hy').
        pose proof (apart_head _ _ y HapQ Hy).
        frame. reflexivity.
Qed.

(** [el_add_block_front]: the four stores put [b] between the begin
    sentinel [x] and its successor [n]. *)
Lemma links_add (m : memory) (x b n : Z) (Q : list Z) :
  apart (x :: b :: n :: Q) ->
  0 <= x < WORD -> 0 <= b < WORD ->
  links m x (n :: Q) ->
  load8 (store8 (store8 m (b + off_next) n) (b + off_prev) x) (x + off_next) = n /\
  links (store8 (store8 (store8 (store8 m (b + off_next) n) (b + off_prev) x)
                        (n + off_prev) b) (x + off_next) b)
        x (b :: n :: Q).
Proof.
  intros Hap Rx Rb Hl. simpl in Hl. destruct Hl as (Hxn & Hnx & HQ).
  assert (Rn : 0 <= n < WORD) by (rewrite <- Hxn; apply load8_range).
  pose proof (apart_head _ _ b Hap (or_introl eq_refl)) as Hxb.
  pose proof (apart_head _ _ n Hap (or_intror (or_introl eq_refl))) as Hxn'.
  pose proof (apart_app_r [x] _ Hap) as Hap1.
  pose proof (apart_head _ _ n Hap1 (or_introl eq_refl)) as Hbn.
  pose proof (apart_app_r [x; b] _ Hap) as Hap2.
  split.
  - frame. exact Hxn.
  - simpl. repeat split.
    + rewrite load8_store8_same. apply wrap_small. exact Rb.
    + frame. rewrite load8_store8_same. apply wrap_small. exact Rx.
    + frame. rewrite load8_store8_same. apply wrap_small. exact Rn.
    + frame. rewrite load8_store8_same. apply wrap_small. exact Rb.
    + eapply links_frame; [exact HQ | | ].
      * intros y Hy. apply in_removelast in Hy.
        assert (sep32 x y) by (apply (apart_head _ _ y Hap); right; exact Hy).
        assert (sep32 b y) by (apply (apart_head _ _ y Hap1); exact Hy).
        destruct (apart_in _ y n Hap2 Hy (or_introl eq_refl)); frame; reflexivity.
      * intros y Hy.
        assert (sep32 x y) by (apply (apart_head _ _ y Hap); right; right; exact Hy).
        assert (sep32 b y) by (apply (apart_head _ _ y Hap1); right; exact Hy).
        pose proof (apart_head _ _ y Hap2 Hy).
        frame. reflexivity.
Qed.

(** ** Counters *)

Lemma lsum_app (m : memory) (A B : list Z) :
  lsum m (A ++ B) = lsum m A + lsum m B.
Proof. induction A as [|a A IH]; simpl; [reflexivity | rewrite IH; lia]. Qed.

Lemma lsum_frame (m m' : memory) (L : list Z) :
  (forall a, In a L -> load8 m' (a + off_size) = load8 m (a + off_size)) ->
  lsum m' L = lsum m L.
Proof.
  induction L as [|a L IH]; simpl; intros H; [reflexivity|].
  rewrite H by auto. rewrite IH; [reflexivity|]. intros. apply H. auto.
Qed.

Lemma snoc_cons (L : list Z) (e : Z) : exists n Q, L ++ [e] = n :: Q.
Proof. destruct L as [|c L]; simpl; eauto. Qed.

(** ** The two list operations on a pair of lists in memory *)

Lemma list_ok_remove (m : memory) (l l' : el_blocklist_t) (L1 : list Z) (b : Z)
      (L2 L' : list Z) :
  apart (lnodes l (L1 ++ b :: L2) ++ lnodes l' L') ->
  list_ok m l (L1 ++ b :: L2) -> list_ok m l' L' ->
  let n := load8 m (b + off_next) in
  let p := load8 m (b + off_prev) in
  let m' := store8 (store8 m (n + off_prev) p) (p + off_next) n in
  In n (lnodes l (L1 ++ b :: L2)) /\ In p (lnodes l (L1 ++ b :: L2)) /\
  list_ok m' (mk_blocklist (l_beg l) (l_end l) (wrap (l_length l - 1))
                (wrap (l_bytes l - wrap (load8 m' (b + off_size) + EL_BLOCK_OVERHEAD))))
          (L1 ++ L2) /\
  list_ok m' l' L'.
Proof.
  intros Hap (Hl & Hlen & Hby) (Hl' & Hlen' & Hby') n p m'.
  pose proof (apart_app_l _ _ Hap) as HapL.
  unfold lnodes in HapL, Hap |- *.
  rewrite <- app_assoc in Hl, HapL. simpl in Hl, HapL.
  destruct (snoc_cons L2 (l_end l)) as (n0 & Q & EQ).
  assert (EN : (L1 ++ b :: L2) ++ [l_end l] = L1 ++ b :: n0 :: Q).
  { rewrite <- app_assoc. simpl. rewrite EQ. reflexivity. }
  rewrite EQ in Hl, HapL.
  destruct (links_remove m (l_beg l) L1 b n0 Q HapL Hl) as (Hn & Hp & Hl2).
  fold n in Hn. fold p in Hp. subst n0.
  assert (In_n : In n (l_beg l :: (L1 ++ b :: L2) ++ [l_end l])).
  { rewrite EN. right. apply in_or_app. right. simpl. auto. }
  assert (In_p : In p (l_beg l :: (L1 ++ b :: L2) ++ [l_end l])).
  { rewrite EN. rewrite Hp.
    destruct (last_node_In (l_beg l) L1) as [E | Hin]; [left; exact E|].
    right. apply in_or_app. left. exact Hin. }
  assert (In_b : In b (l_beg l :: (L1 ++ b :: L2) ++ [l_end l])).
  { rewrite EN. right. apply in_or_app. right. simpl. auto. }
  assert (HapN : apart (l_beg l :: (L1 ++ b :: L2) ++ [l_end l])).
  { rewrite EN. exact HapL. }
  assert (Fsz : forall a, In a (l_beg l :: (L1 ++ b :: L2) ++ [l_end l]) \/
                          In a (l_beg l' :: L' ++ [l_end l']) ->
                          load8 m' (a + off_size) = load8 m (a + off_size)).
  { intros a Ha. unfold m'.
    assert (a = n \/ sep32 a n).
    { destruct Ha as [Ha | Ha]; [apply (apart_in _ a n HapN Ha In_n)|].
      right. apply sep32_sym. eapply apart_cross; [exact Hap | exact In_n | exact Ha]. }
    assert (a = p \/ sep32 a p).
    { destruct Ha as [Ha | Ha]; [apply (apart_in _ a p HapN Ha In_p)|].
      right. apply sep32_sym. eapply apart_cross; [exact Hap | exact In_p | exact Ha]. }
    frame. reflexivity. }
  split; [exact In_n|]. split; [exact In_p|]. split.
  - unfold list_ok. cbn [l_beg l_end l_length l_bytes]. repeat split.
    + rewrite <- app_assoc. rewrite EQ. rewrite <- Hp in Hl2. exact Hl2.
    + rewrite Hlen, wrap_sub_l. f_equal. rewrite !length_app. simpl. lia.
    + rewrite Hby, wrap_sub_l, wrap_sub_r. f_equal.
      rewrite (lsum_frame m m' (L1 ++ L2)).
      * rewrite Fsz by (left; exact In_b).
        rewrite !lsum_app. simpl. lia.
      * intros a Ha. apply Fsz. left. right. apply in_or_app. left.
        apply in_app_or in Ha. apply in_or_app. simpl. tauto.
  - unfold list_ok. repeat split; [ | exact Hlen' | ].
    + eapply links_frame; [exact Hl' | | ].
      * intros y Hy. apply in_removelast in Hy. unfold m'.
        assert (sep32 n y) by (eapply apart_cross; [exact Hap | exact In_n | exact Hy]).
        assert (sep32 p y) by (eapply apart_cross; [exact Hap | exact In_p | exact Hy]).
        frame. reflexivity.
      * intros y Hy. unfold m'.
        assert (Hy' : In y (l_beg l' :: L' ++ [l_end l'])) by (right; exact Hy).
        assert (sep32 n y) by (eapply apart_cross; [exact Hap | exact In_n | exact Hy']).
        assert (sep32 p y) by (eapply apart_cross; [exact Hap | exact In_p | exact Hy']).
        frame. reflexivity.
    + rewrite Hby'. f_equal. symmetry. apply lsum_frame.
      intros a Ha. apply Fsz. right. right. apply in_or_app. left. exact Ha.
Qed.

Lemma apart_perm (N N' : list Z) : Permutation N N' -> apart N -> apart N'.
Proof.
  intros HP [Hnd Hs]. split.
  - eapply Permutation_NoDup; eassumption.
  - intros x y Hx Hy. apply Hs; eapply Permutation_in; try eassumption;
      apply Permutation_sym; exact HP.
Qed.

Lemma list_ok_add (m : memory) (l l' : el_blocklist_t) (L L' : list Z) (b : Z) :
  apart ((b :: lnodes l L) ++ lnodes l' L') ->
  0 <= b < WORD -> 0 <= l_beg l < WORD ->
  list_ok m l L -> list_ok m l' L' ->
  let n := load8 m (l_beg l + off_next) in
  let m1 := store8 (store8 m (b + off_next) n) (b + off_prev) (l_beg l) in
  let m' := store8 (store8 m1 (n + off_prev) b) (l_beg l + off_next) b in
  load8 m1 (l_beg l + off_next) = n /\
  In n (L ++ [l_end l]) /\
  list_ok m' (mk_blocklist (l_beg l) (l_end l) (wrap (l_length l + 1))
                (wrap (l_bytes l + wrap (load8 m' (b + off_size) + EL_BLOCK_OVERHEAD))))
          (b :: L) /\
  list_ok m' l' L'.
Proof.
  intros Hap Rb Rx (Hl & Hlen & Hby) (Hl' & Hlen' & Hby') n m1 m'.
  pose proof (apart_app_l _ _ Hap) as HapL.
  unfold lnodes in HapL, Hap.
  destruct (snoc_cons L (l_end l)) as (n0 & Q & EQ).
  rewrite EQ in Hl, HapL.
  assert (HapL' : apart (l_beg l :: b :: n0 :: Q)).
  { eapply apart_perm; [|exact HapL]. apply perm_swap. }
  destruct (links_add m (l_beg l) b n0 Q HapL' Rx Rb Hl) as (Hn1 & Hl2).
  assert (En : n = n0) by (simpl in Hl; destruct Hl as (E & _); exact E).
  subst n0.
  assert (In_n : In n (b :: l_beg l :: L ++ [l_end l])).
  { rewrite EQ. simpl. auto. }
  assert (In_x : In (l_beg l) (b :: l_beg l :: L ++ [l_end l])) by (simpl; auto).
  assert (In_b : In b (b :: l_beg l :: L ++ [l_end l])) by (simpl; auto).
  assert (HapN : apart (b :: l_beg l :: L ++ [l_end l])).
  { rewrite EQ. exact HapL. }
  assert (Fsz : forall a, In a (b :: l_beg l :: L ++ [l_end l]) \/
                          In a (l_beg l' :: L' ++ [l_end l']) ->
                          load8 m' (a + off_size) = load8 m (a + off_size)).
  { intros a Ha. unfold m', m1.
    assert (a = n \/ sep32 a n).
    { destruct Ha as [Ha | Ha]; [apply (apart_in _ a n HapN Ha In_n)|].
      right. apply sep32_sym. eapply apart_cross; [exact Hap | exact In_n | exact Ha]. }
    assert (a = b \/ sep32 a b).
    { destruct Ha as [Ha | Ha]; [apply (apart_in _ a b HapN Ha In_b)|].
      right. apply sep32_sym. eapply apart_cross; [exact Hap | exact In_b | exact Ha]. }
    assert (a = l_beg l \/ sep32 a (l_beg l)).
    { destruct Ha as [Ha | Ha]; [apply (apart_in _ a _ HapN Ha In_x)|].
      right. apply sep32_sym. eapply apart_cross; [exact Hap | exact In_x | exact Ha]. }
    frame. reflexivity. }
  split; [exact Hn1|]. split; [rewrite EQ; left; reflexivity|]. split.
  - unfold list_ok. cbn [l_beg l_end l_length l_bytes]. split; [|split].
    + change ((b :: L) ++ [l_end l]) with (b :: (L ++ [l_end l])).
      rewrite EQ. exact Hl2.
    + rewrite Hlen, wrap_add_l. f_equal. simpl List.length. lia.
    + rewrite Hby, wrap_add_l, wrap_add_r. f_equal.
      simpl lsum. rewrite (lsum_frame m m' L); [lia|].
      intros a Ha. apply Fsz. left. right. right. apply in_or_app. left. exact Ha.
  - unfold list_ok. repeat split; [ | exact Hlen' | ].
    + eapply links_frame; [exact Hl' | | ].
      * intros y Hy. apply in_removelast in Hy. unfold m', m1.
        assert (sep32 n y) by (eapply apart_cross; [exact Hap | exact In_n | exact Hy]).
        assert (sep32 b y) by (eapply apart_cross; [exact Hap | exact In_b | exact Hy]).
        assert (sep32 (l_beg l) y) by (eapply apart_cross; [exact Hap | exact In_x | exact Hy]).
        frame. reflexivity.
      * intros y Hy. unfold m', m1.
        assert (Hy' : In y (l_beg l' :: L' ++ [l_end l'])) by (right; exact Hy).
        assert (sep32 n y) by (eapply apart_cross; [exact Hap | exact In_n | exact Hy']).
        assert (sep32 b y) by (eapply apart_cross; [exact Hap | exact In_b | exact Hy']).
        assert (sep32 (l_beg l) y) by (eapply apart_cross; [exact Hap | exact In_x | exact Hy']).
        frame. reflexivity.
    + rewrite Hby'. f_equal. symmetry. apply lsum_frame.
      intros a Ha. apply Fsz. right. right. apply in_or_app. left. exact Ha.
Qed.

(** ** Running the monad *)

Lemma bind_Some (A B : Type) (c : M A) (f : A -> M B) (w w' : world) (x : A) :
  c w = Some (x, w') -> bind c f w = f x w'.
Proof. intros H. unfold bind. rewrite H. reflexivity. Qed.

Lemma rd8_run (w : world) (a : Z) :
  valid_access w a 8 = true -> rd8 a w = Some (load8 (mem w) a, w).
Proof. intros H. unfold rd8. rewrite H. reflexivity. Qed.

Lemma wr8_run (w : world) (a v : Z) :
  valid_access w a 8 = true ->
  wr8 a v w = Some (tt, mk_world (store8 (mem w) a v) (mapped w) (el_ctl w)).
Proof. intros H. unfold wr8. rewrite H. reflexivity. Qed.

Lemma rd1_run (w : world) (a : Z) :
  valid_access w a 1 = true -> rd1 a w = Some (load1 (mem w) a, w).
Proof. intros H. unfold rd1. rewrite H. reflexivity. Qed.

Lemma wr1_run (w : world) (a v : Z) :
  valid_access w a 1 = true ->
  wr1 a v w = Some (tt, mk_world (store1 (mem w) a v) (mapped w) (el_ctl w)).
Proof. intros H. unfold wr1. rewrite H. reflexivity. Qed.

Lemma get_ctl_run (w : world) : get_ctl w = Some (el_ctl w, w).
Proof. reflexivity. Qed.

Lemma put_ctl_run (w : world) (c : el_ctl_t) :
  put_ctl c w = Some (tt, mk_world (mem w) (mapped w) c).
Proof. reflexivity. Qed.

Lemma get_blocklist_run (w : world) (l : list_ptr) :
  get_blocklist l w = Some (get_list l (el_ctl w), w).
Proof. reflexivity. Qed.

Lemma put_blocklist_run (w : world) (l : list_ptr) (v : el_blocklist_t) :
  put_blocklist l v w = Some (tt, mk_world (mem w) (mapped w) (set_list l v (el_ctl w))).
Proof. reflexivity. Qed.

Lemma ret_run (A : Type) (x : A) (w : world) : ret x w = Some (x, w).
Proof. reflexivity. Qed.

Ltac wsimpl := cbv beta; cbn [mem mapped el_ctl].

(** One memory access at the head of a sequence; [side] proves that the
    access is valid. *)
Ltac mrun side :=
  erewrite bind_Some
    by (first [apply rd8_run | apply wr8_run | apply rd1_run | apply wr1_run]; side);
  wsimpl.

(** One access to [el_ctl] at the head of a sequence. *)
Ltac mctl :=
  erewrite bind_Some
    by (first [apply get_blocklist_run | apply put_blocklist_run
              | apply get_ctl_run | apply put_ctl_run | apply ret_run]);
  wsimpl.

Ltac accessors :=
  unfold get_size, set_size, get_state, set_state, get_next, set_next,
    get_prev, set_prev, get_foot_size, set_foot_size.

(** ** The frame *)

Lemma same_frame_refl (w : world) : same_frame w w.
Proof. unfold same_frame. tauto. Qed.

Lemma same_frame_trans (w1 w2 w3 : world) :
  same_frame w1 w2 -> same_frame w2 w3 -> same_frame w1 w3.
Proof.
  unfold same_frame. intros (A1 & A2 & A3 & A4 & A5) (B1 & B2 & B3 & B4 & B5).
  repeat split; congruence.
Qed.

Lemma geom_same_frame (w w' : world) : geom w -> same_frame w w' -> geom w'.
Proof.
  intros [G1 G2 G3 G4 G5 G6 G7] (F1 & F2 & F3 & F4 & F5).
  constructor; rewrite ?F1, ?F2, ?F3, ?F4, ?F5; assumption.
Qed.

Lemma same_frame_mem (w : world) (m : memory) :
  same_frame w (mk_world m (mapped w) (el_ctl w)).
Proof. unfold same_frame. simpl. tauto. Qed.

Lemma same_frame_set_list (w : world) (m : memory) (l : list_ptr) (len byt : Z) :
  same_frame w
    (mk_world m (mapped w)
       (set_list l (mk_blocklist (l_beg (get_list l (el_ctl w)))
                      (l_end (get_list l (el_ctl w))) len byt)
          (el_ctl w))).
Proof. unfold same_frame, sentinels. destruct l; simpl; tauto. Qed.

(** ** Separation of the list nodes in a well-formed heap *)

Lemma sentinels_NoDup (w : world) : geom w -> NoDup (sentinels (el_ctl w)).
Proof. intros Hg. apply pairs_NoDup. apply (geom_sent_sep w Hg). Qed.

Lemma sentinel_not_blk (w : world) (T : list blk) (x : Z) :
  geom w -> tiles (heap_start (el_ctl w)) T (heap_end (el_ctl w)) ->
  In x (sentinels (el_ctl w)) -> ~ In x (map baddr T).
Proof.
  intros Hg Ht Hx Hin. apply in_map_iff in Hin. destruct Hin as [b [E Hb]].
  destruct (sentinel_facts w Hg x Hx) as (_ & _ & H).
  destruct (blk_in_heap w T Ht b Hb) as (? & ? & ?). consts. lia.
Qed.

Lemma NoDup_two_lists (ba ea bu eu : Z) (La Lu : list Z) :
  NoDup [ba; ea; bu; eu] -> NoDup (La ++ Lu) ->
  (forall s, In s [ba; ea; bu; eu] -> ~ In s (La ++ Lu)) ->
  NoDup ((ba :: La ++ [ea]) ++ bu :: Lu ++ [eu]).
Proof.
  intros Hs Hl Hd.
  apply (Permutation_NoDup (l := [ba; ea; bu; eu] ++ La ++ Lu)).
  - simpl. apply perm_skip.
    rewrite <- app_assoc. simpl.
    etransitivity; [|apply Permutation_middle]. apply perm_skip.
    etransitivity; [|apply Permutation_middle]. apply perm_skip.
    rewrite app_assoc. apply Permutation_cons_append.
  - apply NoDup_app; assumption.
Qed.

Section Nodes.
Variables (w : world) (T : list blk) (La Lu : list Z).
Hypothesis Hp : pwf w T La Lu.

Let Hg := pwf_geom w T La Lu Hp.
Let Ht := pwf_tiles w T La Lu Hp.

Lemma in_lists_blk (x : Z) : In x (La ++ Lu) -> In x (map baddr T).
Proof. intros Hx. apply (pwf_incl w T La Lu Hp). exact Hx. Qed.

Lemma lnodes_avail_node (x : Z) :
  In x (lnodes (avail (el_ctl w)) La) -> node w T x.
Proof.
  unfold lnodes. intros [<- | Hx].
  - left. unfold sentinels. simpl. auto.
  - apply in_app_or in Hx. destruct Hx as [Hx | [<- | []]].
    + right. apply in_lists_blk. apply in_or_app. auto.
    + left. unfold sentinels. simpl. auto.
Qed.

Lemma lnodes_used_node (x : Z) :
  In x (lnodes (used (el_ctl w)) Lu) -> node w T x.
Proof.
  unfold lnodes. intros [<- | Hx].
  - left. unfold sentinels. simpl. auto.
  - apply in_app_or in Hx. destruct Hx as [Hx | [<- | []]].
    + right. apply in_lists_blk. apply in_or_app. auto.
    + left. unfold sentinels. simpl. auto.
Qed.

Lemma all_nodes_NoDup :
  NoDup (lnodes (avail (el_ctl w)) La ++ lnodes (used (el_ctl w)) Lu).
Proof.
  unfold lnodes. apply NoDup_two_lists.
  - apply (sentinels_NoDup w Hg).
  - apply (pwf_nodup w T La Lu Hp).
  - intros s Hs Hin. apply (sentinel_not_blk w T s Hg Ht Hs).
    apply in_lists_blk. exact Hin.
Qed.

Lemma all_nodes_apart :
  apart (lnodes (avail (el_ctl w)) La ++ lnodes (used (el_ctl w)) Lu).
Proof.
  split; [apply all_nodes_NoDup|].
  intros x y Hx Hy. apply (node_sep w T Hg Ht).
  - apply in_app_or in Hx. destruct Hx; [apply lnodes_avail_node | apply lnodes_used_node]; assumption.
  - apply in_app_or in Hy. destruct Hy; [apply lnodes_avail_node | apply lnodes_used_node]; assumption.
Qed.

(** A block that is in neither list is apart from all list nodes. *)
Lemma free_block_apart (b : Z) :
  In b (map baddr T) -> ~ In b (La ++ Lu) ->
  apart (b :: lnodes (avail (el_ctl w)) La ++ lnodes (used (el_ctl w)) Lu).
Proof.
  intros Hb Hnb.
  assert (Nb : node w T b) by (right; exact Hb).
  assert (Hall : forall x, In x (lnodes (avail (el_ctl w)) La ++ lnodes (used (el_ctl w)) Lu) ->
                           node w T x).
  { intros x Hx. apply in_app_or in Hx.
    destruct Hx; [apply lnodes_avail_node | apply lnodes_used_node]; assumption. }
  split.
  - constructor; [|apply all_nodes_NoDup].
    intros Hin. apply in_app_or in Hin.
    assert (Hs : forall s, In s (sentinels (el_ctl w)) -> s <> b).
    { intros s Hs ->. exact (sentinel_not_blk w T b Hg Ht Hs Hb). }
    unfold lnodes, sentinels in *. simpl in Hin, Hs.
    rewrite !in_app_iff in Hin. simpl in Hin. rewrite in_app_iff in Hnb.
    destruct Hin as [[E | [H | [E | []]]] | [E | [H | [E | []]]]];
      try tauto; refine (Hs _ _ E); tauto.
  - intros x y [<- | Hx] [<- | Hy]; [left; reflexivity | | | ].
    + apply (node_sep w T Hg Ht); auto.
    + apply (node_sep w T Hg Ht); auto.
    + apply (node_sep w T Hg Ht); auto.
Qed.
End Nodes.

(** A store into a link field of a node leaves every block's header data
    and footer alone. *)
Lemma blocks_store_link (w : world) (T : list blk) (m : memory) (z off v : Z) :
  geom w -> tiles (heap_start (el_ctl w)) T (heap_end (el_ctl w)) ->
  node w T z -> off = off_next \/ off = off_prev ->
  Forall (blk_ok m) T -> Forall (blk_ok (store8 m (z + off) v)) T.
Proof.
  intros Hg Ht Hz Hoff Hall. rewrite Forall_forall in *. intros b Hb.
  destruct (Hall b Hb) as (H1 & H2 & H3).
  pose proof (node_blk_sep w T Hg Ht z b Hz Hb).
  destruct (blk_in_heap w T Ht b Hb) as (? & ? & ?).
  unfold blk_ok. repeat split; frame; assumption.
Qed.

(** ** The list operations preserve the structural invariant *)

Lemma pwf_lists (w : world) (T : list blk) (La Lu : list Z) (l : list_ptr) :
  pwf w T La Lu ->
  list_ok (mem w) (get_list l (el_ctl w)) (lsel l La Lu) /\
  list_ok (mem w) (get_list (lother l) (el_ctl w)) (lsel (lother l) La Lu) /\
  apart (lnodes (get_list l (el_ctl w)) (lsel l La Lu)
         ++ lnodes (get_list (lother l) (el_ctl w)) (lsel (lother l) La Lu)) /\
  (forall x, In x (lnodes (get_list l (el_ctl w)) (lsel l La Lu)
                   ++ lnodes (get_list (lother l) (el_ctl w)) (lsel (lother l) La Lu)) ->
             node w T x).
Proof.
  intros Hp. pose proof (all_nodes_apart w T La Lu Hp) as Hap.
  destruct l; cbn [get_list lsel lother]; (split; [|split; [|split; [split|]]]);
    try apply (pwf_avail w T La Lu Hp); try apply (pwf_used w T La Lu Hp);
    try apply (proj1 Hap); try apply (proj2 Hap).
  - intros x Hx. apply in_app_or in Hx.
    destruct Hx; [eapply lnodes_avail_node | eapply lnodes_used_node]; eassumption.
  - eapply Permutation_NoDup; [apply Permutation_app_comm | apply (proj1 Hap)].
  - intros x y Hx Hy. apply (proj2 Hap);
      (eapply Permutation_in; [apply Permutation_app_comm | eassumption]).
  - intros x Hx. apply in_app_or in Hx.
    destruct Hx; [eapply lnodes_used_node | eapply lnodes_avail_node]; eassumption.
Qed.

Lemma pwf_rebuild (w : world) (T : list blk) (La Lu : list Z) (l : list_ptr)
      (m' : memory) (len byt : Z) (L' : list Z) :
  pwf w T La Lu ->
  Forall (blk_ok m') T ->
  list_ok m' (mk_blocklist (l_beg (get_list l (el_ctl w)))
                (l_end (get_list l (el_ctl w))) len byt) L' ->
  list_ok m' (get_list (lother l) (el_ctl w)) (lsel (lother l) La Lu) ->
  NoDup (lset_avail l L' La ++ lset_used l L' Lu) ->
  incl (lset_avail l L' La ++ lset_used l L' Lu) (map baddr T) ->
  pwf (mk_world m' (mapped w)
         (set_list l (mk_blocklist (l_beg (get_list l (el_ctl w)))
                        (l_end (get_list l (el_ctl w))) len byt)
            (el_ctl w)))
      T (lset_avail l L' La) (lset_used l L' Lu).
Proof.
  intros Hp Hb Hl Hl' Hnd Hin.
  pose proof (same_frame_set_list w m' l len byt) as Hsf.
  constructor.
  - eapply geom_same_frame; [apply (pwf_geom w T La Lu Hp) | exact Hsf].
  - destruct l; simpl; apply (pwf_tiles w T La Lu Hp).
  - exact Hb.
  - destruct l; simpl in *; assumption.
  - destruct l; simpl in *; assumption.
  - exact Hnd.
  - exact Hin.
Qed.

Lemma lists_remove (l : list_ptr) (La Lu L1 : list Z) (b : Z) (L2 : list Z) :
  lsel l La Lu = L1 ++ b :: L2 -> NoDup (La ++ Lu) ->
  NoDup (lset_avail l (L1 ++ L2) La ++ lset_used l (L1 ++ L2) Lu) /\
  incl (lset_avail l (L1 ++ L2) La ++ lset_used l (L1 ++ L2) Lu) (La ++ Lu) /\
  ~ In b (lset_avail l (L1 ++ L2) La ++ lset_used l (L1 ++ L2) Lu).
Proof.
  intros Hsel Hnd. destruct l; simpl in *; subst.
  - rewrite <- app_assoc in Hnd. simpl in Hnd.
    rewrite <- !app_assoc. repeat split.
    + eapply NoDup_remove_1. exact Hnd.
    + intros x Hx. rewrite !in_app_iff in *. simpl. tauto.
    + eapply NoDup_remove_2. exact Hnd.
  - rewrite app_assoc in Hnd. rewrite !app_assoc. repeat split.
    + eapply NoDup_remove_1. exact Hnd.
    + intros x Hx. rewrite !in_app_iff in *. simpl. tauto.
    + eapply NoDup_remove_2. exact Hnd.
Qed.

Lemma lists_add (l : list_ptr) (La Lu : list Z) (b : Z) :
  NoDup (La ++ Lu) -> ~ In b (La ++ Lu) ->
  NoDup (lset_avail l (b :: lsel l La Lu) La ++ lset_used l (b :: lsel l La Lu) Lu) /\
  (forall x, In x (lset_avail l (b :: lsel l La Lu) La ++ lset_used l (b :: lsel l La Lu) Lu)
             <-> x = b \/ In x (La ++ Lu)).
Proof.
  intros Hnd Hb. destruct l; simpl.
  - split; [constructor; assumption|]. intros x. rewrite ?in_app_iff. simpl.
    rewrite ?in_app_iff. intuition congruence.
  - split.
    + apply (Permutation_NoDup (l := b :: La ++ Lu)); [apply Permutation_middle|].
      constructor; assumption.
    + intros x. rewrite ?in_app_iff. simpl. rewrite ?in_app_iff. intuition congruence.
Qed.

Lemma el_remove_block_spec (w : world) (T : list blk) (La Lu : list Z)
      (l : list_ptr) (L1 : list Z) (b : Z) (L2 : list Z) :
  pwf w T La Lu -> lsel l La Lu = L1 ++ b :: L2 ->
  exists w',
    el_remove_block l b w = Some (tt, w') /\ same_frame w w' /\
    pwf w' T (lset_avail l (L1 ++ L2) La) (lset_used l (L1 ++ L2) Lu).
Proof.
  intros Hp Hsel.
  pose proof (pwf_geom w T La Lu Hp) as Hg.
  pose proof (pwf_tiles w T La Lu Hp) as Ht.
  destruct (pwf_lists w T La Lu l Hp) as (Hok & Hok' & Hap & Hnode).
  rewrite Hsel in Hok, Hap, Hnode.
  destruct (list_ok_remove _ _ _ _ _ _ _ Hap Hok Hok') as (In_n & In_p & Hnew & Hoth).
  set (n := load8 (mem w) (b + off_next)) in *.
  set (p := load8 (mem w) (b + off_prev)) in *.
  assert (Nn : node w T n) by (apply Hnode; apply in_or_app; left; exact In_n).
  assert (Np : node w T p) by (apply Hnode; apply in_or_app; left; exact In_p).
  assert (Nb : node w T b).
  { apply Hnode. apply in_or_app. left. unfold lnodes. right.
    rewrite <- app_assoc. apply in_or_app. right. simpl. auto. }
  pose proof (node_range w T Hg Ht n Nn) as Rn.
  pose proof (node_range w T Hg Ht p Np) as Rp.
  destruct (lists_remove l La Lu L1 b L2 Hsel (pwf_nodup w T La Lu Hp)) as (Hnd & Hinc & _).
  eexists. split; [|split].
  - unfold el_remove_block. accessors.
    mrun ltac:(eapply (valid_node w T Hg Ht); [reflexivity | eassumption | consts; lia ..]).
    mrun ltac:(eapply (valid_node w T Hg Ht); [reflexivity | eassumption | consts; lia ..]).
    fold n p.
    replace (n =? NULL) with false by (symmetry; apply Z.eqb_neq; unfold NULL; lia).
    replace (p =? NULL) with false by (symmetry; apply Z.eqb_neq; unfold NULL; lia).
    mrun ltac:(eapply (valid_node w T Hg Ht); [reflexivity | eassumption | consts; lia ..]).
    mrun ltac:(eapply (valid_node w T Hg Ht); [reflexivity | eassumption | consts; lia ..]).
    mrun ltac:(eapply (valid_node w T Hg Ht); [reflexivity | eassumption | consts; lia ..]).
    mctl.
    apply put_blocklist_run.
  - cbn [mem mapped el_ctl]. apply same_frame_set_list.
  - cbn [mem mapped el_ctl]. apply pwf_rebuild; try assumption.
    + apply (blocks_store_link w T _ p); auto.
      apply (blocks_store_link w T _ n); auto.
      apply (pwf_blocks w T La Lu Hp).
    + eapply incl_tran; [exact Hinc | apply (pwf_incl w T La Lu Hp)].
Qed.

Lemma pwf_lists_free (w : world) (T : list blk) (La Lu : list Z) (l : list_ptr) (b : Z) :
  pwf w T La Lu -> In b (map baddr T) -> ~ In b (La ++ Lu) ->
  apart ((b :: lnodes (get_list l (el_ctl w)) (lsel l La Lu))
         ++ lnodes (get_list (lother l) (el_ctl w)) (lsel (lother l) La Lu)).
Proof.
  intros Hp Hb Hnb. pose proof (free_block_apart w T La Lu Hp b Hb Hnb) as Hap.
  destruct l; cbn [get_list lsel lother].
  - exact Hap.
  - eapply apart_perm; [|exact Hap].
    change ((b :: lnodes (used (el_ctl w)) Lu) ++ lnodes (avail (el_ctl w)) La)
      with (b :: (lnodes (used (el_ctl w)) Lu ++ lnodes (avail (el_ctl w)) La)).
    apply perm_skip. apply Permutation_app_comm.
Qed.

Lemma el_add_block_front_spec (w : world) (T : list blk) (La Lu : list Z)
      (l : list_ptr) (b : Z) :
  pwf w T La Lu -> In b (map baddr T) -> ~ In b (La ++ Lu) ->
  exists w',
    el_add_block_front l b w = Some (tt, w') /\ same_frame w w' /\
    pwf w' T (lset_avail l (b :: lsel l La Lu) La) (lset_used l (b :: lsel l La Lu) Lu).
Proof.
  intros Hp Hb Hnb.
  pose proof (pwf_geom w T La Lu Hp) as Hg.
  pose proof (pwf_tiles w T La Lu Hp) as Ht.
  destruct (pwf_lists w T La Lu l Hp) as (Hok & Hok' & _ & Hnode).
  pose proof (pwf_lists_free w T La Lu l b Hp Hb Hnb) as Hap.
  assert (Nb : node w T b) by (right; exact Hb).
  assert (Nx : node w T (l_beg (get_list l (el_ctl w)))).
  { apply Hnode. apply in_or_app. left. unfold lnodes. left. reflexivity. }
  pose proof (node_range w T Hg Ht b Nb) as Rb.
  pose proof (node_range w T Hg Ht _ Nx) as Rx.
  destruct (list_ok_add _ _ _ _ _ b Hap ltac:(lia) ltac:(lia) Hok Hok')
    as (Hn1 & In_n & Hnew & Hoth).
  set (x := l_beg (get_list l (el_ctl w))) in *.
  set (n := load8 (mem w) (x + off_next)) in *.
  assert (Nn : node w T n).
  { apply Hnode. apply in_or_app. left. unfold lnodes. right. exact In_n. }
  destruct (lists_add l La Lu b (pwf_nodup w T La Lu Hp) Hnb) as (Hnd & Hmem).
  eexists. split; [|split].
  - unfold el_add_block_front. accessors.
    mctl. fold x.
    mrun ltac:(eapply (valid_node w T Hg Ht); [reflexivity | eassumption | consts; lia ..]).
    fold n.
    mrun ltac:(eapply (valid_node w T Hg Ht); [reflexivity | eassumption | consts; lia ..]).
    mrun ltac:(eapply (valid_node w T Hg Ht); [reflexivity | eassumption | consts; lia ..]).
    mrun ltac:(eapply (valid_node w T Hg Ht); [reflexivity | eassumption | consts; lia ..]).
    rewrite Hn1.
    mrun ltac:(eapply (valid_node w T Hg Ht); [reflexivity | eassumption | consts; lia ..]).
    mrun ltac:(eapply (valid_node w T Hg Ht); [reflexivity | eassumption | consts; lia ..]).
    mrun ltac:(eapply (valid_node w T Hg Ht); [reflexivity | eassumption | consts; lia ..]).
    mctl.
    apply put_blocklist_run.
  - cbn [mem mapped el_ctl]. apply same_frame_set_list.
  - cbn [mem mapped el_ctl]. apply pwf_rebuild; try assumption.
    + apply (blocks_store_link w T _ x); auto.
      apply (blocks_store_link w T _ n); auto.
      apply (blocks_store_link w T _ b); auto.
      apply (blocks_store_link w T _ b); auto.
      apply (pwf_blocks w T La Lu Hp).
    + intros y Hy. apply Hmem in Hy. destruct Hy as [-> | Hy]; [exact Hb|].
      apply (pwf_incl w T La Lu Hp). exact Hy.
Qed.

(** ** Rewriting a region of the heap *)

Lemma store8_byte_other (m : memory) (a v x : Z) :
  x < a \/ a + 8 <= x -> store8 m a v x = m x.
Proof.
  intros H. unfold store8.
  replace ((a <=? x) && (x <? a + 8)) with false; [reflexivity|].
  symmetry. apply andb_false_iff.
  destruct H; [left; apply Z.leb_gt | right; apply Z.ltb_ge]; lia.
Qed.

Lemma store1_byte_other (m : memory) (a v x : Z) :
  x <> a -> store1 m a v x = m x.
Proof. intros H. unfold store1. destruct (Z.eqb_spec x a); [contradiction | reflexivity]. Qed.

Lemma load1_ext (m m' : memory) (a : Z) : m' a = m a -> load1 m' a = load1 m a.
Proof. intros H. unfold load1. rewrite H. reflexivity. Qed.

Lemma load8_ext (m m' : memory) (a : Z) :
  (forall i, 0 <= i < 8 -> m' (a + i) = m (a + i)) -> load8 m' a = load8 m a.
Proof.
  intros H. unfold load8, load1.
  pose proof (H 0 ltac:(lia)) as H0. rewrite Z.add_0_r in H0.
  rewrite H0, (H 1), (H 2), (H 3), (H 4), (H 5), (H 6), (H 7) by lia.
  reflexivity.
Qed.

Lemma list_ok_frame (m m' : memory) (l : el_blocklist_t) (L : list Z) :
  list_ok m l L ->
  (forall y, In y (lnodes l L) ->
             load8 m' (y + off_next) = load8 m (y + off_next) /\
             load8 m' (y + off_prev) = load8 m (y + off_prev)) ->
  (forall y, In y L -> load8 m' (y + off_size) = load8 m (y + off_size)) ->
  list_ok m' l L.
Proof.
  intros (Hl & Hlen & Hby) Hlk Hsz. unfold list_ok. split; [|split].
  - eapply links_frame; [exact Hl | | ].
    + intros y Hy. apply in_removelast in Hy. apply Hlk. exact Hy.
    + intros y Hy. apply Hlk. unfold lnodes. right. exact Hy.
  - exact Hlen.
  - rewrite Hby. f_equal. symmetry. apply lsum_frame. exact Hsz.
Qed.

Lemma tiles_state_irrel (T T' : list blk) (a e : Z) :
  map baddr T' = map baddr T -> map bsize T' = map bsize T ->
  tiles a T e -> tiles a T' e.
Proof.
  revert T' a. induction T as [|b T IH]; intros [|b' T'] a; simpl; try discriminate; auto.
  intros Ha Hs (H1 & H2 & H3).
  injection Ha as Ea Ha. injection Hs as Es Hs.
  repeat split; try congruence.
  apply IH; try assumption. unfold bend in *. rewrite Ea, Es. exact H3.
Qed.

Lemma lnodes_member (c : el_ctl_t) (La Lu : list Z) (y : Z) :
  In y (lnodes (avail c) La ++ lnodes (used c) Lu) ->
  In y (sentinels c) \/ In y (La ++ Lu).
Proof.
  unfold lnodes, sentinels. rewrite !in_app_iff. simpl. rewrite !in_app_iff. simpl.
  tauto.
Qed.

Lemma pwf_region (w : world) (T1 Told Tnew T2 : list blk) (La Lu : list Z)
      (lo hi : Z) (m' : memory) :
  pwf w (T1 ++ Told ++ T2) La Lu ->
  tiles lo Told hi -> tiles hi T2 (heap_end (el_ctl w)) ->
  tiles (heap_start (el_ctl w)) T1 lo ->
  tiles lo Tnew hi -> Forall (blk_ok m') Tnew ->
  (forall a, a < lo \/ hi <= a -> m' a = mem w a) ->
  (forall x, In x (La ++ Lu) -> In x (map baddr Told) ->
             In x (map baddr Tnew) /\
             forall i, 0 <= i < 8 \/ 16 <= i < 32 -> m' (x + i) = mem w (x + i)) ->
  pwf (mk_world m' (mapped w) (el_ctl w)) (T1 ++ Tnew ++ T2) La Lu.
Proof.
  intros Hp Hold H2 H1 Hnew Hbn Hout Hmem.
  pose proof (pwf_geom w _ La Lu Hp) as Hg.
  pose proof (pwf_tiles w _ La Lu Hp) as Ht.
  pose proof (tiles_le _ _ _ Hold) as Hlohi.
  pose proof (tiles_le _ _ _ H1) as Hslo.
  pose proof (tiles_le _ _ _ H2) as Hhie.
  assert (Hhdr : forall y, node w (T1 ++ Told ++ T2) y ->
                            In y (lnodes (avail (el_ctl w)) La ++ lnodes (used (el_ctl w)) Lu) ->
                            forall i, 0 <= i < 8 \/ 16 <= i < 32 -> m' (y + i) = mem w (y + i)).
  { intros y Ny Hy i Hi. destruct Ny as [Hs | Hb].
    - destruct (sentinel_facts w Hg y Hs) as (_ & _ & H). apply Hout. lia.
    - rewrite !map_app, !in_app_iff in Hb. destruct Hb as [Hb | [Hb | Hb]].
      + apply in_map_iff in Hb. destruct Hb as [b [<- Hb]].
        destruct (tiles_In _ _ _ _ H1 Hb) as (? & ? & ?). apply Hout. consts. lia.
      + assert (Hl : In y (La ++ Lu)).
        { destruct (lnodes_member _ _ _ _ Hy) as [Hs | Hl]; [|exact Hl].
          exfalso. apply (sentinel_not_blk w _ y Hg Ht Hs).
          rewrite !map_app, !in_app_iff. auto. }
        apply (proj2 (Hmem y Hl Hb)). exact Hi.
      + apply in_map_iff in Hb. destruct Hb as [b [<- Hb]].
        destruct (tiles_In _ _ _ _ H2 Hb) as (? & ? & ?). apply Hout. consts. lia. }
  assert (Hlist : forall l L,
             (forall y, In y (lnodes l L) ->
                        node w (T1 ++ Told ++ T2) y /\
                        In y (lnodes (avail (el_ctl w)) La ++ lnodes (used (el_ctl w)) Lu)) ->
             list_ok (mem w) l L -> list_ok m' l L).
  { intros l L Hall Hok. eapply list_ok_frame; [exact Hok | | ].
    - intros y Hy. destruct (Hall y Hy) as [Ny Iy].
      split; apply load8_ext; intros i Hi; unfold off_next, off_prev;
        rewrite <- Z.add_assoc; apply (Hhdr y Ny Iy); lia.
    - intros y Hy. assert (Hy' : In y (lnodes l L)).
      { unfold lnodes. right. apply in_or_app. left. exact Hy. }
      destruct (Hall y Hy') as [Ny Iy].
      apply load8_ext; intros i Hi; unfold off_size;
        rewrite <- Z.add_assoc; apply (Hhdr y Ny Iy); lia. }
  constructor; cbn [mem mapped el_ctl].
  - eapply geom_same_frame; [exact Hg | apply same_frame_mem].
  - apply tiles_app. exists lo. split; [exact H1|].
    apply tiles_app. exists hi. split; assumption.
  - rewrite !Forall_app. repeat split; [ | exact Hbn | ].
    + apply Forall_forall. intros b Hb.
      pose proof (pwf_blocks w _ La Lu Hp) as Hall. rewrite Forall_forall in Hall.
      destruct (Hall b) as (B1 & B2 & B3); [apply in_or_app; auto|].
      destruct (tiles_In _ _ _ _ H1 Hb) as (? & ? & ?).
      unfold blk_ok. repeat split.
      * rewrite <- B1. apply load8_ext. intros i Hi. apply Hout. consts. lia.
      * rewrite <- B2. apply load1_ext. apply Hout. consts. lia.
      * rewrite <- B3. apply load8_ext. intros i Hi. apply Hout. consts. lia.
    + apply Forall_forall. intros b Hb.
      pose proof (pwf_blocks w _ La Lu Hp) as Hall. rewrite Forall_forall in Hall.
      destruct (Hall b) as (B1 & B2 & B3); [apply in_or_app; right; apply in_or_app; auto|].
      destruct (tiles_In _ _ _ _ H2 Hb) as (? & ? & ?).
      unfold blk_ok. repeat split.
      * rewrite <- B1. apply load8_ext. intros i Hi. apply Hout. consts. lia.
      * rewrite <- B2. apply load1_ext. apply Hout. consts. lia.
      * rewrite <- B3. apply load8_ext. intros i Hi. apply Hout. consts. lia.
  - apply Hlist; [|apply (pwf_avail w _ La Lu Hp)].
    intros y Hy. split; [eapply lnodes_avail_node; eassumption | apply in_or_app; auto].
  - apply Hlist; [|apply (pwf_used w _ La Lu Hp)].
    intros y Hy. split; [eapply lnodes_used_node; eassumption | apply in_or_app; auto].
  - apply (pwf_nodup w _ La Lu Hp).
  - intros x Hx. pose proof (pwf_incl w _ La Lu Hp x Hx) as Hin.
    rewrite !map_app, !in_app_iff in *. destruct Hin as [Hin | [Hin | Hin]]; auto.
    right; left. apply (Hmem x); [rewrite in_app_iff; exact Hx | exact Hin].
Qed.

(** ** Pointer arithmetic on a well-formed heap *)

Lemma el_get_footer_raw (w : world) (b s : Z) :
  valid_access w (b + off_size) 8 = true ->
  load8 (mem w) (b + off_size) = s ->
  0 <= b -> 0 <= s -> b + 32 + s < WORD ->
  el_get_footer b w = Some (b + 32 + s, w).
Proof.
  intros Hv Hs Hb H0 Hlt. unfold el_get_footer. accessors.
  mrun ltac:(exact Hv). rewrite Hs. unfold ret, PTR_PLUS_BYTES.
  consts. unwrap. do 2 f_equal. lia.
Qed.

Lemma el_block_above_raw (w : world) (b s : Z) :
  valid_access w (b + off_size) 8 = true ->
  load8 (mem w) (b + off_size) = s ->
  0 <= b -> 0 <= s -> b + s + 40 < WORD ->
  el_block_above b w =
  Some (if b + s + 40 >=? heap_end (el_ctl w) then NULL else b + s + 40, w).
Proof.
  intros Hv Hs Hb H0 Hlt. unfold el_block_above. accessors.
  mrun ltac:(exact Hv). rewrite Hs. mctl. unfold PTR_PLUS_BYTES.
  assert (E : wrap (b + wrap (s + EL_BLOCK_OVERHEAD)) = b + s + 40).
  { consts. unwrap. lia. }
  rewrite E. destruct (_ >=? _); reflexivity.
Qed.

Section Pointers.
Variables (w : world) (T : list blk) (La Lu : list Z).
Hypothesis Hp : pwf w T La Lu.

Let Hg := pwf_geom w T La Lu Hp.
Let Ht := pwf_tiles w T La Lu Hp.

Lemma blk_facts (b : blk) :
  In b T ->
  blk_ok (mem w) b /\ 0 < baddr b /\ 0 <= bsize b /\ bend b < WORD /\
  heap_start (el_ctl w) <= baddr b /\ bend b <= heap_end (el_ctl w).
Proof.
  intros Hb. pose proof (pwf_blocks w T La Lu Hp) as Hall.
  rewrite Forall_forall in Hall.
  destruct (blk_in_heap w T Ht b Hb) as (? & ? & ?).
  pose proof (geom_start w Hg). pose proof (geom_lt w Hg).
  split; [apply Hall; exact Hb|]. repeat split; lia.
Qed.

Lemma get_size_spec (b : blk) :
  In b T -> get_size (baddr b) w = Some (bsize b, w).
Proof.
  intros Hb. destruct (blk_facts b Hb) as ((B1 & B2 & B3) & ? & ? & ? & ? & ?).
  unfold get_size. rewrite rd8_run.
  - rewrite B1. reflexivity.
  - apply (valid_heap w Hg); [reflexivity | consts; lia ..].
Qed.

Lemma get_state_spec (b : blk) :
  In b T -> get_state (baddr b) w = Some (bstate b, w).
Proof.
  intros Hb. destruct (blk_facts b Hb) as ((B1 & B2 & B3) & ? & ? & ? & ? & ?).
  unfold get_state. rewrite rd1_run.
  - rewrite B2. reflexivity.
  - apply (valid_heap w Hg); [reflexivity | consts; lia ..].
Qed.

Lemma el_get_footer_spec (b : blk) :
  In b T -> el_get_footer (baddr b) w = Some (bfoot b, w).
Proof.
  intros Hb. destruct (blk_facts b Hb) as ((B1 & B2 & B3) & ? & ? & ? & ? & ?).
  rewrite (el_get_footer_raw w (baddr b) (bsize b));
    [ reflexivity
    | apply (valid_heap w Hg); [reflexivity | consts; lia ..]
    | exact B1 | lia | lia | consts; lia ].
Qed.

Lemma el_block_above_spec (T1 : list blk) (b : blk) (T2 : list blk) :
  T = T1 ++ b :: T2 ->
  el_block_above (baddr b) w =
  Some (match T2 with [] => NULL | b2 :: _ => baddr b2 end, w).
Proof.
  intros ET.
  assert (Hb : In b T) by (rewrite ET; apply in_or_app; simpl; auto).
  destruct (blk_facts b Hb) as ((B1 & B2 & B3) & ? & ? & ? & ? & ?).
  rewrite (el_block_above_raw w (baddr b) (bsize b));
    [ | apply (valid_heap w Hg); [reflexivity | consts; lia ..]
      | exact B1 | lia | lia | consts; lia ].
  pose proof Ht as Ht'. rewrite ET in Ht'.
  apply tiles_split in Ht'. destruct Ht' as (_ & _ & Ht2).
  destruct T2 as [|b2 T2].
  - simpl in Ht2. unfold bend in Ht2. consts.
    replace (_ >=? _) with true; [reflexivity|].
    symmetry. apply Z.geb_le. lia.
  - simpl in Ht2. destruct Ht2 as (E & Hs2 & Ht2).
    apply tiles_le in Ht2. consts.
      replace (_ >=? _) with false; [f_equal; f_equal; lia|].
      symmetry. rewrite Z.geb_leb. apply Z.leb_gt. lia.
Qed.

Lemma el_block_below_first (b : blk) (T2 : list blk) :
  T = b :: T2 -> el_block_below (baddr b) w = Some (NULL, w).
Proof.
  intros ET. pose proof Ht as Ht'. rewrite ET in Ht'. simpl in Ht'.
  destruct Ht' as (E & _). unfold el_block_below. mctl.
  rewrite E, Z.eqb_refl. reflexivity.
Qed.

Lemma el_block_below_spec (T1 : list blk) (b0 b : blk) (T2 : list blk) :
  T = T1 ++ b0 :: b :: T2 ->
  el_block_below (baddr b) w = Some (baddr b0, w).
Proof.
  intros ET.
  assert (Hb0 : In b0 T) by (rewrite ET; apply in_or_app; simpl; auto).
  assert (Hb : In b T) by (rewrite ET; apply in_or_app; simpl; auto).
  destruct (blk_facts b0 Hb0) as ((B1 & B2 & B3) & ? & ? & ? & ? & ?).
  destruct (blk_facts b Hb) as (_ & ? & ? & ? & ? & ?).
  pose proof Ht as Ht'. rewrite ET in Ht'.
  apply tiles_split in Ht'. destruct Ht' as (_ & _ & Ht2).
  simpl in Ht2. destruct Ht2 as (E & _).
  unfold el_block_below. mctl.
  replace (baddr b =? heap_start (el_ctl w)) with false
    by (symmetry; apply Z.eqb_neq; consts; lia).
  unfold el_get_header, PTR_MINUS_BYTES. accessors.
  assert (EF : wrap (baddr b - sizeof_el_blockfoot_t) = bfoot b0).
  { consts. unwrap. lia. }
  rewrite EF.
  mrun ltac:(apply (valid_heap w Hg); [reflexivity | consts; lia ..]).
  rewrite B3. unfold ret, PTR_PLUS_BYTES. do 2 f_equal.
  rewrite wrap_add_r.
  transitivity (wrap (baddr b0)); [f_equal; consts; lia | apply wrap_small; consts; lia].
Qed.
End Pointers.

(** ** Writing block data *)

Lemma pwf_block_parts (w : world) (T1 : list blk) (b : blk) (T2 : list blk)
      (La Lu : list Z) :
  pwf w (T1 ++ b :: T2) La Lu ->
  geom w /\ tiles (heap_start (el_ctl w)) T1 (baddr b) /\
  tiles (bend b) T2 (heap_end (el_ctl w)) /\
  blk_ok (mem w) b /\ 0 < baddr b /\ 0 <= bsize b /\ bend b < WORD /\
  heap_start (el_ctl w) <= baddr b /\ bend b <= heap_end (el_ctl w).
Proof.
  intros Hp.
  assert (Hb : In b (T1 ++ b :: T2)) by (apply in_or_app; simpl; auto).
  destruct (blk_facts w _ La Lu Hp b Hb) as (B & ? & ? & ? & ? & ?).
  destruct (tiles_split _ _ _ _ _ (pwf_tiles w _ La Lu Hp)) as (Ht1 & _ & Ht2).
  pose proof (pwf_geom w _ La Lu Hp). tauto.
Qed.

Lemma set_state_spec (w : world) (T1 : list blk) (a s u0 : Z) (T2 : list blk)
      (La Lu : list Z) (u : Z) :
  pwf w (T1 ++ (a, s, u0) :: T2) La Lu -> 0 <= u < 256 ->
  exists w',
    set_state a u w = Some (tt, w') /\ same_frame w w' /\
    pwf w' (T1 ++ (a, s, u) :: T2) La Lu.
Proof.
  intros Hp Hu.
  destruct (pwf_block_parts w T1 (a, s, u0) T2 La Lu Hp)
    as (Hg & Ht1 & Ht2 & (B1 & B2 & B3) & ? & ? & ? & ? & ?).
  eexists. split; [|split].
  - unfold set_state. apply wr1_run.
    apply (valid_heap w Hg); [reflexivity | consts; lia ..].
  - apply same_frame_mem.
  - apply (pwf_region w T1 [(a, s, u0)] [(a, s, u)] T2 La Lu a (bend (a, s, u0))).
    + exact Hp.
    + simpl. consts. lia.
    + exact Ht2.
    + exact Ht1.
    + simpl. consts. lia.
    + constructor; [|constructor]. unfold blk_ok. consts. repeat split.
      * frame. exact B1.
      * rewrite load1_store1_same. apply Z.mod_small. exact Hu.
      * frame. exact B3.
    + intros x Hx. apply store1_byte_other. consts. lia.
    + intros x Hx [E | []]. simpl in E. subst x. split; [left; reflexivity|].
      intros i Hi. apply store1_byte_other. consts. lia.
Qed.

Lemma el_split_block_spec (w : world) (T1 : list blk) (a s u : Z) (T2 : list blk)
      (La Lu : list Z) (n : Z) :
  pwf w (T1 ++ (a, s, u) :: T2) La Lu -> ~ In a (La ++ Lu) ->
  0 <= n -> n + EL_BLOCK_OVERHEAD <= s ->
  exists w' u',
    el_split_block a n w = Some (a + n + EL_BLOCK_OVERHEAD, w') /\ same_frame w w' /\
    pwf w' (T1 ++ (a, n, u) :: (a + n + EL_BLOCK_OVERHEAD, s - n - EL_BLOCK_OVERHEAD, u') :: T2)
        La Lu.
Proof.
  intros Hp Hna Hn Hns.
  destruct (pwf_block_parts w T1 (a, s, u) T2 La Lu Hp)
    as (Hg & Ht1 & Ht2 & (B1 & B2 & B3) & ? & ? & ? & ? & ?).
  pose proof (geom_lt w Hg) as Hlt.
  assert (Hv : forall w' x k, mapped w' = mapped w -> a <= x -> x + k <= a + s + 40 ->
                              valid_access w' x k = true).
  { intros w' x k Hm Hx Hk. apply (valid_heap w Hg); [exact Hm | consts; lia ..]. }
  set (m1 := store8 (mem w) a n).
  set (m2 := store8 m1 (a + 32 + n) n).
  set (m3 := store8 m2 (a + n + 40) (s - n - 40)).
  set (m4 := store8 m3 (a + 32 + s) (s - n - 40)).
  assert (Erun : el_split_block a n w =
                 Some (a + n + EL_BLOCK_OVERHEAD, mk_world m4 (mapped w) (el_ctl w))).
  { unfold el_split_block. accessors. consts.
    mrun ltac:(apply Hv; [reflexivity | consts; lia ..]).
    replace (a + 0) with a in * by lia. rewrite B1.
    replace (s <? wrap (n + 40)) with false
      by (symmetry; apply Z.ltb_ge; unwrap; lia).
    erewrite bind_Some
      by (apply (el_get_footer_raw _ a s); [apply Hv; [reflexivity | consts; lia ..] | replace (a + off_size) with a by (consts; lia); exact B1 | consts; lia ..]).
    wsimpl.
    mrun ltac:(replace (a + 0) with a by lia; apply Hv; [reflexivity | consts; lia ..]).
    replace (a + 0) with a by lia. rewrite B1.
    mrun ltac:(replace (a + 0) with a by lia; apply Hv; [reflexivity | consts; lia ..]).
    replace (a + 0) with a by lia. fold m1.
    erewrite bind_Some
      by (apply (el_get_footer_raw _ a n);
          [apply Hv; [reflexivity | consts; lia ..]
          | cbn [mem]; replace (a + off_size) with a by (consts; lia);
            unfold m1; rewrite load8_store8_same; apply wrap_small; lia
          | consts; lia ..]).
    wsimpl.
    mrun ltac:(apply Hv; [reflexivity | consts; lia ..]).
    fold m2.
    erewrite bind_Some
      by (apply (el_block_above_raw _ a n);
          [apply Hv; [reflexivity | consts; lia ..]
          | cbn [mem]; replace (a + off_size) with a by (consts; lia);
            unfold m2, m1; frame; rewrite load8_store8_same; apply wrap_small; lia
          | consts; lia ..]).
    wsimpl.
    replace (a + n + 40 >=? heap_end (el_ctl w)) with false
      by (symmetry; rewrite Z.geb_leb; apply Z.leb_gt; lia).
    replace (wrap (wrap (s - n) - 40)) with (s - n - 40) by (unwrap; lia).
    mrun ltac:(apply Hv; [reflexivity | consts; lia ..]).
    replace (a + n + 40 + 0) with (a + n + 40) by lia. fold m3.
    mrun ltac:(replace (a + n + 40 + 0) with (a + n + 40) by lia; apply Hv; [reflexivity | consts; lia ..]).
    replace (a + n + 40 + 0) with (a + n + 40) by lia.
    replace (load8 m3 (a + n + 40)) with (s - n - 40)
      by (unfold m3; rewrite load8_store8_same; symmetry; apply wrap_small; lia).
    mrun ltac:(apply Hv; [reflexivity | consts; lia ..]).
    fold m4. reflexivity. }
  exists (mk_world m4 (mapped w) (el_ctl w)), (load1 m4 (a + n + 40 + 8)).
  split; [exact Erun|]. split; [apply same_frame_mem|].
  apply (pwf_region w T1 [(a, s, u)]
           [(a, n, u); (a + n + EL_BLOCK_OVERHEAD, s - n - EL_BLOCK_OVERHEAD,
                        load1 m4 (a + n + 40 + 8))]
           T2 La Lu a (bend (a, s, u))).
  - exact Hp.
  - simpl. consts. lia.
  - exact Ht2.
  - exact Ht1.
  - simpl. consts. lia.
  - consts. constructor; [|constructor; [|constructor]]; unfold blk_ok; consts;
      rewrite ?Z.add_0_r; repeat split; try reflexivity.
    + unfold m4, m3, m2, m1. frame. rewrite load8_store8_same. apply wrap_small. lia.
    + unfold m4, m3, m2, m1. frame. exact B2.
    + unfold m4, m3, m2, m1. frame. rewrite load8_store8_same. apply wrap_small. lia.
    + unfold m4, m3. frame. rewrite load8_store8_same. apply wrap_small. lia.
    + replace (a + n + 40 + 32 + (s - n - 40)) with (a + 32 + s) by lia.
      unfold m4. rewrite load8_store8_same. apply wrap_small. lia.
  - intros x Hx. unfold m4, m3, m2, m1.
    rewrite !store8_byte_other by (consts; lia). reflexivity.
  - intros x Hx [E | []]. simpl in E. subst x. contradiction.
Qed.

(** ** Merging two neighbours *)

Lemma remove_split (L1 : list Z) (x : Z) (L2 : list Z) :
  NoDup (L1 ++ x :: L2) -> remove Z.eq_dec x (L1 ++ x :: L2) = L1 ++ L2.
Proof.
  intros Hnd. pose proof (NoDup_remove_2 _ _ _ Hnd) as Hn.
  rewrite remove_app. simpl. destruct (Z.eq_dec x x) as [_ | C]; [|contradiction].
  rewrite !notin_remove; [reflexivity | | ];
    intros Hin; apply Hn; apply in_or_app; auto.
Qed.

Ltac mcall H := erewrite bind_Some by (exact H); wsimpl.

(** The two stores of [el_merge_block_with_above] that turn two adjacent
    blocks, both out of the lists, into one. *)
Lemma merge_data_spec (w : world) (T1 : list blk) (a s1 u1 h s2 u2 : Z)
      (T2 : list blk) (La Lu : list Z) :
  pwf w (T1 ++ (a, s1, u1) :: (h, s2, u2) :: T2) La Lu ->
  ~ In a (La ++ Lu) -> ~ In h (La ++ Lu) ->
  exists w',
    (set_size a (s1 + s2 + 40) ;;
     foot <- el_get_footer h ;;
     set_foot_size foot (s1 + s2 + 40)) w = Some (tt, w') /\
    same_frame w w' /\
    pwf w' (T1 ++ (a, s1 + s2 + 40, u1) :: T2) La Lu.
Proof.
  intros Hp Hna Hnh.
  destruct (pwf_block_parts w T1 (a, s1, u1) _ La Lu Hp)
    as (Hg & Ht1 & Ht2 & (B1 & B2 & B3) & ? & ? & ? & ? & ?).
  assert (Hp' : pwf w ((T1 ++ [(a, s1, u1)]) ++ (h, s2, u2) :: T2) La Lu).
  { rewrite <- app_assoc. exact Hp. }
  destruct (pwf_block_parts w _ (h, s2, u2) T2 La Lu Hp')
    as (_ & _ & Ht3 & (C1 & C2 & C3) & ? & ? & ? & ? & ?).
  simpl in Ht2. destruct Ht2 as (Eh & _ & _).
  assert (Hv : forall w' x k, mapped w' = mapped w -> a <= x -> x + k <= h + s2 + 40 ->
                              valid_access w' x k = true).
  { intros w' x k Hm Hx Hk. apply (valid_heap w Hg); [exact Hm | consts; lia ..]. }
  set (m1 := store8 (mem w) a (s1 + s2 + 40)).
  set (m2 := store8 m1 (h + 32 + s2) (s1 + s2 + 40)).
  exists (mk_world m2 (mapped w) (el_ctl w)).
  split; [|split].
  - accessors.
    mrun ltac:(apply Hv; [reflexivity | consts; lia ..]).
    erewrite bind_Some
      by (apply (el_get_footer_raw _ h s2);
          [apply Hv; [reflexivity | consts; lia ..]
          | cbn [mem]; frame; exact C1
          | consts; lia ..]).
    wsimpl. consts. rewrite Z.add_0_r. fold m1.
    rewrite wr8_run by (apply Hv; [reflexivity | consts; lia ..]).
    reflexivity.
  - apply same_frame_mem.
  - apply (pwf_region w T1 [(a, s1, u1); (h, s2, u2)] [(a, s1 + s2 + 40, u1)]
             T2 La Lu a (bend (h, s2, u2))).
    + exact Hp.
    + simpl. consts. lia.
    + exact Ht3.
    + exact Ht1.
    + simpl. consts. lia.
    + constructor; [|constructor]. unfold blk_ok. consts. rewrite ?Z.add_0_r.
      repeat split.
      * unfold m2, m1. frame. rewrite load8_store8_same. apply wrap_small. lia.
      * unfold m2, m1. frame. exact B2.
      * replace (a + 32 + (s1 + s2 + 40)) with (h + 32 + s2) by lia.
        unfold m2. rewrite load8_store8_same. apply wrap_small. lia.
    + intros x Hx. unfold m2, m1.
      rewrite !store8_byte_other by (consts; lia). reflexivity.
    + intros x Hx [E | [E | []]]; simpl in E; subst x; contradiction.
Qed.

Lemma el_merge_block_with_above_spec (w : world) (T1 : list blk)
      (a s1 u1 h s2 u2 : Z) (T2 : list blk) (La Lu : list Z) :
  pwf w (T1 ++ (a, s1, u1) :: (h, s2, u2) :: T2) La Lu ->
  u1 <> EL_USED -> u2 <> EL_USED -> In a La -> In h La ->
  exists w',
    el_merge_block_with_above a w = Some (tt, w') /\ same_frame w w' /\
    pwf w' (T1 ++ (a, s1 + s2 + 40, u1) :: T2)
        (a :: remove Z.eq_dec h (remove Z.eq_dec a La)) Lu.
Proof.
  intros Hp Hu1 Hu2 Ha Hh.
  destruct (pwf_block_parts w T1 (a, s1, u1) _ La Lu Hp) as (_ & _ & Ht2 & _).
  simpl in Ht2. destruct Ht2 as (Eh & _).
  set (T := T1 ++ (a, s1, u1) :: (h, s2, u2) :: T2) in *.
  assert (HaT : In (a, s1, u1) T) by (apply in_or_app; simpl; auto).
  assert (HhT : In (h, s2, u2) T) by (apply in_or_app; simpl; auto).
  destruct (blk_facts w T La Lu Hp _ HaT) as (_ & ? & ? & ? & ? & ?).
  destruct (blk_facts w T La Lu Hp _ HhT) as (_ & ? & ? & ? & ? & ?).
  pose proof (geom_lt w (pwf_geom w T La Lu Hp)) as Hlt.
  unfold baddr, bsize, bend in *. simpl fst in *. simpl snd in *.
  (* unlink the lower block *)
  destruct (in_split a La Ha) as (L1 & L2 & EL).
  pose proof (pwf_nodup w T La Lu Hp) as Hnd.
  assert (HndA : NoDup La) by (eapply NoDup_app_remove_r; exact Hnd).
  assert (ER1 : remove Z.eq_dec a La = L1 ++ L2).
  { rewrite EL. apply remove_split. rewrite <- EL. exact HndA. }
  destruct (el_remove_block_spec w T La Lu AVAIL L1 a L2 Hp EL) as (w1 & R1 & F1 & P1).
  cbn [lset_avail lset_used] in P1.
  (* unlink the higher block *)
  assert (Hah : a <> h) by (consts; lia).
  assert (Hh1 : In h (L1 ++ L2)).
  { rewrite <- ER1. apply in_in_remove; [congruence | exact Hh]. }
  destruct (in_split h _ Hh1) as (M1 & M2 & EM).
  pose proof (pwf_nodup w1 T _ Lu P1) as Hnd1.
  assert (HndB : NoDup (L1 ++ L2)) by (eapply NoDup_app_remove_r; exact Hnd1).
  assert (ER2 : remove Z.eq_dec h (remove Z.eq_dec a La) = M1 ++ M2).
  { rewrite ER1, EM. apply remove_split. rewrite <- EM. exact HndB. }
  destruct (el_remove_block_spec w1 T _ Lu AVAIL M1 h M2 P1 EM) as (w2 & R2 & F2 & P2).
  cbn [lset_avail lset_used] in P2.
  destruct (lists_remove AVAIL La Lu L1 a L2 EL Hnd) as (_ & _ & Hna).
  destruct (lists_remove AVAIL (L1 ++ L2) Lu M1 h M2 EM Hnd1) as (_ & Hinc2 & Hnh).
  cbn [lset_avail lset_used] in Hna, Hnh, Hinc2.
  assert (Hna2 : ~ In a ((M1 ++ M2) ++ Lu)).
  { intros Hin. apply Hna. apply Hinc2. exact Hin. }
  (* rewrite the sizes *)
  destruct (merge_data_spec w2 T1 a s1 u1 h s2 u2 T2 _ Lu P2 Hna2 Hnh) as (w3 & R3 & F3 & P3).
  (* link the merged block *)
  destruct (el_add_block_front_spec w3 _ _ Lu AVAIL a P3) as (w4 & R4 & F4 & P4).
  { rewrite map_app. apply in_or_app. right. simpl. auto. }
  { exact Hna2. }
  cbn [lset_avail lset_used lsel] in P4.
  exists w4. split; [|split].
  - unfold el_merge_block_with_above.
    replace (a =? NULL) with false by (symmetry; apply Z.eqb_neq; unfold NULL; lia).
    mcall (get_state_spec w T La Lu Hp _ HaT). cbn [bstate snd].
    replace (u1 =? EL_USED) with false by (symmetry; apply Z.eqb_neq; exact Hu1).
    mcall (el_block_above_spec w T La Lu Hp T1 (a, s1, u1) _ eq_refl). cbn [baddr fst].
    replace (h =? NULL) with false by (symmetry; apply Z.eqb_neq; unfold NULL; lia).
    mcall (get_state_spec w T La Lu Hp _ HhT). cbn [bstate snd].
    replace (u2 =? EL_USED) with false by (symmetry; apply Z.eqb_neq; exact Hu2).
    mcall (get_size_spec w T La Lu Hp _ HaT).
    mcall (get_size_spec w T La Lu Hp _ HhT). cbn [bsize baddr fst snd].
    replace (wrap (wrap (s1 + s2) + EL_BLOCK_OVERHEAD)) with (s1 + s2 + 40)
      by (consts; unwrap; lia).
    mcall R1. mcall R2.
    unfold bind at 1 in R3.
    destruct (set_size a (s1 + s2 + 40) w2) as [[[] w2']|] eqn:E1; [|discriminate].
    mcall E1.
    unfold bind at 1 in R3.
    destruct (el_get_footer h w2') as [[foot w2'']|] eqn:E2; [|discriminate].
    mcall E2. mcall R3. exact R4.
  - eapply same_frame_trans; [exact F1|].
    eapply same_frame_trans; [exact F2|].
    eapply same_frame_trans; [exact F3 | exact F4].
  - rewrite ER2. exact P4.
Qed.

(** ** First fit *)

Lemma merge_null (w : world) : el_merge_block_with_above NULL w = Some (tt, w).
Proof. reflexivity. Qed.

Lemma find_loop_spec (w : world) (T : list blk) (La Lu : list Z) (size : Z) :
  pwf w T La Lu ->
  forall (R : list Z) (x : Z) (fuel : nat),
    incl R La -> links (mem w) x (R ++ [l_end (avail (el_ctl w))]) ->
    (List.length R < fuel)%nat ->
    find_loop fuel size (hd 0 (R ++ [l_end (avail (el_ctl w))])) w =
    Some (first_fit (mem w) (wrap (size + EL_BLOCK_OVERHEAD)) R, w).
Proof.
  intros Hp.
  pose proof (pwf_geom w T La Lu Hp) as Hg.
  pose proof (pwf_tiles w T La Lu Hp) as Ht.
  induction R as [|y R IH]; intros x fuel Hinc Hl Hf.
  - destruct fuel as [|fuel]; [simpl in Hf; lia|].
    simpl. mctl. cbn [get_list]. rewrite Z.eqb_refl. reflexivity.
  - destruct fuel as [|fuel]; [simpl in Hf; lia|].
    simpl in Hl. destruct Hl as (_ & _ & Hl).
    assert (HyLa : In y La) by (apply Hinc; left; reflexivity).
    assert (Ny : node w T y).
    { apply (lnodes_avail_node w T La Lu Hp). unfold lnodes. right.
      apply in_or_app. left. exact HyLa. }
    assert (Hne : y <> l_end (avail (el_ctl w))).
    { pose proof (all_nodes_NoDup w T La Lu Hp) as Hnd.
      apply NoDup_app_remove_r in Hnd. unfold lnodes in Hnd.
      inversion Hnd as [|? ? _ Hnd']. intros E.
      apply in_split in HyLa. destruct HyLa as (A & B & EL).
      rewrite EL in Hnd'. rewrite <- app_assoc in Hnd'. simpl in Hnd'.
      apply NoDup_remove_2 in Hnd'. apply Hnd'.
      rewrite E. rewrite !in_app_iff. simpl. auto. }
    cbn [app hd find_loop]. mctl. cbn [get_list].
    replace (y =? l_end (avail (el_ctl w))) with false
      by (symmetry; apply Z.eqb_neq; exact Hne).
    accessors.
    mrun ltac:(eapply (valid_node w T Hg Ht); [reflexivity | eassumption | consts; lia ..]).
    cbn [first_fit].
    destruct (load8 (mem w) (y + off_size) >=? wrap (size + EL_BLOCK_OVERHEAD));
      [reflexivity|].
    mrun ltac:(eapply (valid_node w T Hg Ht); [reflexivity | eassumption | consts; lia ..]).
    assert (En : load8 (mem w) (y + off_next) = hd 0 (R ++ [l_end (avail (el_ctl w))])).
    { destruct R; simpl in Hl |- *; tauto. }
    rewrite En. apply (IH y).
    + intros z Hz. apply Hinc. right. exact Hz.
    + exact Hl.
    + simpl in Hf. lia.
Qed.

Lemma el_find_first_avail_spec (w : world) (T : list blk) (La Lu : list Z)
      (size : Z) (fuel : nat) :
  pwf w T La Lu -> (List.length La < fuel)%nat ->
  el_find_first_avail fuel size w =
  Some (first_fit (mem w) (wrap (size + EL_BLOCK_OVERHEAD)) La, w).
Proof.
  intros Hp Hf.
  pose proof (pwf_geom w T La Lu Hp) as Hg.
  pose proof (pwf_tiles w T La Lu Hp) as Ht.
  destruct (pwf_avail w T La Lu Hp) as (Hl & _ & _).
  unfold el_find_first_avail. mctl. cbn [get_list]. accessors.
  mrun ltac:(eapply (valid_node w T Hg Ht);
             [reflexivity
             | apply (lnodes_avail_node w T La Lu Hp); left; reflexivity
             | consts; lia ..]).
  assert (En : load8 (mem w) (l_beg (avail (el_ctl w)) + off_next)
               = hd 0 (La ++ [l_end (avail (el_ctl w))])).
  { destruct La; simpl in Hl |- *; tauto. }
  rewrite En. apply (find_loop_spec w T La Lu size Hp La (l_beg (avail (el_ctl w)))).
  - apply incl_refl.
  - exact Hl.
  - exact Hf.
Qed.

Lemma first_fit_found (m : memory) (need : Z) (L1 : list Z) (a : Z) (L2 : list Z) :
  (forall y, In y L1 -> load8 m (y + off_size) < need) ->
  need <= load8 m (a + off_size) ->
  first_fit m need (L1 ++ a :: L2) = a.
Proof.
  intros H1 Ha. induction L1 as [|y L1 IH]; simpl.
  - replace (_ >=? _) with true; [reflexivity|]. symmetry. apply Z.geb_le. exact Ha.
  - replace (_ >=? _) with false.
    + apply IH. intros z Hz. apply H1. right. exact Hz.
    + symmetry. rewrite Z.geb_leb. apply Z.leb_gt. apply H1. left. reflexivity.
Qed.

Lemma first_fit_none (m : memory) (need : Z) (L : list Z) :
  (forall y, In y L -> load8 m (y + off_size) < need) ->
  first_fit m need L = NULL.
Proof.
  intros H. induction L as [|y L IH]; simpl; [reflexivity|].
  replace (_ >=? _) with false.
  - apply IH. intros z Hz. apply H. right. exact Hz.
  - symmetry. rewrite Z.geb_leb. apply Z.leb_gt. apply H. left. reflexivity.
Qed.

(** The search result is either [NULL], with every member too small, or
    the first member that is large enough. *)
Lemma first_fit_cases (m : memory) (need : Z) (L : list Z) :
  (first_fit m need L = NULL /\ forall y, In y L -> load8 m (y + off_size) < need) \/
  (exists L1 a L2, L = L1 ++ a :: L2 /\ first_fit m need L = a /\
                   (forall y, In y L1 -> load8 m (y + off_size) < need) /\
                   need <= load8 m (a + off_size)).
Proof.
  induction L as [|y L IH]; simpl.
  - left. split; [reflexivity | tauto].
  - destruct (load8 m (y + off_size) >=? need) eqn:E.
    + right. exists [], y, L. simpl. repeat split; [tauto|].
      apply Z.geb_le in E. exact E.
    + rewrite Z.geb_leb in E. apply Z.leb_gt in E.
      destruct IH as [[H1 H2] | (L1 & a & L2 & EL & Ea & H1 & H2)].
      * left. split; [exact H1|]. intros z [<- | Hz]; auto.
      * right. exists (y :: L1), a, L2. subst L. simpl. repeat split; auto.
        intros z [<- | Hz]; auto.
Qed.

(** ** Allocation on a well-formed heap *)

Lemma tiles_others (T1 : list blk) (b : blk) (T2 : list blk) (x e : Z) (b' : blk) :
  tiles x (T1 ++ b :: T2) e -> In b' (T1 ++ T2) ->
  0 <= bsize b' /\ (bend b' <= baddr b \/ bend b <= baddr b').
Proof.
  intros Ht Hin. destruct (tiles_split _ _ _ _ _ Ht) as (H1 & Hs & H2).
  apply in_app_or in Hin. destruct Hin as [Hin | Hin].
  - destruct (tiles_In _ _ _ _ H1 Hin) as (? & ? & ?). auto.
  - destruct (tiles_In _ _ _ _ H2 Hin) as (? & ? & ?). auto.
Qed.

Lemma state_ok_mono (La Lu La' Lu' : list Z) (b : blk) :
  state_ok La Lu b ->
  (In (baddr b) La -> In (baddr b) La') ->
  (In (baddr b) Lu -> In (baddr b) Lu') ->
  state_ok La' Lu' b.
Proof. unfold state_ok. tauto. Qed.

Lemma Forall_app_others (P Q : blk -> Prop) (T1 : list blk) (b : blk) (T2 : list blk) :
  Forall P (T1 ++ b :: T2) ->
  (forall b', In b' (T1 ++ T2) -> P b' -> Q b') ->
  Forall Q T1 /\ Forall Q T2.
Proof.
  intros H HPQ. rewrite Forall_app in H. destruct H as [H1 H2].
  inversion H2 as [|? ? _ H2']. subst.
  rewrite Forall_forall in H1, H2'.
  split; apply Forall_forall; intros b' Hb'; apply HPQ; auto; apply in_or_app; auto.
Qed.

Lemma wf_in_avail (w : world) (T : list blk) (La Lu : list Z) (b : blk) :
  wf w T La Lu -> In b T -> bstate b = EL_AVAILABLE -> In (baddr b) La.
Proof.
  intros [_ Hs] Hb Hst. rewrite Forall_forall in Hs.
  destruct (Hs b Hb) as [[_ H] | [E _]]; [exact H|].
  rewrite Hst in E. discriminate.
Qed.

Lemma wf_in_used (w : world) (T : list blk) (La Lu : list Z) (b : blk) :
  wf w T La Lu -> In b T -> bstate b = EL_USED -> In (baddr b) Lu.
Proof.
  intros [_ Hs] Hb Hst. rewrite Forall_forall in Hs.
  destruct (Hs b Hb) as [[E _] | [_ H]]; [|exact H].
  rewrite Hst in E. discriminate.
Qed.

Lemma el_malloc_spec (w : world) (T1 : list blk) (a s : Z) (T2 : list blk)
      (L1 L2 Lu : list Z) (n : Z) (fuel : nat) :
  wf w (T1 ++ (a, s, EL_AVAILABLE) :: T2) (L1 ++ a :: L2) Lu ->
  (forall y, In y L1 -> load8 (mem w) (y + off_size) < n + 40) ->
  0 <= n -> n + 40 <= s -> (List.length (L1 ++ a :: L2) < fuel)%nat ->
  exists w',
    el_malloc fuel n w = Some (a + 32, w') /\ same_frame w w' /\
    wf w' (T1 ++ (a, n, EL_USED) :: (a + n + 40, s - n - 40, EL_AVAILABLE) :: T2)
       ((a + n + 40) :: L1 ++ L2) (a :: Lu).
Proof.
  intros [Hp Hst] Hsmall Hn Hns Hfuel.
  destruct (pwf_block_parts w T1 _ T2 _ Lu Hp)
    as (Hg & Ht1 & Ht2 & (B1 & B2 & B3) & ? & ? & ? & ? & ?).
  pose proof (geom_lt w Hg) as Hlt.
  unfold baddr, bsize, bend in *. simpl fst in *. simpl snd in *.
  change EL_BLOCK_OVERHEAD with 40 in *.
  (* search *)
  pose proof (el_find_first_avail_spec w _ _ Lu n fuel Hp Hfuel) as Rf.
  assert (En : wrap (n + EL_BLOCK_OVERHEAD) = n + 40) by (consts; unwrap; lia).
  rewrite En in Rf. rewrite first_fit_found in Rf; [|exact Hsmall | lia].
  (* unlink from the available list *)
  destruct (el_remove_block_spec w _ _ Lu AVAIL L1 a L2 Hp eq_refl) as (w1 & R1 & F1 & P1).
  cbn [lset_avail lset_used] in P1.
  destruct (lists_remove AVAIL _ Lu L1 a L2 eq_refl (pwf_nodup w _ _ Lu Hp))
    as (Hnd1 & _ & Hna1).
  cbn [lset_avail lset_used] in Hnd1, Hna1.
  (* split *)
  destruct (el_split_block_spec w1 T1 a s EL_AVAILABLE T2 _ Lu n P1 Hna1 Hn Hns)
    as (w2 & u' & R2 & F2 & P2).
  change EL_BLOCK_OVERHEAD with 40 in *.
  (* link into the used list *)
  destruct (el_add_block_front_spec w2 _ _ Lu USED a P2) as (w3 & R3 & F3 & P3).
  { rewrite map_app. apply in_or_app. right. simpl. auto. }
  { exact Hna1. }
  cbn [lset_avail lset_used lsel] in P3.
  destruct (set_state_spec w3 T1 a n EL_AVAILABLE _ _ _ EL_USED P3) as (w4 & R4 & F4 & P4).
  { unfold EL_USED. lia. }
  (* link the remainder into the available list *)
  set (r := a + n + 40) in *.
  assert (Hr_blk : In r (map baddr (T1 ++ (a, n, EL_USED) :: (r, s - n - 40, u') :: T2))).
  { rewrite map_app. apply in_or_app. right. simpl. auto. }
  assert (Hr_free : ~ In r ((L1 ++ L2) ++ a :: Lu)).
  { intros Hin. apply in_app_or in Hin. destruct Hin as [Hin | [E | Hin]].
    - assert (Hin' : In r (map baddr (T1 ++ (a, s, EL_AVAILABLE) :: T2))).
      { apply (pwf_incl w1 _ _ Lu P1). apply in_or_app. left. exact Hin. }
      apply in_map_iff in Hin'. destruct Hin' as [b' [Eb' Hb']].
      apply in_app_or in Hb'. destruct Hb' as [Hb' | [<- | Hb']].
      + destruct (tiles_In _ _ _ _ Ht1 Hb') as (? & ? & ?). consts. lia.
      + consts. lia.
      + destruct (tiles_In _ _ _ _ Ht2 Hb') as (? & ? & ?). consts. lia.
    - unfold r in E. lia.
    - assert (Hin' : In r (map baddr (T1 ++ (a, s, EL_AVAILABLE) :: T2))).
      { apply (pwf_incl w _ _ Lu Hp). apply in_or_app. right. exact Hin. }
      apply in_map_iff in Hin'. destruct Hin' as [b' [Eb' Hb']].
      apply in_app_or in Hb'. destruct Hb' as [Hb' | [<- | Hb']].
      + destruct (tiles_In _ _ _ _ Ht1 Hb') as (? & ? & ?). consts. lia.
      + consts. lia.
      + destruct (tiles_In _ _ _ _ Ht2 Hb') as (? & ? & ?). consts. lia. }
  destruct (el_add_block_front_spec w4 _ _ _ AVAIL r P4 Hr_blk Hr_free)
    as (w5 & R5 & F5 & P5).
  cbn [lset_avail lset_used lsel] in P5.
  assert (P5' : pwf w5 ((T1 ++ [(a, n, EL_USED)]) ++ (r, s - n - 40, u') :: T2)
                    (r :: L1 ++ L2) (a :: Lu)).
  { rewrite <- app_assoc. exact P5. }
  destruct (set_state_spec w5 _ r (s - n - 40) u' T2 _ _ EL_AVAILABLE P5')
    as (w6 & R6 & F6 & P6).
  { unfold EL_AVAILABLE. lia. }
  rewrite <- app_assoc in P6. simpl in P6.
  exists w6. split; [|split; [|split]].
  - unfold el_malloc. mcall Rf.
    replace (a =? NULL) with false by (symmetry; apply Z.eqb_neq; unfold NULL; lia).
    mcall R1. mcall R2. mcall R3. mcall R4.
    replace (r =? NULL) with false by (symmetry; apply Z.eqb_neq; unfold NULL, r; lia).
    erewrite bind_Some; [|erewrite bind_Some by (exact R5); exact R6].
    unfold ret, PTR_PLUS_BYTES. consts. unwrap. reflexivity.
  - repeat (eapply same_frame_trans; [eassumption|]). apply same_frame_refl.
  - exact P6.
  - destruct (Forall_app_others _ (state_ok (r :: L1 ++ L2) (a :: Lu)) _ _ _ Hst) as [S1 S2].
    { intros b' Hb' Hs'.
      destruct (tiles_others _ _ _ _ _ b' (pwf_tiles w _ _ Lu Hp) Hb') as (? & Hd).
      eapply state_ok_mono; [exact Hs' | | ].
      - intros Hin. right. apply in_app_or in Hin. apply in_or_app.
        destruct Hin as [Hin | [E | Hin]]; auto.
        exfalso. consts. lia.
      - intros Hin. right. exact Hin. }
    rewrite Forall_app. split; [exact S1|].
    constructor; [|constructor; [|exact S2]].
    + right. split; [reflexivity | left; reflexivity].
    + left. split; [reflexivity | left; reflexivity].
Qed.

Lemma el_malloc_none (w : world) (T : list blk) (La Lu : list Z) (n : Z) (fuel : nat) :
  pwf w T La Lu ->
  (forall y, In y La -> load8 (mem w) (y + off_size) < wrap (n + EL_BLOCK_OVERHEAD)) ->
  (List.length La < fuel)%nat ->
  el_malloc fuel n w = Some (NULL, w).
Proof.
  intros Hp Hsmall Hfuel.
  pose proof (el_find_first_avail_spec w T La Lu n fuel Hp Hfuel) as Rf.
  rewrite first_fit_none in Rf by exact Hsmall.
  unfold el_malloc. mcall Rf. reflexivity.
Qed.

(** ** Freeing on a well-formed heap *)

Lemma tiles_NoDup_addr (T : list blk) (x e : Z) :
  tiles x T e -> NoDup (map baddr T).
Proof.
  revert x. induction T as [|b T IH]; intros x; simpl; [constructor|].
  intros (Ha & Hs & Ht). constructor; [|eapply IH; exact Ht].
  intros Hin. apply in_map_iff in Hin. destruct Hin as [b' [E Hb']].
  destruct (tiles_In _ _ _ _ Ht Hb') as (? & ? & ?). consts. lia.
Qed.

Lemma state_ok_rest (T1 X T2 : list blk) (La Lu La' Lu' : list Z) :
  NoDup (map baddr (T1 ++ X ++ T2)) ->
  Forall (state_ok La Lu) (T1 ++ X ++ T2) ->
  (forall y, In y La -> ~ In y (map baddr X) -> In y La') ->
  (forall y, In y Lu -> ~ In y (map baddr X) -> In y Lu') ->
  Forall (state_ok La' Lu') T1 /\ Forall (state_ok La' Lu') T2.
Proof.
  intros Hnd Hall Ha Hu.
  rewrite !Forall_app in Hall. destruct Hall as (H1 & _ & H2).
  rewrite !map_app in Hnd.
  assert (Hd : forall b, In b (T1 ++ T2) -> ~ In (baddr b) (map baddr X)).
  { intros b Hb Hin. apply in_app_or in Hb. destruct Hb as [Hb | Hb].
    - eapply (NoDup_app_disj _ _ _ (baddr b) (baddr b) Hnd);
        [apply in_map; exact Hb | apply in_or_app; left; exact Hin | reflexivity].
    - apply NoDup_app_remove_l in Hnd.
      eapply (NoDup_app_disj _ _ _ (baddr b) (baddr b) Hnd);
        [exact Hin | apply in_map; exact Hb | reflexivity]. }
  rewrite Forall_forall in H1, H2.
  split; apply Forall_forall; intros b Hb.
  - eapply state_ok_mono; [apply H1; exact Hb | | ]; intros Hin;
      [apply Ha | apply Hu]; auto; apply Hd; apply in_or_app; auto.
  - eapply state_ok_mono; [apply H2; exact Hb | | ]; intros Hin;
      [apply Ha | apply Hu]; auto; apply Hd; apply in_or_app; auto.
Qed.

Lemma in_remove2 (y a h : Z) (L : list Z) :
  In y L -> y <> a -> y <> h -> In y (remove Z.eq_dec h (remove Z.eq_dec a L)).
Proof. intros. apply in_in_remove; [assumption|]. apply in_in_remove; assumption. Qed.

(** Merging two available neighbours keeps the invariant. *)
Lemma wf_merge (w : world) (T1 : list blk) (a s1 h s2 : Z) (T2 : list blk)
      (La Lu : list Z) :
  wf w (T1 ++ (a, s1, EL_AVAILABLE) :: (h, s2, EL_AVAILABLE) :: T2) La Lu ->
  exists w',
    el_merge_block_with_above a w = Some (tt, w') /\ same_frame w w' /\
    wf w' (T1 ++ (a, s1 + s2 + 40, EL_AVAILABLE) :: T2)
       (a :: remove Z.eq_dec h (remove Z.eq_dec a La)) Lu.
Proof.
  intros Hwf. pose proof Hwf as [Hp Hst].
  assert (Ha : In a La).
  { apply (wf_in_avail w _ La Lu (a, s1, EL_AVAILABLE) Hwf); [|reflexivity].
    apply in_or_app. simpl. auto. }
  assert (Hh : In h La).
  { apply (wf_in_avail w _ La Lu (h, s2, EL_AVAILABLE) Hwf); [|reflexivity].
    apply in_or_app. simpl. auto. }
  destruct (el_merge_block_with_above_spec w T1 a s1 EL_AVAILABLE h s2 EL_AVAILABLE
              T2 La Lu Hp) as (w' & R & F & P); try assumption; try discriminate.
  exists w'. split; [exact R|]. split; [exact F|]. split; [exact P|].
  pose proof (tiles_NoDup_addr _ _ _ (pwf_tiles w _ La Lu Hp)) as Hnd.
  destruct (state_ok_rest T1 [(a, s1, EL_AVAILABLE); (h, s2, EL_AVAILABLE)] T2
              La Lu (a :: remove Z.eq_dec h (remove Z.eq_dec a La)) Lu Hnd Hst)
    as [S1 S2].
  - intros y Hy Hn. right. simpl in Hn. apply in_remove2; [exact Hy | | ]; intros ->; tauto.
  - intros y Hy _. exact Hy.
  - rewrite Forall_app. split; [exact S1|]. constructor; [|exact S2].
    left. split; [reflexivity | left; reflexivity].
Qed.

Lemma merge_noop_used (w : world) (T : list blk) (La Lu : list Z) (b : blk) :
  pwf w T La Lu -> In b T -> bstate b = EL_USED ->
  el_merge_block_with_above (baddr b) w = Some (tt, w).
Proof.
  intros Hp Hb Hst. destruct (blk_facts w T La Lu Hp b Hb) as (_ & ? & _).
  unfold el_merge_block_with_above.
  replace (baddr b =? NULL) with false by (symmetry; apply Z.eqb_neq; unfold NULL; lia).
  mcall (get_state_spec w T La Lu Hp b Hb). rewrite Hst. reflexivity.
Qed.

Lemma merge_noop_above (w : world) (T1 : list blk) (b : blk) (T2 : list blk)
      (La Lu : list Z) :
  pwf w (T1 ++ b :: T2) La Lu -> head_used T2 ->
  el_merge_block_with_above (baddr b) w = Some (tt, w).
Proof.
  intros Hp Hh.
  assert (Hb : In b (T1 ++ b :: T2)) by (apply in_or_app; simpl; auto).
  destruct (blk_facts w _ La Lu Hp b Hb) as (_ & ? & _).
  unfold el_merge_block_with_above.
  replace (baddr b =? NULL) with false by (symmetry; apply Z.eqb_neq; unfold NULL; lia).
  mcall (get_state_spec w _ La Lu Hp b Hb).
  destruct (bstate b =? EL_USED); [reflexivity|].
  mcall (el_block_above_spec w _ La Lu Hp T1 b T2 eq_refl).
  destruct T2 as [|h T2]; [reflexivity|].
  assert (Hhb : In h (T1 ++ b :: h :: T2)) by (apply in_or_app; simpl; auto).
  destruct (blk_facts w _ La Lu Hp h Hhb) as (_ & ? & _).
  replace (baddr h =? NULL) with false by (symmetry; apply Z.eqb_neq; unfold NULL; lia).
  mcall (get_state_spec w _ La Lu Hp h Hhb).
  simpl in Hh. rewrite Hh. reflexivity.
Qed.

(** Merging with the lower neighbour when that one is absent or in use. *)
Lemma merge_below_noop (w : world) (T1 : list blk) (b : blk) (T2 : list blk)
      (La Lu : list Z) :
  pwf w (T1 ++ b :: T2) La Lu -> last_used T1 ->
  (below <- el_block_below (baddr b) ;; el_merge_block_with_above below) w = Some (tt, w).
Proof.
  intros Hp [-> | (T1' & b0 & -> & Hst)].
  - mcall (el_block_below_first w _ La Lu Hp b T2 eq_refl). reflexivity.
  - assert (E : (T1' ++ [b0]) ++ b :: T2 = T1' ++ b0 :: b :: T2)
      by (rewrite <- app_assoc; reflexivity).
    mcall (el_block_below_spec w _ La Lu Hp T1' b0 b T2 E).
    apply (merge_noop_used w _ La Lu b0 Hp); [|exact Hst].
    apply in_or_app. left. apply in_or_app. right. simpl. auto.
Qed.

Lemma remove_head_same (a : Z) (L : list Z) :
  ~ In a L -> remove Z.eq_dec a (a :: L) = L.
Proof.
  intros H. simpl. destruct (Z.eq_dec a a) as [_ | C]; [|contradiction].
  apply notin_remove. exact H.
Qed.

Lemma remove_head_other (l a : Z) (L : list Z) :
  l <> a -> remove Z.eq_dec l (a :: L) = a :: remove Z.eq_dec l L.
Proof.
  intros H. simpl. destruct (Z.eq_dec l a) as [C | _]; [contradiction | reflexivity].
Qed.

Lemma notin_remove_other (a l : Z) (L : list Z) :
  ~ In a L -> ~ In a (remove Z.eq_dec l L).
Proof. intros H Hin. apply in_remove in Hin. tauto. Qed.

(** The first half of [el_free]: the block leaves the used list, is marked
    available and enters the available list at the front. *)
Lemma el_free_move (w : world) (T1 : list blk) (a s : Z) (T2 : list blk)
      (La Lu : list Z) :
  wf w (T1 ++ (a, s, EL_USED) :: T2) La Lu ->
  exists w1,
    same_frame w w1 /\
    wf w1 (T1 ++ (a, s, EL_AVAILABLE) :: T2) (a :: La) (remove Z.eq_dec a Lu) /\
    ~ In a La /\
    el_free (a + 32) w =
    (el_merge_block_with_above a ;;
     below <- el_block_below a ;;
     el_merge_block_with_above below) w1.
Proof.
  intros Hwf. pose proof Hwf as [Hp Hst].
  assert (HaT : In (a, s, EL_USED) (T1 ++ (a, s, EL_USED) :: T2))
    by (apply in_or_app; simpl; auto).
  destruct (blk_facts w _ La Lu Hp _ HaT) as (_ & ? & ? & ? & ? & ?).
  unfold baddr, bsize, bend in *. simpl fst in *. simpl snd in *.
  assert (Ha : In a Lu) by (apply (wf_in_used w _ La Lu _ Hwf HaT); reflexivity).
  destruct (in_split a Lu Ha) as (L1 & L2 & EL).
  pose proof (pwf_nodup w _ La Lu Hp) as Hnd.
  assert (ER : remove Z.eq_dec a Lu = L1 ++ L2).
  { rewrite EL. apply remove_split. rewrite <- EL. eapply NoDup_app_remove_l. exact Hnd. }
  destruct (el_remove_block_spec w _ La Lu USED L1 a L2 Hp EL) as (w1 & R1 & F1 & P1).
  cbn [lset_avail lset_used] in P1.
  destruct (lists_remove USED La Lu L1 a L2 EL Hnd) as (_ & _ & Hna).
  cbn [lset_avail lset_used] in Hna.
  destruct (set_state_spec w1 T1 a s EL_USED T2 La _ EL_AVAILABLE P1) as (w2 & R2 & F2 & P2).
  { unfold EL_AVAILABLE. lia. }
  destruct (el_add_block_front_spec w2 _ La _ AVAIL a P2) as (w3 & R3 & F3 & P3).
  { rewrite map_app. apply in_or_app. right. simpl. auto. }
  { exact Hna. }
  cbn [lset_avail lset_used lsel] in P3.
  exists w3. split; [|split; [|split]].
  - eapply same_frame_trans; [exact F1|]. eapply same_frame_trans; [exact F2 | exact F3].
  - rewrite ER. split; [exact P3|].
    pose proof (tiles_NoDup_addr _ _ _ (pwf_tiles w _ La Lu Hp)) as HndT.
    destruct (state_ok_rest T1 [(a, s, EL_USED)] T2 La Lu (a :: La) (L1 ++ L2) HndT Hst)
      as [S1 S2].
    + intros y Hy _. right. exact Hy.
    + intros y Hy Hn. simpl in Hn. rewrite EL in Hy.
      apply in_app_or in Hy. apply in_or_app. simpl in Hy.
      destruct Hy as [Hy | [E | Hy]]; auto. exfalso. apply Hn. left. exact E.
    + rewrite Forall_app. split; [exact S1|]. constructor; [|exact S2].
      left. split; [reflexivity | left; reflexivity].
  - intros Hin. apply Hna. apply in_or_app. left. exact Hin.
  - unfold el_free.
    assert (Eb : PTR_PLUS_BYTES (a + 32) (wrap (- sizeof_el_blockhead_t)) = a).
    { unfold PTR_PLUS_BYTES. rewrite wrap_add_r.
      transitivity (wrap a); [f_equal; consts; lia | apply wrap_small; consts; lia]. }
    rewrite Eb.
    mcall (get_state_spec w _ La Lu Hp _ HaT). cbn [bstate snd].
    change (EL_USED =? EL_AVAILABLE) with false. cbv iota.
    mcall R1. mcall R2. mcall R3. reflexivity.
Qed.

Lemma el_free_spec_none (w : world) (T1 : list blk) (a s : Z) (T2 : list blk)
      (La Lu : list Z) :
  wf w (T1 ++ (a, s, EL_USED) :: T2) La Lu -> last_used T1 -> head_used T2 ->
  exists w',
    el_free (a + 32) w = Some (tt, w') /\ same_frame w w' /\
    wf w' (T1 ++ (a, s, EL_AVAILABLE) :: T2) (a :: La) (remove Z.eq_dec a Lu).
Proof.
  intros Hwf Hl Hh.
  destruct (el_free_move w T1 a s T2 La Lu Hwf) as (w1 & F1 & W1 & Hna & E).
  exists w1. split; [|split; assumption].
  rewrite E. destruct W1 as [P1 _].
  mcall (merge_noop_above w1 T1 (a, s, EL_AVAILABLE) T2 _ _ P1 Hh).
  apply (merge_below_noop w1 T1 (a, s, EL_AVAILABLE) T2 _ _ P1 Hl).
Qed.

Lemma el_free_spec_above (w : world) (T1 : list blk) (a s h s2 : Z) (T2 : list blk)
      (La Lu : list Z) :
  wf w (T1 ++ (a, s, EL_USED) :: (h, s2, EL_AVAILABLE) :: T2) La Lu -> last_used T1 ->
  exists w',
    el_free (a + 32) w = Some (tt, w') /\ same_frame w w' /\
    wf w' (T1 ++ (a, s + s2 + 40, EL_AVAILABLE) :: T2)
       (a :: remove Z.eq_dec h La) (remove Z.eq_dec a Lu).
Proof.
  intros Hwf Hl.
  destruct (el_free_move w T1 a s _ La Lu Hwf) as (w1 & F1 & W1 & Hna & E).
  destruct (wf_merge w1 T1 a s h s2 T2 _ _ W1) as (w2 & R2 & F2 & W2).
  rewrite remove_head_same in W2 by exact Hna.
  exists w2. split; [|split].
  - rewrite E. mcall R2. destruct W2 as [P2 _].
    apply (merge_below_noop w2 T1 (a, s + s2 + 40, EL_AVAILABLE) T2 _ _ P2 Hl).
  - eapply same_frame_trans; eassumption.
  - exact W2.
Qed.

Lemma el_free_spec_below (w : world) (T1 : list blk) (l s0 a s : Z) (T2 : list blk)
      (La Lu : list Z) :
  wf w (T1 ++ (l, s0, EL_AVAILABLE) :: (a, s, EL_USED) :: T2) La Lu -> head_used T2 ->
  exists w',
    el_free (a + 32) w = Some (tt, w') /\ same_frame w w' /\
    wf w' (T1 ++ (l, s0 + s + 40, EL_AVAILABLE) :: T2)
       (l :: remove Z.eq_dec l La) (remove Z.eq_dec a Lu).
Proof.
  intros Hwf Hh.
  assert (Hwf' : wf w ((T1 ++ [(l, s0, EL_AVAILABLE)]) ++ (a, s, EL_USED) :: T2) La Lu).
  { rewrite <- app_assoc. exact Hwf. }
  destruct (el_free_move w _ a s T2 La Lu Hwf') as (w1 & F1 & W1 & Hna & E).
  rewrite <- app_assoc in W1. simpl in W1.
  assert (Hla : l <> a).
  { destruct Hwf as [Hp _].
    destruct (pwf_block_parts w T1 (l, s0, EL_AVAILABLE) _ La Lu Hp)
      as (_ & _ & Ht & _ & _ & ? & _).
    simpl in Ht. destruct Ht as (Ea & _). consts. lia. }
  destruct (wf_merge w1 T1 l s0 a s T2 _ _ W1) as (w2 & R2 & F2 & W2).
  rewrite remove_head_other in W2 by exact Hla.
  rewrite remove_head_same in W2 by (apply notin_remove_other; exact Hna).
  exists w2. split; [|split].
  - rewrite E. destruct W1 as [P1 _].
    assert (P1' : pwf w1 ((T1 ++ [(l, s0, EL_AVAILABLE)]) ++ (a, s, EL_AVAILABLE) :: T2)
                      (a :: La) (remove Z.eq_dec a Lu)).
    { rewrite <- app_assoc. exact P1. }
    mcall (merge_noop_above w1 _ (a, s, EL_AVAILABLE) T2 _ _ P1' Hh).
    mcall (el_block_below_spec w1 _ _ _ P1 T1 (l, s0, EL_AVAILABLE) (a, s, EL_AVAILABLE) T2 eq_refl).
    exact R2.
  - eapply same_frame_trans; eassumption.
  - exact W2.
Qed.

Lemma el_free_spec_both (w : world) (T1 : list blk) (l s0 a s h s2 : Z)
      (T2 : list blk) (La Lu : list Z) :
  wf w (T1 ++ (l, s0, EL_AVAILABLE) :: (a, s, EL_USED) :: (h, s2, EL_AVAILABLE) :: T2)
     La Lu ->
  exists w',
    el_free (a + 32) w = Some (tt, w') /\ same_frame w w' /\
    wf w' (T1 ++ (l, s0 + (s + s2 + 40) + 40, EL_AVAILABLE) :: T2)
       (l :: remove Z.eq_dec l (remove Z.eq_dec h La)) (remove Z.eq_dec a Lu).
Proof.
  intros Hwf.
  assert (Hwf' : wf w ((T1 ++ [(l, s0, EL_AVAILABLE)]) ++ (a, s, EL_USED)
                       :: (h, s2, EL_AVAILABLE) :: T2) La Lu).
  { rewrite <- app_assoc. exact Hwf. }
  destruct (el_free_move w _ a s _ La Lu Hwf') as (w1 & F1 & W1 & Hna & E).
  assert (Hla : l <> a).
  { destruct Hwf as [Hp _].
    destruct (pwf_block_parts w T1 (l, s0, EL_AVAILABLE) _ La Lu Hp)
      as (_ & _ & Ht & _ & _ & ? & _).
    simpl in Ht. destruct Ht as (Ea & _). consts. lia. }
  destruct (wf_merge w1 _ a s h s2 T2 _ _ W1) as (w2 & R2 & F2 & W2).
  rewrite remove_head_same in W2 by exact Hna.
  rewrite <- app_assoc in W2. simpl in W2.
  destruct (wf_merge w2 T1 l s0 a (s + s2 + 40) T2 _ _ W2) as (w3 & R3 & F3 & W3).
  rewrite remove_head_other in W3 by exact Hla.
  rewrite remove_head_same in W3
    by (apply notin_remove_other; apply notin_remove_other; exact Hna).
  exists w3. split; [|split].
  - rewrite E. mcall R2. destruct W2 as [P2 _].
    mcall (el_block_below_spec w2 _ _ _ P2 T1 (l, s0, EL_AVAILABLE)
             (a, s + s2 + 40, EL_AVAILABLE) T2 eq_refl).
    exact R3.
  - eapply same_frame_trans; [exact F1|]. eapply same_frame_trans; eassumption.
  - exact W3.
Qed.

(** ** Initialisation *)

Lemma valid_in (w : world) (base len a n : Z) :
  In (base, len) (mapped w) -> base <= a -> a + n <= base + len ->
  valid_access w a n = true.
Proof.
  intros Hin H1 H2. unfold valid_access. apply existsb_exists.
  exists (base, len). split; [exact Hin|].
  unfold in_region. simpl. apply andb_true_iff. split; apply Z.leb_le; lia.
Qed.

Lemma el_init_blocklist_run (w : world) (l : list_ptr) (b e : Z) :
  In (b, 32) (mapped w) -> In (e, 32) (mapped w) ->
  el_init_blocklist l b e w =
  Some (tt, mk_world (init_blocklist_mem (mem w) b e) (mapped w)
                     (set_list l (mk_blocklist b e 0 0) (el_ctl w))).
Proof.
  intros Hb He. unfold el_init_blocklist. accessors.
  mrun ltac:(eapply valid_in; [exact Hb | consts; lia ..]).
  mrun ltac:(eapply valid_in; [exact Hb | consts; lia ..]).
  mrun ltac:(eapply valid_in; [exact He | consts; lia ..]).
  mrun ltac:(eapply valid_in; [exact He | consts; lia ..]).
  mrun ltac:(eapply valid_in; [exact Hb | consts; lia ..]).
  mrun ltac:(eapply valid_in; [exact Hb | consts; lia ..]).
  mrun ltac:(eapply valid_in; [exact He | consts; lia ..]).
  mrun ltac:(eapply valid_in; [exact He | consts; lia ..]).
  reflexivity.
Qed.

Lemma init_blocklist_mem_links (m : memory) (b e : Z) :
  sep32 b e -> 0 <= b < WORD -> 0 <= e < WORD ->
  links (init_blocklist_mem m b e) b [e].
Proof.
  intros Hs Hb He. unfold init_blocklist_mem. simpl. repeat split.
  - frame. rewrite load8_store8_same. apply wrap_small. exact He.
  - rewrite load8_store8_same. apply wrap_small. exact Hb.
Qed.

Lemma init_blocklist_mem_outside (m : memory) (b e x : Z) :
  (x < b \/ b + 32 <= x) -> (x < e \/ e + 32 <= x) ->
  init_blocklist_mem m b e x = m x.
Proof.
  intros Hb He. unfold init_blocklist_mem.
  rewrite !store8_byte_other by (consts; lia).
  rewrite store1_byte_other by (consts; lia).
  rewrite store8_byte_other by (consts; lia).
  rewrite store1_byte_other by (consts; lia).
  reflexivity.
Qed.

Lemma links_outside (m m' : memory) (x : Z) (N : list Z) :
  links m x N ->
  (forall y i, In y (x :: N) -> 16 <= i < 32 -> m' (y + i) = m (y + i)) ->
  links m' x N.
Proof.
  intros Hl Hout. eapply links_frame; [exact Hl | | ].
  - intros y Hy. apply in_removelast in Hy. apply load8_ext. intros i Hi.
    unfold off_next. rewrite <- Z.add_assoc. apply Hout; [exact Hy | lia].
  - intros y Hy. apply load8_ext. intros i Hi.
    unfold off_prev. rewrite <- Z.add_assoc. apply Hout; [right; exact Hy | lia].
Qed.

Lemma pairs4 (a b c d : Z) :
  ForallOrdPairs sep32 [a; b; c; d] ->
  sep32 a b /\ sep32 a c /\ sep32 a d /\ sep32 b c /\ sep32 b d /\ sep32 c d.
Proof.
  intros H. inversion H as [|? ? Ha H1]; subst. inversion H1 as [|? ? Hb H2]; subst.
  inversion H2 as [|? ? Hc _]; subst.
  inversion Ha as [|? ? Hab Ha1]; subst. inversion Ha1 as [|? ? Hac Ha2]; subst.
  inversion Ha2 as [|? ? Had _]; subst.
  inversion Hb as [|? ? Hbc Hb1]; subst. inversion Hb1 as [|? ? Hbd _]; subst.
  inversion Hc as [|? ? Hcd _]; subst. tauto.
Qed.

Lemma el_init_spec (g : globals) (start size : Z) :
  layout_ok g start size -> EL_BLOCK_OVERHEAD <= size ->
  exists w,
    el_init g start size (start_world g) = Some (0, w) /\
    wf w [(start, size - EL_BLOCK_OVERHEAD, EL_AVAILABLE)] [start] [] /\
    heap_bytes (el_ctl w) = size /\ heap_start (el_ctl w) = start.
Proof.
  intros [L1 L2 L3 L4 L5] Hsz.
  set (ab := avail_beg_actual g) in *. set (ae := avail_end_actual g) in *.
  set (ub := used_beg_actual g) in *. set (ue := used_end_actual g) in *.
  inversion L3 as [|? ? [Rab1 Rab2] L3a]; subst.
  inversion L3a as [|? ? [Rae1 Rae2] L3b]; subst.
  inversion L3b as [|? ? [Rub1 Rub2] L3c]; subst.
  inversion L3c as [|? ? [Rue1 Rue2] _]; subst.
  inversion L4 as [|? ? Hab L4a]; subst.
  inversion L4a as [|? ? Hae L4b]; subst.
  inversion L4b as [|? ? Hub L4c]; subst.
  inversion L4c as [|? ? Hue _]; subst.
  destruct (pairs4 _ _ _ _ L5) as (S1 & S2 & S3 & S4 & S5 & S6).
  change EL_BLOCK_OVERHEAD with 40 in *.
  set (R := [(start, size); (ab, sizeof_el_blockhead_t); (ae, sizeof_el_blockhead_t);
             (ub, sizeof_el_blockhead_t); (ue, sizeof_el_blockhead_t)]).
  set (m0 := fun x : Z => if (start <=? x) && (x <? start + size) then 0 else 0).
  set (m1 := init_blocklist_mem m0 ab ae).
  set (m2 := init_blocklist_mem m1 ub ue).
  set (m3 := store8 m2 start (size - 40)).
  set (m4 := store1 m3 (start + 8) EL_AVAILABLE).
  set (m5 := store8 m4 (start + 32 + (size - 40)) (size - 40)).
  set (c2 := mk_ctl size start (start + size) (mk_blocklist ab ae 0 0) (mk_blocklist ub ue 0 0)).
  set (wpre := mk_world m5 R c2).
  assert (Hheap : forall x, start <= x < start + size ->
                            (x < ab \/ ab + 32 <= x) /\ (x < ae \/ ae + 32 <= x) /\
                            (x < ub \/ ub + 32 <= x) /\ (x < ue \/ ue + 32 <= x)).
  { intros x Hx. lia. }
  assert (Hm5 : forall x, x < start \/ start + size <= x -> m5 x = m2 x).
  { intros x Hx. unfold m5, m4, m3.
    rewrite store8_byte_other by lia. rewrite store1_byte_other by lia.
    rewrite store8_byte_other by lia. reflexivity. }
  assert (Hgeom : geom wpre).
  { constructor; cbn [wpre c2 el_ctl mapped heap_start heap_end heap_bytes sentinels avail used l_beg l_end];
      try assumption; try lia; try reflexivity.  }
  assert (Hpre : pwf wpre [(start, size - 40, EL_AVAILABLE)] [] []).
  { constructor; try exact Hgeom; cbn [wpre c2 el_ctl mem heap_start heap_end avail used app].
    - simpl. consts. lia.
    - constructor; [|constructor]. unfold blk_ok. consts. rewrite Z.add_0_r. repeat split.
      + unfold m5, m4, m3. frame. rewrite load8_store8_same. apply wrap_small. lia.
      + unfold m5, m4. frame. rewrite load1_store1_same. reflexivity.
      + unfold m5. rewrite load8_store8_same. apply wrap_small. lia.
    - unfold list_ok. cbn [l_beg l_end l_length l_bytes app List.length lsum].
      split; [|split; reflexivity].
      apply (links_outside m1).
      + apply init_blocklist_mem_links; [exact S1 | lia | lia].
      + intros y i Hy Hi. rewrite Hm5.
        * unfold m2. apply init_blocklist_mem_outside; unfold sep32 in *;
            simpl in Hy; destruct Hy as [<- | [<- | []]]; lia.
        * simpl in Hy; destruct Hy as [<- | [<- | []]]; lia.
    - unfold list_ok. cbn [l_beg l_end l_length l_bytes app List.length lsum].
      split; [|split; reflexivity].
      apply (links_outside m2).
      + apply init_blocklist_mem_links; [exact S6 | lia | lia].
      + intros y i Hy Hi. apply Hm5.
        simpl in Hy; destruct Hy as [<- | [<- | []]]; lia.
    - constructor.
    - intros x []. }
  destruct (el_add_block_front_spec wpre _ [] [] AVAIL start Hpre) as (w & Radd & Fadd & Padd).
  { simpl. auto. }
  { simpl. tauto. }
  cbn [lset_avail lset_used lsel] in Padd.
  exists w. split; [|split; [split|]].
  - unfold el_init.
    erewrite bind_Some by (unfold mmap; reflexivity). wsimpl.
    mctl. mctl. mctl. cbn [heap_bytes heap_start heap_end avail used empty_blocklist].
    replace (size <? EL_BLOCK_OVERHEAD) with false
      by (symmetry; apply Z.ltb_ge; consts; lia).
    fold ab ae ub ue. fold m0.
    erewrite bind_Some by (apply el_init_blocklist_run; cbn [mapped]; simpl; tauto).
    wsimpl. cbn [set_list heap_bytes heap_start heap_end avail used].
    erewrite bind_Some by (apply el_init_blocklist_run; cbn [mapped]; simpl; tauto).
    wsimpl. cbn [set_list heap_bytes heap_start heap_end avail used].
    fold m1 m2. mctl. cbn [heap_bytes heap_start heap_end avail used].
    unfold PTR_PLUS_BYTES.
    replace (wrap (start + size)) with (start + size) by (symmetry; apply wrap_small; lia).
    replace (wrap (size - EL_BLOCK_OVERHEAD)) with (size - 40)
      by (symmetry; consts; apply wrap_small; lia).
    accessors.
    mrun ltac:(eapply (valid_in _ start size); [cbn [mapped]; simpl; tauto | consts; lia ..]).
    mrun ltac:(eapply (valid_in _ start size); [cbn [mapped]; simpl; tauto | consts; lia ..]).
    consts. rewrite Z.add_0_r. fold m3 m4.
    erewrite bind_Some
      by (apply (el_get_footer_raw _ start (size - 40));
          [ eapply (valid_in _ start size); [cbn [mapped]; simpl; tauto | consts; lia ..]
          | cbn [mem]; consts; rewrite Z.add_0_r; unfold m4, m3; frame;
            rewrite load8_store8_same; apply wrap_small; lia
          | lia ..]).
    wsimpl.
    mrun ltac:(eapply (valid_in _ start size); [cbn [mapped]; simpl; tauto | consts; lia ..]).
    fold m5.
    erewrite bind_Some by (exact Radd). reflexivity.
  - exact Padd.
  - constructor; [|constructor]. left. split; [reflexivity | left; reflexivity].
  - destruct Fadd as (_ & E1 & E2 & _). rewrite E1, E2. split; reflexivity.
Qed.

(** ** The counters of a well-formed heap *)

Lemma tiles_tsum (T : list blk) (x e : Z) : tiles x T e -> tsum T = e - x.
Proof.
  revert x. induction T as [|b T IH]; intros x; simpl.
  - intros ->. lia.
  - intros (Ha & Hs & Ht). rewrite (IH _ Ht). consts. lia.
Qed.

Lemma tsum_nonneg (T : list blk) (x e : Z) : tiles x T e -> 0 <= tsum T.
Proof.
  intros Ht. rewrite (tiles_tsum _ _ _ Ht). apply tiles_le in Ht. lia.
Qed.

Lemma tsum_length (T : list blk) (x e : Z) :
  tiles x T e -> EL_BLOCK_OVERHEAD * Z.of_nat (List.length T) <= tsum T.
Proof.
  revert x. induction T as [|b T IH]; intros x; simpl tsum; simpl List.length.
  - intros _. lia.
  - intros (Ha & Hs & Ht). specialize (IH _ Ht). consts. lia.
Qed.

Lemma lsum_perm (m : memory) (L L' : list Z) :
  Permutation L L' -> lsum m L = lsum m L'.
Proof. induction 1; simpl; lia. Qed.

Lemma lsum_blocks (m : memory) (X : list blk) :
  Forall (blk_ok m) X -> lsum m (map baddr X) = tsum X.
Proof.
  induction 1 as [|b X (H1 & _ & _) _ IH]; simpl; [reflexivity|].
  rewrite H1, IH. reflexivity.
Qed.

Lemma tsum_filter_split (T : list blk) :
  Forall (fun b => bstate b = EL_AVAILABLE \/ bstate b = EL_USED) T ->
  tsum (filter is_avail T) + tsum (filter is_used T) = tsum T /\
  (List.length (filter is_avail T) + List.length (filter is_used T))%nat = List.length T.
Proof.
  induction 1 as [|b T Hb _ [IH1 IH2]]; simpl; [split; reflexivity|].
  unfold is_avail, is_used in *. destruct Hb as [E | E]; rewrite E; simpl; split; lia.
Qed.

Lemma NoDup_map_filter (f : blk -> bool) (T : list blk) :
  NoDup (map baddr T) -> NoDup (map baddr (filter f T)).
Proof.
  induction T as [|b T IH]; simpl; intros Hnd; [constructor|].
  inversion Hnd as [|? ? Hn Hnd']; subst.
  destruct (f b); simpl; [constructor|]; auto.
  intros Hin. apply Hn. apply in_map_iff in Hin. destruct Hin as [b' [E Hb']].
  apply filter_In in Hb'. rewrite <- E. apply in_map. tauto.
Qed.

Section Counters.
Variables (w : world) (T : list blk) (La Lu : list Z).
Hypothesis Hwf : wf w T La Lu.

Let Hp : pwf w T La Lu := proj1 Hwf.
Let Hst : Forall (state_ok La Lu) T := proj2 Hwf.

Lemma wf_states : Forall (fun b => bstate b = EL_AVAILABLE \/ bstate b = EL_USED) T.
Proof.
  eapply Forall_impl; [|exact Hst]. intros b [[E _] | [E _]]; auto.
Qed.

Lemma NoDup_filter_addr (f : blk -> bool) : NoDup (map baddr (filter f T)).
Proof.
  apply NoDup_map_filter.
  apply (tiles_NoDup_addr _ _ _ (pwf_tiles w T La Lu Hp)).
Qed.

Lemma avail_perm : Permutation La (map baddr (filter is_avail T)).
Proof.
  pose proof (pwf_nodup w T La Lu Hp) as Hnd.
  apply NoDup_Permutation.
  - eapply NoDup_app_remove_r. exact Hnd.
  - apply NoDup_filter_addr.
  - intros x. rewrite Forall_forall in Hst. split.
    + intros Hx.
      assert (Hin : In x (map baddr T)).
      { apply (pwf_incl w T La Lu Hp). apply in_or_app. auto. }
      apply in_map_iff in Hin. destruct Hin as [b [E Hb]].
      apply in_map_iff. exists b. split; [exact E|]. apply filter_In. split; [exact Hb|].
      unfold is_avail. destruct (Hst b Hb) as [[Es _] | [_ Hu]].
      * rewrite Es. reflexivity.
      * exfalso. rewrite E in Hu. eapply NoDup_app_disj; [exact Hnd | exact Hx | exact Hu | reflexivity].
    + intros Hx. apply in_map_iff in Hx. destruct Hx as [b [E Hb]].
      apply filter_In in Hb. destruct Hb as [Hb Ea].
      unfold is_avail in Ea. apply Z.eqb_eq in Ea.
      destruct (Hst b Hb) as [[_ Hin] | [Es _]].
      * rewrite <- E. exact Hin.
      * rewrite Ea in Es. discriminate.
Qed.

Lemma used_perm : Permutation Lu (map baddr (filter is_used T)).
Proof.
  pose proof (pwf_nodup w T La Lu Hp) as Hnd.
  apply NoDup_Permutation.
  - eapply NoDup_app_remove_l. exact Hnd.
  - apply NoDup_filter_addr.
  - intros x. rewrite Forall_forall in Hst. split.
    + intros Hx.
      assert (Hin : In x (map baddr T)).
      { apply (pwf_incl w T La Lu Hp). apply in_or_app. auto. }
      apply in_map_iff in Hin. destruct Hin as [b [E Hb]].
      apply in_map_iff. exists b. split; [exact E|]. apply filter_In. split; [exact Hb|].
      unfold is_used. destruct (Hst b Hb) as [[_ Ha] | [Es _]].
      * exfalso. rewrite E in Ha. eapply NoDup_app_disj; [exact Hnd | exact Ha | exact Hx | reflexivity].
      * rewrite Es. reflexivity.
    + intros Hx. apply in_map_iff in Hx. destruct Hx as [b [E Hb]].
      apply filter_In in Hb. destruct Hb as [Hb Ea].
      unfold is_used in Ea. apply Z.eqb_eq in Ea.
      destruct (Hst b Hb) as [[Es _] | [_ Hin]].
      * rewrite Ea in Es. discriminate.
      * rewrite <- E. exact Hin.
Qed.

Lemma blocks_filter (f : blk -> bool) : Forall (blk_ok (mem w)) (filter f T).
Proof.
  pose proof (pwf_blocks w T La Lu Hp) as Hb. rewrite Forall_forall in *.
  intros b Hin. apply filter_In in Hin. apply Hb. tauto.
Qed.

(** The counters hold the exact totals: no wrap-around is left in them. *)
Lemma wf_counters :
  l_bytes (avail (el_ctl w)) = tsum (filter is_avail T) /\
  l_bytes (used (el_ctl w)) = tsum (filter is_used T) /\
  l_length (avail (el_ctl w)) = Z.of_nat (List.length (filter is_avail T)) /\
  l_length (used (el_ctl w)) = Z.of_nat (List.length (filter is_used T)) /\
  tsum (filter is_avail T) + tsum (filter is_used T) = heap_bytes (el_ctl w) /\
  (List.length (filter is_avail T) + List.length (filter is_used T))%nat = List.length T /\
  tsum T = heap_bytes (el_ctl w).
Proof.
  pose proof (pwf_geom w T La Lu Hp) as Hg.
  pose proof (pwf_tiles w T La Lu Hp) as Ht.
  destruct (pwf_avail w T La Lu Hp) as (_ & Hla & Hba).
  destruct (pwf_used w T La Lu Hp) as (_ & Hlu & Hbu).
  destruct (tsum_filter_split T wf_states) as [Hsum Hlen].
  pose proof (tiles_tsum _ _ _ Ht) as Htot.
  pose proof (tsum_length _ _ _ Ht) as Hcnt.
  pose proof (geom_end w Hg) as He. pose proof (geom_lt w Hg) as Hlt.
  pose proof (geom_start w Hg) as Hs0.
  assert (Ea : lsum (mem w) La = tsum (filter is_avail T)).
  { rewrite (lsum_perm _ _ _ avail_perm). apply lsum_blocks. apply blocks_filter. }
  assert (Eu : lsum (mem w) Lu = tsum (filter is_used T)).
  { rewrite (lsum_perm _ _ _ used_perm). apply lsum_blocks. apply blocks_filter. }
  assert (Na : 0 <= tsum (filter is_avail T)).
  { rewrite <- Ea. clear. induction La as [|a L IH]; simpl; [lia|].
    pose proof (load8_range (mem w) (a + off_size)). consts. lia. }
  assert (Nu : 0 <= tsum (filter is_used T)).
  { rewrite <- Eu. clear. induction Lu as [|a L IH]; simpl; [lia|].
    pose proof (load8_range (mem w) (a + off_size)). consts. lia. }
  assert (La_len : List.length La = List.length (filter is_avail T)).
  { rewrite (Permutation_length avail_perm). apply length_map. }
  assert (Lu_len : List.length Lu = List.length (filter is_used T)).
  { rewrite (Permutation_length used_perm). apply length_map. }
  change EL_BLOCK_OVERHEAD with 40 in Hcnt.
  repeat split.
  - rewrite Hba, Ea. apply wrap_small. lia.
  - rewrite Hbu, Eu. apply wrap_small. lia.
  - rewrite Hla, La_len. apply wrap_small. lia.
  - rewrite Hlu, Lu_len. apply wrap_small. lia.
  - lia.
  - exact Hlen.
  - lia.
Qed.
End Counters.

(** ** Loop fuel *)

Lemma bind_mono (A B : Type) (c c' : M A) (f f' : A -> M B) (w : world) (r : B * world) :
  (forall x w1, c w = Some (x, w1) -> c' w = Some (x, w1)) ->
  (forall x w1, f x w1 = Some r -> f' x w1 = Some r) ->
  bind c f w = Some r -> bind c' f' w = Some r.
Proof.
  intros Hc Hf. unfold bind.
  destruct (c w) as [[x w1]|] eqn:E; [|discriminate].
  rewrite (Hc x w1 eq_refl). apply Hf.
Qed.

Lemma find_loop_mono (fuel k : nat) (size cur : Z) (w : world) (r : Z * world) :
  find_loop fuel size cur w = Some r ->
  find_loop (fuel + k) size cur w = Some r.
Proof.
  revert cur w. induction fuel as [|fuel IH]; intros cur w; simpl;
    [unfold fault; discriminate|].
  apply bind_mono; [auto|]. intros lst w1.
  destruct (cur =? l_end lst); [auto|].
  apply bind_mono; [auto|]. intros bs w2.
  destruct (bs >=? wrap (size + EL_BLOCK_OVERHEAD)); [auto|].
  apply bind_mono; [auto|]. intros nx w3. apply IH.
Qed.

Lemma el_malloc_mono (fuel k : nat) (n : Z) (w : world) (r : Z * world) :
  el_malloc fuel n w = Some r -> el_malloc (fuel + k) n w = Some r.
Proof.
  unfold el_malloc. apply bind_mono; [|auto].
  intros x w1. unfold el_find_first_avail.
  apply bind_mono; [auto|]. intros lst w2.
  apply bind_mono; [auto|]. intros c w3. apply find_loop_mono.
Qed.

(** ** Adjacent available blocks *)

Lemma no_adj_avail_app (A B : list blk) :
  no_adj_avail (A ++ B) <->
  no_adj_avail A /\ no_adj_avail B /\ ~ (lst_avail A /\ fst_avail B).
Proof.
  induction A as [|a A IH].
  - simpl. unfold lst_avail. simpl. tauto.
  - change ((a :: A) ++ B) with (a :: (A ++ B)).
    destruct A as [|a' A].
    + simpl app in *. unfold lst_avail. simpl.
      destruct B as [|b B]; simpl; tauto.
    + change ((a' :: A) ++ B) with (a' :: (A ++ B)) in *.
      assert (EL : lst_avail (a :: a' :: A) <-> lst_avail (a' :: A)).
      { unfold lst_avail. simpl. destruct (rev A ++ [a']) eqn:E.
        - destruct (rev A); discriminate.
        - simpl. tauto. }
      cbn [no_adj_avail] in *. rewrite EL. tauto.
Qed.

Lemma lst_avail_app (A X : list blk) : X <> [] -> (lst_avail (A ++ X) <-> lst_avail X).
Proof.
  intros HX. unfold lst_avail. rewrite rev_app_distr.
  destruct (rev X) eqn:E.
  - exfalso. apply HX. rewrite <- (rev_involutive X), E. reflexivity.
  - simpl. tauto.
Qed.

Lemma fst_avail_app (X B : list blk) : X <> [] -> (fst_avail (X ++ B) <-> fst_avail X).
Proof. destruct X; [congruence | simpl; tauto]. Qed.

Lemma last_used_not_avail (T1 : list blk) : last_used T1 -> ~ lst_avail T1.
Proof.
  intros [-> | (T' & b & -> & E)]; unfold lst_avail.
  - simpl. tauto.
  - rewrite rev_app_distr. simpl. rewrite E. discriminate.
Qed.

Lemma head_used_not_avail (T2 : list blk) : head_used T2 -> ~ fst_avail T2.
Proof. destruct T2; simpl; [tauto|]. intros ->. discriminate. Qed.

(** Replacing a stretch of blocks keeps the property when the new stretch
    has it and its ends are no more available than the old ones, or the
    outer neighbours are in use. *)
Lemma no_adj_avail_replace (T1 X X' T2 : list blk) :
  no_adj_avail (T1 ++ X ++ T2) -> X <> [] -> X' <> [] -> no_adj_avail X' ->
  (last_used T1 \/ (fst_avail X' -> fst_avail X)) ->
  (head_used T2 \/ (lst_avail X' -> lst_avail X)) ->
  no_adj_avail (T1 ++ X' ++ T2).
Proof.
  intros H HX HX' HN Hl Hr.
  rewrite no_adj_avail_app in H. destruct H as (N1 & H & B1).
  rewrite no_adj_avail_app in H. destruct H as (NX & N2 & B2).
  rewrite fst_avail_app in B1 by exact HX.
  rewrite no_adj_avail_app. split; [exact N1|]. split.
  - rewrite no_adj_avail_app. split; [exact HN|]. split; [exact N2|].
    intros [A1 A2]. destruct Hr as [Hr | Hr].
    + exact (head_used_not_avail _ Hr A2).
    + apply B2. split; [apply Hr; exact A1 | exact A2].
  - rewrite fst_avail_app by exact HX'.
    intros [A1 A2]. destruct Hl as [Hl | Hl].
    + exact (last_used_not_avail _ Hl A1).
    + apply B1. split; [exact A1 | apply Hl; exact A2].
Qed.

(** ** One public operation on a well-formed heap *)

Lemma list_last_case (A : Type) (l : list A) : l = [] \/ exists l' x, l = l' ++ [x].
Proof.
  destruct l as [|a l]; [left; reflexivity|]. right.
  destruct (exists_last (l := a :: l)) as (l' & x & E); [discriminate|].
  exists l', x. exact E.
Qed.

Lemma wf_block_of_avail (w : world) (T : list blk) (La Lu : list Z) (a : Z) :
  wf w T La Lu -> In a La ->
  exists T1 s T2, T = T1 ++ (a, s, EL_AVAILABLE) :: T2 /\
                  load8 (mem w) (a + off_size) = s.
Proof.
  intros Hwf Ha.
  pose proof (Permutation_in _ (avail_perm w T La Lu Hwf) Ha) as Hin.
  apply in_map_iff in Hin. destruct Hin as [[[a' s] u] [E Hb]].
  apply filter_In in Hb. destruct Hb as [Hb Eu].
  unfold is_avail in Eu. apply Z.eqb_eq in Eu.
  unfold baddr, bstate in E, Eu. simpl in E, Eu. subst a' u.
  destruct (blk_facts w T La Lu (proj1 Hwf) _ Hb) as ((B1 & _) & _).
  destruct (in_split _ _ Hb) as (T1 & T2 & ET).
  exists T1, s, T2. split; [exact ET | exact B1].
Qed.

Lemma wf_block_of_used (w : world) (T : list blk) (La Lu : list Z) (a : Z) :
  wf w T La Lu -> In a Lu ->
  exists T1 s T2, T = T1 ++ (a, s, EL_USED) :: T2.
Proof.
  intros Hwf Ha.
  pose proof (Permutation_in _ (used_perm w T La Lu Hwf) Ha) as Hin.
  apply in_map_iff in Hin. destruct Hin as [[[a' s] u] [E Hb]].
  apply filter_In in Hb. destruct Hb as [Hb Eu].
  unfold is_used in Eu. apply Z.eqb_eq in Eu.
  unfold baddr, bstate in E, Eu. simpl in E, Eu. subst a' u.
  destruct (in_split _ _ Hb) as (T1 & T2 & ET).
  exists T1, s, T2. exact ET.
Qed.

(** [el_malloc] on a well-formed heap, for a request that does not wrap:
    it fails and changes nothing when no member of the available list has
    room for the request and a new header and footer, and otherwise carves
    the request out of the first member that has. *)
Lemma malloc_step (w : world) (T : list blk) (La Lu : list Z) (n : Z) (fuel : nat) :
  wf w T La Lu ->
  0 <= n -> n + EL_BLOCK_OVERHEAD < WORD -> (List.length La < fuel)%nat ->
  (el_malloc fuel n w = Some (NULL, w) /\
   forall y, In y La -> load8 (mem w) (y + off_size) < n + EL_BLOCK_OVERHEAD) \/
  (exists T1 a s T2 L1 L2 w',
      T = T1 ++ (a, s, EL_AVAILABLE) :: T2 /\ La = L1 ++ a :: L2 /\
      (forall y, In y L1 -> load8 (mem w) (y + off_size) < n + EL_BLOCK_OVERHEAD) /\
      n + EL_BLOCK_OVERHEAD <= s /\
      el_malloc fuel n w = Some (payload a, w') /\ same_frame w w' /\
      wf w' (T1 ++ (a, n, EL_USED) :: (a + n + 40, s - n - 40, EL_AVAILABLE) :: T2)
         ((a + n + 40) :: L1 ++ L2) (a :: Lu) /\
      (no_adj_avail T ->
       no_adj_avail (T1 ++ (a, n, EL_USED) :: (a + n + 40, s - n - 40, EL_AVAILABLE) :: T2))).
Proof.
  intros Hwf Hn Hov Hfuel.
  assert (En : wrap (n + EL_BLOCK_OVERHEAD) = n + EL_BLOCK_OVERHEAD)
    by (apply wrap_small; consts; lia).
  destruct (first_fit_cases (mem w) (n + EL_BLOCK_OVERHEAD) La)
    as [[_ Hsmall] | (L1 & a & L2 & EL & _ & Hsmall & Hfit)].
  - left. split; [|exact Hsmall].
    apply (el_malloc_none w T La Lu n fuel (proj1 Hwf)); [|exact Hfuel].
    rewrite En. exact Hsmall.
  - right.
    assert (Ha : In a La) by (rewrite EL; apply in_or_app; simpl; auto).
    destruct (wf_block_of_avail w T La Lu a Hwf Ha) as (T1 & s & T2 & ET & Es).
    subst T La. rewrite Es in Hfit.
    change EL_BLOCK_OVERHEAD with 40 in *.
    destruct (el_malloc_spec w T1 a s T2 L1 L2 Lu n fuel Hwf Hsmall Hn Hfit Hfuel)
      as (w' & R & F & W).
    exists T1, a, s, T2, L1, L2, w'.
    split; [reflexivity|]. split; [reflexivity|]. split; [exact Hsmall|].
    split; [exact Hfit|]. split; [exact R|]. split; [exact F|]. split; [exact W|].
    intros Hna.
    apply (no_adj_avail_replace T1 [(a, s, EL_AVAILABLE)]
             [(a, n, EL_USED); (a + n + 40, s - n - 40, EL_AVAILABLE)] T2);
      try discriminate.
    + exact Hna.
    + simpl. split; [|tauto]. unfold EL_USED, EL_AVAILABLE. intros [C _]. discriminate.
    + right. simpl. discriminate.
    + right. unfold lst_avail. simpl. tauto.
Qed.

(** [el_free] of the pointer of a used block: the block, merged with its
    available physical neighbours, becomes one available block. *)
Lemma free_step (w : world) (T : list blk) (La Lu : list Z) (a : Z) :
  wf w T La Lu -> In a Lu ->
  exists w' T' La',
    el_free (payload a) w = Some (tt, w') /\ same_frame w w' /\
    wf w' T' La' (remove Z.eq_dec a Lu) /\ (no_adj_avail T -> no_adj_avail T').
Proof.
  intros Hwf Ha.
  destruct (wf_block_of_used w T La Lu a Hwf Ha) as (T1 & s & T2 & ET). subst T.
  pose proof (wf_states w _ La Lu Hwf) as Hst.
  rewrite Forall_app in Hst. destruct Hst as [Hst1 Hst2].
  inversion Hst2 as [|? ? _ Hst2']; subst. clear Hst2.
  assert (C1 : last_used T1 \/ exists T1' l s0, T1 = T1' ++ [(l, s0, EL_AVAILABLE)]).
  { destruct (list_last_case _ T1) as [-> | (T1' & [[l s0] u] & ->)]; [left; left; reflexivity|].
    rewrite Forall_app in Hst1. destruct Hst1 as [_ Hb]. inversion Hb as [|? ? Hu _]; subst.
    simpl in Hu. destruct Hu as [-> | ->].
    - right. exists T1', l, s0. reflexivity.
    - left. right. exists T1', (l, s0, EL_USED). split; reflexivity. }
  assert (C2 : head_used T2 \/ exists h s2 T2', T2 = (h, s2, EL_AVAILABLE) :: T2').
  { destruct T2 as [|[[h s2] u] T2']; [left; exact I|].
    inversion Hst2' as [|? ? Hu _]; subst. simpl in Hu. destruct Hu as [-> | ->].
    - right. exists h, s2, T2'. reflexivity.
    - left. reflexivity. }
  unfold payload. change sizeof_el_blockhead_t with 32.
  destruct C1 as [Hl | (T1' & l & s0 & ->)]; destruct C2 as [Hh | (h & s2 & T2' & ->)].
  - destruct (el_free_spec_none w T1 a s T2 La Lu Hwf Hl Hh) as (w' & R & F & W).
    eexists w', _, _. split; [exact R|]. split; [exact F|]. split; [exact W|].
    intros Hna.
    apply (no_adj_avail_replace T1 [(a, s, EL_USED)] [(a, s, EL_AVAILABLE)] T2);
      try discriminate; auto; try (simpl; tauto);
      try (right; simpl; tauto); try (right; unfold lst_avail; simpl; tauto).
  - destruct (el_free_spec_above w T1 a s h s2 T2' La Lu Hwf Hl) as (w' & R & F & W).
    eexists w', _, _. split; [exact R|]. split; [exact F|]. split; [exact W|].
    intros Hna.
    apply (no_adj_avail_replace T1 [(a, s, EL_USED); (h, s2, EL_AVAILABLE)]
             [(a, s + s2 + 40, EL_AVAILABLE)] T2'); try discriminate; auto; try (simpl; tauto);
      try (right; simpl; tauto); try (right; unfold lst_avail; simpl; tauto).
  - rewrite <- app_assoc in Hwf |- *. simpl in Hwf |- *.
    destruct (el_free_spec_below w T1' l s0 a s T2 La Lu Hwf Hh) as (w' & R & F & W).
    eexists w', _, _. split; [exact R|]. split; [exact F|]. split; [exact W|].
    intros Hna.
    apply (no_adj_avail_replace T1' [(l, s0, EL_AVAILABLE); (a, s, EL_USED)]
             [(l, s0 + s + 40, EL_AVAILABLE)] T2); try discriminate; auto; try (simpl; tauto);
      try (right; simpl; tauto); try (right; unfold lst_avail; simpl; tauto).
  - rewrite <- app_assoc in Hwf |- *. simpl in Hwf |- *.
    destruct (el_free_spec_both w T1' l s0 a s h s2 T2' La Lu Hwf) as (w' & R & F & W).
    eexists w', _, _. split; [exact R|]. split; [exact F|]. split; [exact W|].
    intros Hna.
    apply (no_adj_avail_replace T1' [(l, s0, EL_AVAILABLE); (a, s, EL_USED); (h, s2, EL_AVAILABLE)]
             [(l, s0 + (s + s2 + 40) + 40, EL_AVAILABLE)] T2'); try discriminate; auto; try (simpl; tauto);
      try (right; simpl; tauto); try (right; unfold lst_avail; simpl; tauto).
Qed.

(** ** The invariant holds in every reachable state *)

Lemma el_init_too_small (g : globals) (start size : Z) :
  size < EL_BLOCK_OVERHEAD ->
  exists w, el_init g start size (start_world g) = Some (-1, w).
Proof.
  intros Hs. unfold el_init.
  erewrite bind_Some by (unfold mmap; reflexivity). wsimpl.
  mctl. mctl. mctl. cbn [heap_bytes].
  replace (size <? EL_BLOCK_OVERHEAD) with true by (symmetry; apply Z.ltb_lt; exact Hs).
  eexists. reflexivity.
Qed.

Lemma remove_perm (x : Z) (L L' : list Z) :
  Permutation L L' -> Permutation (remove Z.eq_dec x L) (remove Z.eq_dec x L').
Proof.
  induction 1 as [| y L L' _ IH | y z L | L L' L'' _ IH1 _ IH2]; simpl.
  - constructor.
  - destruct (Z.eq_dec x y); [exact IH | constructor; exact IH].
  - destruct (Z.eq_dec x y), (Z.eq_dec x z); try apply Permutation_refl. apply perm_swap.
  - etransitivity; eassumption.
Qed.

Lemma remove_map_payload (a : Z) (L : list Z) :
  remove Z.eq_dec (payload a) (map payload L) = map payload (remove Z.eq_dec a L).
Proof.
  induction L as [|y L IH]; simpl; [reflexivity|].
  destruct (Z.eq_dec (payload a) (payload y)) as [E | E], (Z.eq_dec a y) as [E' | E'].
  - exact IH.
  - exfalso. unfold payload in E. lia.
  - exfalso. apply E. rewrite E'. reflexivity.
  - simpl. rewrite IH. reflexivity.
Qed.

Lemma reachable_inv (g : globals) (start size : Z) (w : world) (live : list Z) :
  layout_ok g start size -> reachable g start size w live -> Inv start size w live.
Proof.
  intros Hlay Hr. induction Hr as [w Hinit | w live fuel n p w' Hr IH Hn Hov Hm
                                  | w live p w' Hr IH Hp Hf].
  - destruct (Z_lt_le_dec size EL_BLOCK_OVERHEAD) as [Hs | Hs].
    + destruct (el_init_too_small g start size Hs) as (w0 & E).
      rewrite E in Hinit. discriminate.
    + destruct (el_init_spec g start size Hlay Hs) as (w0 & E & W & Hb & Hst).
      rewrite E in Hinit. injection Hinit as <-.
      exists [(start, size - EL_BLOCK_OVERHEAD, EL_AVAILABLE)], [start], [].
      split; [exact W|]. split; [simpl; tauto|]. split; [constructor|]. tauto.
  - destruct IH as (T & La & Lu & W & Hna & Hperm & Hb & Hst).
    pose proof (el_malloc_mono fuel (S (List.length La)) n w _ Hm) as Hm'.
    destruct (malloc_step w T La Lu n (fuel + S (List.length La)) W Hn Hov ltac:(lia))
      as [[R _] | (T1 & a & s & T2 & L1 & L2 & w2 & ET & EL & _ & _ & R & F & W2 & Hna2)].
    + rewrite R in Hm'. injection Hm' as <- <-. simpl.
      exists T, La, Lu. tauto.
    + rewrite R in Hm'. injection Hm' as <- <-.
      assert (Ha : 0 < a).
      { subst T. destruct (pwf_block_parts w T1 _ T2 La Lu (proj1 W)) as (_ & _ & _ & _ & H & _).
        exact H. }
      replace (payload a =? NULL) with false
        by (symmetry; apply Z.eqb_neq; unfold payload, NULL; consts; lia).
      eexists _, _, _. split; [exact W2|]. split; [apply Hna2; exact Hna|].
      split; [simpl; apply perm_skip; exact Hperm|].
      destruct F as (_ & F1 & F2 & _). rewrite F1, F2. tauto.
  - destruct IH as (T & La & Lu & W & Hna & Hperm & Hb & Hst).
    pose proof (Permutation_in _ Hperm Hp) as Hin.
    apply in_map_iff in Hin. destruct Hin as (a & <- & Ha).
    destruct (free_step w T La Lu a W Ha) as (w2 & T' & La' & R & F & W2 & Hna2).
    rewrite R in Hf. injection Hf as <-.
    exists T', La', (remove Z.eq_dec a Lu).
    split; [exact W2|]. split; [apply Hna2; exact Hna|]. split.
    + rewrite <- remove_map_payload. apply remove_perm. exact Hperm.
    + destruct F as (_ & F1 & F2 & _). rewrite F1, F2. tauto.
Qed.

(** Progress: in a reachable state an allocation that does not wrap and
    the release of a live pointer run to completion. *)
Lemma reachable_malloc_completes (g : globals) (start size : Z) (w : world)
      (live : list Z) (n : Z) :
  layout_ok g start size -> reachable g start size w live ->
  0 <= n -> n + EL_BLOCK_OVERHEAD < WORD ->
  exists fuel p w', el_malloc fuel n w = Some (p, w').
Proof.
  intros Hlay Hr Hn Hov.
  destruct (reachable_inv g start size w live Hlay Hr) as (T & La & Lu & W & _).
  destruct (malloc_step w T La Lu n (S (List.length La)) W Hn Hov ltac:(lia))
    as [[R _] | (T1 & a & s & T2 & L1 & L2 & w2 & _ & _ & _ & _ & R & _)];
    eauto.
Qed.

Lemma reachable_free_completes (g : globals) (start size : Z) (w : world)
      (live : list Z) (p : Z) :
  layout_ok g start size -> reachable g start size w live -> In p live ->
  exists w', el_free p w = Some (tt, w').
Proof.
  intros Hlay Hr Hp.
  destruct (reachable_inv g start size w live Hlay Hr) as (T & La & Lu & W & _ & Hperm & _).
  pose proof (Permutation_in _ Hperm Hp) as Hin.
  apply in_map_iff in Hin. destruct Hin as (a & <- & Ha).
  destruct (free_step w T La Lu a W Ha) as (w2 & T' & La' & R & _). eauto.
Qed.

Lemma tsum_payload (T : list blk) :
  tsum T = payload_sum T + EL_BLOCK_OVERHEAD * Z.of_nat (List.length T).
Proof. induction T as [|b T IH]; simpl tsum; simpl payload_sum; simpl List.length; lia. Qed.

(** * The claims *)

Lemma demo_layout_ok : layout_ok demo_globals demo_start demo_size.
Proof.
  constructor; unfold demo_globals, demo_start, demo_size; simpl;
    rewrite ?WORD_eq; try lia;
    repeat constructor; unfold sep32; lia.
Qed.

(** ** First fit *)

(** In a well-formed heap and for a request that does not wrap,
    [el_find_first_avail] returns the first member of the available list,
    in list order, whose size field is at least the request plus the
    overhead, and [NULL] when there is none; the state is unchanged. *)
Lemma el_find_first_avail_in_range (w : world) (T : list blk) (La Lu : list Z)
      (n : Z) (fuel : nat) :
  pwf w T La Lu -> 0 <= n -> n + EL_BLOCK_OVERHEAD < WORD ->
  (List.length La < fuel)%nat ->
  exists r,
    el_find_first_avail fuel n w = Some (r, w) /\
    ((r = NULL /\
      forall y, In y La -> load8 (mem w) (y + off_size) < n + EL_BLOCK_OVERHEAD) \/
     (exists L1 L2, La = L1 ++ r :: L2 /\
        (forall y, In y L1 -> load8 (mem w) (y + off_size) < n + EL_BLOCK_OVERHEAD) /\
        n + EL_BLOCK_OVERHEAD <= load8 (mem w) (r + off_size))).
Proof.
  intros Hp Hn Hov Hfuel.
  rewrite (el_find_first_avail_spec w T La Lu n fuel Hp Hfuel).
  rewrite (wrap_small (n + EL_BLOCK_OVERHEAD)) by (consts; lia).
  eexists. split; [reflexivity|].
  destruct (first_fit_cases (mem w) (n + EL_BLOCK_OVERHEAD) La)
    as [[E H] | (L1 & a & L2 & EL & E & H1 & H2)]; rewrite E.
  - left. split; [reflexivity | exact H].
  - right. exists L1, L2. auto.
Qed.

(** C1.  On the fresh heap of 4096 bytes the only available
    block has size field 4056, yet [el_find_first_avail (2^64 - 1)] returns
    it: the sum [size + EL_BLOCK_OVERHEAD] wraps around to 39, so the block
    returned is not one whose size is at least n + EL_BLOCK_OVERHEAD. *)
Theorem C1_first_fit_wraps_around :
  observe (demo_init ;; el_find_first_avail 4 (WORD - 1))
          (fun w => header_at w demo_start)
  = Some (demo_start, (4056, EL_AVAILABLE)) /\
  4056 < (WORD - 1) + EL_BLOCK_OVERHEAD /\
  wrap ((WORD - 1) + EL_BLOCK_OVERHEAD) = 39.
Proof. vm_compute. repeat split; reflexivity. Qed.


(** ** Allocation failure *)

(** In a well-formed heap and for a request that does not wrap, an
    allocation for which no available block is large enough returns [NULL]
    and leaves the whole state as it was. *)
Lemma el_malloc_none_in_range (w : world) (T : list blk) (La Lu : list Z)
      (n : Z) (fuel : nat) :
  pwf w T La Lu -> 0 <= n -> n + EL_BLOCK_OVERHEAD < WORD ->
  (forall y, In y La -> load8 (mem w) (y + off_size) < n + EL_BLOCK_OVERHEAD) ->
  (List.length La < fuel)%nat ->
  el_malloc fuel n w = Some (NULL, w).
Proof.
  intros Hp Hn Hov Hsmall Hfuel.
  apply (el_malloc_none w T La Lu n fuel Hp); [|exact Hfuel].
  rewrite (wrap_small (n + EL_BLOCK_OVERHEAD)) by (consts; lia). exact Hsmall.
Qed.

(** C3.  After [el_init] on 4096 bytes the available list holds
    one block of size 4056, so no available block has size at least
    (2^64 - 1) + EL_BLOCK_OVERHEAD; yet [el_malloc (2^64 - 1)] returns the
    non-null pointer [heap_start + 32] and changes both lists. *)
Theorem C3_huge_request_is_served :
  observe demo_init (fun w => (counters w, avail_members w, header_at w demo_start))
  = Some (0, ((1, 4096, 0, 0), [demo_start], (4056, EL_AVAILABLE))) /\
  4056 < (WORD - 1) + EL_BLOCK_OVERHEAD /\
  observe (demo_init ;; el_malloc 4 (WORD - 1)) counters
  = Some (demo_start + 32, (1, 4057, 1, 39)).
Proof. vm_compute. repeat split; reflexivity. Qed.

(** ** Physically adjacent available blocks *)

(** C2.  After [el_init] on 4096 bytes, [el_malloc 8],
    [el_malloc (2^64 - 40)], [el_malloc 8], then [el_free] of the first and
    of the last pointer, the block at the heap start (size 8) and its
    physical neighbour above (at [heap_start + 48]) are both available and
    both linked in the available list. *)
Theorem C2_adjacent_available_after_wrap :
  observe (demo_init ;;
           p0 <- el_malloc 4 8 ;;
           p1 <- el_malloc 4 (WORD - 40) ;;
           p2 <- el_malloc 4 8 ;;
           el_free p0 ;;
           el_free p2 ;;
           above <- el_block_above demo_start ;;
           ret (p0, p1, p2, above))
          (fun w => (header_at w demo_start, header_at w (demo_start + 48),
                     avail_members w))
  = Some ((demo_start + 32, demo_start + 80, demo_start + 80, demo_start + 48),
          ((8, EL_AVAILABLE), (4008, EL_AVAILABLE), [demo_start + 48; demo_start])).
Proof. vm_compute. reflexivity. Qed.

(** ** The byte counters *)

(** C10.  After [el_init] on 4096 bytes, [el_malloc 8] and
    [el_malloc (2^64 - 40)], the second call has returned a non-null
    pointer and avail.bytes + used.bytes is 4048 + 4096, not heap_bytes. *)
Theorem C10_counters_after_wrap :
  observe (demo_init ;; _ <- el_malloc 4 8 ;; el_malloc 4 (WORD - 40))
          (fun w => (counters w, heap_bytes (el_ctl w)))
  = Some (demo_start + 80, ((1, 4048, 2, 4096), 4096)) /\
  4048 + 4096 <> 4096.
Proof. vm_compute. split; [reflexivity | discriminate]. Qed.

(** In every reachable state the two byte counters add up to the size of
    the heap, and no two physical neighbours are both available. *)
Lemma reachable_totals (g : globals) (start size : Z) (w : world) (live : list Z) :
  layout_ok g start size -> reachable g start size w live ->
  exists T La Lu,
    wf w T La Lu /\ no_adj_avail T /\
    l_bytes (avail (el_ctl w)) + l_bytes (used (el_ctl w)) = heap_bytes (el_ctl w) /\
    l_length (avail (el_ctl w)) + l_length (used (el_ctl w)) = Z.of_nat (List.length T) /\
    tsum T = heap_bytes (el_ctl w) /\ heap_bytes (el_ctl w) = size.
Proof.
  intros Hlay Hr.
  destruct (reachable_inv g start size w live Hlay Hr) as (T & La & Lu & W & Hna & _ & Hb & _).
  destruct (wf_counters w T La Lu W) as (E1 & E2 & E3 & E4 & E5 & E6 & E7).
  exists T, La, Lu. split; [exact W|]. split; [exact Hna|].
  split; [rewrite E1, E2; exact E5|]. split; [rewrite E3, E4; lia|]. tauto.
Qed.

(** C8 (counterexample).  After [el_init] on 4096 bytes the counters are
    avail = {1, 4096} and used = {0, 0}: the claimed sum
    4096 + 0 + 40 * (1 + 0) is neither the heap size nor the heap size less
    one overhead. *)
Lemma C8_counterexample :
  observe demo_init (fun w => (counters w, heap_bytes (el_ctl w)))
  = Some (0, ((1, 4096, 0, 0), 4096)) /\
  4096 + 0 + EL_BLOCK_OVERHEAD * (1 + 0) <> 4096 /\
  4096 + 0 + EL_BLOCK_OVERHEAD * (1 + 0) <> 4096 - EL_BLOCK_OVERHEAD.
Proof. vm_compute. repeat split; try reflexivity; discriminate. Qed.

(** C8 (as it holds of the code).  Between two public operations (allocations whose
    request plus overhead fits in a [size_t], frees of live pointers),
    avail.bytes + used.bytes equals heap_bytes: each counter already
    includes the overhead of its members, so the size fields of all blocks
    plus EL_BLOCK_OVERHEAD * (avail.length + used.length) add up to
    heap_bytes. *)
Theorem C8_counters_include_overhead (g : globals) (start size : Z) (w : world)
        (live : list Z) :
  layout_ok g start size -> reachable g start size w live ->
  exists T La Lu,
    wf w T La Lu /\
    l_bytes (avail (el_ctl w)) + l_bytes (used (el_ctl w)) = heap_bytes (el_ctl w) /\
    payload_sum T
    + EL_BLOCK_OVERHEAD * (l_length (avail (el_ctl w)) + l_length (used (el_ctl w)))
    = heap_bytes (el_ctl w).
Proof.
  intros Hlay Hr.
  destruct (reachable_totals g start size w live Hlay Hr)
    as (T & La & Lu & W & _ & Hb & Hl & Ht & _).
  exists T, La, Lu. split; [exact W|]. split; [exact Hb|].
  rewrite Hl, <- Ht. symmetry. apply tsum_payload.
Qed.


Lemma demo_init_run : demo_init (start_world demo_globals) = Some (0, demo_world).
Proof.
  destruct (el_init_spec demo_globals demo_start demo_size demo_layout_ok)
    as (w & E & _); [vm_compute; discriminate|].
  unfold demo_world, demo_init. rewrite E. reflexivity.
Qed.

Lemma demo_world_wf :
  wf demo_world [(demo_start, 4056, EL_AVAILABLE)] [demo_start] [].
Proof.
  destruct (el_init_spec demo_globals demo_start demo_size demo_layout_ok)
    as (w & E & W & _); [vm_compute; discriminate|].
  unfold demo_world, demo_init. rewrite E. exact W.
Qed.

Lemma demo_world_reachable : reachable demo_globals demo_start demo_size demo_world [].
Proof. apply reach_init. exact demo_init_run. Qed.

(** C8 (witness): the statement above in the state right after
    [el_init] on 4096 bytes. *)
Lemma C8_witness :
  exists T La Lu,
    wf demo_world T La Lu /\
    l_bytes (avail (el_ctl demo_world)) + l_bytes (used (el_ctl demo_world))
    = heap_bytes (el_ctl demo_world) /\
    payload_sum T
    + EL_BLOCK_OVERHEAD * (l_length (avail (el_ctl demo_world))
                           + l_length (used (el_ctl demo_world)))
    = heap_bytes (el_ctl demo_world).
Proof.
  apply (C8_counters_include_overhead demo_globals demo_start demo_size demo_world []).
  - exact demo_layout_ok.
  - exact demo_world_reachable.
Defined.

(** ** Initialisation *)

(** C7 (counterexample).  After [el_init] on 4096 bytes the available list has
    length 1 and bytes 4096, not 4096 - EL_BLOCK_OVERHEAD. *)
Lemma C7_counterexample :
  observe demo_init counters = Some (0, (1, 4096, 0, 0)) /\
  4096 <> demo_size - EL_BLOCK_OVERHEAD.
Proof. vm_compute. split; [reflexivity | discriminate]. Qed.

(** C7 (as it holds of the code).  For every region size S >= overhead + 1, [el_init]
    succeeds; afterwards the used list is empty with counters 0, the
    available list holds exactly the block at the heap start, its length
    is 1 and its bytes total is S (the size field plus the overhead), and
    the size field of that block is S - overhead. *)
Theorem C7_init_single_block (g : globals) (start size : Z) :
  layout_ok g start size -> EL_BLOCK_OVERHEAD + 1 <= size ->
  exists w,
    el_init g start size (start_world g) = Some (0, w) /\
    wf w [(start, size - EL_BLOCK_OVERHEAD, EL_AVAILABLE)] [start] [] /\
    counters w = (1, size, 0, 0) /\
    header_at w start = (size - EL_BLOCK_OVERHEAD, EL_AVAILABLE) /\
    load8 (mem w) (l_beg (used (el_ctl w)) + off_next) = l_end (used (el_ctl w)) /\
    load8 (mem w) (l_beg (avail (el_ctl w)) + off_next) = start /\
    load8 (mem w) (start + off_next) = l_end (avail (el_ctl w)).
Proof.
  intros Hlay Hs.
  destruct (el_init_spec g start size Hlay ltac:(lia)) as (w & E & W & Hb & Hst).
  exists w. split; [exact E|]. split; [exact W|].
  destruct (wf_counters w _ _ _ W) as (E1 & E2 & E3 & E4 & _).
  destruct W as [P _].
  destruct (pwf_avail w _ _ _ P) as (La & _). destruct (pwf_used w _ _ _ P) as (Lu & _).
  pose proof (pwf_blocks w _ _ _ P) as Hblk. inversion Hblk as [|? ? (B1 & B2 & _) _]; subst.
  simpl in La, Lu, E1, E2, E3, E4.
  split; [|split; [|tauto]].
  - unfold counters. rewrite E1, E2, E3, E4. unfold bsize. simpl.
    repeat match goal with |- (_, _) = (_, _) => apply f_equal2 end; lia.
  - unfold header_at. unfold baddr, bsize, bstate in B1, B2. simpl in B1, B2.
    rewrite B1, B2. reflexivity.
Qed.

(** C7 (witness): the statement above on 4096 bytes. *)
Lemma C7_witness :
  exists w,
    el_init demo_globals demo_start demo_size (start_world demo_globals) = Some (0, w) /\
    wf w [(demo_start, demo_size - EL_BLOCK_OVERHEAD, EL_AVAILABLE)] [demo_start] [] /\
    counters w = (1, demo_size, 0, 0) /\
    header_at w demo_start = (demo_size - EL_BLOCK_OVERHEAD, EL_AVAILABLE) /\
    load8 (mem w) (l_beg (used (el_ctl w)) + off_next) = l_end (used (el_ctl w)) /\
    load8 (mem w) (l_beg (avail (el_ctl w)) + off_next) = demo_start /\
    load8 (mem w) (demo_start + off_next) = l_end (avail (el_ctl w)).
Proof.
  apply (C7_init_single_block demo_globals demo_start demo_size).
  - exact demo_layout_ok.
  - vm_compute. discriminate.
Defined.

(** ** Freeing an available block *)

(** C9.  For every pointer whose recovered header, 32 bytes
    below it, is readable and holds the state Available, [el_free] returns
    without changing anything. *)
Theorem C9_free_of_available_is_noop (w : world) (p : Z) :
  valid_access w (PTR_PLUS_BYTES p (wrap (- sizeof_el_blockhead_t)) + off_state) 1 = true ->
  load1 (mem w) (PTR_PLUS_BYTES p (wrap (- sizeof_el_blockhead_t)) + off_state)
  = EL_AVAILABLE ->
  el_free p w = Some (tt, w).
Proof.
  intros Hv Hs. unfold el_free. accessors.
  mrun ltac:(exact Hv). rewrite Hs. reflexivity.
Qed.

(** C9 (witness): freeing the payload pointer of the block that is
    available right after [el_init]. *)
Lemma C9_witness : el_free (demo_start + 32) demo_world = Some (tt, demo_world).
Proof.
  apply (C9_free_of_available_is_noop demo_world (demo_start + 32)).
  - vm_compute. reflexivity.
  - vm_compute. reflexivity.
Defined.


(** ** Splitting *)

(** C4 (counterexample).  On the fresh heap of 4096 bytes, whose only block has
    size 4056, [el_malloc 4016] leaves a remainder of 4056 - 4016 - 40 = 0
    bytes, smaller than the overhead; yet the block is split: the caller's
    block has size field 4016, not 4056, and a block whose size field is 0
    is created at [heap_start + 4056] and linked into the available list. *)
Lemma C4_counterexample :
  observe (demo_init ;; el_malloc 4 4016)
          (fun w => (header_at w demo_start, header_at w (demo_start + 4056),
                     avail_members w, counters w))
  = Some (demo_start + 32,
          ((4016, EL_USED), (0, EL_AVAILABLE), [demo_start + 4056], (1, 40, 1, 4056))) /\
  4056 - 4016 - EL_BLOCK_OVERHEAD < EL_BLOCK_OVERHEAD.
Proof. vm_compute. split; reflexivity. Qed.

(** C4 (as it holds of the code).  In a well-formed heap, for a request n with
    n + overhead representable, [el_malloc] either finds no available block
    of size at least n + overhead, returns [NULL] and changes nothing, or
    takes the first such block, of size s, and always splits it: the
    caller's block gets size field exactly n and the remainder becomes a
    new available block of size s - n - overhead, which may be smaller than
    the overhead and may be zero. *)
Theorem C4_allocate_always_splits (w : world) (T : list blk) (La Lu : list Z)
        (n : Z) (fuel : nat) :
  wf w T La Lu ->
  0 <= n -> n + EL_BLOCK_OVERHEAD < WORD -> (List.length La < fuel)%nat ->
  (el_malloc fuel n w = Some (NULL, w) /\
   forall y, In y La -> load8 (mem w) (y + off_size) < n + EL_BLOCK_OVERHEAD) \/
  (exists T1 a s T2 L1 L2 w',
      T = T1 ++ (a, s, EL_AVAILABLE) :: T2 /\ La = L1 ++ a :: L2 /\
      (forall y, In y L1 -> load8 (mem w) (y + off_size) < n + EL_BLOCK_OVERHEAD) /\
      n + EL_BLOCK_OVERHEAD <= s /\
      el_malloc fuel n w = Some (payload a, w') /\
      wf w' (T1 ++ (a, n, EL_USED)
                :: (a + n + EL_BLOCK_OVERHEAD, s - n - EL_BLOCK_OVERHEAD, EL_AVAILABLE)
                :: T2)
         ((a + n + EL_BLOCK_OVERHEAD) :: L1 ++ L2) (a :: Lu)).
Proof.
  intros W Hn Hov Hfuel.
  destruct (malloc_step w T La Lu n fuel W Hn Hov Hfuel)
    as [H | (T1 & a & s & T2 & L1 & L2 & w' & ET & EL & Hs & Hfit & R & _ & W' & _)].
  - left. exact H.
  - right. exists T1, a, s, T2, L1, L2, w'. tauto.
Qed.

(** C4 (witness): the statement above for [el_malloc 100] right after
    [el_init] on 4096 bytes. *)
Lemma C4_witness :
  (el_malloc 2 100 demo_world = Some (NULL, demo_world) /\
   forall y, In y [demo_start] ->
             load8 (mem demo_world) (y + off_size) < 100 + EL_BLOCK_OVERHEAD) \/
  (exists T1 a s T2 L1 L2 w',
      [(demo_start, 4056, EL_AVAILABLE)] = T1 ++ (a, s, EL_AVAILABLE) :: T2 /\
      [demo_start] = L1 ++ a :: L2 /\
      (forall y, In y L1 ->
                 load8 (mem demo_world) (y + off_size) < 100 + EL_BLOCK_OVERHEAD) /\
      100 + EL_BLOCK_OVERHEAD <= s /\
      el_malloc 2 100 demo_world = Some (payload a, w') /\
      wf w' (T1 ++ (a, 100, EL_USED)
                :: (a + 100 + EL_BLOCK_OVERHEAD, s - 100 - EL_BLOCK_OVERHEAD, EL_AVAILABLE)
                :: T2)
         ((a + 100 + EL_BLOCK_OVERHEAD) :: L1 ++ L2) (a :: [])).
Proof.
  apply (C4_allocate_always_splits demo_world _ [demo_start] [] 100 2).
  - exact demo_world_wf.
  - lia.
  - vm_compute. reflexivity.
  - simpl. lia.
Defined.

(** ** Allocate, then free *)

Lemma single_avail_others_used (w : world) (T1 : list blk) (a s : Z) (T2 : list blk)
      (Lu : list Z) :
  wf w (T1 ++ (a, s, EL_AVAILABLE) :: T2) [a] Lu ->
  last_used T1 /\ head_used T2 /\ ~ In a Lu.
Proof.
  intros [P Hst].
  pose proof (tiles_NoDup_addr _ _ _ (pwf_tiles w _ _ _ P)) as Hnd.
  assert (Hu : forall b, In b (T1 ++ T2) -> bstate b = EL_USED).
  { intros b Hb. rewrite Forall_forall in Hst.
    destruct (Hst b) as [[_ [E | []]] | [E _]]; [| |exact E].
    - apply in_app_or in Hb. apply in_or_app. simpl. tauto.
    - exfalso. rewrite map_app in Hnd. simpl in Hnd.
      apply NoDup_remove_2 in Hnd. apply Hnd.
      change (baddr (a, s, EL_AVAILABLE)) with a.
      rewrite E, <- map_app. apply in_map. exact Hb. }
  split; [|split].
  - destruct (list_last_case _ T1) as [-> | (T1' & b & ->)]; [left; reflexivity|].
    right. exists T1', b. split; [reflexivity|].
    apply Hu. apply in_or_app. left. apply in_or_app. right. simpl. auto.
  - destruct T2 as [|b T2]; simpl; [exact I|].
    apply Hu. apply in_or_app. right. simpl. auto.
  - pose proof (pwf_nodup w _ _ _ P) as Hn. inversion Hn. assumption.
Qed.

(** C5.  From any well-formed state whose available list holds
    the single block [a], of size s, and for any n for which that block can
    be split (n + overhead <= s, so that the allocation succeeds),
    [el_malloc n] followed by [el_free] of the returned pointer restores
    the available list to the single block [a] of size s, with the same
    length and bytes totals. *)
Theorem C5_allocate_free_round_trip (w : world) (T1 : list blk) (a s : Z)
        (T2 : list blk) (Lu : list Z) (n : Z) (fuel : nat) :
  wf w (T1 ++ (a, s, EL_AVAILABLE) :: T2) [a] Lu ->
  0 <= n -> n + EL_BLOCK_OVERHEAD <= s -> (1 < fuel)%nat ->
  exists p w1 w2,
    el_malloc fuel n w = Some (p, w1) /\ p <> NULL /\
    el_free p w1 = Some (tt, w2) /\
    wf w2 (T1 ++ (a, s, EL_AVAILABLE) :: T2) [a] Lu /\
    l_length (avail (el_ctl w2)) = 1 /\
    l_length (avail (el_ctl w2)) = l_length (avail (el_ctl w)) /\
    l_bytes (avail (el_ctl w2)) = l_bytes (avail (el_ctl w)).
Proof.
  intros W Hn Hfit Hfuel.
  destruct (single_avail_others_used w T1 a s T2 Lu W) as (Hl & Hh & Hna).
  destruct (pwf_block_parts w T1 _ T2 _ _ (proj1 W)) as (_ & _ & _ & _ & Ha & _).
  unfold baddr in Ha. simpl in Ha.
  change EL_BLOCK_OVERHEAD with 40 in *.
  destruct (el_malloc_spec w T1 a s T2 [] [] Lu n fuel W) as (w1 & R1 & _ & W1);
    [simpl; tauto | exact Hn | exact Hfit | simpl; lia |].
  simpl app in W1.
  destruct (el_free_spec_above w1 T1 a n (a + n + 40) (s - n - 40) T2 _ _ W1 Hl)
    as (w2 & R2 & _ & W2).
  rewrite remove_head_same in W2 by (simpl; tauto).
  rewrite remove_head_same in W2 by exact Hna.
  replace (n + (s - n - 40) + 40) with s in W2 by lia.
  exists (a + 32), w1, w2.
  split; [exact R1|]. split; [unfold NULL; lia|]. split; [exact R2|]. split; [exact W2|].
  destruct (wf_counters w _ _ _ W) as (E1 & _ & E3 & _).
  destruct (wf_counters w2 _ _ _ W2) as (F1 & _ & F3 & _).
  destruct (pwf_avail w2 _ _ _ (proj1 W2)) as (_ & Hlen & _).
  split; [rewrite Hlen; reflexivity|].
  split; congruence.
Qed.

(** C5 (witness): [el_malloc 100] then [el_free] right after [el_init] on
    4096 bytes. *)
Lemma C5_witness :
  exists p w1 w2,
    el_malloc 2 100 demo_world = Some (p, w1) /\ p <> NULL /\
    el_free p w1 = Some (tt, w2) /\
    wf w2 ([] ++ (demo_start, 4056, EL_AVAILABLE) :: []) [demo_start] [] /\
    l_length (avail (el_ctl w2)) = 1 /\
    l_length (avail (el_ctl w2)) = l_length (avail (el_ctl demo_world)) /\
    l_bytes (avail (el_ctl w2)) = l_bytes (avail (el_ctl demo_world)).
Proof.
  apply (C5_allocate_free_round_trip demo_world [] demo_start 4056 [] [] 100 2).
  - exact demo_world_wf.
  - lia.
  - vm_compute. discriminate.
  - lia.
Defined.


(** ** Coalescing three neighbours *)

Lemma perm3_cases (p1 p2 p3 a b c : Z) :
  a <> b -> a <> c -> b <> c ->
  Permutation [p1; p2; p3] [a; b; c] ->
  (p1 = a /\ p2 = b /\ p3 = c) \/ (p1 = a /\ p2 = c /\ p3 = b) \/
  (p1 = b /\ p2 = a /\ p3 = c) \/ (p1 = b /\ p2 = c /\ p3 = a) \/
  (p1 = c /\ p2 = a /\ p3 = b) \/ (p1 = c /\ p2 = b /\ p3 = a).
Proof.
  intros Hab Hac Hbc HP.
  assert (Hnd : NoDup [p1; p2; p3]).
  { apply (Permutation_NoDup (Permutation_sym HP)).
    apply NoDup_cons; [simpl; intuition congruence|].
    apply NoDup_cons; [simpl; intuition congruence|].
    apply NoDup_cons; [simpl; tauto | apply NoDup_nil]. }
  assert (H1 : In p1 [a; b; c]) by (apply (Permutation_in _ HP); simpl; auto).
  assert (H2 : In p2 [a; b; c]) by (apply (Permutation_in _ HP); simpl; auto).
  assert (H3 : In p3 [a; b; c]) by (apply (Permutation_in _ HP); simpl; auto).
  inversion Hnd as [|? ? N1 Hnd']; subst. inversion Hnd' as [|? ? N2 _]; subst.
  simpl in N1, N2, H1, H2, H3.
  destruct H1 as [<- | [<- | [<- | []]]];
    destruct H2 as [<- | [<- | [<- | []]]];
    destruct H3 as [<- | [<- | [<- | []]]];
    tauto.
Qed.

Ltac tidy_lists H :=
  repeat match type of H with
  | context [remove Z.eq_dec ?x (?x :: ?L)] =>
      rewrite (remove_head_same x L) in H
        by first [assumption | simpl; intuition congruence]
  | context [remove Z.eq_dec ?x (?y :: ?L)] =>
      rewrite (remove_head_other x y L) in H by congruence
  end.

(** Three adjacent used blocks whose outer neighbours are absent or in
    use, freed in any order, end as one available block. *)
Lemma free_three_in_any_order (w : world) (T1 : list blk) (a sa b sb c sc : Z)
      (T2 : list blk) (La Lu : list Z) (p1 p2 p3 : Z) :
  wf w (T1 ++ (a, sa, EL_USED) :: (b, sb, EL_USED) :: (c, sc, EL_USED) :: T2) La Lu ->
  last_used T1 -> head_used T2 ->
  Permutation [p1; p2; p3] [a; b; c] ->
  exists w',
    (el_free (payload p1) ;; el_free (payload p2) ;; el_free (payload p3)) w
    = Some (tt, w') /\
    wf w' (T1 ++ (a, sa + sb + sc + 2 * EL_BLOCK_OVERHEAD, EL_AVAILABLE) :: T2)
       (a :: La)
       (remove Z.eq_dec p3 (remove Z.eq_dec p2 (remove Z.eq_dec p1 Lu))).
Proof.
  intros W Hl Hh HP.
  (* geometry of the three blocks *)
  destruct (pwf_block_parts w T1 (a, sa, EL_USED) _ La Lu (proj1 W))
    as (_ & _ & HtA & _ & _ & Hsa & _).
  cbn [tiles] in HtA. destruct HtA as (Eb & Hsb & Ec & Hsc & _).
  unfold bend, baddr, bsize in Eb, Ec, Hsa, Hsb, Hsc.
  simpl fst in *. simpl snd in *. change EL_BLOCK_OVERHEAD with 40 in *.
  assert (Hab : a <> b) by lia. assert (Hac : a <> c) by lia. assert (Hbc : b <> c) by lia.
  assert (Hba : b <> a) by lia. assert (Hca : c <> a) by lia. assert (Hcb : c <> b) by lia.
  (* the three blocks are in the used list, hence not in the available list *)
  assert (HinA : In a Lu).
  { apply (wf_in_used w _ La Lu (a, sa, EL_USED) W); [apply in_or_app; simpl; auto | reflexivity]. }
  assert (HinB : In b Lu).
  { apply (wf_in_used w _ La Lu (b, sb, EL_USED) W); [apply in_or_app; simpl; auto | reflexivity]. }
  assert (HinC : In c Lu).
  { apply (wf_in_used w _ La Lu (c, sc, EL_USED) W); [apply in_or_app; simpl; auto | reflexivity]. }
  pose proof (pwf_nodup w _ La Lu (proj1 W)) as Hnd.
  assert (Hna : ~ In a La) by (intros H'; eapply NoDup_app_disj; [exact Hnd | exact H' | exact HinA | reflexivity]).
  assert (Hnb : ~ In b La) by (intros H'; eapply NoDup_app_disj; [exact Hnd | exact H' | exact HinB | reflexivity]).
  assert (Hnc : ~ In c La) by (intros H'; eapply NoDup_app_disj; [exact Hnd | exact H' | exact HinC | reflexivity]).
  (* the same heap, seen from the second and from the third block *)
  assert (WB : wf w ((T1 ++ [(a, sa, EL_USED)]) ++ (b, sb, EL_USED) :: (c, sc, EL_USED) :: T2) La Lu)
    by (rewrite <- app_assoc; exact W).
  assert (WC : wf w ((T1 ++ [(a, sa, EL_USED); (b, sb, EL_USED)]) ++ (c, sc, EL_USED) :: T2) La Lu)
    by (rewrite <- app_assoc; exact W).
  assert (HlA : last_used (T1 ++ [(a, sa, EL_USED)])).
  { right. exists T1, (a, sa, EL_USED). split; reflexivity. }
  assert (HlB : forall X, last_used (T1 ++ [X; (b, sb, EL_USED)])).
  { intros X. right. exists (T1 ++ [X]), (b, sb, EL_USED).
    split; [rewrite <- app_assoc|]; reflexivity. }
  unfold payload. change sizeof_el_blockhead_t with 32.
  destruct (perm3_cases p1 p2 p3 a b c Hab Hac Hbc HP)
    as [(-> & -> & ->) | [(-> & -> & ->) | [(-> & -> & ->) | [(-> & -> & ->)
       | [(-> & -> & ->) | (-> & -> & ->)]]]]].
  - (* a, b, c *)
    destruct (el_free_spec_none w T1 a sa _ La Lu W Hl eq_refl) as (w1 & R1 & _ & W1).
    destruct (el_free_spec_below w1 T1 a sa b sb _ _ _ W1 eq_refl) as (w2 & R2 & _ & W2).
    tidy_lists W2.
    destruct (el_free_spec_below w2 T1 a _ c sc T2 _ _ W2 Hh) as (w3 & R3 & _ & W3).
    tidy_lists W3.
    replace (sa + sb + 40 + sc + 40) with (sa + sb + sc + 2 * 40) in W3 by lia.
    exists w3. split; [mcall R1; mcall R2; exact R3 | exact W3].
  - (* a, c, b *)
    destruct (el_free_spec_none w T1 a sa _ La Lu W Hl eq_refl) as (w1 & R1 & _ & W1).
    assert (W1' : wf w1 ((T1 ++ [(a, sa, EL_AVAILABLE); (b, sb, EL_USED)])
                         ++ (c, sc, EL_USED) :: T2) (a :: La) (remove Z.eq_dec a Lu))
      by (rewrite <- app_assoc; exact W1).
    destruct (el_free_spec_none w1 _ c sc T2 _ _ W1' (HlB _) Hh) as (w2 & R2 & _ & W2).
    rewrite <- app_assoc in W2. simpl app in W2.
    destruct (el_free_spec_both w2 T1 a sa b sb c sc T2 _ _ W2) as (w3 & R3 & _ & W3).
    tidy_lists W3.
    replace (sa + (sb + sc + 40) + 40) with (sa + sb + sc + 2 * 40) in W3 by lia.
    exists w3. split; [mcall R1; mcall R2; exact R3 | exact W3].
  - (* b, a, c *)
    destruct (el_free_spec_none w _ b sb _ La Lu WB HlA eq_refl) as (w1 & R1 & _ & W1).
    rewrite <- app_assoc in W1. simpl app in W1.
    destruct (el_free_spec_above w1 T1 a sa b sb _ _ _ W1 Hl) as (w2 & R2 & _ & W2).
    tidy_lists W2.
    destruct (el_free_spec_below w2 T1 a _ c sc T2 _ _ W2 Hh) as (w3 & R3 & _ & W3).
    tidy_lists W3.
    replace (sa + sb + 40 + sc + 40) with (sa + sb + sc + 2 * 40) in W3 by lia.
    exists w3. split; [mcall R1; mcall R2; exact R3 | exact W3].
  - (* b, c, a *)
    destruct (el_free_spec_none w _ b sb _ La Lu WB HlA eq_refl) as (w1 & R1 & _ & W1).
    destruct (el_free_spec_below w1 _ b sb c sc T2 _ _ W1 Hh) as (w2 & R2 & _ & W2).
    tidy_lists W2.
    rewrite <- app_assoc in W2. simpl app in W2.
    destruct (el_free_spec_above w2 T1 a sa b _ T2 _ _ W2 Hl) as (w3 & R3 & _ & W3).
    tidy_lists W3.
    replace (sa + (sb + sc + 40) + 40) with (sa + sb + sc + 2 * 40) in W3 by lia.
    exists w3. split; [mcall R1; mcall R2; exact R3 | exact W3].
  - (* c, a, b *)
    destruct (el_free_spec_none w _ c sc T2 La Lu WC (HlB _) Hh) as (w1 & R1 & _ & W1).
    rewrite <- app_assoc in W1. simpl app in W1.
    destruct (el_free_spec_none w1 T1 a sa _ _ _ W1 Hl eq_refl) as (w2 & R2 & _ & W2).
    destruct (el_free_spec_both w2 T1 a sa b sb c sc T2 _ _ W2) as (w3 & R3 & _ & W3).
    tidy_lists W3.
    replace (sa + (sb + sc + 40) + 40) with (sa + sb + sc + 2 * 40) in W3 by lia.
    exists w3. split; [mcall R1; mcall R2; exact R3 | exact W3].
  - (* c, b, a *)
    destruct (el_free_spec_none w _ c sc T2 La Lu WC (HlB _) Hh) as (w1 & R1 & _ & W1).
    assert (W1' : wf w1 ((T1 ++ [(a, sa, EL_USED)]) ++ (b, sb, EL_USED)
                         :: (c, sc, EL_AVAILABLE) :: T2) (c :: La) (remove Z.eq_dec c Lu)).
    { rewrite <- app_assoc in W1 |- *. exact W1. }
    destruct (el_free_spec_above w1 _ b sb c sc T2 _ _ W1' HlA) as (w2 & R2 & _ & W2).
    tidy_lists W2.
    rewrite <- app_assoc in W2. simpl app in W2.
    destruct (el_free_spec_above w2 T1 a sa b _ T2 _ _ W2 Hl) as (w3 & R3 & _ & W3).
    tidy_lists W3.
    replace (sa + (sb + sc + 40) + 40) with (sa + sb + sc + 2 * 40) in W3 by lia.
    exists w3. split; [mcall R1; mcall R2; exact R3 | exact W3].
Qed.


Lemma tsum_app (X Y : list blk) : tsum (X ++ Y) = tsum X + tsum Y.
Proof. induction X as [|b X IH]; simpl; lia. Qed.

Lemma demo_four_wf :
  wf demo_four
     [(demo_start, 8, EL_USED); (demo_start + 48, 8, EL_USED);
      (demo_start + 96, 8, EL_USED); (demo_start + 144, 8, EL_USED);
      (demo_start + 192, 3864, EL_AVAILABLE)]
     [demo_start + 192]
     [demo_start + 144; demo_start + 96; demo_start + 48; demo_start].
Proof.
  destruct (el_malloc_spec demo_world [] demo_start 4056 [] [] [] [] 8 2 demo_world_wf)
    as (w1 & R1 & _ & W1); [intros y [] | lia | lia | cbn [app List.length]; lia |].
  destruct (el_malloc_spec w1 [(demo_start, 8, EL_USED)] (demo_start + 48) 4008 []
                           [] [] [demo_start] 8 2 W1)
    as (w2 & R2 & _ & W2); [intros y [] | lia | lia | cbn [app List.length]; lia |].
  destruct (el_malloc_spec w2 [(demo_start, 8, EL_USED); (demo_start + 48, 8, EL_USED)]
                           (demo_start + 96) 3960 []
                           [] [] [demo_start + 48; demo_start] 8 2 W2)
    as (w3 & R3 & _ & W3); [intros y [] | lia | lia | cbn [app List.length]; lia |].
  destruct (el_malloc_spec w3 [(demo_start, 8, EL_USED); (demo_start + 48, 8, EL_USED);
                               (demo_start + 96, 8, EL_USED)]
                           (demo_start + 144) 3912 []
                           [] [] [demo_start + 96; demo_start + 48; demo_start] 8 2 W3)
    as (w4 & R4 & _ & W4); [intros y [] | lia | lia | cbn [app List.length]; lia |].
  unfold demo_four.
  mcall R1. mcall R2. mcall R3. rewrite R4. exact W4.
Qed.

(** C6 (counterexample).  On the fresh heap of 4096 bytes, three calls
    [el_malloc(8)] give three physically adjacent used blocks of size 8, at
    [heap_start], [heap_start + 48] and [heap_start + 96]; the block above
    them, at [heap_start + 144], is available.  Freeing the three ends with
    one available block of size 4056, not 8 + 8 + 8 + 2 * 40 = 104: the last
    merge absorbs the available neighbour above as well. *)
Lemma C6_counterexample :
  observe (demo_init ;; el_malloc 4 8 ;; el_malloc 4 8 ;; el_malloc 4 8)
          (fun w => (header_at w demo_start, header_at w (demo_start + 48),
                     header_at w (demo_start + 96), header_at w (demo_start + 144)))
  = Some (demo_start + 128,
          ((8, EL_USED), (8, EL_USED), (8, EL_USED), (3912, EL_AVAILABLE))) /\
  observe (demo_init ;;
           p0 <- el_malloc 4 8 ;; p1 <- el_malloc 4 8 ;; p2 <- el_malloc 4 8 ;;
           el_free p0 ;; el_free p1 ;; el_free p2 ;; ret (p0, p1, p2))
          (fun w => (header_at w demo_start, avail_members w, counters w))
  = Some ((demo_start + 32, demo_start + 80, demo_start + 128),
          ((4056, EL_AVAILABLE), [demo_start], (1, 4096, 0, 0))) /\
  4056 <> 8 + 8 + 8 + 2 * EL_BLOCK_OVERHEAD.
Proof. vm_compute. split; [reflexivity|]. split; [reflexivity | discriminate]. Qed.

(** C6 (as it holds of the code).  In a well-formed heap, let A, B, C be three physically
    adjacent used blocks whose outer neighbours (the block below A and the
    block above C) are each absent or in use.  Freeing the three in any of
    the six orders completes and ends with their region held by exactly one
    available block, at the header of A, whose size field is
    size(A) + size(B) + size(C) + 2 * overhead; every other block is as
    before, the block joins the available list once, and the available
    bytes counter grows by the three sizes plus three overheads, nothing
    being counted twice. *)
Theorem C6_coalescing_any_order (w : world) (T1 : list blk) (a sa b sb c sc : Z)
        (T2 : list blk) (La Lu : list Z) (p1 p2 p3 : Z) :
  wf w (T1 ++ (a, sa, EL_USED) :: (b, sb, EL_USED) :: (c, sc, EL_USED) :: T2) La Lu ->
  last_used T1 -> head_used T2 ->
  Permutation [p1; p2; p3] [a; b; c] ->
  exists w',
    (el_free (payload p1) ;; el_free (payload p2) ;; el_free (payload p3)) w
    = Some (tt, w') /\
    wf w' (T1 ++ (a, sa + sb + sc + 2 * EL_BLOCK_OVERHEAD, EL_AVAILABLE) :: T2)
       (a :: La)
       (remove Z.eq_dec p3 (remove Z.eq_dec p2 (remove Z.eq_dec p1 Lu))) /\
    header_at w' a = (sa + sb + sc + 2 * EL_BLOCK_OVERHEAD, EL_AVAILABLE) /\
    l_length (avail (el_ctl w')) = l_length (avail (el_ctl w)) + 1 /\
    l_length (used (el_ctl w')) = l_length (used (el_ctl w)) - 3 /\
    l_bytes (avail (el_ctl w'))
    = l_bytes (avail (el_ctl w)) + (sa + sb + sc + 3 * EL_BLOCK_OVERHEAD) /\
    l_bytes (used (el_ctl w'))
    = l_bytes (used (el_ctl w)) - (sa + sb + sc + 3 * EL_BLOCK_OVERHEAD).
Proof.
  intros W Hl Hh HP.
  destruct (free_three_in_any_order w T1 a sa b sb c sc T2 La Lu p1 p2 p3 W Hl Hh HP)
    as (w' & R & W').
  exists w'. split; [exact R|]. split; [exact W'|].
  destruct (pwf_block_parts w' T1 _ T2 _ _ (proj1 W')) as (_ & _ & _ & (B1 & B2 & _) & _).
  unfold baddr, bsize, bstate in B1, B2. simpl fst in B1, B2. simpl snd in B1, B2.
  split; [unfold header_at; rewrite B1, B2; reflexivity|].
  destruct (wf_counters w _ _ _ W) as (E1 & E2 & E3 & E4 & _).
  destruct (wf_counters w' _ _ _ W') as (F1 & F2 & F3 & F4 & _).
  rewrite filter_app in E1, E2, E3, E4, F1, F2, F3, F4.
  simpl filter in E1, E2, E3, E4, F1, F2, F3, F4.
  rewrite tsum_app in E1, E2, F1, F2. rewrite length_app in E3, E4, F3, F4.
  simpl tsum in E1, E2, F1, F2. simpl List.length in E3, E4, F3, F4.
  unfold bsize in *. simpl fst in *. simpl snd in *.
  change EL_BLOCK_OVERHEAD with 40 in *.
  repeat split; lia.
Qed.

(** C6 (witness): after [el_init] on 4096 bytes and four calls
    [el_malloc(8)], the first three blocks are used and adjacent, with
    nothing below and a used block above; they are freed in the order
    A, C, B. *)
Lemma C6_witness :
  exists w',
    (el_free (payload demo_start) ;; el_free (payload (demo_start + 96)) ;;
     el_free (payload (demo_start + 48))) demo_four
    = Some (tt, w') /\
    wf w' ([] ++ (demo_start, 8 + 8 + 8 + 2 * EL_BLOCK_OVERHEAD, EL_AVAILABLE)
              :: [(demo_start + 144, 8, EL_USED); (demo_start + 192, 3864, EL_AVAILABLE)])
       (demo_start :: [demo_start + 192])
       (remove Z.eq_dec (demo_start + 48)
          (remove Z.eq_dec (demo_start + 96)
             (remove Z.eq_dec demo_start
                [demo_start + 144; demo_start + 96; demo_start + 48; demo_start]))) /\
    header_at w' demo_start = (8 + 8 + 8 + 2 * EL_BLOCK_OVERHEAD, EL_AVAILABLE) /\
    l_length (avail (el_ctl w')) = l_length (avail (el_ctl demo_four)) + 1 /\
    l_length (used (el_ctl w')) = l_length (used (el_ctl demo_four)) - 3 /\
    l_bytes (avail (el_ctl w'))
    = l_bytes (avail (el_ctl demo_four)) + (8 + 8 + 8 + 3 * EL_BLOCK_OVERHEAD) /\
    l_bytes (used (el_ctl w'))
    = l_bytes (used (el_ctl demo_four)) - (8 + 8 + 8 + 3 * EL_BLOCK_OVERHEAD).
Proof.
  apply (C6_coalescing_any_order demo_four [] demo_start 8 (demo_start + 48) 8
           (demo_start + 96) 8
           [(demo_start + 144, 8, EL_USED); (demo_start + 192, 3864, EL_AVAILABLE)]
           [demo_start + 192]
           [demo_start + 144; demo_start + 96; demo_start + 48; demo_start]).
  - exact demo_four_wf.
  - left. reflexivity.
  - reflexivity.
  - apply perm_skip. apply perm_swap.
Defined.

(** * Further properties of the code *)

(** ** Headers, footers and physical neighbours *)

Lemma el_get_header_spec (w : world) (T : list blk) (La Lu : list Z) (b : blk) :
  pwf w T La Lu -> In b T -> el_get_header (bfoot b) w = Some (baddr b, w).
Proof.
  intros Hp Hb.
  destruct (blk_facts w T La Lu Hp b Hb) as ((B1 & B2 & B3) & ? & ? & ? & ? & ?).
  pose proof (pwf_geom w T La Lu Hp) as Hg.
  unfold el_get_header. accessors.
  mrun ltac:(apply (valid_heap w Hg); [reflexivity | consts; lia ..]).
  rewrite B3. unfold ret, PTR_PLUS_BYTES. do 2 f_equal.
  rewrite wrap_add_r.
  transitivity (wrap (baddr b)); [f_equal; consts; lia | apply wrap_small; consts; lia].
Qed.

(** X1.  In a well-formed heap, [el_get_footer] and [el_get_header] are
    inverse to each other on every block: from the header of a block one
    reaches its footer and back, and from the footer the header and back;
    neither function changes the state. *)
Theorem X1_footer_header_round_trip (w : world) (T : list blk) (La Lu : list Z)
        (b : blk) :
  pwf w T La Lu -> In b T ->
  (f <- el_get_footer (baddr b) ;; el_get_header f) w = Some (baddr b, w) /\
  (h <- el_get_header (bfoot b) ;; el_get_footer h) w = Some (bfoot b, w) /\
  bfoot b = baddr b + sizeof_el_blockhead_t + load8 (mem w) (baddr b + off_size).
Proof.
  intros Hp Hb. split; [|split].
  - mcall (el_get_footer_spec w T La Lu Hp b Hb).
    apply (el_get_header_spec w T La Lu b Hp Hb).
  - mcall (el_get_header_spec w T La Lu b Hp Hb).
    apply (el_get_footer_spec w T La Lu Hp b Hb).
  - destruct (blk_facts w T La Lu Hp b Hb) as ((B1 & _) & _).
    rewrite B1. reflexivity.
Qed.

(** X1 (witness): the second of the four used blocks of the concrete heap. *)
Lemma X1_witness :
  (f <- el_get_footer (baddr (demo_start + 48, 8, EL_USED)) ;; el_get_header f) demo_four
  = Some (baddr (demo_start + 48, 8, EL_USED), demo_four) /\
  (h <- el_get_header (bfoot (demo_start + 48, 8, EL_USED)) ;; el_get_footer h) demo_four
  = Some (bfoot (demo_start + 48, 8, EL_USED), demo_four) /\
  bfoot (demo_start + 48, 8, EL_USED)
  = baddr (demo_start + 48, 8, EL_USED) + sizeof_el_blockhead_t
    + load8 (mem demo_four) (baddr (demo_start + 48, 8, EL_USED) + off_size).
Proof.
  apply (X1_footer_header_round_trip demo_four _ _ _ (demo_start + 48, 8, EL_USED)
           (proj1 demo_four_wf)).
  right. left. reflexivity.
Defined.

(** X2.  In a well-formed heap, for two physically consecutive blocks
    [b0] and [b], [el_block_above] of [b0] is [b] and [el_block_below] of
    [b] is [b0], so the two functions undo each other; neither changes the
    state. *)
Theorem X2_above_below_round_trip (w : world) (T1 : list blk) (b0 b : blk)
        (T2 : list blk) (La Lu : list Z) :
  pwf w (T1 ++ b0 :: b :: T2) La Lu ->
  el_block_above (baddr b0) w = Some (baddr b, w) /\
  el_block_below (baddr b) w = Some (baddr b0, w) /\
  (h <- el_block_above (baddr b0) ;; el_block_below h) w = Some (baddr b0, w) /\
  (l <- el_block_below (baddr b) ;; el_block_above l) w = Some (baddr b, w).
Proof.
  intros Hp.
  pose proof (el_block_above_spec w _ La Lu Hp T1 b0 (b :: T2) eq_refl) as Ha.
  pose proof (el_block_below_spec w _ La Lu Hp T1 b0 b T2 eq_refl) as Hb.
  cbv iota in Ha.
  split; [exact Ha|]. split; [exact Hb|]. split.
  - mcall Ha. exact Hb.
  - mcall Hb. exact Ha.
Qed.

(** X2 (witness): the second and third used blocks of the concrete heap. *)
Lemma X2_witness :
  el_block_above (baddr (demo_start + 48, 8, EL_USED)) demo_four
  = Some (baddr (demo_start + 96, 8, EL_USED), demo_four) /\
  el_block_below (baddr (demo_start + 96, 8, EL_USED)) demo_four
  = Some (baddr (demo_start + 48, 8, EL_USED), demo_four) /\
  (h <- el_block_above (baddr (demo_start + 48, 8, EL_USED)) ;; el_block_below h) demo_four
  = Some (baddr (demo_start + 48, 8, EL_USED), demo_four) /\
  (l <- el_block_below (baddr (demo_start + 96, 8, EL_USED)) ;; el_block_above l) demo_four
  = Some (baddr (demo_start + 96, 8, EL_USED), demo_four).
Proof.
  apply (X2_above_below_round_trip demo_four [(demo_start, 8, EL_USED)]
           (demo_start + 48, 8, EL_USED) (demo_start + 96, 8, EL_USED)
           [(demo_start + 144, 8, EL_USED); (demo_start + 192, 3864, EL_AVAILABLE)]
           [demo_start + 192]
           [demo_start + 144; demo_start + 96; demo_start + 48; demo_start]).
  exact (proj1 demo_four_wf).
Defined.

(** X3.  In a well-formed heap, [el_block_above] returns [NULL] exactly
    for the last block of the heap and [el_block_below] returns [NULL]
    exactly for the first one; for every block both calls succeed and
    leave the state unchanged. *)
Theorem X3_neighbours_at_the_heap_ends (w : world) (T1 : list blk) (b : blk)
        (T2 : list blk) (La Lu : list Z) :
  pwf w (T1 ++ b :: T2) La Lu ->
  exists up dn,
    el_block_above (baddr b) w = Some (up, w) /\
    el_block_below (baddr b) w = Some (dn, w) /\
    (up = NULL <-> T2 = []) /\ (dn = NULL <-> T1 = []).
Proof.
  intros Hp.
  pose proof (el_block_above_spec w _ La Lu Hp T1 b T2 eq_refl) as Ha.
  assert (Hup : match T2 with [] => NULL | b2 :: _ => baddr b2 end = NULL <-> T2 = []).
  { destruct T2 as [|b2 T2]; [tauto|].
    assert (Hin : In b2 (T1 ++ b :: b2 :: T2)) by (apply in_or_app; simpl; auto).
    destruct (blk_facts w _ La Lu Hp b2 Hin) as (_ & ? & _).
    unfold NULL. split; [lia | discriminate]. }
  destruct (list_last_case _ T1) as [-> | (T1' & b0 & ->)].
  - eexists _, NULL. split; [exact Ha|].
    split; [apply (el_block_below_first w _ La Lu Hp b T2 eq_refl)|].
    split; [exact Hup | tauto].
  - assert (E : (T1' ++ [b0]) ++ b :: T2 = T1' ++ b0 :: b :: T2)
      by (rewrite <- app_assoc; reflexivity).
    eexists _, (baddr b0). split; [exact Ha|].
    split; [apply (el_block_below_spec w _ La Lu Hp T1' b0 b T2 E)|].
    split; [exact Hup|].
    assert (Hin : In b0 ((T1' ++ [b0]) ++ b :: T2)).
    { apply in_or_app. left. apply in_or_app. right. simpl. auto. }
    destruct (blk_facts w _ La Lu Hp b0 Hin) as (_ & ? & _).
    unfold NULL. split; [lia|]. intros C. destruct T1'; discriminate.
Qed.

(** X3 (witness): the only block of the heap right after [el_init]. *)
Lemma X3_witness :
  exists up dn,
    el_block_above (baddr (demo_start, 4056, EL_AVAILABLE)) demo_world = Some (up, demo_world) /\
    el_block_below (baddr (demo_start, 4056, EL_AVAILABLE)) demo_world = Some (dn, demo_world) /\
    (up = NULL <-> @nil blk = []) /\ (dn = NULL <-> @nil blk = []).
Proof.
  apply (X3_neighbours_at_the_heap_ends demo_world [] (demo_start, 4056, EL_AVAILABLE) []
           [demo_start] []).
  exact (proj1 demo_world_wf).
Defined.

(** ** Initialisation *)



(** ** The two list operations *)

Lemma lsum_same_blocks (w w' : world) (T : list blk) (La Lu La' Lu' L : list Z) :
  pwf w T La Lu -> pwf w' T La' Lu' -> incl L (map baddr T) ->
  lsum (mem w') L = lsum (mem w) L.
Proof.
  intros Hp Hp' Hin. apply lsum_frame. intros a Ha.
  apply Hin in Ha. apply in_map_iff in Ha. destruct Ha as (b & <- & Hb).
  destruct (blk_facts w T La Lu Hp b Hb) as ((B1 & _) & _).
  destruct (blk_facts w' T La' Lu' Hp' b Hb) as ((B1' & _) & _).
  congruence.
Qed.

Lemma lsel_lset (l : list_ptr) (X La Lu : list Z) :
  lsel l (lset_avail l X La) (lset_used l X Lu) = X /\
  lsel (lother l) (lset_avail l X La) (lset_used l X Lu) = lsel (lother l) La Lu.
Proof. destruct l; split; reflexivity. Qed.

(** Two structurally well-formed views of the same blocks whose lists
    hold the same members have the same counters. *)
Lemma list_counters_same (w w' : world) (T : list blk) (La Lu La' Lu' : list Z)
      (l : list_ptr) :
  pwf w T La Lu -> pwf w' T La' Lu' ->
  Permutation (lsel l La Lu) (lsel l La' Lu') ->
  l_length (get_list l (el_ctl w')) = l_length (get_list l (el_ctl w)) /\
  l_bytes (get_list l (el_ctl w')) = l_bytes (get_list l (el_ctl w)).
Proof.
  intros Hp Hp' HP.
  destruct (pwf_lists w T La Lu l Hp) as ((_ & Hlen & Hby) & _).
  destruct (pwf_lists w' T La' Lu' l Hp') as ((_ & Hlen' & Hby') & _).
  split.
  - rewrite Hlen, Hlen'. rewrite (Permutation_length HP). reflexivity.
  - rewrite Hby, Hby'. f_equal.
    rewrite (lsum_same_blocks w w' T La Lu La' Lu' _ Hp Hp').
    + symmetry. apply lsum_perm. exact HP.
    + intros x Hx. apply (pwf_incl w' T La' Lu' Hp').
      destruct l; cbn [lsel] in Hx; apply in_or_app; auto.
Qed.

(** X5.  In a structurally well-formed heap, [el_remove_block] followed
    by [el_add_block_front] of the same member moves that block to the
    front of its list: the other members keep their order, and the length
    and bytes counters of both lists are as before. *)
Theorem X5_remove_then_add_moves_to_front (w : world) (T : list blk) (La Lu : list Z)
        (l : list_ptr) (L1 : list Z) (b : Z) (L2 : list Z) :
  pwf w T La Lu -> lsel l La Lu = L1 ++ b :: L2 ->
  exists w',
    (el_remove_block l b ;; el_add_block_front l b) w = Some (tt, w') /\
    pwf w' T (lset_avail l (b :: L1 ++ L2) La) (lset_used l (b :: L1 ++ L2) Lu) /\
    l_length (get_list l (el_ctl w')) = l_length (get_list l (el_ctl w)) /\
    l_bytes (get_list l (el_ctl w')) = l_bytes (get_list l (el_ctl w)) /\
    l_length (get_list (lother l) (el_ctl w')) = l_length (get_list (lother l) (el_ctl w)) /\
    l_bytes (get_list (lother l) (el_ctl w')) = l_bytes (get_list (lother l) (el_ctl w)).
Proof.
  intros Hp Hsel.
  destruct (el_remove_block_spec w T La Lu l L1 b L2 Hp Hsel) as (w1 & R1 & F1 & P1).
  destruct (lists_remove l La Lu L1 b L2 Hsel (pwf_nodup w T La Lu Hp)) as (_ & _ & Hnb).
  assert (HbT : In b (map baddr T)).
  { apply (pwf_incl w T La Lu Hp).
    destruct l; cbn [lsel] in Hsel; rewrite Hsel; rewrite !in_app_iff; simpl; tauto. }
  destruct (el_add_block_front_spec w1 T _ _ l b P1 HbT Hnb) as (w2 & R2 & F2 & P2).
  assert (P2' : pwf w2 T (lset_avail l (b :: L1 ++ L2) La) (lset_used l (b :: L1 ++ L2) Lu)).
  { destruct l; cbn [lset_avail lset_used lsel] in P2 |- *; exact P2. }
  exists w2. split; [mcall R1; exact R2|]. split; [exact P2'|].
  destruct (list_counters_same w w2 T _ _ _ _ l Hp P2') as [E1 E2].
  { rewrite (proj1 (lsel_lset l _ La Lu)), Hsel. apply Permutation_sym, Permutation_middle. }
  destruct (list_counters_same w w2 T _ _ _ _ (lother l) Hp P2') as [E3 E4].
  { rewrite (proj2 (lsel_lset l _ La Lu)). apply Permutation_refl. }
  tauto.
Qed.

(** X5 (witness): the third of the four members of the used list of the
    concrete heap. *)
Lemma X5_witness :
  exists w',
    (el_remove_block USED (demo_start + 48) ;; el_add_block_front USED (demo_start + 48))
      demo_four = Some (tt, w') /\
    pwf w' [(demo_start, 8, EL_USED); (demo_start + 48, 8, EL_USED);
            (demo_start + 96, 8, EL_USED); (demo_start + 144, 8, EL_USED);
            (demo_start + 192, 3864, EL_AVAILABLE)]
        (lset_avail USED ((demo_start + 48) :: [demo_start + 144; demo_start + 96] ++ [demo_start])
           [demo_start + 192])
        (lset_used USED ((demo_start + 48) :: [demo_start + 144; demo_start + 96] ++ [demo_start])
           [demo_start + 144; demo_start + 96; demo_start + 48; demo_start]) /\
    l_length (get_list USED (el_ctl w')) = l_length (get_list USED (el_ctl demo_four)) /\
    l_bytes (get_list USED (el_ctl w')) = l_bytes (get_list USED (el_ctl demo_four)) /\
    l_length (get_list (lother USED) (el_ctl w'))
    = l_length (get_list (lother USED) (el_ctl demo_four)) /\
    l_bytes (get_list (lother USED) (el_ctl w'))
    = l_bytes (get_list (lother USED) (el_ctl demo_four)).
Proof.
  apply (X5_remove_then_add_moves_to_front demo_four _ [demo_start + 192]
           [demo_start + 144; demo_start + 96; demo_start + 48; demo_start]
           USED [demo_start + 144; demo_start + 96] (demo_start + 48) [demo_start]).
  - exact (proj1 demo_four_wf).
  - reflexivity.
Defined.



(** ** Merging *)

(** X7.  In a structurally well-formed heap, [el_merge_block_with_above]
    changes nothing when its argument is [NULL], when the block is in use,
    and when the block is the last of the heap or its upper neighbour is
    in use. *)
Theorem X7_merge_leaves_used_blocks_alone (w : world) (T1 : list blk) (b : blk)
        (T2 : list blk) (La Lu : list Z) :
  pwf w (T1 ++ b :: T2) La Lu -> bstate b = EL_USED \/ head_used T2 ->
  el_merge_block_with_above (baddr b) w = Some (tt, w) /\
  el_merge_block_with_above NULL w = Some (tt, w).
Proof.
  intros Hp [Hu | Hh]; (split; [|apply merge_null]).
  - apply (merge_noop_used w _ La Lu b Hp); [apply in_or_app; simpl; auto | exact Hu].
  - apply (merge_noop_above w T1 b T2 La Lu Hp Hh).
Qed.

(** X7 (witness): the available block at the top of the concrete heap,
    which has no upper neighbour. *)
Lemma X7_witness :
  el_merge_block_with_above (baddr (demo_start + 192, 3864, EL_AVAILABLE)) demo_four
  = Some (tt, demo_four) /\
  el_merge_block_with_above NULL demo_four = Some (tt, demo_four).
Proof.
  apply (X7_merge_leaves_used_blocks_alone demo_four
           [(demo_start, 8, EL_USED); (demo_start + 48, 8, EL_USED);
            (demo_start + 96, 8, EL_USED); (demo_start + 144, 8, EL_USED)]
           (demo_start + 192, 3864, EL_AVAILABLE) []
           [demo_start + 192]
           [demo_start + 144; demo_start + 96; demo_start + 48; demo_start]).
  - exact (proj1 demo_four_wf).
  - right. exact I.
Defined.

(** ** Reachable states *)

Lemma wf_lengths (w : world) (T : list blk) (La Lu : list Z) :
  wf w T La Lu ->
  l_length (avail (el_ctl w)) = Z.of_nat (List.length La) /\
  l_length (used (el_ctl w)) = Z.of_nat (List.length Lu).
Proof.
  intros W. destruct (wf_counters w T La Lu W) as (_ & _ & E3 & E4 & _).
  rewrite E3, E4.
  rewrite (Permutation_length (avail_perm w T La Lu W)).
  rewrite (Permutation_length (used_perm w T La Lu W)).
  rewrite !length_map. split; reflexivity.
Qed.

Lemma reachable_size (g : globals) (start size : Z) (w : world) (live : list Z) :
  reachable g start size w live -> EL_BLOCK_OVERHEAD <= size.
Proof.
  induction 1 as [w Hinit | | ]; try assumption.
  destruct (Z_lt_le_dec size EL_BLOCK_OVERHEAD) as [Hs | Hs]; [|exact Hs].
  destruct (el_init_too_small g start size Hs) as (w0 & E).
  rewrite E in Hinit. discriminate.
Qed.

Lemma payload_inj (a b : Z) : payload a = payload b -> a = b.
Proof. unfold payload. lia. Qed.

Lemma in_map_payload (a : Z) (L : list Z) : In (payload a) (map payload L) -> In a L.
Proof.
  intros H. apply in_map_iff in H. destruct H as (b & E & Hb).
  apply payload_inj in E. subst b. exact Hb.
Qed.

Lemma NoDup_map_payload (L : list Z) : NoDup L -> NoDup (map payload L).
Proof.
  induction 1 as [|a L Hn _ IH]; simpl; constructor; [|exact IH].
  intros Hin. apply Hn. apply in_map_payload. exact Hin.
Qed.

(** A member of the used list is the header of a used block inside the
    heap. *)
Lemma used_block_facts (w : world) (T : list blk) (La Lu : list Z) (a : Z) :
  wf w T La Lu -> In a Lu ->
  exists s, In (a, s, EL_USED) T /\
            load8 (mem w) (a + off_size) = s /\
            load1 (mem w) (a + off_state) = EL_USED /\
            0 <= s /\ heap_start (el_ctl w) <= a /\
            a + s + EL_BLOCK_OVERHEAD <= heap_end (el_ctl w).
Proof.
  intros W Ha.
  destruct (wf_block_of_used w T La Lu a W Ha) as (T1 & s & T2 & ->).
  destruct (pwf_block_parts w T1 _ T2 La Lu (proj1 W))
    as (_ & _ & _ & (B1 & B2 & _) & _ & Hs & _ & Hlo & Hhi).
  unfold bend in *. unfold baddr, bsize, bstate in *. simpl fst in *. simpl snd in *.
  exists s. split; [apply in_or_app; simpl; auto|]. tauto.
Qed.

(** X8.  In every state reached from [el_init] by allocations that do not
    wrap and frees of live pointers, [el_malloc] runs to completion
    whenever the loop bound exceeds the length of the available list.  It
    either returns [NULL] and leaves the state as it was, or returns a
    pointer that is not live yet, 32 bytes above a header inside the heap
    whose size field is exactly the request and whose state is Used, and
    the used list has one member more. *)
Theorem X8_malloc_in_reachable_state (g : globals) (start size : Z) (w : world)
        (live : list Z) (n : Z) (fuel : nat) :
  layout_ok g start size -> reachable g start size w live ->
  0 <= n -> n + EL_BLOCK_OVERHEAD < WORD ->
  l_length (avail (el_ctl w)) < Z.of_nat fuel ->
  exists p w',
    el_malloc fuel n w = Some (p, w') /\
    ((p = NULL /\ w' = w) \/
     (exists a, p = payload a /\ p <> NULL /\ ~ In p live /\
        header_at w' a = (n, EL_USED) /\
        start <= a /\ a + n + EL_BLOCK_OVERHEAD <= start + size /\
        l_length (used (el_ctl w')) = l_length (used (el_ctl w)) + 1)).
Proof.
  intros Hlay Hr Hn Hov Hfuel.
  destruct (reachable_inv g start size w live Hlay Hr)
    as (T & La & Lu & W & _ & Hperm & Hb & Hst).
  destruct (wf_lengths w T La Lu W) as [ELa ELu].
  destruct (malloc_step w T La Lu n fuel W Hn Hov ltac:(lia))
    as [[R _] | (T1 & a & s & T2 & L1 & L2 & w2 & ET & EL & _ & Hfit & R & F & W2 & _)].
  - exists NULL, w. split; [exact R|]. left. split; reflexivity.
  - exists (payload a), w2. split; [exact R|]. right. exists a.
    subst T La.
    destruct (pwf_block_parts w T1 _ T2 _ Lu (proj1 W))
      as (Hg & _ & _ & _ & Ha & _ & _ & Hlo & Hhi).
    assert (HaT' : In (a, n, EL_USED)
                      (T1 ++ (a, n, EL_USED) :: (a + n + 40, s - n - 40, EL_AVAILABLE) :: T2))
      by (apply in_or_app; simpl; auto).
    destruct (blk_facts w2 _ _ _ (proj1 W2) _ HaT') as ((B1 & B2 & _) & _).
    destruct (wf_lengths w2 _ _ _ W2) as [_ ELu2].
    pose proof (geom_end w Hg) as He.
    unfold bend in *. unfold baddr, bsize, bstate in *. simpl fst in *. simpl snd in *.
    change EL_BLOCK_OVERHEAD with 40 in *.
    split; [reflexivity|].
    split; [unfold payload, NULL; consts; lia|].
    split.
    { intros Hin. apply (Permutation_in _ Hperm) in Hin. apply in_map_payload in Hin.
      eapply (NoDup_app_disj _ _ _ a a (pwf_nodup w _ _ _ (proj1 W)));
        [apply in_or_app; simpl; auto | exact Hin | reflexivity]. }
    split; [unfold header_at; rewrite B1, B2; reflexivity|].
    split; [lia|]. split; [lia|].
    rewrite ELu2, ELu. simpl List.length. lia.
Qed.

Lemma demo_four_reachable :
  reachable demo_globals demo_start demo_size demo_four
            [demo_start + 176; demo_start + 128; demo_start + 80; demo_start + 32].
Proof.
  destruct (el_malloc_spec demo_world [] demo_start 4056 [] [] [] [] 8 2 demo_world_wf)
    as (w1 & R1 & _ & W1); [intros y [] | lia | lia | cbn [app List.length]; lia |].
  destruct (el_malloc_spec w1 [(demo_start, 8, EL_USED)] (demo_start + 48) 4008 []
                           [] [] [demo_start] 8 2 W1)
    as (w2 & R2 & _ & W2); [intros y [] | lia | lia | cbn [app List.length]; lia |].
  destruct (el_malloc_spec w2 [(demo_start, 8, EL_USED); (demo_start + 48, 8, EL_USED)]
                           (demo_start + 96) 3960 []
                           [] [] [demo_start + 48; demo_start] 8 2 W2)
    as (w3 & R3 & _ & W3); [intros y [] | lia | lia | cbn [app List.length]; lia |].
  destruct (el_malloc_spec w3 [(demo_start, 8, EL_USED); (demo_start + 48, 8, EL_USED);
                               (demo_start + 96, 8, EL_USED)]
                           (demo_start + 144) 3912 []
                           [] [] [demo_start + 96; demo_start + 48; demo_start] 8 2 W3)
    as (w4 & R4 & _ & W4); [intros y [] | lia | lia | cbn [app List.length]; lia |].
  assert (Hov : 8 + EL_BLOCK_OVERHEAD < WORD) by reflexivity.
  pose proof (reach_malloc _ _ _ _ _ 2 8 _ _ demo_world_reachable ltac:(lia) Hov R1) as H1.
  pose proof (reach_malloc _ _ _ _ _ 2 8 _ _ H1 ltac:(lia) Hov R2) as H2.
  pose proof (reach_malloc _ _ _ _ _ 2 8 _ _ H2 ltac:(lia) Hov R3) as H3.
  pose proof (reach_malloc _ _ _ _ _ 2 8 _ _ H3 ltac:(lia) Hov R4) as H4.
  unfold demo_four.
  mcall R1. mcall R2. mcall R3. rewrite R4. exact H4.
Qed.

(** X8 (witness): a fifth allocation of 8 bytes in the concrete heap. *)
Lemma X8_witness :
  exists p w',
    el_malloc 2 8 demo_four = Some (p, w') /\
    ((p = NULL /\ w' = demo_four) \/
     (exists a, p = payload a /\ p <> NULL /\
        ~ In p [demo_start + 176; demo_start + 128; demo_start + 80; demo_start + 32] /\
        header_at w' a = (8, EL_USED) /\
        demo_start <= a /\ a + 8 + EL_BLOCK_OVERHEAD <= demo_start + demo_size /\
        l_length (used (el_ctl w')) = l_length (used (el_ctl demo_four)) + 1)).
Proof.
  apply (X8_malloc_in_reachable_state demo_globals demo_start demo_size demo_four
           [demo_start + 176; demo_start + 128; demo_start + 80; demo_start + 32] 8 2).
  - exact demo_layout_ok.
  - exact demo_four_reachable.
  - lia.
  - reflexivity.
  - rewrite (proj1 (wf_lengths _ _ _ _ demo_four_wf)). simpl. lia.
Defined.

Lemma remove_length_live (p : Z) (L : list Z) :
  NoDup L -> In p L ->
  Z.of_nat (List.length (remove Z.eq_dec p L)) = Z.of_nat (List.length L) - 1.
Proof.
  intros Hnd Hin. destruct (in_split p L Hin) as (L1 & L2 & ->).
  rewrite remove_split by exact Hnd. rewrite !length_app. simpl. lia.
Qed.

(** X9.  In every such reachable state, [el_free] of a live pointer runs
    to completion; the pointer is no longer live afterwards, the used list
    has one member less, and the heap size recorded in [el_ctl] is
    unchanged. *)
Theorem X9_free_in_reachable_state (g : globals) (start size : Z) (w : world)
        (live : list Z) (p : Z) :
  layout_ok g start size -> reachable g start size w live -> In p live ->
  exists w',
    el_free p w = Some (tt, w') /\
    reachable g start size w' (remove Z.eq_dec p live) /\
    ~ In p (remove Z.eq_dec p live) /\
    l_length (used (el_ctl w')) = l_length (used (el_ctl w)) - 1 /\
    heap_bytes (el_ctl w') = heap_bytes (el_ctl w) /\
    heap_start (el_ctl w') = heap_start (el_ctl w) /\
    heap_end (el_ctl w') = heap_end (el_ctl w).
Proof.
  intros Hlay Hr Hp.
  destruct (reachable_inv g start size w live Hlay Hr)
    as (T & La & Lu & W & _ & Hperm & _).
  pose proof (Permutation_in _ Hperm Hp) as Hin.
  apply in_map_iff in Hin. destruct Hin as (a & <- & Ha).
  destruct (free_step w T La Lu a W Ha) as (w2 & T' & La' & R & F & W2 & _).
  exists w2. split; [exact R|].
  split; [apply (reach_free _ _ _ w live (payload a) w2 Hr Hp R)|].
  split; [apply remove_In|].
  destruct (wf_lengths w T La Lu W) as [_ E].
  destruct (wf_lengths w2 _ _ _ W2) as [_ E2].
  destruct F as (_ & F1 & F2 & F3 & _).
  split; [|tauto].
  rewrite E, E2. apply remove_length_live; [|exact Ha].
  eapply NoDup_app_remove_l. apply (pwf_nodup w T La Lu (proj1 W)).
Qed.

(** X9 (witness): freeing the second pointer handed out in the concrete
    heap. *)
Lemma X9_witness :
  exists w',
    el_free (demo_start + 80) demo_four = Some (tt, w') /\
    reachable demo_globals demo_start demo_size w'
      (remove Z.eq_dec (demo_start + 80)
         [demo_start + 176; demo_start + 128; demo_start + 80; demo_start + 32]) /\
    ~ In (demo_start + 80)
         (remove Z.eq_dec (demo_start + 80)
            [demo_start + 176; demo_start + 128; demo_start + 80; demo_start + 32]) /\
    l_length (used (el_ctl w')) = l_length (used (el_ctl demo_four)) - 1 /\
    heap_bytes (el_ctl w') = heap_bytes (el_ctl demo_four) /\
    heap_start (el_ctl w') = heap_start (el_ctl demo_four) /\
    heap_end (el_ctl w') = heap_end (el_ctl demo_four).
Proof.
  apply (X9_free_in_reachable_state demo_globals demo_start demo_size demo_four
           [demo_start + 176; demo_start + 128; demo_start + 80; demo_start + 32]
           (demo_start + 80)).
  - exact demo_layout_ok.
  - exact demo_four_reachable.
  - right. right. left. reflexivity.
Defined.

(** X10.  In every such reachable state the live pointers are pairwise
    distinct and as many as the used list is long; each one lies 32 bytes
    above a header in the Used state whose block, footer included, is
    inside the heap; and the blocks of two different live pointers do not
    overlap. *)
Theorem X10_live_blocks_do_not_overlap (g : globals) (start size : Z) (w : world)
        (live : list Z) :
  layout_ok g start size -> reachable g start size w live ->
  NoDup live /\
  l_length (used (el_ctl w)) = Z.of_nat (List.length live) /\
  (forall p, In p live -> exists a, p = payload a) /\
  (forall a, In (payload a) live ->
     load1 (mem w) (a + off_state) = EL_USED /\
     start <= a /\
     a + load8 (mem w) (a + off_size) + EL_BLOCK_OVERHEAD <= start + size) /\
  (forall a1 a2, In (payload a1) live -> In (payload a2) live -> a1 <> a2 ->
     a1 + load8 (mem w) (a1 + off_size) + EL_BLOCK_OVERHEAD <= a2 \/
     a2 + load8 (mem w) (a2 + off_size) + EL_BLOCK_OVERHEAD <= a1).
Proof.
  intros Hlay Hr.
  destruct (reachable_inv g start size w live Hlay Hr)
    as (T & La & Lu & W & _ & Hperm & Hb & Hst).
  pose proof (pwf_geom w T La Lu (proj1 W)) as Hg.
  pose proof (geom_end w Hg) as He.
  assert (Hnd : NoDup Lu).
  { eapply NoDup_app_remove_l. apply (pwf_nodup w T La Lu (proj1 W)). }
  assert (Hlive : forall a, In (payload a) live -> In a Lu).
  { intros a Ha. apply in_map_payload. apply (Permutation_in _ Hperm Ha). }
  split; [|split; [|split; [|split]]].
  - apply (Permutation_NoDup (Permutation_sym Hperm)).
    apply NoDup_map_payload. exact Hnd.
  - rewrite (proj2 (wf_lengths w T La Lu W)).
    rewrite (Permutation_length Hperm), length_map. reflexivity.
  - intros p Hp. apply (Permutation_in _ Hperm) in Hp.
    apply in_map_iff in Hp. destruct Hp as (a & <- & _). exists a. reflexivity.
  - intros a Ha.
    destruct (used_block_facts w T La Lu a W (Hlive a Ha)) as (s & _ & E1 & E2 & _ & Hlo & Hhi).
    rewrite E1. split; [exact E2|]. lia.
  - intros a1 a2 H1 H2 Hne.
    destruct (used_block_facts w T La Lu a1 W (Hlive a1 H1)) as (s1 & I1 & E1 & _).
    destruct (used_block_facts w T La Lu a2 W (Hlive a2 H2)) as (s2 & I2 & E2 & _).
    rewrite E1, E2.
    destruct (tiles_sep _ _ _ _ _ (pwf_tiles w T La Lu (proj1 W)) I1 I2) as [E | D].
    + exfalso. apply Hne. congruence.
    + unfold bend, baddr, bsize in D. simpl in D. exact D.
Qed.

(** X10 (witness): the four live pointers of the concrete heap. *)
Lemma X10_witness :
  NoDup [demo_start + 176; demo_start + 128; demo_start + 80; demo_start + 32] /\
  l_length (used (el_ctl demo_four))
  = Z.of_nat (List.length [demo_start + 176; demo_start + 128; demo_start + 80; demo_start + 32]) /\
  (forall p, In p [demo_start + 176; demo_start + 128; demo_start + 80; demo_start + 32] ->
     exists a, p = payload a) /\
  (forall a, In (payload a) [demo_start + 176; demo_start + 128; demo_start + 80; demo_start + 32] ->
     load1 (mem demo_four) (a + off_state) = EL_USED /\
     demo_start <= a /\
     a + load8 (mem demo_four) (a + off_size) + EL_BLOCK_OVERHEAD <= demo_start + demo_size) /\
  (forall a1 a2,
     In (payload a1) [demo_start + 176; demo_start + 128; demo_start + 80; demo_start + 32] ->
     In (payload a2) [demo_start + 176; demo_start + 128; demo_start + 80; demo_start + 32] ->
     a1 <> a2 ->
     a1 + load8 (mem demo_four) (a1 + off_size) + EL_BLOCK_OVERHEAD <= a2 \/
     a2 + load8 (mem demo_four) (a2 + off_size) + EL_BLOCK_OVERHEAD <= a1).
Proof.
  apply (X10_live_blocks_do_not_overlap demo_globals demo_start demo_size demo_four
           [demo_start + 176; demo_start + 128; demo_start + 80; demo_start + 32]).
  - exact demo_layout_ok.
  - exact demo_four_reachable.
Defined.

Lemma NoDup_all_same (a : Z) (L : list Z) :
  NoDup L -> (forall x, In x L -> x = a) -> In a L -> L = [a].
Proof.
  intros Hnd Hall Hin. destruct L as [|x [|y L]].
  - destruct Hin.
  - rewrite (Hall x) by (left; reflexivity). reflexivity.
  - exfalso. inversion Hnd as [|? ? Hn _]; subst. apply Hn.
    rewrite (Hall x), (Hall y) by (simpl; auto). left. reflexivity.
Qed.

(** X11.  Whenever every pointer handed out has been freed again, the
    heap is back to its initial shape, whatever the order of the
    allocations and frees in between: one available block at the heap
    start with size field S - overhead, an empty used list, and the
    counters of a fresh heap. *)
Theorem X11_all_freed_gives_one_block (g : globals) (start size : Z) (w : world) :
  layout_ok g start size -> reachable g start size w [] ->
  wf w [(start, size - EL_BLOCK_OVERHEAD, EL_AVAILABLE)] [start] [] /\
  counters w = (1, size, 0, 0) /\
  header_at w start = (size - EL_BLOCK_OVERHEAD, EL_AVAILABLE).
Proof.
  intros Hlay Hr.
  pose proof (reachable_size g start size w [] Hr) as Hsz.
  destruct (reachable_inv g start size w [] Hlay Hr)
    as (T & La & Lu & W & Hna & Hperm & Hb & Hst).
  apply Permutation_nil in Hperm. apply map_eq_nil in Hperm. subst Lu.
  pose proof (pwf_geom w T La [] (proj1 W)) as Hg.
  pose proof (geom_end w Hg) as He.
  pose proof (pwf_tiles w T La [] (proj1 W)) as Ht.
  assert (Hav : forall b, In b T -> bstate b = EL_AVAILABLE).
  { intros b Hb'. pose proof (wf_states w T La [] W) as Hs.
    rewrite Forall_forall in Hs. destruct (Hs b Hb') as [E | E]; [exact E|].
    exfalso. apply (wf_in_used w T La [] b W Hb' E). }
  change EL_BLOCK_OVERHEAD with 40 in *.
  destruct T as [|[[a s] u] [|h T]].
  - simpl in Ht. lia.
  - simpl in Ht. destruct Ht as (Ea & _ & Ee).
    unfold bend, baddr, bsize in *. simpl in Ea, Ee.
    change EL_BLOCK_OVERHEAD with 40 in *.
    pose proof (Hav _ (or_introl eq_refl)) as Eu. simpl in Eu.
    assert (Es : s = size - 40) by lia.
    rewrite Hst in Ea. clear Ee. subst u s a.
    assert (ELa : La = [start]).
    { apply NoDup_all_same.
      - pose proof (pwf_nodup w _ La [] (proj1 W)) as Hnd.
        rewrite app_nil_r in Hnd. exact Hnd.
      - intros x Hx.
        assert (Hx' : In x (map baddr [(start, size - 40, EL_AVAILABLE)])).
        { apply (pwf_incl w _ La [] (proj1 W)). apply in_or_app. left. exact Hx. }
        simpl in Hx'. destruct Hx' as [E | []]. symmetry. exact E.
      - apply (wf_in_avail w _ La [] (start, size - 40, EL_AVAILABLE) W);
          [left; reflexivity | reflexivity]. }
    subst La. split; [exact W|].
    destruct (wf_counters w _ _ _ W) as (E1 & E2 & E3 & E4 & _).
    destruct (blk_facts w _ _ _ (proj1 W) _ (or_introl eq_refl)) as ((B1 & B2 & _) & _).
    unfold baddr, bsize, bstate in B1, B2. simpl in B1, B2.
    split.
    + unfold counters. rewrite E1, E2, E3, E4. simpl. unfold bsize. simpl.
      change EL_BLOCK_OVERHEAD with 40.
      repeat match goal with |- (_, _) = (_, _) => apply f_equal2 end; lia.
    + unfold header_at. rewrite B1, B2. reflexivity.
  - exfalso. simpl in Hna. destruct Hna as [Hn _]. apply Hn.
    split; [apply (Hav (a, s, u)) | apply (Hav h)]; simpl; auto.
Qed.

Lemma demo_cycle_reachable :
  reachable demo_globals demo_start demo_size demo_cycle [].
Proof.
  destruct (el_malloc_spec demo_world [] demo_start 4056 [] [] [] [] 100 2 demo_world_wf)
    as (w1 & R1 & _ & W1); [intros y [] | lia | lia | cbn [app List.length]; lia |].
  destruct (el_free_spec_above w1 [] demo_start 100 (demo_start + 100 + 40) (4056 - 100 - 40)
              [] _ _ W1 (or_introl eq_refl)) as (w2 & R2 & _ & _).
  assert (Hov : 100 + EL_BLOCK_OVERHEAD < WORD) by reflexivity.
  pose proof (reach_malloc _ _ _ _ _ 2 100 _ _ demo_world_reachable ltac:(lia) Hov R1) as H1.
  assert (Hin : In (demo_start + 32)
                   (if demo_start + 32 =? NULL then [] else [demo_start + 32]))
    by (left; reflexivity).
  pose proof (reach_free _ _ _ _ _ (demo_start + 32) _ H1 Hin R2) as H2.
  unfold demo_cycle. mcall R1. rewrite R2. exact H2.
Qed.

(** X11 (witness): the concrete heap after one allocation of 100 bytes
    and the free of that pointer. *)
Lemma X11_witness :
  wf demo_cycle [(demo_start, demo_size - EL_BLOCK_OVERHEAD, EL_AVAILABLE)] [demo_start] [] /\
  counters demo_cycle = (1, demo_size, 0, 0) /\
  header_at demo_cycle demo_start = (demo_size - EL_BLOCK_OVERHEAD, EL_AVAILABLE).
Proof.
  apply (X11_all_freed_gives_one_block demo_globals demo_start demo_size demo_cycle).
  - exact demo_layout_ok.
  - exact demo_cycle_reachable.
Defined.

(** X12.  A block freed while its lower physical neighbour is absent or
    in use is the first candidate of the next search: [el_malloc] of any
    size that fits in it, called right after the [el_free], returns the
    very pointer that was freed. *)
Theorem X12_freed_block_is_reused (w : world) (T1 : list blk) (a s : Z)
        (T2 : list blk) (La Lu : list Z) (n : Z) (fuel : nat) :
  wf w (T1 ++ (a, s, EL_USED) :: T2) La Lu -> last_used T1 ->
  0 <= n -> n + EL_BLOCK_OVERHEAD <= s -> (List.length La + 1 < fuel)%nat ->
  exists w1 w2,
    el_free (payload a) w = Some (tt, w1) /\
    el_malloc fuel n w1 = Some (payload a, w2).
Proof.
  intros W Hl Hn Hfit Hfuel.
  unfold payload. change sizeof_el_blockhead_t with 32.
  change EL_BLOCK_OVERHEAD with 40 in *.
  pose proof (wf_states w _ La Lu W) as Hst.
  rewrite Forall_app in Hst. destruct Hst as [_ Hst].
  inversion Hst as [|? ? _ Hst2]; subst. clear Hst.
  destruct T2 as [|[[h s2] u] T2'].
  - destruct (el_free_spec_none w T1 a s [] La Lu W Hl I) as (w1 & R1 & _ & W1).
    destruct (el_malloc_spec w1 T1 a s [] [] La _ n fuel W1) as (w2 & R2 & _);
      [intros y [] | exact Hn | exact Hfit | cbn [app List.length]; lia |].
    exists w1, w2. split; assumption.
  - inversion Hst2 as [|? ? Hu _]; subst. simpl in Hu. destruct Hu as [-> | ->].
    + destruct (el_free_spec_above w T1 a s h s2 T2' La Lu W Hl) as (w1 & R1 & _ & W1).
      assert (Hs2 : 0 <= s2).
      { assert (Hin : In (h, s2, EL_AVAILABLE) (T1 ++ (a, s, EL_USED) :: (h, s2, EL_AVAILABLE) :: T2'))
          by (apply in_or_app; simpl; auto).
        destruct (blk_facts w _ La Lu (proj1 W) _ Hin) as (_ & _ & H & _). exact H. }
      destruct (el_malloc_spec w1 T1 a (s + s2 + 40) T2' [] (remove Z.eq_dec h La) _ n fuel W1)
        as (w2 & R2 & _);
        [intros y [] | exact Hn | lia | |].
      { cbn [app List.length]. pose proof (remove_length_le Z.eq_dec La h). lia. }
      exists w1, w2. split; assumption.
    + destruct (el_free_spec_none w T1 a s _ La Lu W Hl eq_refl) as (w1 & R1 & _ & W1).
      destruct (el_malloc_spec w1 T1 a s _ [] La _ n fuel W1) as (w2 & R2 & _);
        [intros y [] | exact Hn | exact Hfit | cbn [app List.length]; lia |].
      exists w1, w2. split; assumption.
Qed.

Lemma demo_one_wf :
  wf demo_one [(demo_start, 100, EL_USED); (demo_start + 140, 3916, EL_AVAILABLE)]
     [demo_start + 140] [demo_start].
Proof.
  destruct (el_malloc_spec demo_world [] demo_start 4056 [] [] [] [] 100 2 demo_world_wf)
    as (w1 & R1 & _ & W1); [intros y [] | lia | lia | cbn [app List.length]; lia |].
  unfold demo_one. rewrite R1. exact W1.
Qed.

(** X12 (witness): the block of 100 bytes at the start of the concrete
    heap is freed and 8 bytes are asked for. *)
Lemma X12_witness :
  exists w1 w2,
    el_free (payload demo_start) demo_one = Some (tt, w1) /\
    el_malloc 3 8 w1 = Some (payload demo_start, w2).
Proof.
  apply (X12_freed_block_is_reused demo_one [] demo_start 100
           [(demo_start + 140, 3916, EL_AVAILABLE)]
           [demo_start + 140] [demo_start] 8 3).
  - exact demo_one_wf.
  - left. reflexivity.
  - lia.
  - vm_compute. discriminate.
  - simpl. lia.
Defined.


(** ** What the operations write *)

Lemma bind_inv (A B : Type) (c : M A) (f : A -> M B) (w : world) (r : B * world) :
  bind c f w = Some r -> exists x w1, c w = Some (x, w1) /\ f x w1 = Some r.
Proof. unfold bind. destruct (c w) as [[x w1]|]; [eauto | discriminate]. Qed.

Lemma rd8_inv (a : Z) (w : world) (v : Z) (w' : world) :
  rd8 a w = Some (v, w') -> w' = w /\ v = load8 (mem w) a.
Proof.
  unfold rd8. destruct (valid_access w a 8); [|discriminate].
  intros H. injection H as <- <-. auto.
Qed.

Lemma rd1_inv (a : Z) (w : world) (v : Z) (w' : world) :
  rd1 a w = Some (v, w') -> w' = w /\ v = load1 (mem w) a.
Proof.
  unfold rd1. destruct (valid_access w a 1); [|discriminate].
  intros H. injection H as <- <-. auto.
Qed.

Lemma wr8_inv (a v : Z) (w : world) (u : unit) (w' : world) :
  wr8 a v w = Some (u, w') ->
  w' = mk_world (store8 (mem w) a v) (mapped w) (el_ctl w).
Proof.
  unfold wr8. destruct (valid_access w a 8); [|discriminate].
  intros H. injection H as _ <-. reflexivity.
Qed.

Lemma wr1_inv (a v : Z) (w : world) (u : unit) (w' : world) :
  wr1 a v w = Some (u, w') ->
  w' = mk_world (store1 (mem w) a v) (mapped w) (el_ctl w).
Proof.
  unfold wr1. destruct (valid_access w a 1); [|discriminate].
  intros H. injection H as _ <-. reflexivity.
Qed.

Lemma get_blocklist_inv (l : list_ptr) (w : world) (x : el_blocklist_t) (w' : world) :
  get_blocklist l w = Some (x, w') -> w' = w /\ x = get_list l (el_ctl w).
Proof. cbv [get_blocklist bind get_ctl ret]. intros H. injection H as <- <-. auto. Qed.

Lemma keeps_bind (x : Z) (A B : Type) (c : M A) (f : A -> M B) (w : world) :
  keeps x c w -> (forall r w1, c w = Some (r, w1) -> keeps x (f r) w1) ->
  keeps x (bind c f) w.
Proof.
  intros Hc Hf r w' H. apply bind_inv in H. destruct H as (y & w1 & E & H).
  rewrite (Hf y w1 E r w' H). apply (Hc y w1 E).
Qed.

Lemma keeps_ret (x : Z) (A : Type) (v : A) (w : world) : keeps x (ret v) w.
Proof. intros r w' H. injection H as _ <-. reflexivity. Qed.

Lemma keeps_rd8 (x a : Z) (w : world) : keeps x (rd8 a) w.
Proof. intros r w' H. apply rd8_inv in H. destruct H as [-> _]. reflexivity. Qed.

Lemma keeps_rd1 (x a : Z) (w : world) : keeps x (rd1 a) w.
Proof. intros r w' H. apply rd1_inv in H. destruct H as [-> _]. reflexivity. Qed.

Lemma keeps_wr8 (x a v : Z) (w : world) : outside x a 8 -> keeps x (wr8 a v) w.
Proof.
  intros Ho [] w' H. apply wr8_inv in H. subst w'. cbn [mem].
  apply store8_byte_other. exact Ho.
Qed.

Lemma keeps_wr1 (x a v : Z) (w : world) : x <> a -> keeps x (wr1 a v) w.
Proof.
  intros Ho [] w' H. apply wr1_inv in H. subst w'. cbn [mem].
  apply store1_byte_other. exact Ho.
Qed.

Lemma keeps_get_blocklist (x : Z) (l : list_ptr) (w : world) : keeps x (get_blocklist l) w.
Proof. intros r w' H. apply get_blocklist_inv in H. destruct H as [-> _]. reflexivity. Qed.

Lemma keeps_put_blocklist (x : Z) (l : list_ptr) (v : el_blocklist_t) (w : world) :
  keeps x (put_blocklist l v) w.
Proof.
  intros r w' H. cbv [put_blocklist bind get_ctl put_ctl] in H.
  injection H as _ <-. reflexivity.
Qed.

(** The two stores of [el_remove_block] go to the [prev] field of the
    successor and to the [next] field of the predecessor. *)
Lemma el_remove_block_writes (l : list_ptr) (b x : Z) (w : world) :
  outside x (load8 (mem w) (b + off_next) + off_prev) 8 ->
  outside x (load8 (mem w) (b + off_prev) + off_next) 8 ->
  keeps x (el_remove_block l b) w.
Proof.
  intros O1 O2. unfold el_remove_block. accessors.
  apply keeps_bind; [apply keeps_rd8|]. intros n w1 E.
  apply rd8_inv in E. destruct E as [-> ->].
  apply keeps_bind; [apply keeps_rd8|]. intros p w1 E.
  apply rd8_inv in E. destruct E as [-> ->].
  apply keeps_bind.
  { destruct (_ =? NULL); [apply keeps_ret | apply keeps_wr8; exact O1]. }
  intros [] w1 _.
  apply keeps_bind.
  { destruct (_ =? NULL); [apply keeps_ret | apply keeps_wr8; exact O2]. }
  intros [] w2 _.
  apply keeps_bind; [apply keeps_rd8|]. intros sz w3 _.
  apply keeps_bind; [apply keeps_get_blocklist|]. intros lst w4 _.
  apply keeps_put_blocklist.
Qed.

(** The four stores of [el_add_block_front] go to the two link fields of
    the block, to the [prev] field of the old first node and to the
    [next] field of the begin sentinel. *)
Lemma el_add_block_front_writes (l : list_ptr) (b x : Z) (w : world) :
  let beg := l_beg (get_list l (el_ctl w)) in
  let n := load8 (mem w) (beg + off_next) in
  let m1 := store8 (store8 (mem w) (b + off_next) n) (b + off_prev) beg in
  outside x (b + off_next) 16 ->
  outside x (load8 m1 (beg + off_next) + off_prev) 8 ->
  outside x (beg + off_next) 8 ->
  keeps x (el_add_block_front l b) w.
Proof.
  intros beg n m1 O1 O2 O3. unfold el_add_block_front. accessors.
  apply keeps_bind; [apply keeps_get_blocklist|]. intros lst w1 E.
  apply get_blocklist_inv in E. destruct E as [-> ->]. fold beg.
  apply keeps_bind; [apply keeps_rd8|]. intros n0 w1 E.
  apply rd8_inv in E. destruct E as [-> ->]. fold n.
  apply keeps_bind; [apply keeps_wr8; unfold outside in *; consts; lia|]. intros [] w1 E.
  apply wr8_inv in E. subst w1.
  apply keeps_bind; [apply keeps_wr8; unfold outside in *; consts; lia|]. intros [] w1 E.
  apply wr8_inv in E. subst w1. cbn [mem mapped el_ctl]. fold m1.
  apply keeps_bind; [apply keeps_rd8|]. intros n1 w1 E.
  apply rd8_inv in E. destruct E as [-> ->]. cbn [mem].
  apply keeps_bind; [apply keeps_wr8; exact O2|]. intros [] w1 _.
  apply keeps_bind; [apply keeps_wr8; exact O3|]. intros [] w2 _.
  apply keeps_bind; [apply keeps_rd8|]. intros sz w3 _.
  apply keeps_bind; [apply keeps_get_blocklist|]. intros lst w4 _.
  apply keeps_put_blocklist.
Qed.

Lemma off_links_mono (w w' : world) (T T' : list blk) (x : Z) :
  same_frame w w' -> incl (map baddr T') (map baddr T) ->
  off_links w T x -> off_links w' T' x.
Proof.
  intros (_ & _ & _ & _ & Fs) Hi H y [Hs | Hb]; apply H.
  - left. rewrite <- Fs. exact Hs.
  - right. apply Hi. exact Hb.
Qed.

(** In a structurally well-formed heap the list operations write into
    link fields of list nodes only. *)
Lemma remove_keeps (w : world) (T : list blk) (La Lu : list Z) (l : list_ptr)
      (L1 : list Z) (b : Z) (L2 : list Z) (x : Z) :
  pwf w T La Lu -> lsel l La Lu = L1 ++ b :: L2 -> off_links w T x ->
  keeps x (el_remove_block l b) w.
Proof.
  intros Hp Hsel Hx.
  destruct (pwf_lists w T La Lu l Hp) as (Hok & Hok' & Hap & Hnode).
  rewrite Hsel in Hok, Hap, Hnode.
  destruct (list_ok_remove _ _ _ _ _ _ _ Hap Hok Hok') as (In_n & In_p & _).
  apply el_remove_block_writes.
  - pose proof (Hx _ (Hnode _ (in_or_app _ _ _ (or_introl In_n)))) as H.
    unfold outside in *. consts. lia.
  - pose proof (Hx _ (Hnode _ (in_or_app _ _ _ (or_introl In_p)))) as H.
    unfold outside in *. consts. lia.
Qed.

Lemma add_keeps (w : world) (T : list blk) (La Lu : list Z) (l : list_ptr) (b x : Z) :
  pwf w T La Lu -> In b (map baddr T) -> ~ In b (La ++ Lu) -> off_links w T x ->
  keeps x (el_add_block_front l b) w.
Proof.
  intros Hp Hb Hnb Hx.
  pose proof (pwf_geom w T La Lu Hp) as Hg.
  pose proof (pwf_tiles w T La Lu Hp) as Ht.
  destruct (pwf_lists w T La Lu l Hp) as (Hok & Hok' & _ & Hnode).
  pose proof (pwf_lists_free w T La Lu l b Hp Hb Hnb) as Hap.
  assert (Nb : node w T b) by (right; exact Hb).
  assert (Nx : node w T (l_beg (get_list l (el_ctl w)))).
  { apply Hnode. apply in_or_app. left. unfold lnodes. left. reflexivity. }
  pose proof (node_range w T Hg Ht b Nb) as Rb.
  pose proof (node_range w T Hg Ht _ Nx) as Rx.
  destruct (list_ok_add _ _ _ _ _ b Hap ltac:(lia) ltac:(lia) Hok Hok')
    as (Hn1 & In_n & _).
  assert (Nn : node w T (load8 (mem w) (l_beg (get_list l (el_ctl w)) + off_next))).
  { apply Hnode. apply in_or_app. left. unfold lnodes. right. exact In_n. }
  apply el_add_block_front_writes.
  - apply (Hx _ Nb).
  - rewrite Hn1. pose proof (Hx _ Nn) as H. unfold outside in *. consts. lia.
  - pose proof (Hx _ Nx) as H. unfold outside in *. consts. lia.
Qed.

(** [el_split_block] writes inside the block it splits only. *)
Lemma split_keeps (w : world) (T1 : list blk) (a s u : Z) (T2 : list blk)
      (La Lu : list Z) (n x : Z) :
  pwf w (T1 ++ (a, s, u) :: T2) La Lu ->
  0 <= n -> n + EL_BLOCK_OVERHEAD <= s ->
  outside x a (s + EL_BLOCK_OVERHEAD) ->
  keeps x (el_split_block a n) w.
Proof.
  intros Hp Hn Hns Hx.
  destruct (pwf_block_parts w T1 (a, s, u) T2 La Lu Hp)
    as (Hg & Ht1 & Ht2 & (B1 & B2 & B3) & ? & ? & ? & ? & ?).
  pose proof (geom_lt w Hg) as Hlt.
  assert (Hv : forall w' x k, mapped w' = mapped w -> a <= x -> x + k <= a + s + 40 ->
                              valid_access w' x k = true).
  { intros w' x0 k Hm Hx0 Hk. apply (valid_heap w Hg); [exact Hm | consts; lia ..]. }
  set (m1 := store8 (mem w) a n).
  set (m2 := store8 m1 (a + 32 + n) n).
  set (m3 := store8 m2 (a + n + 40) (s - n - 40)).
  set (m4 := store8 m3 (a + 32 + s) (s - n - 40)).
  assert (Erun : el_split_block a n w =
                 Some (a + n + EL_BLOCK_OVERHEAD, mk_world m4 (mapped w) (el_ctl w))).
  { unfold el_split_block. accessors. consts.
    mrun ltac:(apply Hv; [reflexivity | consts; lia ..]).
    replace (a + 0) with a in * by lia. rewrite B1.
    replace (s <? wrap (n + 40)) with false
      by (symmetry; apply Z.ltb_ge; unwrap; lia).
    erewrite bind_Some
      by (apply (el_get_footer_raw _ a s); [apply Hv; [reflexivity | consts; lia ..] | replace (a + off_size) with a by (consts; lia); exact B1 | consts; lia ..]).
    wsimpl.
    mrun ltac:(replace (a + 0) with a by lia; apply Hv; [reflexivity | consts; lia ..]).
    replace (a + 0) with a by lia. rewrite B1.
    mrun ltac:(replace (a + 0) with a by lia; apply Hv; [reflexivity | consts; lia ..]).
    replace (a + 0) with a by lia. fold m1.
    erewrite bind_Some
      by (apply (el_get_footer_raw _ a n);
          [apply Hv; [reflexivity | consts; lia ..]
          | cbn [mem]; replace (a + off_size) with a by (consts; lia);
            unfold m1; rewrite load8_store8_same; apply wrap_small; lia
          | consts; lia ..]).
    wsimpl.
    mrun ltac:(apply Hv; [reflexivity | consts; lia ..]).
    fold m2.
    erewrite bind_Some
      by (apply (el_block_above_raw _ a n);
          [apply Hv; [reflexivity | consts; lia ..]
          | cbn [mem]; replace (a + off_size) with a by (consts; lia);
            unfold m2, m1; frame; rewrite load8_store8_same; apply wrap_small; lia
          | consts; lia ..]).
    wsimpl.
    replace (a + n + 40 >=? heap_end (el_ctl w)) with false
      by (symmetry; rewrite Z.geb_leb; apply Z.leb_gt; lia).
    replace (wrap (wrap (s - n) - 40)) with (s - n - 40) by (unwrap; lia).
    mrun ltac:(apply Hv; [reflexivity | consts; lia ..]).
    replace (a + n + 40 + 0) with (a + n + 40) by lia. fold m3.
    mrun ltac:(replace (a + n + 40 + 0) with (a + n + 40) by lia; apply Hv; [reflexivity | consts; lia ..]).
    replace (a + n + 40 + 0) with (a + n + 40) by lia.
    replace (load8 m3 (a + n + 40)) with (s - n - 40)
      by (unfold m3; rewrite load8_store8_same; symmetry; apply wrap_small; lia).
    mrun ltac:(apply Hv; [reflexivity | consts; lia ..]).
    fold m4. reflexivity. }
  intros r w' Hrun. rewrite Erun in Hrun. injection Hrun as _ <-. cbn [mem].
  unfold m4, m3, m2, m1. unfold outside in Hx.
  rewrite !store8_byte_other by (consts; lia). reflexivity.
Qed.

(** The two data stores of a merge go to the size field of the lower
    block and to the footer of the higher one. *)
Lemma merge_data_keeps (w : world) (T1 : list blk) (a s1 u1 h s2 u2 : Z)
      (T2 : list blk) (La Lu : list Z) (x : Z) :
  pwf w (T1 ++ (a, s1, u1) :: (h, s2, u2) :: T2) La Lu ->
  outside x a 8 -> outside x (h + 32 + s2) 8 ->
  keeps x (set_size a (s1 + s2 + 40) ;;
           foot <- el_get_footer h ;;
           set_foot_size foot (s1 + s2 + 40)) w.
Proof.
  intros Hp O1 O2.
  destruct (pwf_block_parts w T1 (a, s1, u1) _ La Lu Hp)
    as (Hg & Ht1 & Ht2 & (B1 & B2 & B3) & ? & ? & ? & ? & ?).
  assert (Hp' : pwf w ((T1 ++ [(a, s1, u1)]) ++ (h, s2, u2) :: T2) La Lu).
  { rewrite <- app_assoc. exact Hp. }
  destruct (pwf_block_parts w _ (h, s2, u2) T2 La Lu Hp')
    as (_ & _ & Ht3 & (C1 & C2 & C3) & ? & ? & ? & ? & ?).
  simpl in Ht2. destruct Ht2 as (Eh & _ & _).
  assert (Hv : forall w' x k, mapped w' = mapped w -> a <= x -> x + k <= h + s2 + 40 ->
                              valid_access w' x k = true).
  { intros w' x0 k Hm Hx0 Hk. apply (valid_heap w Hg); [exact Hm | consts; lia ..]. }
  set (m1 := store8 (mem w) a (s1 + s2 + 40)).
  set (m2 := store8 m1 (h + 32 + s2) (s1 + s2 + 40)).
  assert (Erun : (set_size a (s1 + s2 + 40) ;;
                  foot <- el_get_footer h ;;
                  set_foot_size foot (s1 + s2 + 40)) w
                 = Some (tt, mk_world m2 (mapped w) (el_ctl w))).
  { accessors.
    mrun ltac:(apply Hv; [reflexivity | consts; lia ..]).
    erewrite bind_Some
      by (apply (el_get_footer_raw _ h s2);
          [apply Hv; [reflexivity | consts; lia ..]
          | cbn [mem]; frame; exact C1
          | consts; lia ..]).
    wsimpl. consts. rewrite Z.add_0_r. fold m1.
    rewrite wr8_run by (apply Hv; [reflexivity | consts; lia ..]).
    reflexivity. }
  intros r w' Hrun. rewrite Erun in Hrun. injection Hrun as _ <-. cbn [mem].
  unfold m2, m1. unfold outside in O1, O2.
  rewrite !store8_byte_other by (consts; lia). reflexivity.
Qed.

(** A merge writes into link fields of list nodes, into the size field
    of the lower block and into the footer of the higher one. *)
Lemma merge_keeps (w : world) (T1 : list blk) (a s1 h s2 : Z) (T2 : list blk)
      (La Lu : list Z) (x : Z) :
  wf w (T1 ++ (a, s1, EL_AVAILABLE) :: (h, s2, EL_AVAILABLE) :: T2) La Lu ->
  off_links w (T1 ++ (a, s1, EL_AVAILABLE) :: (h, s2, EL_AVAILABLE) :: T2) x ->
  outside x a 8 -> outside x (h + 32 + s2) 8 ->
  keeps x (el_merge_block_with_above a) w.
Proof.
  intros Hwf Hx O1 O2. pose proof Hwf as [Hp Hst].
  assert (Ha : In a La).
  { apply (wf_in_avail w _ La Lu (a, s1, EL_AVAILABLE) Hwf); [|reflexivity].
    apply in_or_app. simpl. auto. }
  assert (Hh : In h La).
  { apply (wf_in_avail w _ La Lu (h, s2, EL_AVAILABLE) Hwf); [|reflexivity].
    apply in_or_app. simpl. auto. }
  destruct (pwf_block_parts w T1 (a, s1, EL_AVAILABLE) _ La Lu Hp) as (_ & _ & Ht2 & _).
  simpl in Ht2. destruct Ht2 as (Eh & _).
  set (T := T1 ++ (a, s1, EL_AVAILABLE) :: (h, s2, EL_AVAILABLE) :: T2) in *.
  assert (HaT : In (a, s1, EL_AVAILABLE) T) by (apply in_or_app; simpl; auto).
  assert (HhT : In (h, s2, EL_AVAILABLE) T) by (apply in_or_app; simpl; auto).
  destruct (blk_facts w T La Lu Hp _ HaT) as (_ & ? & ? & ? & ? & ?).
  destruct (blk_facts w T La Lu Hp _ HhT) as (_ & ? & ? & ? & ? & ?).
  pose proof (geom_lt w (pwf_geom w T La Lu Hp)) as Hlt.
  unfold baddr, bsize, bend in *. simpl fst in *. simpl snd in *.
  (* unlink the lower block *)
  destruct (in_split a La Ha) as (L1 & L2 & EL).
  pose proof (pwf_nodup w T La Lu Hp) as Hnd.
  assert (HndA : NoDup La) by (eapply NoDup_app_remove_r; exact Hnd).
  assert (ER1 : remove Z.eq_dec a La = L1 ++ L2).
  { rewrite EL. apply remove_split. rewrite <- EL. exact HndA. }
  destruct (el_remove_block_spec w T La Lu AVAIL L1 a L2 Hp EL) as (w1 & R1 & F1 & P1).
  cbn [lset_avail lset_used] in P1.
  pose proof (remove_keeps w T La Lu AVAIL L1 a L2 x Hp EL Hx tt w1 R1) as K1.
  (* unlink the higher block *)
  assert (Hah : a <> h) by (consts; lia).
  assert (Hh1 : In h (L1 ++ L2)).
  { rewrite <- ER1. apply in_in_remove; [congruence | exact Hh]. }
  destruct (in_split h _ Hh1) as (M1 & M2 & EM).
  pose proof (pwf_nodup w1 T _ Lu P1) as Hnd1.
  assert (HndB : NoDup (L1 ++ L2)) by (eapply NoDup_app_remove_r; exact Hnd1).
  destruct (el_remove_block_spec w1 T _ Lu AVAIL M1 h M2 P1 EM) as (w2 & R2 & F2 & P2).
  cbn [lset_avail lset_used] in P2.
  assert (Hx1 : off_links w1 T x) by (eapply off_links_mono; [exact F1 | apply incl_refl | exact Hx]).
  pose proof (remove_keeps w1 T _ Lu AVAIL M1 h M2 x P1 EM Hx1 tt w2 R2) as K2.
  destruct (lists_remove AVAIL La Lu L1 a L2 EL Hnd) as (_ & _ & Hna).
  destruct (lists_remove AVAIL (L1 ++ L2) Lu M1 h M2 EM Hnd1) as (_ & Hinc2 & Hnh).
  cbn [lset_avail lset_used] in Hna, Hnh, Hinc2.
  assert (Hna2 : ~ In a ((M1 ++ M2) ++ Lu)).
  { intros Hin. apply Hna. apply Hinc2. exact Hin. }
  (* rewrite the sizes *)
  destruct (merge_data_spec w2 T1 a s1 EL_AVAILABLE h s2 EL_AVAILABLE T2 _ Lu P2 Hna2 Hnh)
    as (w3 & R3 & F3 & P3).
  pose proof (merge_data_keeps w2 T1 a s1 EL_AVAILABLE h s2 EL_AVAILABLE T2 _ Lu x P2 O1 O2
                tt w3 R3) as K3.
  (* link the merged block *)
  destruct (el_add_block_front_spec w3 _ _ Lu AVAIL a P3) as (w4 & R4 & F4 & P4).
  { rewrite map_app. apply in_or_app. right. simpl. auto. }
  { exact Hna2. }
  assert (Hx3 : off_links w3 (T1 ++ (a, s1 + s2 + 40, EL_AVAILABLE) :: T2) x).
  { eapply off_links_mono; [|  | exact Hx].
    - eapply same_frame_trans; [exact F1|]. eapply same_frame_trans; [exact F2 | exact F3].
    - unfold T. rewrite !map_app. simpl. intros y Hy. rewrite in_app_iff in *. simpl in *.
      tauto. }
  assert (K4 : mem w4 x = mem w3 x).
  { apply (add_keeps w3 _ _ Lu AVAIL a x P3) with (r := tt) (w' := w4); try assumption.
    rewrite map_app. apply in_or_app. right. simpl. auto. }
  assert (Rall : el_merge_block_with_above a w = Some (tt, w4)).
  { unfold el_merge_block_with_above.
    replace (a =? NULL) with false by (symmetry; apply Z.eqb_neq; unfold NULL; lia).
    mcall (get_state_spec w T La Lu Hp _ HaT). cbn [bstate snd].
    change (EL_AVAILABLE =? EL_USED) with false. cbv iota.
    mcall (el_block_above_spec w T La Lu Hp T1 (a, s1, EL_AVAILABLE) _ eq_refl). cbn [baddr fst].
    replace (h =? NULL) with false by (symmetry; apply Z.eqb_neq; unfold NULL; lia).
    mcall (get_state_spec w T La Lu Hp _ HhT). cbn [bstate snd].
    change (EL_AVAILABLE =? EL_USED) with false. cbv iota.
    mcall (get_size_spec w T La Lu Hp _ HaT).
    mcall (get_size_spec w T La Lu Hp _ HhT). cbn [bsize baddr fst snd].
    replace (wrap (wrap (s1 + s2) + EL_BLOCK_OVERHEAD)) with (s1 + s2 + 40)
      by (consts; unwrap; lia).
    mcall R1. mcall R2.
    unfold bind at 1 in R3.
    destruct (set_size a (s1 + s2 + 40) w2) as [[[] w2']|] eqn:E1; [|discriminate].
    mcall E1.
    unfold bind at 1 in R3.
    destruct (el_get_footer h w2') as [[foot w2'']|] eqn:E2; [|discriminate].
    mcall E2. mcall R3. exact R4. }
  intros r w' Hrun. rewrite Rall in Hrun. injection Hrun as _ <-.
  rewrite K4, K3, K2, K1. reflexivity.
Qed.

(** The first half of [el_free] writes into link fields of list nodes
    and into the state byte of the freed block. *)
Lemma free_move_keeps (w : world) (T1 : list blk) (a s : Z) (T2 : list blk)
      (La Lu : list Z) :
  wf w (T1 ++ (a, s, EL_USED) :: T2) La Lu ->
  exists w1,
    same_frame w w1 /\
    wf w1 (T1 ++ (a, s, EL_AVAILABLE) :: T2) (a :: La) (remove Z.eq_dec a Lu) /\
    el_free (a + 32) w =
    (el_merge_block_with_above a ;;
     below <- el_block_below a ;;
     el_merge_block_with_above below) w1 /\
    forall x, off_links w (T1 ++ (a, s, EL_USED) :: T2) x -> x <> a + off_state ->
              mem w1 x = mem w x.
Proof.
  intros Hwf. pose proof Hwf as [Hp Hst].
  assert (HaT : In (a, s, EL_USED) (T1 ++ (a, s, EL_USED) :: T2))
    by (apply in_or_app; simpl; auto).
  destruct (blk_facts w _ La Lu Hp _ HaT) as (_ & ? & ? & ? & ? & ?).
  unfold baddr, bsize, bend in *. simpl fst in *. simpl snd in *.
  assert (Ha : In a Lu) by (apply (wf_in_used w _ La Lu _ Hwf HaT); reflexivity).
  destruct (in_split a Lu Ha) as (L1 & L2 & EL).
  pose proof (pwf_nodup w _ La Lu Hp) as Hnd.
  assert (ER : remove Z.eq_dec a Lu = L1 ++ L2).
  { rewrite EL. apply remove_split. rewrite <- EL. eapply NoDup_app_remove_l. exact Hnd. }
  destruct (el_remove_block_spec w _ La Lu USED L1 a L2 Hp EL) as (w1 & R1 & F1 & P1).
  cbn [lset_avail lset_used] in P1.
  destruct (lists_remove USED La Lu L1 a L2 EL Hnd) as (_ & _ & Hna).
  cbn [lset_avail lset_used] in Hna.
  destruct (set_state_spec w1 T1 a s EL_USED T2 La _ EL_AVAILABLE P1) as (w2 & R2 & F2 & P2).
  { unfold EL_AVAILABLE. lia. }
  destruct (el_add_block_front_spec w2 _ La _ AVAIL a P2) as (w3 & R3 & F3 & P3).
  { rewrite map_app. apply in_or_app. right. simpl. auto. }
  { exact Hna. }
  cbn [lset_avail lset_used lsel] in P3.
  exists w3. split; [|split; [|split]].
  - eapply same_frame_trans; [exact F1|]. eapply same_frame_trans; [exact F2 | exact F3].
  - rewrite ER. split; [exact P3|].
    pose proof (tiles_NoDup_addr _ _ _ (pwf_tiles w _ La Lu Hp)) as HndT.
    destruct (state_ok_rest T1 [(a, s, EL_USED)] T2 La Lu (a :: La) (L1 ++ L2) HndT Hst)
      as [S1 S2].
    + intros y Hy _. right. exact Hy.
    + intros y Hy Hn. simpl in Hn. rewrite EL in Hy.
      apply in_app_or in Hy. apply in_or_app. simpl in Hy.
      destruct Hy as [Hy | [E | Hy]]; auto. exfalso. apply Hn. left. exact E.
    + rewrite Forall_app. split; [exact S1|]. constructor; [|exact S2].
      left. split; [reflexivity | left; reflexivity].
  - unfold el_free.
    assert (Eb : PTR_PLUS_BYTES (a + 32) (wrap (- sizeof_el_blockhead_t)) = a).
    { unfold PTR_PLUS_BYTES. rewrite wrap_add_r.
      transitivity (wrap a); [f_equal; consts; lia | apply wrap_small; consts; lia]. }
    rewrite Eb.
    mcall (get_state_spec w _ La Lu Hp _ HaT). cbn [bstate snd].
    change (EL_USED =? EL_AVAILABLE) with false. cbv iota.
    mcall R1. mcall R2. mcall R3. reflexivity.
  - intros x Hx Hne.
    pose proof (remove_keeps w _ La Lu USED L1 a L2 x Hp EL Hx tt w1 R1) as K1.
    pose proof (keeps_wr1 x (a + off_state) EL_AVAILABLE w1 Hne tt w2 R2) as K2.
    assert (K3 : mem w3 x = mem w2 x).
    { apply (add_keeps w2 _ La _ AVAIL a x P2) with (r := tt) (w' := w3); try assumption.
      - rewrite map_app. apply in_or_app. right. simpl. auto.
      - eapply off_links_mono; [| | exact Hx].
        + eapply same_frame_trans; [exact F1 | exact F2].
        + rewrite !map_app. simpl. apply incl_refl. }
    rewrite K3, K2, K1. reflexivity.
Qed.

(** The merge of a freed block with its upper neighbour. *)
Lemma upper_step (w : world) (T1 : list blk) (a s : Z) (T2 : list blk) (La Lu : list Z) :
  wf w (T1 ++ (a, s, EL_AVAILABLE) :: T2) La Lu ->
  exists w2 s' T2' La',
    el_merge_block_with_above a w = Some (tt, w2) /\ same_frame w w2 /\
    wf w2 (T1 ++ (a, s', EL_AVAILABLE) :: T2') La' Lu /\
    incl (map baddr T2') (map baddr T2) /\
    (exists b, In b ((a, s, EL_AVAILABLE) :: T2) /\ bfoot b = a + 32 + s') /\
    forall x, off_links w (T1 ++ (a, s, EL_AVAILABLE) :: T2) x ->
              (forall b, In b ((a, s, EL_AVAILABLE) :: T2) ->
                         outside x (baddr b) 8 /\ outside x (bfoot b) 8) ->
              mem w2 x = mem w x.
Proof.
  intros W.
  pose proof (wf_states w _ La Lu W) as Hst.
  rewrite Forall_app in Hst. destruct Hst as [_ Hst].
  inversion Hst as [|? ? _ Hst2]; subst. clear Hst.
  assert (Hnoop : head_used T2 ->
                  exists w2 s' T2' La',
                    el_merge_block_with_above a w = Some (tt, w2) /\ same_frame w w2 /\
                    wf w2 (T1 ++ (a, s', EL_AVAILABLE) :: T2') La' Lu /\
                    incl (map baddr T2') (map baddr T2) /\
    (exists b, In b ((a, s, EL_AVAILABLE) :: T2) /\ bfoot b = a + 32 + s') /\
                    forall x, off_links w (T1 ++ (a, s, EL_AVAILABLE) :: T2) x ->
                              (forall b, In b ((a, s, EL_AVAILABLE) :: T2) ->
                                         outside x (baddr b) 8 /\ outside x (bfoot b) 8) ->
                              mem w2 x = mem w x).
  { intros Hh. exists w, s, T2, La.
    split; [apply (merge_noop_above w T1 (a, s, EL_AVAILABLE) T2 La Lu (proj1 W) Hh)|].
    split; [apply same_frame_refl|]. split; [exact W|].
    split; [apply incl_refl|].
    split; [exists (a, s, EL_AVAILABLE); split; [left; reflexivity | reflexivity]|].
    reflexivity. }
  destruct T2 as [|[[h s2] u] T2']; [apply Hnoop; exact I|].
  inversion Hst2 as [|? ? Hu _]; subst. simpl in Hu.
  destruct Hu as [-> | ->]; [|apply Hnoop; reflexivity].
  clear Hnoop.
  destruct (wf_merge w T1 a s h s2 T2' La Lu W) as (w2 & R2 & F2 & W2).
  destruct (pwf_block_parts w T1 (a, s, EL_AVAILABLE) _ La Lu (proj1 W)) as (_ & _ & Ht2 & _).
  simpl in Ht2. destruct Ht2 as (Eh & _).
  unfold bend, baddr, bsize in Eh. simpl in Eh. change EL_BLOCK_OVERHEAD with 40 in Eh.
  eexists w2, _, T2', _. split; [exact R2|]. split; [exact F2|]. split; [exact W2|].
  split; [simpl; apply incl_tl, incl_refl|].
  split.
  - exists (h, s2, EL_AVAILABLE). split; [right; left; reflexivity|].
    unfold bfoot, baddr, bsize. simpl. consts. lia.
  - intros x Hx Hb.
    apply (merge_keeps w T1 a s h s2 T2' La Lu x W Hx) with (r := tt); [ | | exact R2].
    + apply (proj1 (Hb (a, s, EL_AVAILABLE) (or_introl eq_refl))).
    + apply (proj2 (Hb (h, s2, EL_AVAILABLE) (or_intror (or_introl eq_refl)))).
Qed.

(** The merge of the lower neighbour with a freed block. *)
Lemma lower_step (w : world) (T1 : list blk) (a s : Z) (T2 : list blk) (La Lu : list Z) :
  wf w (T1 ++ (a, s, EL_AVAILABLE) :: T2) La Lu ->
  exists w3,
    (below <- el_block_below a ;; el_merge_block_with_above below) w = Some (tt, w3) /\
    same_frame w w3 /\
    forall x, off_links w (T1 ++ (a, s, EL_AVAILABLE) :: T2) x ->
              (forall b, In b T1 -> outside x (baddr b) 8) ->
              outside x (a + 32 + s) 8 ->
              mem w3 x = mem w x.
Proof.
  intros W.
  pose proof (wf_states w _ La Lu W) as Hst.
  rewrite Forall_app in Hst. destruct Hst as [Hst _].
  assert (Hnoop : last_used T1 ->
                  exists w3,
                    (below <- el_block_below a ;; el_merge_block_with_above below) w
                    = Some (tt, w3) /\ same_frame w w3 /\
                    forall x, off_links w (T1 ++ (a, s, EL_AVAILABLE) :: T2) x ->
                              (forall b, In b T1 -> outside x (baddr b) 8) ->
                              outside x (a + 32 + s) 8 ->
                              mem w3 x = mem w x).
  { intros Hl. exists w.
    split; [apply (merge_below_noop w T1 (a, s, EL_AVAILABLE) T2 La Lu (proj1 W) Hl)|].
    split; [apply same_frame_refl | reflexivity]. }
  destruct (list_last_case _ T1) as [-> | (T1' & [[l s0] u] & ->)];
    [apply Hnoop; left; reflexivity|].
  rewrite Forall_app in Hst. destruct Hst as [_ Hb].
  inversion Hb as [|? ? Hu _]; subst. simpl in Hu.
  destruct Hu as [-> | ->];
    [|apply Hnoop; right; exists T1', (l, s0, EL_USED); split; reflexivity].
  clear Hnoop.
  assert (W' : wf w (T1' ++ (l, s0, EL_AVAILABLE) :: (a, s, EL_AVAILABLE) :: T2) La Lu).
  { rewrite <- app_assoc in W. exact W. }
  destruct (wf_merge w T1' l s0 a s T2 La Lu W') as (w3 & R3 & F3 & W3).
  exists w3. split; [|split; [exact F3|]].
  - mcall (el_block_below_spec w _ La Lu (proj1 W') T1' (l, s0, EL_AVAILABLE)
             (a, s, EL_AVAILABLE) T2 eq_refl).
    exact R3.
  - intros x Hx Hb1 Hf.
    apply (merge_keeps w T1' l s0 a s T2 La Lu x W') with (r := tt); [ | | exact Hf | exact R3].
    + rewrite <- app_assoc in Hx. exact Hx.
    + apply (Hb1 (l, s0, EL_AVAILABLE)). apply in_or_app. right. left. reflexivity.
Qed.

Lemma free_merges_keep (w : world) (T1 : list blk) (a s : Z) (T2 : list blk)
      (La Lu : list Z) :
  wf w (T1 ++ (a, s, EL_AVAILABLE) :: T2) La Lu ->
  exists w',
    (el_merge_block_with_above a ;;
     below <- el_block_below a ;;
     el_merge_block_with_above below) w = Some (tt, w') /\
    same_frame w w' /\
    forall x, off_links w (T1 ++ (a, s, EL_AVAILABLE) :: T2) x ->
              (forall b, In b (T1 ++ (a, s, EL_AVAILABLE) :: T2) ->
                         outside x (baddr b) 8 /\ outside x (bfoot b) 8) ->
              mem w' x = mem w x.
Proof.
  intros W.
  destruct (upper_step w T1 a s T2 La Lu W)
    as (w2 & s' & T2' & La' & R2 & F2 & W2 & Hinc & (bf & Hbf & Ebf) & K2).
  destruct (lower_step w2 T1 a s' T2' La' Lu W2) as (w3 & R3 & F3 & K3).
  exists w3. split; [mcall R2; exact R3|].
  split; [eapply same_frame_trans; eassumption|].
  intros x Hx Hb.
  rewrite K3, K2; [reflexivity | exact Hx | | | | ].
  - intros b Hin. apply Hb. apply in_or_app. right. exact Hin.
  - eapply off_links_mono; [exact F2 | | exact Hx].
    rewrite !map_app. simpl. intros y Hy. rewrite in_app_iff in *. simpl in *.
    destruct Hy as [Hy | [Hy | Hy]]; auto.
  - intros b Hin. apply (proj1 (Hb b (in_or_app _ _ _ (or_introl Hin)))).
  - rewrite <- Ebf. apply (proj2 (Hb bf (in_or_app _ _ _ (or_intror Hbf)))).
Qed.

(** Payload bytes and state bytes are away from everything the merges
    write. *)
Lemma payload_clear (w : world) (T : list blk) (La Lu : list Z) (b : blk) (x : Z) :
  pwf w T La Lu -> In b T -> in_payload b x ->
  off_links w T x /\
  forall b', In b' T -> outside x (baddr b') 16 /\ outside x (bfoot b') 8.
Proof.
  intros Hp Hb Hx.
  pose proof (pwf_geom w T La Lu Hp) as Hg.
  pose proof (pwf_tiles w T La Lu Hp) as Ht.
  destruct (blk_in_heap w T Ht b Hb) as (? & ? & ?).
  unfold in_payload in Hx. split.
  - intros y Ny. destruct (node_blk_sep w T Hg Ht y b Ny Hb) as [E | [E | E]];
      unfold outside; consts; lia.
  - intros b' Hb'. destruct (blk_in_heap w T Ht b' Hb') as (? & ? & ?).
    destruct (tiles_sep _ _ _ _ _ Ht Hb Hb') as [<- | [E | E]];
      unfold outside; consts; lia.
Qed.

Lemma state_byte_clear (w : world) (T : list blk) (La Lu : list Z) (b : blk) :
  pwf w T La Lu -> In b T ->
  off_links w T (baddr b + off_state) /\
  forall b', In b' T -> outside (baddr b + off_state) (baddr b') 8 /\
                        outside (baddr b + off_state) (bfoot b') 8.
Proof.
  intros Hp Hb.
  pose proof (pwf_geom w T La Lu Hp) as Hg.
  pose proof (pwf_tiles w T La Lu Hp) as Ht.
  destruct (blk_in_heap w T Ht b Hb) as (? & ? & ?). split.
  - intros y Ny. destruct (node_blk_sep w T Hg Ht y b Ny Hb) as [E | [E | E]];
      unfold outside; consts; lia.
  - intros b' Hb'. destruct (blk_in_heap w T Ht b' Hb') as (? & ? & ?).
    destruct (tiles_sep _ _ _ _ _ Ht Hb Hb') as [<- | [E | E]];
      unfold outside; consts; lia.
Qed.

(** [el_free] of a used block, with what it leaves untouched. *)
Lemma free_keeps (w : world) (T1 : list blk) (a s : Z) (T2 : list blk) (La Lu : list Z) :
  wf w (T1 ++ (a, s, EL_USED) :: T2) La Lu ->
  exists w1 w',
    el_free (a + 32) w = Some (tt, w') /\ same_frame w w' /\
    load1 (mem w1) (a + off_state) = EL_AVAILABLE /\
    forall x, off_links w (T1 ++ (a, s, EL_USED) :: T2) x ->
              (forall b, In b (T1 ++ (a, s, EL_USED) :: T2) ->
                         outside x (baddr b) 8 /\ outside x (bfoot b) 8) ->
              mem w' x = mem w1 x /\ (x <> a + off_state -> mem w1 x = mem w x).
Proof.
  intros W.
  destruct (free_move_keeps w T1 a s T2 La Lu W) as (w1 & F1 & W1 & E & K1).
  destruct (free_merges_keep w1 T1 a s T2 _ _ W1) as (w' & R & F2 & K2).
  exists w1, w'. split; [rewrite E; exact R|].
  split; [eapply same_frame_trans; eassumption|]. split.
  - assert (Hin : In (a, s, EL_AVAILABLE) (T1 ++ (a, s, EL_AVAILABLE) :: T2))
      by (apply in_or_app; simpl; auto).
    destruct (blk_facts w1 _ _ _ (proj1 W1) _ Hin) as ((_ & B2 & _) & _). exact B2.
  - intros x Hx Hb. split; [|apply K1; exact Hx].
    apply K2.
    + eapply off_links_mono; [exact F1 | | exact Hx].
      rewrite !map_app. simpl. apply incl_refl.
    + intros b Hin. apply in_app_or in Hin. destruct Hin as [Hin | [<- | Hin]].
      * apply Hb. apply in_or_app. left. exact Hin.
      * apply (Hb (a, s, EL_USED)). apply in_or_app. right. left. reflexivity.
      * apply Hb. apply in_or_app. right. right. exact Hin.
Qed.

(** X13.  In a well-formed heap, [el_free] of the pointer of a used block
    runs to completion and changes no payload byte of any block, the
    freed one included: it writes into headers and footers only. *)
Theorem X13_free_keeps_payloads (w : world) (T : list blk) (La Lu : list Z) (a : Z) :
  wf w T La Lu -> In a Lu ->
  exists w',
    el_free (payload a) w = Some (tt, w') /\
    forall b x, In b T -> in_payload b x -> mem w' x = mem w x.
Proof.
  intros W Ha.
  destruct (wf_block_of_used w T La Lu a W Ha) as (T1 & s & T2 & ->).
  destruct (free_keeps w T1 a s T2 La Lu W) as (w1 & w' & R & _ & _ & K).
  exists w'. split; [exact R|].
  intros b x Hb Hx.
  destruct (payload_clear w _ La Lu b x (proj1 W) Hb Hx) as [Hl Hc].
  assert (Hc8 : forall b', In b' (T1 ++ (a, s, EL_USED) :: T2) ->
                           outside x (baddr b') 8 /\ outside x (bfoot b') 8).
  { intros b' Hb'. destruct (Hc b' Hb') as [H1 H2]. split; [|exact H2].
    unfold outside in *. lia. }
  destruct (K x Hl Hc8) as [K2 K1].
  rewrite K2. apply K1.
  assert (Hin : In (a, s, EL_USED) (T1 ++ (a, s, EL_USED) :: T2))
    by (apply in_or_app; simpl; auto).
  destruct (Hc _ Hin) as [H1 _]. unfold outside, baddr in H1. simpl in H1.
  consts. lia.
Qed.

(** X13 (witness): freeing the second block of the concrete heap. *)
Lemma X13_witness :
  exists w',
    el_free (payload (demo_start + 48)) demo_four = Some (tt, w') /\
    forall b x,
      In b [(demo_start, 8, EL_USED); (demo_start + 48, 8, EL_USED);
            (demo_start + 96, 8, EL_USED); (demo_start + 144, 8, EL_USED);
            (demo_start + 192, 3864, EL_AVAILABLE)] ->
      in_payload b x -> mem w' x = mem demo_four x.
Proof.
  apply (X13_free_keeps_payloads demo_four _ [demo_start + 192]
           [demo_start + 144; demo_start + 96; demo_start + 48; demo_start]
           (demo_start + 48)).
  - exact demo_four_wf.
  - right. right. left. reflexivity.
Defined.

(** X14.  In a well-formed heap, a second [el_free] of the same pointer
    right after the first is harmless: whether or not the freed block was
    merged with its neighbours, its header still reads Available, so the
    second call returns without changing anything. *)
Theorem X14_second_free_changes_nothing (w : world) (T : list blk) (La Lu : list Z)
        (a : Z) :
  wf w T La Lu -> In a Lu ->
  exists w',
    el_free (payload a) w = Some (tt, w') /\
    el_free (payload a) w' = Some (tt, w').
Proof.
  intros W Ha.
  destruct (wf_block_of_used w T La Lu a W Ha) as (T1 & s & T2 & ->).
  destruct (free_keeps w T1 a s T2 La Lu W) as (w1 & w' & R & F & Hs & K).
  assert (Hin : In (a, s, EL_USED) (T1 ++ (a, s, EL_USED) :: T2))
    by (apply in_or_app; simpl; auto).
  destruct (state_byte_clear w _ La Lu _ (proj1 W) Hin) as [Hl Hc].
  destruct (K _ Hl Hc) as [K2 _].
  destruct (blk_facts w _ La Lu (proj1 W) _ Hin) as (_ & ? & ? & ? & ? & ?).
  pose proof (pwf_geom w _ La Lu (proj1 W)) as Hg.
  unfold bend in *. unfold baddr, bsize in *. simpl fst in *. simpl snd in *.
  unfold payload. change sizeof_el_blockhead_t with 32.
  exists w'. split; [exact R|].
  unfold el_free.
  assert (Eb : PTR_PLUS_BYTES (a + 32) (wrap (- sizeof_el_blockhead_t)) = a).
  { unfold PTR_PLUS_BYTES. rewrite wrap_add_r.
    transitivity (wrap a); [f_equal; consts; lia | apply wrap_small; consts; lia]. }
  rewrite Eb. accessors.
  mrun ltac:(apply (valid_heap w Hg); [apply (proj1 F) | consts; lia ..]).
  rewrite (load1_ext (mem w1) (mem w') _ K2), Hs. reflexivity.
Qed.

(** X14 (witness): the second block of the concrete heap, freed twice. *)
Lemma X14_witness :
  exists w',
    el_free (payload (demo_start + 48)) demo_four = Some (tt, w') /\
    el_free (payload (demo_start + 48)) w' = Some (tt, w').
Proof.
  apply (X14_second_free_changes_nothing demo_four
           [(demo_start, 8, EL_USED); (demo_start + 48, 8, EL_USED);
            (demo_start + 96, 8, EL_USED); (demo_start + 144, 8, EL_USED);
            (demo_start + 192, 3864, EL_AVAILABLE)]
           [demo_start + 192]
           [demo_start + 144; demo_start + 96; demo_start + 48; demo_start]
           (demo_start + 48)).
  - exact demo_four_wf.
  - right. right. left. reflexivity.
Defined.

(** [el_malloc] writes into link fields of list nodes and inside the
    block it takes. *)
Lemma malloc_keeps (w : world) (T1 : list blk) (a s : Z) (T2 : list blk)
      (L1 L2 Lu : list Z) (n : Z) (fuel : nat) (x : Z) :
  wf w (T1 ++ (a, s, EL_AVAILABLE) :: T2) (L1 ++ a :: L2) Lu ->
  (forall y, In y L1 -> load8 (mem w) (y + off_size) < n + 40) ->
  0 <= n -> n + 40 <= s -> (List.length (L1 ++ a :: L2) < fuel)%nat ->
  off_links w (T1 ++ (a, s, EL_AVAILABLE) :: T2) x -> outside x a (s + 40) ->
  keeps x (el_malloc fuel n) w.
Proof.
  intros [Hp Hst] Hsmall Hn Hns Hfuel Hx Hout.
  destruct (pwf_block_parts w T1 _ T2 _ Lu Hp)
    as (Hg & Ht1 & Ht2 & (B1 & B2 & B3) & ? & ? & ? & ? & ?).
  pose proof (geom_lt w Hg) as Hlt.
  unfold baddr, bsize, bend in *. simpl fst in *. simpl snd in *.
  change EL_BLOCK_OVERHEAD with 40 in *.
  (* search *)
  pose proof (el_find_first_avail_spec w _ _ Lu n fuel Hp Hfuel) as Rf.
  assert (En : wrap (n + EL_BLOCK_OVERHEAD) = n + 40) by (consts; unwrap; lia).
  rewrite En in Rf. rewrite first_fit_found in Rf; [|exact Hsmall | lia].
  (* unlink from the available list *)
  destruct (el_remove_block_spec w _ _ Lu AVAIL L1 a L2 Hp eq_refl) as (w1 & R1 & F1 & P1).
  cbn [lset_avail lset_used] in P1.
  pose proof (remove_keeps w _ _ Lu AVAIL L1 a L2 x Hp eq_refl Hx tt w1 R1) as K1.
  destruct (lists_remove AVAIL _ Lu L1 a L2 eq_refl (pwf_nodup w _ _ Lu Hp))
    as (Hnd1 & _ & Hna1).
  cbn [lset_avail lset_used] in Hnd1, Hna1.
  (* split *)
  destruct (el_split_block_spec w1 T1 a s EL_AVAILABLE T2 _ Lu n P1 Hna1 Hn Hns)
    as (w2 & u' & R2 & F2 & P2).
  pose proof (split_keeps w1 T1 a s EL_AVAILABLE T2 _ Lu n x P1 Hn Hns Hout _ w2 R2) as K2.
  change EL_BLOCK_OVERHEAD with 40 in *.
  set (r := a + n + 40) in *.
  assert (Hx' : forall w' u1 u2,
             same_frame w w' ->
             off_links w' (T1 ++ (a, n, u1) :: (r, s - n - 40, u2) :: T2) x).
  { intros w' u1 u2 (_ & _ & _ & _ & Fs) y [Hs | Hy].
    - apply Hx. left. rewrite <- Fs. exact Hs.
    - rewrite map_app in Hy. simpl in Hy. rewrite in_app_iff in Hy. simpl in Hy.
      destruct Hy as [Hy | [<- | [<- | Hy]]].
      + apply Hx. right. rewrite map_app. apply in_or_app. left. exact Hy.
      + apply Hx. right. rewrite map_app. apply in_or_app. right. left. reflexivity.
      + unfold outside in *. unfold r. consts. lia.
      + apply Hx. right. rewrite map_app. apply in_or_app. right. right. exact Hy. }
  (* link into the used list *)
  destruct (el_add_block_front_spec w2 _ _ Lu USED a P2) as (w3 & R3 & F3 & P3).
  { rewrite map_app. apply in_or_app. right. simpl. auto. }
  { exact Hna1. }
  assert (F02 : same_frame w w2) by (eapply same_frame_trans; eassumption).
  assert (K3 : mem w3 x = mem w2 x).
  { apply (add_keeps w2 _ _ Lu USED a x P2) with (r := tt) (w' := w3); try assumption.
    - rewrite map_app. apply in_or_app. right. simpl. auto.
    - apply Hx'. exact F02. }
  cbn [lset_avail lset_used lsel] in P3.
  destruct (set_state_spec w3 T1 a n EL_AVAILABLE _ _ _ EL_USED P3) as (w4 & R4 & F4 & P4).
  { unfold EL_USED. lia. }
  assert (K4 : mem w4 x = mem w3 x).
  { apply (keeps_wr1 x (a + off_state) EL_USED w3) with (r := tt); [|exact R4].
    unfold outside in Hout. consts. lia. }
  (* link the remainder into the available list *)
  assert (Hr_blk : In r (map baddr (T1 ++ (a, n, EL_USED) :: (r, s - n - 40, u') :: T2))).
  { rewrite map_app. apply in_or_app. right. simpl. auto. }
  assert (Hr_free : ~ In r ((L1 ++ L2) ++ a :: Lu)).
  { intros Hin. apply in_app_or in Hin. destruct Hin as [Hin | [E | Hin]].
    - assert (Hin' : In r (map baddr (T1 ++ (a, s, EL_AVAILABLE) :: T2))).
      { apply (pwf_incl w1 _ _ Lu P1). apply in_or_app. left. exact Hin. }
      apply in_map_iff in Hin'. destruct Hin' as [b' [Eb' Hb']].
      apply in_app_or in Hb'. destruct Hb' as [Hb' | [<- | Hb']].
      + destruct (tiles_In _ _ _ _ Ht1 Hb') as (? & ? & ?). consts. lia.
      + consts. lia.
      + destruct (tiles_In _ _ _ _ Ht2 Hb') as (? & ? & ?). consts. lia.
    - unfold r in E. lia.
    - assert (Hin' : In r (map baddr (T1 ++ (a, s, EL_AVAILABLE) :: T2))).
      { apply (pwf_incl w _ _ Lu Hp). apply in_or_app. right. exact Hin. }
      apply in_map_iff in Hin'. destruct Hin' as [b' [Eb' Hb']].
      apply in_app_or in Hb'. destruct Hb' as [Hb' | [<- | Hb']].
      + destruct (tiles_In _ _ _ _ Ht1 Hb') as (? & ? & ?). consts. lia.
      + consts. lia.
      + destruct (tiles_In _ _ _ _ Ht2 Hb') as (? & ? & ?). consts. lia. }
  destruct (el_add_block_front_spec w4 _ _ _ AVAIL r P4 Hr_blk Hr_free)
    as (w5 & R5 & F5 & P5).
  assert (F04 : same_frame w w4).
  { eapply same_frame_trans; [exact F02|]. eapply same_frame_trans; eassumption. }
  assert (K5 : mem w5 x = mem w4 x).
  { apply (add_keeps w4 _ _ _ AVAIL r x P4 Hr_blk Hr_free) with (r := tt) (w' := w5);
      [|exact R5].
    apply Hx'. exact F04. }
  cbn [lset_avail lset_used lsel] in P5.
  assert (P5' : pwf w5 ((T1 ++ [(a, n, EL_USED)]) ++ (r, s - n - 40, u') :: T2)
                    (r :: L1 ++ L2) (a :: Lu)).
  { rewrite <- app_assoc. exact P5. }
  destruct (set_state_spec w5 _ r (s - n - 40) u' T2 _ _ EL_AVAILABLE P5')
    as (w6 & R6 & F6 & P6).
  { unfold EL_AVAILABLE. lia. }
  assert (K6 : mem w6 x = mem w5 x).
  { apply (keeps_wr1 x (r + off_state) EL_AVAILABLE w5) with (r := tt); [|exact R6].
    unfold outside in Hout. unfold r. consts. lia. }
  assert (Rall : el_malloc fuel n w = Some (a + 32, w6)).
  { unfold el_malloc. mcall Rf.
    replace (a =? NULL) with false by (symmetry; apply Z.eqb_neq; unfold NULL; lia).
    mcall R1. mcall R2. mcall R3. mcall R4.
    replace (r =? NULL) with false by (symmetry; apply Z.eqb_neq; unfold NULL, r; lia).
    erewrite bind_Some; [|erewrite bind_Some by (exact R5); exact R6].
    unfold ret, PTR_PLUS_BYTES. consts. unwrap. reflexivity. }
  intros p w' Hrun. rewrite Rall in Hrun. injection Hrun as _ <-.
  rewrite K6, K5, K4, K3, K2, K1. reflexivity.
Qed.

(** X15.  In a well-formed heap, an [el_malloc] that does not wrap runs
    to completion and leaves every block in use exactly as it was: no
    byte of its payload changes, and its header and footer read the same
    size and state as before. *)
Theorem X15_malloc_keeps_used_blocks (w : world) (T : list blk) (La Lu : list Z)
        (n : Z) (fuel : nat) :
  wf w T La Lu ->
  0 <= n -> n + EL_BLOCK_OVERHEAD < WORD -> (List.length La < fuel)%nat ->
  exists p w',
    el_malloc fuel n w = Some (p, w') /\
    forall b, In b T -> bstate b = EL_USED ->
      (forall x, in_payload b x -> mem w' x = mem w x) /\
      header_at w' (baddr b) = header_at w (baddr b) /\
      load8 (mem w') (bfoot b) = load8 (mem w) (bfoot b).
Proof.
  intros W Hn Hov Hfuel.
  destruct (malloc_step w T La Lu n fuel W Hn Hov Hfuel)
    as [[R _] | (T1 & a & s & T2 & L1 & L2 & w2 & ET & EL & Hsmall & Hfit & R & F & W2 & _)].
  - exists NULL, w. split; [exact R|]. intros b _ _. repeat split; reflexivity.
  - exists (payload a), w2. split; [exact R|]. subst T La.
    change EL_BLOCK_OVERHEAD with 40 in *.
    intros b Hb Hu.
    assert (Hb' : In b (T1 ++ T2)).
    { apply in_app_or in Hb. apply in_or_app. destruct Hb as [Hb | [<- | Hb]]; auto.
      discriminate Hu. }
    split.
    + intros x Hx.
      destruct (payload_clear w _ _ Lu b x (proj1 W) Hb Hx) as [Hl _].
      apply (malloc_keeps w T1 a s T2 L1 L2 Lu n fuel x W Hsmall Hn Hfit Hfuel Hl)
        with (r := payload a); [|exact R].
      destruct (tiles_others T1 (a, s, EL_AVAILABLE) T2 _ _ b
                  (pwf_tiles w _ _ Lu (proj1 W)) Hb') as (? & D).
      unfold in_payload in Hx. unfold outside. consts. lia.
    + assert (Hb2 : In b (T1 ++ (a, n, EL_USED) :: (a + n + 40, s - n - 40, EL_AVAILABLE) :: T2)).
      { apply in_app_or in Hb'. apply in_or_app. simpl. tauto. }
      destruct (blk_facts w _ _ Lu (proj1 W) b Hb) as ((B1 & B2 & B3) & _).
      destruct (blk_facts w2 _ _ _ (proj1 W2) b Hb2) as ((C1 & C2 & C3) & _).
      unfold header_at. rewrite B1, B2, B3, C1, C2, C3. split; reflexivity.
Qed.

(** X15 (witness): a fifth allocation in the concrete heap with four
    blocks in use. *)
Lemma X15_witness :
  exists p w',
    el_malloc 2 8 demo_four = Some (p, w') /\
    forall b,
      In b [(demo_start, 8, EL_USED); (demo_start + 48, 8, EL_USED);
            (demo_start + 96, 8, EL_USED); (demo_start + 144, 8, EL_USED);
            (demo_start + 192, 3864, EL_AVAILABLE)] ->
      bstate b = EL_USED ->
      (forall x, in_payload b x -> mem w' x = mem demo_four x) /\
      header_at w' (baddr b) = header_at demo_four (baddr b) /\
      load8 (mem w') (bfoot b) = load8 (mem demo_four) (bfoot b).
Proof.
  apply (X15_malloc_keeps_used_blocks demo_four _ [demo_start + 192]
           [demo_start + 144; demo_start + 96; demo_start + 48; demo_start] 8 2).
  - exact demo_four_wf.
  - lia.
  - reflexivity.
  - simpl. lia.
Defined.


(** ** Cleaning up and starting again *)

(** [el_init] from any state of the process in which the sentinel headers
    are the only accessible memory. *)
Lemma el_init_from (g : globals) (start size : Z) (w0 : world) :
  layout_ok g start size -> EL_BLOCK_OVERHEAD <= size ->
  mapped w0 = map (fun s => (s, sizeof_el_blockhead_t)) (global_sentinels g) ->
  exists w,
    el_init g start size w0 = Some (0, w) /\
    wf w [(start, size - EL_BLOCK_OVERHEAD, EL_AVAILABLE)] [start] [] /\
    heap_bytes (el_ctl w) = size /\ heap_start (el_ctl w) = start /\
    sentinels (el_ctl w) = global_sentinels g.
Proof.
  intros [L1 L2 L3 L4 L5] Hsz Hmap.
  destruct w0 as [mem0 map0 ctl0]. cbn [mapped] in Hmap. subst map0.
  unfold global_sentinels. cbn [map].
  set (ab := avail_beg_actual g) in *. set (ae := avail_end_actual g) in *.
  set (ub := used_beg_actual g) in *. set (ue := used_end_actual g) in *.
  inversion L3 as [|? ? [Rab1 Rab2] L3a]; subst.
  inversion L3a as [|? ? [Rae1 Rae2] L3b]; subst.
  inversion L3b as [|? ? [Rub1 Rub2] L3c]; subst.
  inversion L3c as [|? ? [Rue1 Rue2] _]; subst.
  inversion L4 as [|? ? Hab L4a]; subst.
  inversion L4a as [|? ? Hae L4b]; subst.
  inversion L4b as [|? ? Hub L4c]; subst.
  inversion L4c as [|? ? Hue _]; subst.
  destruct (pairs4 _ _ _ _ L5) as (S1 & S2 & S3 & S4 & S5 & S6).
  change EL_BLOCK_OVERHEAD with 40 in *.
  set (R := [(start, size); (ab, sizeof_el_blockhead_t); (ae, sizeof_el_blockhead_t);
             (ub, sizeof_el_blockhead_t); (ue, sizeof_el_blockhead_t)]).
  set (m0 := fun x : Z => if (start <=? x) && (x <? start + size) then 0 else mem0 x).
  set (m1 := init_blocklist_mem m0 ab ae).
  set (m2 := init_blocklist_mem m1 ub ue).
  set (m3 := store8 m2 start (size - 40)).
  set (m4 := store1 m3 (start + 8) EL_AVAILABLE).
  set (m5 := store8 m4 (start + 32 + (size - 40)) (size - 40)).
  set (c2 := mk_ctl size start (start + size) (mk_blocklist ab ae 0 0) (mk_blocklist ub ue 0 0)).
  set (wpre := mk_world m5 R c2).
  assert (Hheap : forall x, start <= x < start + size ->
                            (x < ab \/ ab + 32 <= x) /\ (x < ae \/ ae + 32 <= x) /\
                            (x < ub \/ ub + 32 <= x) /\ (x < ue \/ ue + 32 <= x)).
  { intros x Hx. lia. }
  assert (Hm5 : forall x, x < start \/ start + size <= x -> m5 x = m2 x).
  { intros x Hx. unfold m5, m4, m3.
    rewrite store8_byte_other by lia. rewrite store1_byte_other by lia.
    rewrite store8_byte_other by lia. reflexivity. }
  assert (Hgeom : geom wpre).
  { constructor; cbn [wpre c2 el_ctl mapped heap_start heap_end heap_bytes sentinels avail used l_beg l_end];
      try assumption; try lia; try reflexivity.  }
  assert (Hpre : pwf wpre [(start, size - 40, EL_AVAILABLE)] [] []).
  { constructor; try exact Hgeom; cbn [wpre c2 el_ctl mem heap_start heap_end avail used app].
    - simpl. consts. lia.
    - constructor; [|constructor]. unfold blk_ok. consts. rewrite Z.add_0_r. repeat split.
      + unfold m5, m4, m3. frame. rewrite load8_store8_same. apply wrap_small. lia.
      + unfold m5, m4. frame. rewrite load1_store1_same. reflexivity.
      + unfold m5. rewrite load8_store8_same. apply wrap_small. lia.
    - unfold list_ok. cbn [l_beg l_end l_length l_bytes app List.length lsum].
      split; [|split; reflexivity].
      apply (links_outside m1).
      + apply init_blocklist_mem_links; [exact S1 | lia | lia].
      + intros y i Hy Hi. rewrite Hm5.
        * unfold m2. apply init_blocklist_mem_outside; unfold sep32 in *;
            simpl in Hy; destruct Hy as [<- | [<- | []]]; lia.
        * simpl in Hy; destruct Hy as [<- | [<- | []]]; lia.
    - unfold list_ok. cbn [l_beg l_end l_length l_bytes app List.length lsum].
      split; [|split; reflexivity].
      apply (links_outside m2).
      + apply init_blocklist_mem_links; [exact S6 | lia | lia].
      + intros y i Hy Hi. apply Hm5.
        simpl in Hy; destruct Hy as [<- | [<- | []]]; lia.
    - constructor.
    - intros x []. }
  destruct (el_add_block_front_spec wpre _ [] [] AVAIL start Hpre) as (w & Radd & Fadd & Padd).
  { simpl. auto. }
  { simpl. tauto. }
  cbn [lset_avail lset_used lsel] in Padd.
  exists w. split; [|split; [split|]].
  - unfold el_init.
    erewrite bind_Some by (unfold mmap; reflexivity). wsimpl.
    mctl. mctl. mctl. cbn [heap_bytes heap_start heap_end avail used empty_blocklist].
    replace (size <? EL_BLOCK_OVERHEAD) with false
      by (symmetry; apply Z.ltb_ge; consts; lia).
    fold ab ae ub ue. fold m0.
    erewrite bind_Some by (apply el_init_blocklist_run; cbn [mapped]; simpl; tauto).
    wsimpl. cbn [set_list heap_bytes heap_start heap_end avail used].
    erewrite bind_Some by (apply el_init_blocklist_run; cbn [mapped]; simpl; tauto).
    wsimpl. cbn [set_list heap_bytes heap_start heap_end avail used].
    fold m1 m2. mctl. cbn [heap_bytes heap_start heap_end avail used].
    unfold PTR_PLUS_BYTES.
    replace (wrap (start + size)) with (start + size) by (symmetry; apply wrap_small; lia).
    replace (wrap (size - EL_BLOCK_OVERHEAD)) with (size - 40)
      by (symmetry; consts; apply wrap_small; lia).
    accessors.
    mrun ltac:(eapply (valid_in _ start size); [cbn [mapped]; simpl; tauto | consts; lia ..]).
    mrun ltac:(eapply (valid_in _ start size); [cbn [mapped]; simpl; tauto | consts; lia ..]).
    consts. rewrite Z.add_0_r. fold m3 m4.
    erewrite bind_Some
      by (apply (el_get_footer_raw _ start (size - 40));
          [ eapply (valid_in _ start size); [cbn [mapped]; simpl; tauto | consts; lia ..]
          | cbn [mem]; consts; rewrite Z.add_0_r; unfold m4, m3; frame;
            rewrite load8_store8_same; apply wrap_small; lia
          | lia ..]).
    wsimpl.
    mrun ltac:(eapply (valid_in _ start size); [cbn [mapped]; simpl; tauto | consts; lia ..]).
    fold m5.
    erewrite bind_Some by (exact Radd). reflexivity.
  - exact Padd.
  - constructor; [|constructor]. left. split; [reflexivity | left; reflexivity].
  - destruct Fadd as (_ & E1 & E2 & _ & E5). rewrite E1, E2, E5.
    split; [reflexivity|]. split; reflexivity.
Qed.
Lemma cut_region_away (addr len : Z) (r : Z * Z) :
  fst r + snd r <= addr \/ addr + len <= fst r -> cut_region addr len r = [r].
Proof.
  intros H. unfold cut_region.
  replace ((fst r + snd r <=? addr) || (addr + len <=? fst r)) with true; [reflexivity|].
  symmetry. apply orb_true_iff. destruct H; [left | right]; apply Z.leb_le; assumption.
Qed.

Lemma cut_region_whole (addr len : Z) : 0 < len -> cut_region addr len (addr, len) = [].
Proof.
  intros H. unfold cut_region. cbn [fst snd].
  replace (addr + len <=? addr) with false by (symmetry; apply Z.leb_gt; lia).
  rewrite !Z.ltb_irrefl. reflexivity.
Qed.

Lemma flat_map_cut_away (addr len : Z) (S : list Z) :
  Forall (fun s => s + 32 <= addr \/ addr + len <= s) S ->
  flat_map (cut_region addr len) (map (fun s => (s, sizeof_el_blockhead_t)) S)
  = map (fun s => (s, sizeof_el_blockhead_t)) S.
Proof.
  induction 1 as [|s S Hs _ IH]; simpl; [reflexivity|].
  rewrite cut_region_away by (simpl; consts; lia). rewrite IH. reflexivity.
Qed.

(** [el_cleanup] in a state with a proper heap. *)
Lemma el_cleanup_run (w : world) :
  geom w -> 0 < heap_bytes (el_ctl w) ->
  el_cleanup w =
  Some (tt, mk_world (mem w)
              (map (fun s => (s, sizeof_el_blockhead_t)) (sentinels (el_ctl w)))
              (mk_ctl (heap_bytes (el_ctl w)) NULL NULL
                      (avail (el_ctl w)) (used (el_ctl w)))).
Proof.
  intros Hg Hb. unfold el_cleanup. mctl.
  erewrite bind_Some by (unfold munmap; reflexivity). wsimpl.
  mctl. mctl. mctl. cbn [heap_bytes heap_start heap_end avail used].
  unfold put_ctl. cbn [mem mapped].
  rewrite (geom_mapped w Hg). cbn [flat_map].
  rewrite cut_region_whole by exact Hb. cbn [app].
  rewrite flat_map_cut_away; [reflexivity|].
  pose proof (geom_sent_heap w Hg) as H. rewrite (geom_end w Hg) in H. exact H.
Qed.

Lemma reachable_sentinels (g : globals) (start size : Z) (w : world) (live : list Z) :
  layout_ok g start size -> reachable g start size w live ->
  sentinels (el_ctl w) = global_sentinels g.
Proof.
  intros Hlay Hr. induction Hr as [w Hinit | w live fuel n p w' Hr IH Hn Hov Hm
                                  | w live p w' Hr IH Hp Hf].
  - destruct (Z_lt_le_dec size EL_BLOCK_OVERHEAD) as [Hs | Hs].
    + destruct (el_init_too_small g start size Hs) as (w0 & E).
      rewrite E in Hinit. discriminate.
    + destruct (el_init_from g start size (start_world g) Hlay Hs eq_refl)
        as (w0 & E & _ & _ & _ & Hsent).
      rewrite E in Hinit. injection Hinit as <-. exact Hsent.
  - destruct (reachable_inv g start size w live Hlay Hr) as (T & La & Lu & W & _).
    pose proof (el_malloc_mono fuel (S (List.length La)) n w _ Hm) as Hm'.
    destruct (malloc_step w T La Lu n (fuel + S (List.length La)) W Hn Hov ltac:(lia))
      as [[R _] | (T1 & a & s & T2 & L1 & L2 & w2 & _ & _ & _ & _ & R & F & _)].
    + rewrite R in Hm'. injection Hm' as _ <-. exact IH.
    + rewrite R in Hm'. injection Hm' as _ <-.
      destruct F as (_ & _ & _ & _ & Fs). rewrite Fs. exact IH.
  - destruct (reachable_inv g start size w live Hlay Hr) as (T & La & Lu & W & _ & Hperm & _).
    pose proof (Permutation_in _ Hperm Hp) as Hin.
    apply in_map_iff in Hin. destruct Hin as (a & <- & Ha).
    destruct (free_step w T La Lu a W Ha) as (w2 & T' & La' & R & F & _).
    rewrite R in Hf. injection Hf as <-.
    destruct F as (_ & _ & _ & _ & Fs). rewrite Fs. exact IH.
Qed.

Lemma valid_access_sentinels_only (w : world) (S : list Z) (lo hi a n : Z) :
  mapped w = map (fun s => (s, sizeof_el_blockhead_t)) S ->
  Forall (fun s => s + 32 <= lo \/ hi <= s) S ->
  0 < n -> a < hi -> lo < a + n ->
  valid_access w a n = false.
Proof.
  intros Hm Hs Hn H1 H2. unfold valid_access. rewrite Hm.
  apply not_true_iff_false. intros Hex. apply existsb_exists in Hex.
  destruct Hex as ([b l] & Hin & Hreg).
  apply in_map_iff in Hin. destruct Hin as (s & E & Hin). injection E as <- <-.
  rewrite Forall_forall in Hs. specialize (Hs s Hin).
  unfold in_region in Hreg. cbn [fst snd] in Hreg.
  apply andb_true_iff in Hreg. destruct Hreg as [R1 R2].
  apply Z.leb_le in R1. apply Z.leb_le in R2. consts. lia.
Qed.

(** X16.  [el_cleanup] in a reachable state unmaps the heap and sets
    [heap_start] and [heap_end] to [NULL], and nothing else: [heap_bytes],
    both list structures and all memory contents stay as they were.  No
    access that touches a byte of the former heap is valid any more, so an
    [el_free] of a pointer that was live faults instead of changing
    anything. *)
Theorem X16_cleanup_unmaps_the_heap (g : globals) (start size : Z) (w : world)
        (live : list Z) :
  layout_ok g start size -> reachable g start size w live ->
  exists w',
    el_cleanup w = Some (tt, w') /\
    heap_start (el_ctl w') = NULL /\ heap_end (el_ctl w') = NULL /\
    heap_bytes (el_ctl w') = size /\
    avail (el_ctl w') = avail (el_ctl w) /\ used (el_ctl w') = used (el_ctl w) /\
    (forall x, mem w' x = mem w x) /\
    (forall a n, 0 < n -> a < start + size -> start < a + n ->
                 valid_access w' a n = false) /\
    (forall p, In p live -> el_free p w' = None).
Proof.
  intros Hlay Hr.
  pose proof (reachable_size g start size w live Hr) as Hsz.
  destruct (reachable_inv g start size w live Hlay Hr)
    as (T & La & Lu & W & _ & Hperm & Hb & Hst).
  pose proof (pwf_geom w T La Lu (proj1 W)) as Hg.
  pose proof (geom_end w Hg) as He.
  change EL_BLOCK_OVERHEAD with 40 in *.
  eexists. split; [apply (el_cleanup_run w Hg); lia|].
  cbn [el_ctl mem heap_start heap_end heap_bytes avail used].
  assert (Hva : forall a n, 0 < n -> a < start + size -> start < a + n ->
                            valid_access
                              (mk_world (mem w)
                                 (map (fun s => (s, sizeof_el_blockhead_t)) (sentinels (el_ctl w)))
                                 (mk_ctl (heap_bytes (el_ctl w)) NULL NULL
                                         (avail (el_ctl w)) (used (el_ctl w)))) a n = false).
  { intros a n Hn H1 H2.
    apply (valid_access_sentinels_only _ (sentinels (el_ctl w)) start (start + size));
      try assumption; [reflexivity|].
    pose proof (geom_sent_heap w Hg) as H. rewrite He, Hst, Hb in H. exact H. }
  repeat split; try reflexivity; try assumption.
  intros p Hp. apply (Permutation_in _ Hperm) in Hp.
  apply in_map_iff in Hp. destruct Hp as (a & <- & Ha).
  destruct (used_block_facts w T La Lu a W Ha) as (s & Hin & _ & _ & Hs & Hlo & Hhi).
  destruct (blk_facts w T La Lu (proj1 W) _ Hin) as (_ & Hpos & _ & Hw & _).
  unfold bend, baddr, bsize in *. simpl fst in *. simpl snd in *.
  change EL_BLOCK_OVERHEAD with 40 in *.
  unfold el_free, payload.
  assert (Eb : PTR_PLUS_BYTES (a + sizeof_el_blockhead_t) (wrap (- sizeof_el_blockhead_t)) = a).
  { unfold PTR_PLUS_BYTES. rewrite wrap_add_r.
    transitivity (wrap a); [f_equal; consts; lia | apply wrap_small; consts; lia]. }
  rewrite Eb. unfold get_state, bind, rd1.
  rewrite Hva; [reflexivity | lia | consts; lia | consts; lia].
Qed.

(** X16 (witness): cleaning up the concrete heap with four live
    pointers. *)
Lemma X16_witness :
  exists w',
    el_cleanup demo_four = Some (tt, w') /\
    heap_start (el_ctl w') = NULL /\ heap_end (el_ctl w') = NULL /\
    heap_bytes (el_ctl w') = demo_size /\
    avail (el_ctl w') = avail (el_ctl demo_four) /\
    used (el_ctl w') = used (el_ctl demo_four) /\
    (forall x, mem w' x = mem demo_four x) /\
    (forall a n, 0 < n -> a < demo_start + demo_size -> demo_start < a + n ->
                 valid_access w' a n = false) /\
    (forall p, In p [demo_start + 176; demo_start + 128; demo_start + 80; demo_start + 32] ->
               el_free p w' = None).
Proof.
  apply (X16_cleanup_unmaps_the_heap demo_globals demo_start demo_size demo_four
           [demo_start + 176; demo_start + 128; demo_start + 80; demo_start + 32]).
  - exact demo_layout_ok.
  - exact demo_four_reachable.
Defined.

(** X17.  [el_init] after [el_cleanup] starts afresh from any reachable
    state: whatever was allocated before, the heap is again one available
    block of size S - overhead with an empty used list and the counters of
    a fresh heap. *)
Theorem X17_init_after_cleanup_starts_afresh (g : globals) (start size : Z) (w : world)
        (live : list Z) :
  layout_ok g start size -> reachable g start size w live ->
  exists w1 w2,
    el_cleanup w = Some (tt, w1) /\
    el_init g start size w1 = Some (0, w2) /\
    wf w2 [(start, size - EL_BLOCK_OVERHEAD, EL_AVAILABLE)] [start] [] /\
    counters w2 = (1, size, 0, 0).
Proof.
  intros Hlay Hr.
  pose proof (reachable_size g start size w live Hr) as Hsz.
  destruct (reachable_inv g start size w live Hlay Hr)
    as (T & La & Lu & W & _ & _ & Hb & Hst).
  pose proof (pwf_geom w T La Lu (proj1 W)) as Hg.
  pose proof (reachable_sentinels g start size w live Hlay Hr) as Hsent.
  change EL_BLOCK_OVERHEAD with 40 in *.
  pose proof (el_cleanup_run w Hg ltac:(lia)) as Rc.
  set (w1 := mk_world (mem w)
               (map (fun s => (s, sizeof_el_blockhead_t)) (sentinels (el_ctl w)))
               (mk_ctl (heap_bytes (el_ctl w)) NULL NULL (avail (el_ctl w)) (used (el_ctl w))))
    in *.
  destruct (el_init_from g start size w1 Hlay Hsz) as (w2 & Ri & W2 & _).
  { unfold w1. cbn [mapped]. rewrite Hsent. reflexivity. }
  exists w1, w2. split; [exact Rc|]. split; [exact Ri|]. split; [exact W2|].
  destruct (wf_counters w2 _ _ _ W2) as (E1 & E2 & E3 & E4 & _).
  unfold counters. rewrite E1, E2, E3, E4. simpl. unfold bsize. simpl.
  change EL_BLOCK_OVERHEAD with 40.
  repeat match goal with |- (_, _) = (_, _) => apply f_equal2 end; lia.
Qed.

(** X17 (witness): cleaning up and initialising again the concrete heap
    with four live pointers. *)
Lemma X17_witness :
  exists w1 w2,
    el_cleanup demo_four = Some (tt, w1) /\
    el_init demo_globals demo_start demo_size w1 = Some (0, w2) /\
    wf w2 [(demo_start, demo_size - EL_BLOCK_OVERHEAD, EL_AVAILABLE)] [demo_start] [] /\
    counters w2 = (1, demo_size, 0, 0).
Proof.
  apply (X17_init_after_cleanup_starts_afresh demo_globals demo_start demo_size demo_four
           [demo_start + 176; demo_start + 128; demo_start + 80; demo_start + 32]).
  - exact demo_layout_ok.
  - exact demo_four_reachable.
Defined.

(** ** What a free does to the counters *)

Lemma last_used_count (T1 : list blk) :
  last_used T1 -> avail_count (hd_error (rev T1)) = 0.
Proof.
  intros [-> | (T' & b & -> & Hu)]; [reflexivity|].
  rewrite rev_app_distr. simpl. unfold is_avail. rewrite Hu. reflexivity.
Qed.

Lemma head_used_count (T2 : list blk) :
  head_used T2 -> avail_count (hd_error T2) = 0.
Proof.
  destruct T2 as [|b T2]; [reflexivity|]. simpl. intros Hu.
  unfold is_avail. rewrite Hu. reflexivity.
Qed.

Ltac count_blocks W W' :=
  let E1 := fresh "E" in let E2 := fresh "E" in let E3 := fresh "E" in
  let E4 := fresh "E" in let F1 := fresh "F" in let F2 := fresh "F" in
  let F3 := fresh "F" in let F4 := fresh "F" in
  destruct (wf_counters _ _ _ _ W) as (E1 & E2 & E3 & E4 & _);
  destruct (wf_counters _ _ _ _ W') as (F1 & F2 & F3 & F4 & _);
  rewrite ?filter_app in E1, E2, E3, E4, F1, F2, F3, F4;
  simpl filter in E1, E2, E3, E4, F1, F2, F3, F4;
  rewrite ?filter_app in E1, E2, E3, E4, F1, F2, F3, F4;
  simpl filter in E1, E2, E3, E4, F1, F2, F3, F4;
  rewrite ?tsum_app in E1, E2, F1, F2;
  rewrite ?length_app in E3, E4, F3, F4;
  simpl tsum in E1, E2, F1, F2;
  rewrite ?tsum_app in E1, E2, F1, F2;
  simpl tsum in E1, E2, F1, F2;
  simpl List.length in E3, E4, F3, F4;
  rewrite ?length_app in E3, E4, F3, F4;
  simpl List.length in E3, E4, F3, F4;
  unfold bsize in *; simpl fst in *; simpl snd in *;
  change EL_BLOCK_OVERHEAD with 40 in *; unfold blk in *.

(** X18.  In a well-formed heap, [el_free] of a used block of size s
    moves exactly s + overhead bytes from the used counter to the
    available counter, whatever merges take place; the used list loses one
    member, and the available list gains one member less the number of
    available physical neighbours of the block (0, 1 or 2). *)
Theorem X18_free_moves_the_bytes_of_the_block (w : world) (T1 : list blk) (a s : Z)
        (T2 : list blk) (La Lu : list Z) :
  wf w (T1 ++ (a, s, EL_USED) :: T2) La Lu ->
  exists w',
    el_free (payload a) w = Some (tt, w') /\
    l_bytes (used (el_ctl w')) = l_bytes (used (el_ctl w)) - (s + EL_BLOCK_OVERHEAD) /\
    l_bytes (avail (el_ctl w')) = l_bytes (avail (el_ctl w)) + (s + EL_BLOCK_OVERHEAD) /\
    l_length (used (el_ctl w')) = l_length (used (el_ctl w)) - 1 /\
    l_length (avail (el_ctl w'))
    = l_length (avail (el_ctl w)) + 1
      - avail_count (hd_error (rev T1)) - avail_count (hd_error T2).
Proof.
  intros W.
  pose proof (wf_states w _ La Lu W) as Hst.
  rewrite Forall_app in Hst. destruct Hst as [Hst1 Hst2].
  inversion Hst2 as [|? ? _ Hst2']; subst. clear Hst2.
  assert (C1 : last_used T1 \/ exists T1' l s0, T1 = T1' ++ [(l, s0, EL_AVAILABLE)]).
  { destruct (list_last_case _ T1) as [-> | (T1' & [[l s0] u] & ->)]; [left; left; reflexivity|].
    rewrite Forall_app in Hst1. destruct Hst1 as [_ Hb]. inversion Hb as [|? ? Hu _]; subst.
    simpl in Hu. destruct Hu as [-> | ->].
    - right. exists T1', l, s0. reflexivity.
    - left. right. exists T1', (l, s0, EL_USED). split; reflexivity. }
  assert (C2 : head_used T2 \/ exists h s2 T2', T2 = (h, s2, EL_AVAILABLE) :: T2').
  { destruct T2 as [|[[h s2] u] T2']; [left; exact I|].
    inversion Hst2' as [|? ? Hu _]; subst. simpl in Hu. destruct Hu as [-> | ->].
    - right. exists h, s2, T2'. reflexivity.
    - left. reflexivity. }
  unfold payload. change sizeof_el_blockhead_t with 32.
  destruct C1 as [Hl | (T1' & l & s0 & ->)]; destruct C2 as [Hh | (h & s2 & T2' & ->)].
  - destruct (el_free_spec_none w T1 a s T2 La Lu W Hl Hh) as (w' & R & F & W').
    exists w'. split; [exact R|].
    rewrite (last_used_count T1 Hl), (head_used_count T2 Hh).
    count_blocks W W'. lia.
  - destruct (el_free_spec_above w T1 a s h s2 T2' La Lu W Hl) as (w' & R & F & W').
    exists w'. split; [exact R|].
    rewrite (last_used_count T1 Hl). cbn [hd_error avail_count].
    change (is_avail (h, s2, EL_AVAILABLE)) with true. cbv iota.
    count_blocks W W'. lia.
  - rewrite <- app_assoc in W. simpl in W.
    destruct (el_free_spec_below w T1' l s0 a s T2 La Lu W Hh) as (w' & R & F & W').
    exists w'. split; [exact R|].
    rewrite (head_used_count T2 Hh). rewrite rev_app_distr. cbn [rev app hd_error avail_count].
    change (is_avail (l, s0, EL_AVAILABLE)) with true. cbv iota.
    count_blocks W W'. lia.
  - rewrite <- app_assoc in W. simpl in W.
    destruct (el_free_spec_both w T1' l s0 a s h s2 T2' La Lu W) as (w' & R & F & W').
    exists w'. split; [exact R|].
    rewrite rev_app_distr. cbn [rev app hd_error avail_count].
    change (is_avail (l, s0, EL_AVAILABLE)) with true.
    change (is_avail (h, s2, EL_AVAILABLE)) with true. cbv iota.
    count_blocks W W'. lia.
Qed.

(** X18 (witness): freeing the fourth block of the concrete heap, whose
    upper neighbour is available. *)
Lemma X18_witness :
  exists w',
    el_free (payload (demo_start + 144)) demo_four = Some (tt, w') /\
    l_bytes (used (el_ctl w')) = l_bytes (used (el_ctl demo_four)) - (8 + EL_BLOCK_OVERHEAD) /\
    l_bytes (avail (el_ctl w')) = l_bytes (avail (el_ctl demo_four)) + (8 + EL_BLOCK_OVERHEAD) /\
    l_length (used (el_ctl w')) = l_length (used (el_ctl demo_four)) - 1 /\
    l_length (avail (el_ctl w'))
    = l_length (avail (el_ctl demo_four)) + 1
      - avail_count (hd_error (rev [(demo_start, 8, EL_USED); (demo_start + 48, 8, EL_USED);
                                    (demo_start + 96, 8, EL_USED)]))
      - avail_count (hd_error [(demo_start + 192, 3864, EL_AVAILABLE)]).
Proof.
  apply (X18_free_moves_the_bytes_of_the_block demo_four
           [(demo_start, 8, EL_USED); (demo_start + 48, 8, EL_USED);
            (demo_start + 96, 8, EL_USED)]
           (demo_start + 144) 8 [(demo_start + 192, 3864, EL_AVAILABLE)]
           [demo_start + 192]
           [demo_start + 144; demo_start + 96; demo_start + 48; demo_start]).
  exact demo_four_wf.
Defined.


(** ** Printing the lists *)

Lemma print_loop_spec (w : world) (T : list blk) (La Lu : list Z) (l : list_ptr) :
  pwf w T La Lu ->
  forall (B : list blk) (x i : Z) (fuel : nat),
    incl B T -> node w T x ->
    links (mem w) x (map baddr B) ->
    l_length (get_list l (el_ctl w)) = i + Z.of_nat (List.length B) ->
    0 <= i -> i + Z.of_nat (List.length B) <= INT_MAX ->
    (List.length B < fuel)%nat ->
    print_loop fuel l i x w = Some (block_lines i B, w).
Proof.
  intros Hp.
  pose proof (pwf_geom w T La Lu Hp) as Hg.
  pose proof (pwf_tiles w T La Lu Hp) as Ht.
  induction B as [|b B IH]; intros x i fuel Hinc Nx Hl Hlen Hi Hmax Hf.
  - destruct fuel as [|fuel]; [simpl in Hf; lia|].
    cbn [print_loop]. mctl. rewrite Hlen. cbn [List.length].
    replace (i <? i + Z.of_nat 0) with false by (symmetry; apply Z.ltb_ge; lia).
    reflexivity.
  - destruct fuel as [|fuel]; [simpl in Hf; lia|].
    assert (Hb : In b T) by (apply Hinc; left; reflexivity).
    cbn [map links] in Hl. destruct Hl as (En & _ & Hl).
    cbn [List.length] in Hlen, Hmax, Hf.
    cbn [print_loop]. mctl. rewrite Hlen.
    replace (i <? i + Z.of_nat (S (List.length B))) with true
      by (symmetry; apply Z.ltb_lt; lia).
    unfold get_next at 1.
    mrun ltac:(eapply (valid_node w T Hg Ht); [reflexivity | eassumption | consts; lia ..]).
    rewrite En.
    mcall (get_state_spec w T La Lu Hp b Hb).
    mcall (get_size_spec w T La Lu Hp b Hb).
    mcall (el_get_footer_spec w T La Lu Hp b Hb).
    destruct (blk_facts w T La Lu Hp b Hb) as ((_ & _ & B3) & _).
    unfold get_foot_size.
    mrun ltac:(apply (valid_foot w T Hg Ht w b); [reflexivity | exact Hb]).
    rewrite B3.
    replace (i =? INT_MAX) with false by (symmetry; apply Z.eqb_neq; lia).
    erewrite bind_Some.
    2:{ apply (IH (baddr b) (i + 1) fuel).
        - intros z Hz. apply Hinc. right. exact Hz.
        - right. apply in_map. exact Hb.
        - exact Hl.
        - lia.
        - lia.
        - lia.
        - lia. }
    reflexivity.
Qed.

Lemma tsum_perm (X Y : list blk) : Permutation X Y -> tsum X = tsum Y.
Proof. induction 1; simpl; lia. Qed.

Lemma filter_states_perm (T : list blk) :
  Forall (fun b => bstate b = EL_AVAILABLE \/ bstate b = EL_USED) T ->
  Permutation (filter is_avail T ++ filter is_used T) T.
Proof.
  induction 1 as [|b T Hb _ IH]; [apply perm_nil|].
  cbn [filter]. unfold is_avail at 1, is_used at 1.
  destruct Hb as [-> | ->].
  - change (EL_AVAILABLE =? EL_AVAILABLE) with true.
    change (EL_AVAILABLE =? EL_USED) with false. cbv iota.
    cbn [app]. apply perm_skip. exact IH.
  - change (EL_USED =? EL_AVAILABLE) with false.
    change (EL_USED =? EL_USED) with true. cbv iota.
    apply Permutation_sym, Permutation_cons_app, Permutation_sym. exact IH.
Qed.

Lemma lblocks_perm (w : world) (T : list blk) (La Lu : list Z) (l : list_ptr) :
  wf w T La Lu -> Permutation (lsel l La Lu) (map baddr (lblocks l T)).
Proof.
  intros W. destruct l; [apply (avail_perm w T La Lu W) | apply (used_perm w T La Lu W)].
Qed.

Lemma el_print_blocklist_run (w : world) (T : list blk) (La Lu : list Z)
      (l : list_ptr) (fuel : nat) :
  wf w T La Lu ->
  Z.of_nat (List.length (lsel l La Lu)) <= INT_MAX ->
  (List.length (lsel l La Lu) < fuel)%nat ->
  exists B,
    map baddr B = lsel l La Lu /\ Permutation B (lblocks l T) /\
    el_print_blocklist fuel l w = Some (listing B, w).
Proof.
  intros W Hmax Hf.
  pose proof (proj1 W) as Hp.
  pose proof (pwf_geom w T La Lu Hp) as Hg.
  destruct (Permutation_map_inv _ _ (lblocks_perm w T La Lu l W)) as (B & EB & PB).
  exists B. split; [symmetry; exact EB|]. split; [apply Permutation_sym; exact PB|].
  assert (Hok : list_ok (mem w) (get_list l (el_ctl w)) (lsel l La Lu)).
  { destruct l; [apply (pwf_avail w T La Lu Hp) | apply (pwf_used w T La Lu Hp)]. }
  destruct Hok as (Hl & _ & _).
  apply links_app in Hl. destruct Hl as [Hl _].
  assert (Hlen : l_length (get_list l (el_ctl w)) = Z.of_nat (List.length B)).
  { destruct (wf_counters w T La Lu W) as (_ & _ & E3 & E4 & _).
    rewrite <- (Permutation_length PB).
    destruct l; [exact E3 | exact E4]. }
  assert (Hby : l_bytes (get_list l (el_ctl w)) = tsum B).
  { destruct (wf_counters w T La Lu W) as (E1 & E2 & _).
    rewrite <- (tsum_perm _ _ PB).
    destruct l; [exact E1 | exact E2]. }
  assert (HLB : List.length (lsel l La Lu) = List.length B).
  { rewrite EB. apply length_map. }
  unfold el_print_blocklist. mctl.
  erewrite bind_Some.
  2:{ apply (print_loop_spec w T La Lu l Hp B).
      - intros b Hb. apply (Permutation_in _ (Permutation_sym PB)) in Hb.
        destruct l; cbn [lblocks] in Hb; apply filter_In in Hb; tauto.
      - left. unfold sentinels. destruct l; cbn [get_list In]; auto.
      - rewrite <- EB. exact Hl.
      - rewrite Hlen. lia.
      - lia.
      - rewrite <- HLB. lia.
      - rewrite <- HLB. exact Hf. }
  unfold ret, listing. rewrite Hlen, Hby. reflexivity.
Qed.

(** X19.  [el_print_blocklist] on a well-formed heap, for a list of at
    most [INT_MAX] members: it changes nothing, and what it prints is the
    length and the total bytes (sizes plus overhead) of the members, then
    every member once, in list order and numbered from 0, with its state,
    its size, its footer address and the same size read from the
    footer.  The members printed are exactly the blocks of the heap in
    the state of the list. *)
Theorem X19_print_blocklist_shows_the_members (w : world) (T : list blk) (La Lu : list Z)
        (l : list_ptr) (fuel : nat) :
  wf w T La Lu ->
  Z.of_nat (List.length (lsel l La Lu)) <= INT_MAX ->
  (List.length (lsel l La Lu) < fuel)%nat ->
  exists B,
    map baddr B = lsel l La Lu /\ Permutation B (lblocks l T) /\
    el_print_blocklist fuel l w = Some (listing B, w).
Proof. apply el_print_blocklist_run. Qed.

(** X19 (witness): the used list of the concrete heap with four
    allocations. *)
Lemma X19_witness :
  exists B,
    map baddr B = [demo_start + 144; demo_start + 96; demo_start + 48; demo_start] /\
    Permutation B
      (lblocks USED
         [(demo_start, 8, EL_USED); (demo_start + 48, 8, EL_USED);
          (demo_start + 96, 8, EL_USED); (demo_start + 144, 8, EL_USED);
          (demo_start + 192, 3864, EL_AVAILABLE)]) /\
    el_print_blocklist 5 USED demo_four = Some (listing B, demo_four).
Proof.
  apply (X19_print_blocklist_shows_the_members demo_four
           [(demo_start, 8, EL_USED); (demo_start + 48, 8, EL_USED);
            (demo_start + 96, 8, EL_USED); (demo_start + 144, 8, EL_USED);
            (demo_start + 192, 3864, EL_AVAILABLE)]
           [demo_start + 192]
           [demo_start + 144; demo_start + 96; demo_start + 48; demo_start]
           USED 5 demo_four_wf).
  - cbn [lsel List.length]. unfold INT_MAX. lia.
  - cbn [lsel List.length]. lia.
Defined.

(** X20.  [el_print_stats] on a well-formed heap of at most [INT_MAX]
    blocks changes nothing and shows every block of the heap exactly once:
    after the four lines on the heap, the listing of the available list
    and the listing of the used list together hold each block of the heap
    once, the available blocks in the first and the used blocks in the
    second. *)
Theorem X20_print_stats_shows_every_block_once (w : world) (T : list blk) (La Lu : list Z)
        (fuel : nat) :
  wf w T La Lu ->
  Z.of_nat (List.length T) <= INT_MAX ->
  (List.length T < fuel)%nat ->
  exists Ba Bu,
    Permutation (Ba ++ Bu) T /\
    Forall (fun b => bstate b = EL_AVAILABLE) Ba /\
    Forall (fun b => bstate b = EL_USED) Bu /\
    map baddr Ba = La /\ map baddr Bu = Lu /\
    el_print_stats fuel w =
    Some ([printf "HEAP STATS (overhead per node: %lu)\n" [arg_int 40];
           printf "heap_start:  %p\n" [arg_int (heap_start (el_ctl w))];
           printf "heap_end:    %p\n" [arg_int (heap_end (el_ctl w))];
           printf "total_bytes: %lu\n" [arg_int (heap_bytes (el_ctl w))];
           printf "AVAILABLE LIST: " []]
          ++ listing Ba ++ [printf "USED LIST: " []] ++ listing Bu, w).
Proof.
  intros W Hmax Hf.
  destruct (wf_lengths w T La Lu W) as [HLa HLu].
  destruct (wf_counters w T La Lu W) as (_ & _ & _ & _ & _ & Hcnt & _).
  pose proof (Permutation_length (avail_perm w T La Lu W)) as PLa.
  pose proof (Permutation_length (used_perm w T La Lu W)) as PLu.
  rewrite length_map in PLa, PLu.
  destruct (el_print_blocklist_run w T La Lu AVAIL fuel W) as (Ba & Ea & Pa & Ra);
    [cbn [lsel]; lia | cbn [lsel]; lia |].
  destruct (el_print_blocklist_run w T La Lu USED fuel W) as (Bu & Eu & Pu & Ru);
    [cbn [lsel]; lia | cbn [lsel]; lia |].
  exists Ba, Bu.
  split.
  { eapply Permutation_trans; [apply Permutation_app; eassumption|].
    apply filter_states_perm. apply (wf_states w T La Lu W). }
  split.
  { rewrite Forall_forall. intros b Hb. apply (Permutation_in _ Pa) in Hb.
    cbn [lblocks] in Hb. apply filter_In in Hb. destruct Hb as [_ Hb].
    unfold is_avail in Hb. apply Z.eqb_eq in Hb. exact Hb. }
  split.
  { rewrite Forall_forall. intros b Hb. apply (Permutation_in _ Pu) in Hb.
    cbn [lblocks] in Hb. apply filter_In in Hb. destruct Hb as [_ Hb].
    unfold is_used in Hb. apply Z.eqb_eq in Hb. exact Hb. }
  split; [exact Ea|]. split; [exact Eu|].
  unfold el_print_stats. mctl. mcall Ra. mcall Ru. reflexivity.
Qed.

(** X20 (witness): the concrete heap with four allocations. *)
Lemma X20_witness :
  exists Ba Bu,
    Permutation (Ba ++ Bu)
      [(demo_start, 8, EL_USED); (demo_start + 48, 8, EL_USED);
       (demo_start + 96, 8, EL_USED); (demo_start + 144, 8, EL_USED);
       (demo_start + 192, 3864, EL_AVAILABLE)] /\
    Forall (fun b => bstate b = EL_AVAILABLE) Ba /\
    Forall (fun b => bstate b = EL_USED) Bu /\
    map baddr Ba = [demo_start + 192] /\
    map baddr Bu = [demo_start + 144; demo_start + 96; demo_start + 48; demo_start] /\
    el_print_stats 6 demo_four =
    Some ([printf "HEAP STATS (overhead per node: %lu)\n" [arg_int 40];
           printf "heap_start:  %p\n" [arg_int (heap_start (el_ctl demo_four))];
           printf "heap_end:    %p\n" [arg_int (heap_end (el_ctl demo_four))];
           printf "total_bytes: %lu\n" [arg_int (heap_bytes (el_ctl demo_four))];
           printf "AVAILABLE LIST: " []]
          ++ listing Ba ++ [printf "USED LIST: " []] ++ listing Bu, demo_four).
Proof.
  apply (X20_print_stats_shows_every_block_once demo_four _ _ _ 6 demo_four_wf).
  - cbn [List.length]. unfold INT_MAX. lia.
  - cbn [List.length]. lia.
Defined.


(** ** First fit, and the shape of the reachable heaps *)

(** X21.  In a well-formed heap and for a request n with n + overhead
    below 2^64, [el_find_first_avail] changes nothing and returns the first
    member of the available list, in list order, whose size field is at
    least n + overhead: every member before it is too small.  It returns
    [NULL] exactly when every member is too small. *)
Theorem X21_first_fit_in_range (w : world) (T : list blk) (La Lu : list Z)
        (n : Z) (fuel : nat) :
  wf w T La Lu -> 0 <= n -> n + EL_BLOCK_OVERHEAD < WORD ->
  (List.length La < fuel)%nat ->
  exists r,
    el_find_first_avail fuel n w = Some (r, w) /\
    ((r = NULL /\
      forall y, In y La -> load8 (mem w) (y + off_size) < n + EL_BLOCK_OVERHEAD) \/
     (r <> NULL /\
      exists L1 L2, La = L1 ++ r :: L2 /\
        (forall y, In y L1 -> load8 (mem w) (y + off_size) < n + EL_BLOCK_OVERHEAD) /\
        n + EL_BLOCK_OVERHEAD <= load8 (mem w) (r + off_size))).
Proof.
  intros W Hn Hov Hf.
  destruct (el_find_first_avail_in_range w T La Lu n fuel (proj1 W) Hn Hov Hf)
    as (r & R & [H | (L1 & L2 & EL & H1 & H2)]).
  - exists r. split; [exact R|]. left. exact H.
  - exists r. split; [exact R|]. right. split.
    + assert (Hin : In r (map baddr T)).
      { apply (pwf_incl w T La Lu (proj1 W)). apply in_or_app. left.
        rewrite EL. apply in_or_app. right. left. reflexivity. }
      apply in_map_iff in Hin. destruct Hin as (b & <- & Hb).
      destruct (blk_facts w T La Lu (proj1 W) b Hb) as (_ & Hpos & _).
      unfold NULL. lia.
    + exists L1, L2. split; [exact EL|]. split; [exact H1 | exact H2].
Qed.

(** X21 (witness): a request of 8 bytes on the concrete heap with four
    allocations. *)
Lemma X21_witness :
  exists r,
    el_find_first_avail 2 8 demo_four = Some (r, demo_four) /\
    ((r = NULL /\
      forall y, In y [demo_start + 192] ->
                load8 (mem demo_four) (y + off_size) < 8 + EL_BLOCK_OVERHEAD) \/
     (r <> NULL /\
      exists L1 L2, [demo_start + 192] = L1 ++ r :: L2 /\
        (forall y, In y L1 -> load8 (mem demo_four) (y + off_size) < 8 + EL_BLOCK_OVERHEAD) /\
        8 + EL_BLOCK_OVERHEAD <= load8 (mem demo_four) (r + off_size))).
Proof.
  apply (X21_first_fit_in_range demo_four
           [(demo_start, 8, EL_USED); (demo_start + 48, 8, EL_USED);
            (demo_start + 96, 8, EL_USED); (demo_start + 144, 8, EL_USED);
            (demo_start + 192, 3864, EL_AVAILABLE)]
           [demo_start + 192]
           [demo_start + 144; demo_start + 96; demo_start + 48; demo_start]
           8 2 demo_four_wf).
  - lia.
  - reflexivity.
  - cbn [List.length]. lia.
Defined.

Lemma avail_count_bound (T : list blk) :
  Forall (fun b => bstate b = EL_AVAILABLE \/ bstate b = EL_USED) T ->
  no_adj_avail T ->
  (List.length (filter is_avail T) <= List.length (filter is_used T) + 1)%nat /\
  (head_used T -> (List.length (filter is_avail T) <= List.length (filter is_used T))%nat).
Proof.
  induction 1 as [|b T Hb HT IH]; intros Hna.
  - simpl. split; intros; lia.
  - cbn [no_adj_avail] in Hna. destruct Hna as [Hadj Hna].
    destruct (IH Hna) as [IH1 IH2].
    cbn [filter head_used].
    destruct Hb as [E | E].
    + assert (Ea : is_avail b = true) by (unfold is_avail; rewrite E; reflexivity).
      assert (Eu : is_used b = false) by (unfold is_used; rewrite E; reflexivity).
      rewrite Ea, Eu. cbn [List.length].
      assert (Hh : head_used T).
      { destruct T as [|h T']; [exact I|]. cbn [head_used].
        inversion HT as [|? ? Hs _]; subst. destruct Hs as [Hs | Hs]; [|exact Hs].
        exfalso. apply Hadj. split; assumption. }
      specialize (IH2 Hh). split; [lia|]. intros Hu. rewrite E in Hu. discriminate.
    + assert (Ea : is_avail b = false) by (unfold is_avail; rewrite E; reflexivity).
      assert (Eu : is_used b = true) by (unfold is_used; rewrite E; reflexivity).
      rewrite Ea, Eu. cbn [List.length].
      split; intros; lia.
Qed.

(** X22.  In every state reached from [el_init] by allocations that do
    not wrap and frees of live pointers, no available block has an
    available physical neighbour: for every member of the available list,
    [el_block_above] and [el_block_below] each return [NULL] or the header
    of a block in the Used state.  So the available list is never more than
    one member longer than the used list. *)
Theorem X22_available_blocks_have_used_neighbours (g : globals) (start size : Z)
        (w : world) (live : list Z) :
  layout_ok g start size -> reachable g start size w live ->
  exists T La Lu,
    wf w T La Lu /\
    (forall a, In a La ->
       exists up down,
         el_block_above a w = Some (up, w) /\
         el_block_below a w = Some (down, w) /\
         (up = NULL \/ load1 (mem w) (up + off_state) = EL_USED) /\
         (down = NULL \/ load1 (mem w) (down + off_state) = EL_USED)) /\
    l_length (avail (el_ctl w)) <= l_length (used (el_ctl w)) + 1.
Proof.
  intros Hlay Hr.
  destruct (reachable_inv g start size w live Hlay Hr) as (T & La & Lu & W & Hna & _).
  exists T, La, Lu. split; [exact W|].
  pose proof (wf_states w T La Lu W) as Hst.
  assert (Hused : forall b, In b T -> bstate b <> EL_AVAILABLE ->
                            load1 (mem w) (baddr b + off_state) = EL_USED).
  { intros b Hb Hn. rewrite Forall_forall in Hst.
    destruct (blk_facts w T La Lu (proj1 W) b Hb) as ((_ & B2 & _) & _).
    rewrite B2. destruct (Hst b Hb) as [E | E]; [contradiction | exact E]. }
  split.
  - intros a Ha.
    destruct (wf_block_of_avail w T La Lu a W Ha) as (T1 & s & T2 & ET & _).
    pose proof Hna as Hna'. rewrite ET in Hna'.
    exists (match T2 with [] => NULL | b2 :: _ => baddr b2 end).
    exists (match rev T1 with [] => NULL | b0 :: _ => baddr b0 end).
    split; [apply (el_block_above_spec w T La Lu (proj1 W) T1 (a, s, EL_AVAILABLE) T2 ET)|].
    split.
    { destruct (list_last_case _ T1) as [-> | (T1' & b0 & ->)].
      - apply (el_block_below_first w T La Lu (proj1 W) (a, s, EL_AVAILABLE) T2 ET).
      - rewrite rev_app_distr. cbn [rev app].
        apply (el_block_below_spec w T La Lu (proj1 W) T1' b0 (a, s, EL_AVAILABLE) T2).
        rewrite ET, <- app_assoc. reflexivity. }
    split.
    { destruct T2 as [|b2 T2]; [left; reflexivity|]. right.
      apply Hused; [rewrite ET; apply in_or_app; right; right; left; reflexivity|].
      intros E. apply no_adj_avail_app in Hna'. destruct Hna' as (_ & Hna' & _).
      cbn [no_adj_avail] in Hna'. destruct Hna' as [Hadj _]. apply Hadj.
      split; [reflexivity | exact E]. }
    { destruct (list_last_case _ T1) as [-> | (T1' & b0 & ->)]; [left; reflexivity|].
      rewrite rev_app_distr. cbn [rev app]. right.
      apply Hused; [rewrite ET; apply in_or_app; left; apply in_or_app; right; left; reflexivity|].
      intros E. apply no_adj_avail_app in Hna'. destruct Hna' as (_ & _ & Hcross).
      apply Hcross. split.
      - unfold lst_avail. rewrite rev_app_distr. cbn [rev app fst_avail]. exact E.
      - reflexivity. }
  - destruct (wf_counters w T La Lu W) as (_ & _ & E3 & E4 & _).
    destruct (avail_count_bound T Hst Hna) as [Hle _].
    rewrite E3, E4. lia.
Qed.

(** X22 (witness): the concrete heap with four allocations. *)
Lemma X22_witness :
  exists T La Lu,
    wf demo_four T La Lu /\
    (forall a, In a La ->
       exists up down,
         el_block_above a demo_four = Some (up, demo_four) /\
         el_block_below a demo_four = Some (down, demo_four) /\
         (up = NULL \/ load1 (mem demo_four) (up + off_state) = EL_USED) /\
         (down = NULL \/ load1 (mem demo_four) (down + off_state) = EL_USED)) /\
    l_length (avail (el_ctl demo_four)) <= l_length (used (el_ctl demo_four)) + 1.
Proof.
  apply (X22_available_blocks_have_used_neighbours demo_globals demo_start demo_size
           demo_four
           [demo_start + 176; demo_start + 128; demo_start + 80; demo_start + 32]).
  - exact demo_layout_ok.
  - exact demo_four_reachable.
Defined.
